(** * wpdocs: symbol registry and cross-reference resolver

A shallow embedding of [internal/model/model.go],
[internal/resolver/resolver.go], the hook upsert of
[internal/parser/php_hooks.go] and the worker pool of
[internal/parser/parser.go].

Go pointers to [Symbol] are addresses into an explicit heap, so that the
in-place mutation done by the resolver and the aliasing between the
registry's three indices are visible in the model. *)

From Stdlib Require Import String Ascii List Arith Lia Permutation.
From stdpp Require Import base option list gmap strings fin_maps.

(** stdpp's solvers clear hypotheses by name. *)
Set Warnings "-clear-no-such-hyp".

Local Open Scope string_scope.
Local Open Scope list_scope.

(** ** Byte strings: the functions of Go's [strings] package that are used *)

Module strings.

Definition byte_in (c : ascii) (chars : string) : bool :=
  existsb (Ascii.eqb c) (list_ascii_of_string chars).

(** [strings.ReplaceAll(s, old, new)] for a one-byte [old] and [new]. *)
Fixpoint ReplaceAll (s : string) (old new : ascii) : string :=
  match s with
  | EmptyString => EmptyString
  | String c s' =>
      String (if Ascii.eqb c old then new else c) (ReplaceAll s' old new)
  end.

Fixpoint LastIndexAny_from (s chars : string) (i : nat) (acc : option nat)
  : option nat :=
  match s with
  | EmptyString => acc
  | String c s' =>
      LastIndexAny_from s' chars (S i) (if byte_in c chars then Some i else acc)
  end.

(** [strings.LastIndexAny(s, chars)] for ASCII [chars]; [None] is Go's -1.
    A byte of a multi-byte UTF-8 sequence never equals an ASCII byte, so
    the search by rune and the search by byte agree. *)
Definition LastIndexAny (s chars : string) : option nat :=
  LastIndexAny_from s chars 0 None.

(** The slice expression [s[n:]]. *)
Fixpoint slice_from (n : nat) (s : string) : string :=
  match n, s with
  | 0, _ => s
  | S n', String _ s' => slice_from n' s'
  | S _, EmptyString => EmptyString
  end.

(** [strings.TrimPrefix] and [strings.TrimSuffix]. *)
Fixpoint strip_prefix (p s : list ascii) : option (list ascii) :=
  match p, s with
  | [], _ => Some s
  | a :: p', b :: s' => if Ascii.eqb a b then strip_prefix p' s' else None
  | _ :: _, [] => None
  end.

Definition TrimPrefix (s prefix : string) : string :=
  match strip_prefix (list_ascii_of_string prefix) (list_ascii_of_string s) with
  | Some rest => string_of_list_ascii rest
  | None => s
  end.

Definition TrimSuffix (s suffix : string) : string :=
  match strip_prefix (rev (list_ascii_of_string suffix))
                     (rev (list_ascii_of_string s)) with
  | Some rest => string_of_list_ascii (rev rest)
  | None => s
  end.

(** White space as [unicode.IsSpace] sees it, in UTF-8: the six ASCII
    characters, U+0085, U+00A0, U+1680, U+2000..U+200A, U+2028, U+2029,
    U+202F, U+205F and U+3000. *)
Definition ascii_space (c : ascii) : bool :=
  let n := N_of_ascii c in
  ((9 <=? n) && (n <=? 13) || (n =? 32))%N.

Definition space2 (c0 c1 : ascii) : bool :=
  let '(a, b) := (N_of_ascii c0, N_of_ascii c1) in
  ((a =? 194) && ((b =? 133) || (b =? 160)))%N.

Definition space3 (c0 c1 c2 : ascii) : bool :=
  let '(a, b, c) := (N_of_ascii c0, N_of_ascii c1, N_of_ascii c2) in
  ((a =? 225) && (b =? 154) && (c =? 128)
   || (a =? 226) && (b =? 128)
      && ((128 <=? c) && (c <=? 138) || (c =? 168) || (c =? 169) || (c =? 175))
   || (a =? 226) && (b =? 129) && (c =? 159)
   || (a =? 227) && (b =? 128) && (c =? 128))%N.

(** [space_width bs] is the number of bytes of the white-space rune that
    [bs] starts with, 0 when it starts with none. *)
Definition space_width (bs : list ascii) : nat :=
  match bs with
  | c0 :: c1 :: c2 :: _ =>
      if ascii_space c0 then 1 else if space2 c0 c1 then 2
      else if space3 c0 c1 c2 then 3 else 0
  | c0 :: c1 :: _ =>
      if ascii_space c0 then 1 else if space2 c0 c1 then 2 else 0
  | c0 :: _ => if ascii_space c0 then 1 else 0
  | [] => 0
  end.

(** The same for the rune that the string ends with; [bs] is reversed. *)
Definition space_width_rev (bs : list ascii) : nat :=
  match bs with
  | c2 :: c1 :: c0 :: _ =>
      if ascii_space c2 then 1 else if space2 c1 c2 then 2
      else if space3 c0 c1 c2 then 3 else 0
  | c1 :: c0 :: _ =>
      if ascii_space c1 then 1 else if space2 c0 c1 then 2 else 0
  | c0 :: _ => if ascii_space c0 then 1 else 0
  | [] => 0
  end.

Fixpoint trim_with (width : list ascii -> nat) (fuel : nat) (bs : list ascii)
  : list ascii :=
  match fuel with
  | 0 => bs
  | S fuel' =>
      match width bs with
      | 0 => bs
      | w => trim_with width fuel' (skipn w bs)
      end
  end.

(** [strings.TrimSpace]: leading white space is removed, then trailing. *)
Definition TrimSpace (s : string) : string :=
  let bs := list_ascii_of_string s in
  let l := trim_with space_width (length bs) bs in
  string_of_list_ascii (rev (trim_with space_width_rev (length l) (rev l))).

(** [strings.HasPrefix]. *)
Definition HasPrefix (s prefix : string) : bool :=
  if strip_prefix (list_ascii_of_string prefix) (list_ascii_of_string s)
  is Some _ then true else false.

(** The slice expressions [s[:n]] and [s[a:b]], for indices within [s]. *)
Fixpoint slice_to (n : nat) (s : string) : string :=
  match n, s with
  | S n', String c s' => String c (slice_to n' s')
  | _, _ => EmptyString
  end.

Definition slice (a b : nat) (s : string) : string :=
  slice_to (b - a) (slice_from a s).

(** [strings.Index] and [strings.LastIndex]; [None] is Go's -1. *)
Fixpoint index_from (substr s : list ascii) (i : nat) : option nat :=
  if strip_prefix substr s is Some _ then Some i
  else match s with
       | [] => None
       | _ :: s' => index_from substr s' (S i)
       end.

Definition Index (s substr : string) : option nat :=
  index_from (list_ascii_of_string substr) (list_ascii_of_string s) 0.

Fixpoint last_index_from (substr s : list ascii) (i : nat) (acc : option nat)
  : option nat :=
  let acc' := if strip_prefix substr s is Some _ then Some i else acc in
  match s with
  | [] => acc'
  | _ :: s' => last_index_from substr s' (S i) acc'
  end.

Definition LastIndex (s substr : string) : option nat :=
  last_index_from (list_ascii_of_string substr) (list_ascii_of_string s) 0 None.

Definition Contains (s substr : string) : bool :=
  if Index s substr is Some _ then true else false.

(** [strings.Split(s, sep)] for a one-byte [sep]. *)
Fixpoint Split (s : string) (sep : ascii) : list string :=
  match s with
  | EmptyString => [EmptyString]
  | String c s' =>
      if Ascii.eqb c sep then EmptyString :: Split s' sep
      else match Split s' sep with
           | x :: xs => String c x :: xs
           | [] => [String c EmptyString]
           end
  end.

(** [strings.SplitN(s, sep, 2)] for a non-empty [sep]. *)
Definition SplitN2 (s sep : string) : list string :=
  match Index s sep with
  | Some i => [slice_to i s; slice_from (i + String.length sep) s]
  | None => [s]
  end.

(** [strings.Join]. *)
Fixpoint Join (elems : list string) (sep : string) : string :=
  match elems with
  | [] => EmptyString
  | [x] => x
  | x :: rest => x +:+ sep +:+ Join rest sep
  end.

(** [strings.TrimLeft], [strings.TrimRight] and [strings.Trim] for an ASCII
    [cutset]. *)
Fixpoint TrimLeft (s cutset : string) : string :=
  match s with
  | EmptyString => EmptyString
  | String c s' => if byte_in c cutset then TrimLeft s' cutset else s
  end.

Definition TrimRight (s cutset : string) : string :=
  string_of_list_ascii
    (rev (list_ascii_of_string
            (TrimLeft (string_of_list_ascii (rev (list_ascii_of_string s)))
                      cutset))).

Definition Trim (s cutset : string) : string :=
  TrimRight (TrimLeft s cutset) cutset.

(** [strings.Fields]: the maximal runs of bytes that are not part of a
    white-space rune.  [skip] counts the bytes of the white-space rune that
    is being passed over, [cur] holds the field being read, reversed. *)
Definition flush_field (cur : list ascii) : list string :=
  match cur with
  | [] => []
  | _ => [string_of_list_ascii (rev cur)]
  end.

Fixpoint fields_from (bs : list ascii) (skip : nat) (cur : list ascii)
  : list string :=
  match bs with
  | [] => flush_field cur
  | c :: bs' =>
      match skip with
      | S k => fields_from bs' k cur
      | 0 =>
          match space_width bs with
          | 0 => fields_from bs' 0 (c :: cur)
          | S w => flush_field cur ++ fields_from bs' w []
          end
      end
  end.

Definition Fields (s : string) : list string :=
  fields_from (list_ascii_of_string s) 0 [].

End strings.

(** ** The data model ([internal/model/model.go]) *)

(** [type SymbolKind string]; [type HookType string] is written [string],
    the name being that of the field of [Symbol]. *)
Abbreviation SymbolKind := string (only parsing).

Definition KindFunction : SymbolKind := "function".
Definition KindClass : SymbolKind := "class".
Definition KindMethod : SymbolKind := "method".
Definition KindProperty : SymbolKind := "property".
Definition KindConstant : SymbolKind := "constant".
Definition KindInterface : SymbolKind := "interface".
Definition KindTrait : SymbolKind := "trait".
Definition KindEnum : SymbolKind := "enum".
Definition KindHook : SymbolKind := "hook".
Definition KindComponent : SymbolKind := "component".

Definition HookAction : string := "action".
Definition HookFilter : string := "filter".

Record Param := {
  Param_Name : string;
  Param_Type : string;
  Param_Description : string;
  Param_Default : string;
  IsVariadic : bool;
  IsNullable : bool;
  IsPassByRef : bool
}.

Record ReturnValue := {
  Return_Type : string;
  Return_Description : string
}.

Record DocBlock := {
  Summary : string;
  Description : string;
  Tags : gmap string (list string);
  Since : string;
  Deprecated : string;
  SeeAlso : list string;
  Links : list string;
  Access : string
}.

Record SourceLocation := {
  File : string;
  StartLine : nat;
  EndLine : nat
}.

Record Symbol := {
  ID : string;
  Name : string;
  Kind : SymbolKind;
  Language : string;
  Namespace : string;
  Doc : DocBlock;
  Params : list Param;
  Returns : option ReturnValue;
  Extends : list string;
  Implements : list string;
  Members : list string;
  ParentID : string;
  HookType : string;
  HookTag : string;
  CallSites : list string;
  UsedBy : list string;
  Uses : list string;
  Overrides : string;
  Location : SourceLocation
}.

(** The zero values of Go. *)
Definition zeroDoc : DocBlock :=
  {| Summary := ""; Description := ""; Tags := ∅; Since := ""; Deprecated := "";
     SeeAlso := []; Links := []; Access := "" |}.

Definition zeroLocation : SourceLocation :=
  {| File := ""; StartLine := 0; EndLine := 0 |}.

Definition zeroSymbol : Symbol :=
  {| ID := ""; Name := ""; Kind := ""; Language := ""; Namespace := "";
     Doc := zeroDoc; Params := []; Returns := None; Extends := [];
     Implements := []; Members := []; ParentID := ""; HookType := "";
     HookTag := ""; CallSites := []; UsedBy := []; Uses := []; Overrides := "";
     Location := zeroLocation |}.

#[global] Instance Symbol_inhabited : Inhabited Symbol := populate zeroSymbol.

(** Field assignments [sym.F = v]. *)
Definition set_Extends (v : list string) (s : Symbol) : Symbol :=
  {| ID := ID s; Name := Name s; Kind := Kind s; Language := Language s;
     Namespace := Namespace s; Doc := Doc s; Params := Params s;
     Returns := Returns s; Extends := v; Implements := Implements s;
     Members := Members s; ParentID := ParentID s; HookType := HookType s;
     HookTag := HookTag s; CallSites := CallSites s; UsedBy := UsedBy s;
     Uses := Uses s; Overrides := Overrides s; Location := Location s |}.

Definition set_Implements (v : list string) (s : Symbol) : Symbol :=
  {| ID := ID s; Name := Name s; Kind := Kind s; Language := Language s;
     Namespace := Namespace s; Doc := Doc s; Params := Params s;
     Returns := Returns s; Extends := Extends s; Implements := v;
     Members := Members s; ParentID := ParentID s; HookType := HookType s;
     HookTag := HookTag s; CallSites := CallSites s; UsedBy := UsedBy s;
     Uses := Uses s; Overrides := Overrides s; Location := Location s |}.

Definition set_CallSites (v : list string) (s : Symbol) : Symbol :=
  {| ID := ID s; Name := Name s; Kind := Kind s; Language := Language s;
     Namespace := Namespace s; Doc := Doc s; Params := Params s;
     Returns := Returns s; Extends := Extends s; Implements := Implements s;
     Members := Members s; ParentID := ParentID s; HookType := HookType s;
     HookTag := HookTag s; CallSites := v; UsedBy := UsedBy s;
     Uses := Uses s; Overrides := Overrides s; Location := Location s |}.

Definition set_UsedBy (v : list string) (s : Symbol) : Symbol :=
  {| ID := ID s; Name := Name s; Kind := Kind s; Language := Language s;
     Namespace := Namespace s; Doc := Doc s; Params := Params s;
     Returns := Returns s; Extends := Extends s; Implements := Implements s;
     Members := Members s; ParentID := ParentID s; HookType := HookType s;
     HookTag := HookTag s; CallSites := CallSites s; UsedBy := v;
     Uses := Uses s; Overrides := Overrides s; Location := Location s |}.

Definition set_Overrides (v : string) (s : Symbol) : Symbol :=
  {| ID := ID s; Name := Name s; Kind := Kind s; Language := Language s;
     Namespace := Namespace s; Doc := Doc s; Params := Params s;
     Returns := Returns s; Extends := Extends s; Implements := Implements s;
     Members := Members s; ParentID := ParentID s; HookType := HookType s;
     HookTag := HookTag s; CallSites := CallSites s; UsedBy := UsedBy s;
     Uses := Uses s; Overrides := v; Location := Location s |}.

Definition set_SeeAlso (v : list string) (s : Symbol) : Symbol :=
  {| ID := ID s; Name := Name s; Kind := Kind s; Language := Language s;
     Namespace := Namespace s;
     Doc := {| Summary := Summary (Doc s); Description := Description (Doc s);
               Tags := Tags (Doc s); Since := Since (Doc s);
               Deprecated := Deprecated (Doc s); SeeAlso := v;
               Links := Links (Doc s); Access := Access (Doc s) |};
     Params := Params s;
     Returns := Returns s; Extends := Extends s; Implements := Implements s;
     Members := Members s; ParentID := ParentID s; HookType := HookType s;
     HookTag := HookTag s; CallSites := CallSites s; UsedBy := UsedBy s;
     Uses := Uses s; Overrides := Overrides s; Location := Location s |}.

(** A [*Symbol] is an address; the heap holds the records.  Go has no
    dangling pointers, and every pointer the registry stores was allocated
    before it was stored, so a dereference reads with the total lookup. *)
Abbreviation ptr := nat (only parsing).
Abbreviation Heap := (list Symbol) (only parsing).

Definition deref (h : Heap) (p : ptr) : Symbol := h !!! p.

(** [&model.Symbol{...}]: a fresh cell at the end of the heap. *)
Definition new (h : Heap) (s : Symbol) : Heap * ptr := (h ++ [s], length h).

Record Registry := {
  symbols : gmap string ptr;
  byKind : gmap string (list ptr);
  byFile : gmap string (list ptr)
}.

Definition NewRegistry : Registry :=
  {| symbols := ∅; byKind := ∅; byFile := ∅ |}.

(** Indexing a Go map of slices with a missing key gives the nil slice. *)
Definition slice_at (m : gmap string (list ptr)) (k : string) : list ptr :=
  default [] (m !! k).

Definition Add (h : Heap) (r : Registry) (s : ptr) : Registry :=
  let sym := deref h s in
  {| symbols := <[ID sym := s]> (symbols r);
     byKind := <[Kind sym := slice_at (byKind r) (Kind sym) ++ [s]]> (byKind r);
     byFile := <[File (Location sym) :=
                   slice_at (byFile r) (File (Location sym)) ++ [s]]> (byFile r) |}.

(** [Get] returns [None] for Go's nil. *)
Definition Get (r : Registry) (id : string) : option ptr := symbols r !! id.

Definition ByKind (r : Registry) (k : SymbolKind) : list ptr :=
  slice_at (byKind r) k.

Definition ByFile (r : Registry) (path : string) : list ptr :=
  slice_at (byFile r) path.

(** [All] ranges over a Go map, whose iteration order is unspecified and
    differs from one call to the next: [All_canonical] is one enumeration,
    [enumerates] says that a list is one that [All] may return. *)
Definition All_canonical (r : Registry) : list ptr :=
  (map_to_list (symbols r)).*2.

Definition enumerates (r : Registry) (all : list ptr) : Prop :=
  all ≡ₚ All_canonical r.

Definition Count (r : Registry) : nat := size (symbols r).

(** [CountByLanguage] ranges over the primary index; the count does not
    depend on the order of the range. *)
Definition CountByLanguage (h : Heap) (r : Registry) (lang : string) : nat :=
  length (filter (fun s => Language (deref h s) = lang) (All_canonical r)).

(** ** The resolver ([internal/resolver/resolver.go]) *)

(** The counters are incremented once per slice element visited, so they stay
    far below the range of Go's [int]. *)
Record Stats := {
  Resolved : nat;
  Unresolved : nat;
  Inheritance : nat;
  HookBindings : nat
}.

Definition zeroStats : Stats :=
  {| Resolved := 0; Unresolved := 0; Inheritance := 0; HookBindings := 0 |}.

(** A [Resolver] holds the registry and the counters; [mem] is the heap that
    the registry's pointers point into. *)
Record Resolver := {
  registry : Registry;
  mem : Heap;
  stats : Stats
}.

Definition New (reg : Registry) (h : Heap) : Resolver :=
  {| registry := reg; mem := h; stats := zeroStats |}.

Fixpoint contains (slice : list string) (val : string) : bool :=
  match slice with
  | [] => false
  | s :: rest => if String.eqb s val then true else contains rest val
  end.

Definition appendUnique (slice : list string) (val : string) : list string :=
  if contains slice val then slice else slice ++ [val].

(** The short name that [findSymbol] falls back to. *)
Definition shortNameOf (name : string) : string :=
  match strings.LastIndexAny name "\/:" with
  | Some idx => strings.slice_from (idx + 1) name
  | None => name
  end.

(** [findSymbol]; [all] is the enumeration that its call of [All] returns. *)
Definition findSymbol (h : Heap) (r : Registry) (all : list ptr) (name : string)
  : option ptr :=
  match Get r name with
  | Some s => Some s
  | None =>
      match Get r (strings.ReplaceAll name "/" "\") with
      | Some s => Some s
      | None =>
          let shortName := shortNameOf name in
          let candidates :=
            filter (fun sym => Name (deref h sym) = shortName) all in
          match candidates with
          | [c] => Some c
          | _ => None
          end
      end
  end.

(** [for i, x := range slice]: the index with the element. *)
Definition range {A} (slice : list A) : list (nat * A) :=
  imap (fun i x => (i, x)) slice.

(** *** Pass 1: inheritance *)

Definition extendsStep (all : list ptr) (sym : ptr) (R : Resolver)
  (ie : nat * string) : Resolver :=
  match findSymbol (mem R) (registry R) all ie.2 with
  | Some resolved =>
      let id := ID (deref (mem R) resolved) in
      {| registry := registry R;
         mem := alter (fun s => set_Extends (<[ie.1 := id]> (Extends s)) s)
                      sym (mem R);
         stats := {| Resolved := S (Resolved (stats R));
                     Unresolved := Unresolved (stats R);
                     Inheritance := S (Inheritance (stats R));
                     HookBindings := HookBindings (stats R) |} |}
  | None => R
  end.

Definition implementsStep (all : list ptr) (sym : ptr) (R : Resolver)
  (ie : nat * string) : Resolver :=
  match findSymbol (mem R) (registry R) all ie.2 with
  | Some resolved =>
      let id := ID (deref (mem R) resolved) in
      {| registry := registry R;
         mem := alter (fun s => set_Implements (<[ie.1 := id]> (Implements s)) s)
                      sym (mem R);
         stats := {| Resolved := S (Resolved (stats R));
                     Unresolved := Unresolved (stats R);
                     Inheritance := S (Inheritance (stats R));
                     HookBindings := HookBindings (stats R) |} |}
  | None => R
  end.

Definition inheritanceStep (all : list ptr) (R : Resolver) (sym : ptr)
  : Resolver :=
  let k := Kind (deref (mem R) sym) in
  if bool_decide (k ≠ KindClass) && bool_decide (k ≠ KindInterface) then R
  else
    let R1 := foldl (extendsStep all sym) R (range (Extends (deref (mem R) sym))) in
    foldl (implementsStep all sym) R1 (range (Implements (deref (mem R1) sym))).

Definition resolveInheritance (all : list ptr) (R : Resolver) : Resolver :=
  foldl (inheritanceStep all) R all.

(** *** Pass 2: hook bindings *)

Definition hooksByTag (h : Heap) (hooks : list ptr) : gmap string ptr :=
  foldl (fun m hk => <[HookTag (deref h hk) := hk]> m) ∅ hooks.

Definition bindStep (byTag : gmap string ptr) (sym : ptr) (R : Resolver)
  (hookID : string) : Resolver :=
  match byTag !! hookID with
  | Some hook =>
      let id := ID (deref (mem R) sym) in
      {| registry := registry R;
         mem := alter (fun s => set_UsedBy (appendUnique (UsedBy s) id) s)
                      hook (mem R);
         stats := {| Resolved := S (Resolved (stats R));
                     Unresolved := Unresolved (stats R);
                     Inheritance := Inheritance (stats R);
                     HookBindings := S (HookBindings (stats R)) |} |}
  | None => R
  end.

Definition hookBindingStep (byTag : gmap string ptr) (R : Resolver) (sym : ptr)
  : Resolver :=
  let k := Kind (deref (mem R) sym) in
  if bool_decide (k ≠ KindFunction) && bool_decide (k ≠ KindMethod) then R
  else foldl (bindStep byTag sym) R (Uses (deref (mem R) sym)).

Definition resolveHookBindings (all : list ptr) (R : Resolver) : Resolver :=
  let byTag := hooksByTag (mem R) (ByKind (registry R) KindHook) in
  foldl (hookBindingStep byTag) R all.

(** *** Pass 3: see-also references *)

Definition seeStep (all : list ptr) (sym : ptr) (R : Resolver)
  (ie : nat * string) : Resolver :=
  let ref := strings.TrimSpace ie.2 in
  if bool_decide (ref = "") then R
  else
    let cleanRef := strings.TrimSuffix ref "()" in
    match findSymbol (mem R) (registry R) all cleanRef with
    | Some resolved =>
        let id := ID (deref (mem R) resolved) in
        {| registry := registry R;
           mem := alter (fun s => set_SeeAlso (<[ie.1 := id]> (SeeAlso (Doc s))) s)
                        sym (mem R);
           stats := {| Resolved := S (Resolved (stats R));
                       Unresolved := Unresolved (stats R);
                       Inheritance := Inheritance (stats R);
                       HookBindings := HookBindings (stats R) |} |}
    | None =>
        {| registry := registry R;
           mem := mem R;
           stats := {| Resolved := Resolved (stats R);
                       Unresolved := S (Unresolved (stats R));
                       Inheritance := Inheritance (stats R);
                       HookBindings := HookBindings (stats R) |} |}
    end.

Definition seeReferencesStep (all : list ptr) (R : Resolver) (sym : ptr)
  : Resolver :=
  foldl (seeStep all sym) R (range (SeeAlso (Doc (deref (mem R) sym)))).

Definition resolveSeeReferences (all : list ptr) (R : Resolver) : Resolver :=
  foldl (seeReferencesStep all) R all.

(** *** Pass 4: method overrides *)

(** The loop over [parent.Extends] up to its [break]: the first entry that
    is itself registered and has a registered method
    [extID + "::" + name]. *)
Fixpoint findOverride (r : Registry) (name : string) (exts : list string)
  : option ptr :=
  match exts with
  | [] => None
  | extID :: rest =>
      match Get r extID with
      | None => findOverride r name rest
      | Some _ =>
          match Get r (extID +:+ "::" +:+ name) with
          | Some parentMethod => Some parentMethod
          | None => findOverride r name rest
          end
      end
  end.

Definition overrideStep (R : Resolver) (sym : ptr) : Resolver :=
  let s := deref (mem R) sym in
  if bool_decide (Kind s ≠ KindMethod) || bool_decide (ParentID s = "") then R
  else
    match Get (registry R) (ParentID s) with
    | None => R
    | Some parent =>
        match findOverride (registry R) (Name s)
                (Extends (deref (mem R) parent)) with
        | None => R
        | Some parentMethod =>
            let h1 := alter (set_Overrides (ID (deref (mem R) parentMethod)))
                            sym (mem R) in
            let h2 := alter (fun pm =>
                               set_UsedBy (appendUnique (UsedBy pm)
                                             (ID (deref h1 sym))) pm)
                            parentMethod h1 in
            {| registry := registry R;
               mem := h2;
               stats := {| Resolved := S (Resolved (stats R));
                           Unresolved := Unresolved (stats R);
                           Inheritance := Inheritance (stats R);
                           HookBindings := HookBindings (stats R) |} |}
        end
    end.

Definition resolveMethodOverrides (all : list ptr) (R : Resolver) : Resolver :=
  foldl overrideStep R all.

(** [ResolveAll]; each pass calls [All] again and may see another order. *)
Definition ResolveAll (o1 o2 o3 o4 : list ptr) (R : Resolver) : Resolver :=
  resolveMethodOverrides o4
    (resolveSeeReferences o3
       (resolveHookBindings o2
          (resolveInheritance o1 R))).

(** ** The hook upsert ([internal/parser/php_hooks.go]) *)

(** What [registerHook] reads from the syntax tree of a hook call:
    [call_tag] is the result of [extractHookTag] on the first argument (empty
    when the call has no argument or the tag is not a recognised expression),
    [call_doc] the result of [findDocComment]. *)
Record HookCall := {
  call_tag : string;
  call_doc : DocBlock;
  call_startLine : nat;
  call_endLine : nat
}.

Section Hooks.

(** [paramRegex.FindStringSubmatch]: the three groups of a match. *)
Variable paramSubmatch : string -> option (string * string * string).

Definition hookParam (raw : string) : option Param :=
  match paramSubmatch ("@param " +:+ raw) with
  | Some (m1, m2, m3) =>
      Some {| Param_Name := strings.TrimPrefix m2 "$";
              Param_Type := m1;
              Param_Description := strings.TrimSpace m3;
              Param_Default := "";
              IsVariadic := false; IsNullable := false; IsPassByRef := false |}
  | None => None
  end.

Definition hookParams (doc : DocBlock) : list Param :=
  omap hookParam (default [] (Tags doc !! "param")).

Definition hookSymbol (call : HookCall) (hookType callerID file : string)
  : Symbol :=
  {| ID := "hook:" +:+ call_tag call;
     Name := call_tag call;
     Kind := KindHook;
     Language := "php";
     Namespace := "";
     Doc := call_doc call;
     Params := hookParams (call_doc call);
     Returns := None;
     Extends := []; Implements := []; Members := []; ParentID := "";
     HookType := hookType;
     HookTag := call_tag call;
     CallSites := [callerID];
     UsedBy := []; Uses := []; Overrides := "";
     Location := {| File := file;
                    StartLine := call_startLine call;
                    EndLine := call_endLine call |} |}.

Definition registerHook (call : HookCall) (hookType callerID file : string)
  (st : Heap * Registry) : Heap * Registry :=
  let tag := call_tag call in
  if bool_decide (tag = "") then st
  else
    let hookID := "hook:" +:+ tag in
    match Get st.2 hookID with
    | Some existing =>
        (alter (fun s => set_CallSites (CallSites s ++ [callerID]) s)
               existing st.1,
         st.2)
    | None =>
        let '(h, sym) := new st.1 (hookSymbol call hookType callerID file) in
        (h, Add h st.2 sym)
    end.

(** One hook call met by [scanForHooks], with the arguments it passes on. *)
Record HookEvent := {
  ev_call : HookCall;
  ev_hookType : string;
  ev_callerID : string;
  ev_file : string
}.

(** The calls of [registerHook] for [evs], each one from its start to its
    end before the next: what one [scanForHooks] does, and what the
    goroutines of [ParseFiles] do as long as no two of their calls overlap
    (see [runCalls] and [serial] below). *)
Definition ingest (evs : list HookEvent) (st : Heap * Registry)
  : Heap * Registry :=
  foldl (fun st e =>
           registerHook (ev_call e) (ev_hookType e) (ev_callerID e) (ev_file e) st)
        st evs.

(** The symbol that [registerHook] creates at the call site [e]. *)
Definition eventSymbol (e : HookEvent) : Symbol :=
  hookSymbol (ev_call e) (ev_hookType e) (ev_callerID e) (ev_file e).

(** The call sites of [tag] among [evs], in the order they were met. *)
Definition tagged (tag : string) (evs : list HookEvent) : list HookEvent :=
  filter (fun e => call_tag (ev_call e) = tag) evs.

(** What the store knows of [tag] once the call sites [mine] were met. *)
Definition hookState (tag : string) (mine : list HookEvent)
  (st : Heap * Registry) : Prop :=
  let hookID := "hook:" +:+ tag in
  match mine with
  | [] =>
      Get st.2 hookID = None
      /\ Forall (fun q => ID (deref st.1 q) ≠ hookID) (ByKind st.2 KindHook)
  | first :: _ =>
      exists p,
        Get st.2 hookID = Some p
        /\ deref st.1 p = set_CallSites (ev_callerID <$> mine) (eventSymbol first)
        /\ filter (fun q => ID (deref st.1 q) = hookID) (ByKind st.2 KindHook)
           = [p]
  end.

(** *** Calls of several goroutines *)

(** [ParseFiles] runs the extractors in [p.workers] goroutines on one
    registry.  [registerHook] takes the lock of the registry in [reg.Get]
    and again in [reg.Add], and appends to [CallSites] under no lock, so the
    step of another goroutine can come between its [reg.Get] and what it
    does next.  A call that is under way has not yet called [reg.Get], or
    it has and holds the record found, or it has and found none. *)
Inductive HookThread :=
| Called (e : HookEvent)
| Found (existing : ptr) (e : HookEvent)
| NotFound (e : HookEvent)
| Returned.

(** The next step of a call: the test of the tag and [reg.Get]; then the
    append to [existing.CallSites], or [reg.Add] of the record that the
    call built.  A call that has returned has no step. *)
Definition hookStep (t : HookThread) (st : Heap * Registry)
  : option (HookThread * (Heap * Registry)) :=
  match t with
  | Called e =>
      let tag := call_tag (ev_call e) in
      if bool_decide (tag = "") then Some (Returned, st)
      else
        match Get st.2 ("hook:" +:+ tag) with
        | Some existing => Some (Found existing e, st)
        | None => Some (NotFound e, st)
        end
  | Found existing e =>
      Some (Returned,
            (alter (fun s => set_CallSites (CallSites s ++ [ev_callerID e]) s)
                   existing st.1,
             st.2))
  | NotFound e =>
      let '(h, sym) := new st.1 (eventSymbol e) in
      Some (Returned, (h, Add h st.2 sym))
  | Returned => None
  end.

(** The calls under way with the store, and the step of call [i]. *)
Definition stepCall (i : nat) (s : list HookThread * (Heap * Registry))
  : option (list HookThread * (Heap * Registry)) :=
  match s.1 !! i with
  | Some t =>
      match hookStep t s.2 with
      | Some (t', st') => Some (<[i := t']> s.1, st')
      | None => None
      end
  | None => None
  end.

(** A schedule names the call that takes each step; [None] when it names a
    call that has no step left. *)
Fixpoint runCalls (sched : list nat) (s : list HookThread * (Heap * Registry))
  : option (list HookThread * (Heap * Registry)) :=
  match sched with
  | [] => Some s
  | i :: rest =>
      match stepCall i s with
      | Some s' => runCalls rest s'
      | None => None
      end
  end.

(** No two calls overlap: between two steps of a call no other call takes
    a step. *)
Definition serial (sched : list nat) : Prop :=
  forall l1 i l2 l3, sched = l1 ++ i :: l2 ++ i :: l3 -> Forall (eq i) l2.

(** The event of a call that has not started. *)
Definition called (t : HookThread) : option HookEvent :=
  match t with Called e => Some e | _ => None end.

(** The calls of [ths] that a schedule runs, in the order in which it lets
    them run when it is serial. *)
Definition callOrder (sched : list nat) (ths : list HookThread)
  : list HookEvent :=
  omap (fun i => ths !! i ≫= called) (remove_dups sched).

End Hooks.

(** ** Syntax trees ([github.com/smacker/go-tree-sitter]) *)

(** What the extractors read of a [*sitter.Node]: its type, whether it is a
    named node, the field name under which its parent holds it, its byte
    range and the rows of its end points, and its children.  A nil node is
    [None]. *)
Module sitter.

Unset Elimination Schemes.
Inductive Node := mkNode {
  NodeType : string;
  IsNamed : bool;
  FieldName : option string;
  StartByte : nat;
  EndByte : nat;
  StartRow : nat;
  EndRow : nat;
  Children : list Node
}.
Set Elimination Schemes.

Definition NamedChildren (n : Node) : list Node :=
  filter (fun c => IsNamed c = true) (Children n).

Definition NamedChildCount (n : Node) : nat := length (NamedChildren n).

Definition NamedChild (n : Node) (i : nat) : option Node := NamedChildren n !! i.

Definition ChildByFieldName (n : Node) (name : string) : option Node :=
  List.find (fun c => bool_decide (FieldName c = Some name)) (Children n).

(** [n.Content(src)] is [src[n.StartByte():n.EndByte()]]. *)
Definition Content (n : Node) (src : string) : string :=
  strings.slice (StartByte n) (EndByte n) src.

(** The loop [for i := 0; i < int(node.NamedChildCount()); i++] over
    [node.NamedChild(i)], and the use of [node.ChildByFieldName(name)] with a
    value [d] for nil.  They are written over the list of children so that a
    function that calls itself on a child is seen to end. *)
Definition forNamed {S} (f : Node -> S -> S) (cs : list Node) (st : S) : S :=
  foldl (fun st c => if IsNamed c then f c st else st) st cs.

Definition withField {A} (name : string) (f : Node -> A) (d : A)
  (cs : list Node) : A :=
  (fix go cs :=
     match cs with
     | [] => d
     | c :: cs' => if bool_decide (FieldName c = Some name) then f c else go cs'
     end) cs.

End sitter.

(** ** The worker pool ([internal/parser/parser.go]) *)

Module parser.

(** [filepath.Ext]: the suffix from the last dot of the last path element. *)
Fixpoint Ext_rev (rpath acc : list ascii) : list ascii :=
  match rpath with
  | [] => []
  | c :: rest =>
      if Ascii.eqb c "/" then []
      else if Ascii.eqb c "." then c :: acc
      else Ext_rev rest (c :: acc)
  end.

Definition Ext (path : string) : string :=
  string_of_list_ascii (Ext_rev (rev (list_ascii_of_string path)) []).

(** [strings.ToLower] on the ASCII letters; no other rune has a lower case
    among the letters of the extensions that [detectLanguage] knows. *)
Definition lower (c : ascii) : ascii :=
  let n := N_of_ascii c in
  if ((65 <=? n) && (n <=? 90))%N then ascii_of_N (n + 32) else c.

Definition ToLower (s : string) : string :=
  string_of_list_ascii (map lower (list_ascii_of_string s)).

Inductive Grammar := php | javascript | typescript | tsx.

(** [detectLanguage]; [None] is the error for an unsupported extension. *)
Definition detectLanguage (path : string) : option (Grammar * string) :=
  let ext := ToLower (Ext path) in
  if bool_decide (ext = ".php") then Some (php, "php")
  else if bool_decide (ext = ".js") || bool_decide (ext = ".jsx")
       then Some (javascript, "js")
  else if bool_decide (ext = ".ts") then Some (typescript, "js")
  else if bool_decide (ext = ".tsx") then Some (tsx, "js")
  else None.

Section Pool.

(** The file system ([os.ReadFile], [filepath.Join]), the tree-sitter
    parser and the two extractors. *)
Context {Tree : Type}.
Variable ReadFile : string -> option string.
Variable ParseCtx : Grammar -> string -> option Tree.
Variable extractPHP extractJS :
  Tree -> string -> string -> Heap * Registry -> Heap * Registry.
Variable Join : string -> string -> string.
Variable srcRoot : string.

Definition absPath (relPath : string) : string :=
  if bool_decide (srcRoot = "") then relPath else Join srcRoot relPath.

(** [parseFile]: the error, if any, and the store afterwards. *)
Definition parseFile (relPath : string) (st : Heap * Registry)
  : option string * (Heap * Registry) :=
  match ReadFile (absPath relPath) with
  | None => (Some "reading file", st)
  | Some src =>
      match detectLanguage relPath with
      | None => (Some "unsupported file extension", st)
      | Some (lang, langName) =>
          match ParseCtx lang src with
          | None => (Some "parsing", st)
          | Some root =>
              (None,
               if bool_decide (langName = "php")
               then extractPHP root src relPath st
               else if bool_decide (langName = "js")
                    then extractJS root src relPath st
                    else st)
          end
      end
  end.

(** A worker goroutine is about to receive from [ch], is at the send
    [errCh <- err], or has left its loop and called [wg.Done]. *)
Inductive Worker := Receiving | Sending (err : string) | Done.

(** [ParseFiles] after it started its goroutines: [ch] holds the files
    not yet taken (it is closed), [errCh] is the buffer of the error
    channel, whose capacity is the number of workers. *)
Record Pool := {
  ch : list string;
  errCh : list string;
  workers : list Worker;
  store : Heap * Registry
}.

Definition capacity (s : Pool) : nat := length (workers s).

Definition start (nworkers : nat) (files : list string)
  (st : Heap * Registry) : Pool :=
  {| ch := files; errCh := []; workers := replicate nworkers Receiving;
     store := st |}.

(** One step of worker [i].  [parseFile] is taken as one step: the
    properties below are about the errors, not about how the insertions
    of two files interleave.  For the store the step is exact with one
    worker only; what two workers can do to it between the calls of one
    [registerHook] is the subject of [runCalls]. *)
Definition step_worker (i : nat) (s : Pool) : option Pool :=
  match workers s !! i with
  | Some Receiving =>
      match ch s with
      | [] =>
          Some {| ch := []; errCh := errCh s;
                  workers := <[i := Done]> (workers s); store := store s |}
      | file :: rest =>
          match parseFile file (store s) with
          | (Some err, st) =>
              Some {| ch := rest; errCh := errCh s;
                      workers := <[i := Sending (file +:+ ": " +:+ err)]> (workers s);
                      store := st |}
          | (None, st) =>
              Some {| ch := rest; errCh := errCh s;
                      workers := workers s; store := st |}
          end
      end
  | Some (Sending err) =>
      if decide (length (errCh s) < capacity s)
      then Some {| ch := ch s; errCh := errCh s ++ [err];
                   workers := <[i := Receiving]> (workers s);
                   store := store s |}
      else None
  | Some Done => None
  | None => None
  end.

Inductive step : Pool -> Pool -> Prop :=
| step_of (i : nat) (s s' : Pool) : step_worker i s = Some s' -> step s s'.

Inductive reachable (s0 : Pool) : Pool -> Prop :=
| reach_refl : reachable s0 s0
| reach_step (s s' : Pool) : reachable s0 s -> step s s' -> reachable s0 s'.

(** [wg.Wait()] returns when every worker has called [wg.Done]; the rest
    of [ParseFiles] drains [errCh], logs the count and returns [nil]. *)
Definition waited (s : Pool) : bool :=
  forallb (fun w => match w with Done => true | _ => false end) (workers s).

(** What a call of [ParseFiles] can end with: the store, and the number
    of errors it logged. *)
Definition returns (nworkers : nat) (files : list string)
  (st : Heap * Registry) (out : Heap * Registry * nat) : Prop :=
  match files with
  | [] => out = (st, 0)
  | _ => exists s, reachable (start nworkers files st) s
                   /\ waited s = true
                   /\ out = (store s, length (errCh s))
  end.

(** Whether [parseFile] returns an error for [file]. *)
Definition fails (file : string) : bool :=
  match ReadFile (absPath file) with
  | None => true
  | Some src =>
      match detectLanguage file with
      | None => true
      | Some (lang, _) =>
          match ParseCtx lang src with None => true | Some _ => false end
      end
  end.

(** No worker can move. *)
Definition stuck (s : Pool) : Prop := forall i, step_worker i s = None.

(** The number of files of the queue that [parseFile] fails on, and the
    number of workers that are at their send. *)
Definition failing (files : list string) : nat :=
  sum_list_with (fun f => if fails f then 1 else 0) files.

Definition sending (ws : list Worker) : nat :=
  sum_list_with (fun w => match w with Sending _ => 1 | _ => 0 end) ws.

(** The store after the files were parsed one after the other. *)
Definition sequential (files : list string) (st : Heap * Registry)
  : Heap * Registry :=
  foldl (fun st f => (parseFile f st).2) st files.

(** What every state of a run satisfies: each failing file is still in
    the queue, or its error is held by a worker at its send, or its error
    is in the buffer of [errCh], which never holds more than its capacity;
    and a worker leaves its loop only once the queue is empty. *)
Definition pool_inv (total n : nat) (s : Pool) : Prop :=
  length (workers s) = n
  /\ length (errCh s) + sending (workers s) + failing (ch s) = total
  /\ length (errCh s) <= n
  /\ (Done ∈ workers s -> ch s = []).

End Pool.

(** Workers that have not left their loop. *)
Definition busy (ws : list Worker) : nat :=
  sum_list_with (fun w => match w with Done => 0 | _ => 1 end) ws.

(** A bound on the number of steps that a run can still take. *)
Definition steps_left (s : Pool) : nat :=
  2 * length (ch s) + sending (workers s) + busy (workers s).

(** ** Docblocks ([internal/parser/docblock.go]) *)

Definition LF : ascii := "010"%char.
Definition TAB : ascii := "009"%char.
Definition DQUOTE : ascii := "034"%char.

(** The character classes of Go's [regexp]: [\s] is [[\t\n\f\r ]], [\w] is
    [[0-9A-Za-z_]], and [.] is any character but the line feed.  None of
    them tells the bytes of a multi-byte rune apart, so the match by rune
    and the match by byte agree. *)
Definition re_space (c : ascii) : bool :=
  let n := N_of_ascii c in
  ((n =? 9) || (n =? 10) || (n =? 12) || (n =? 13) || (n =? 32))%N.

Definition re_word (c : ascii) : bool :=
  let n := N_of_ascii c in
  ((48 <=? n) && (n <=? 57) || (65 <=? n) && (n <=? 90)
   || (97 <=? n) && (n <=? 122) || (n =? 95))%N.

Definition re_dot (c : ascii) : bool := negb (Ascii.eqb c LF).

(** The longest prefix of [s] whose bytes satisfy [p], and the rest. *)
Fixpoint span (p : ascii -> bool) (s : string) : string * string :=
  match s with
  | EmptyString => (EmptyString, EmptyString)
  | String c s' =>
      if p c then let '(a, b) := span p s' in (String c a, b)
      else (EmptyString, s)
  end.

Definition all_dot (s : string) : bool :=
  forallb re_dot (list_ascii_of_string s).

Definition after_prefix (prefix s : string) : option string :=
  string_of_list_ascii
    <$> strings.strip_prefix (list_ascii_of_string prefix) (list_ascii_of_string s).

(** [regexp.FindStringSubmatch] for the four expressions of the package; the
    result holds the groups, [None] is the nil slice.  Each expression is
    anchored at both ends, a greedy class is followed by a character that is
    not of the class, and the last group takes any character but the line
    feed: so the first try of
    the matcher, with every repetition as long as it can be, is the match,
    unless a line feed is in the way or, for [sinceRegex], nothing is left
    for its last group, which then takes the last white-space character. *)

(** [tagRegex]: an at sign, a group of one or more [\w], any number of
    [\s], and a group of any number of [.], up to the end. *)
Definition tagRegex (s : string) : option (string * string) :=
  match after_prefix "@" s with
  | None => None
  | Some r0 =>
      let '(w, r1) := span re_word r0 in
      let '(_, r2) := span re_space r1 in
      if bool_decide (w = "") then None
      else if all_dot r2 then Some (w, r2) else None
  end.

(** [sinceRegex]: the word [@since], one or more [\s], and a group of one
    or more [.], up to the end. *)
Definition sinceRegex (s : string) : option string :=
  match after_prefix "@since" s with
  | None => None
  | Some r0 =>
      let '(ws, r1) := span re_space r0 in
      if bool_decide (ws = "") then None
      else if bool_decide (r1 ≠ "") then
             if all_dot r1 then Some r1 else None
      else
        match rev (list_ascii_of_string ws) with
        | c :: _ :: _ => if re_dot c then Some (String c "") else None
        | _ => None
        end
  end.

(** [paramRegex]: the word [@param], one or more [\s], a group of one or
    more [\S], one or more [\s], a group of a dollar sign and one or more
    [\w], any number of [\s], and a group of any number of [.], up to the
    end. *)
Definition paramRegex (s : string) : option (string * string * string) :=
  match after_prefix "@param" s with
  | None => None
  | Some r0 =>
      let '(ws1, r1) := span re_space r0 in
      let '(ty, r2) := span (fun c => negb (re_space c)) r1 in
      let '(ws2, r3) := span re_space r2 in
      match after_prefix "$" r3 with
      | None => None
      | Some r4 =>
          let '(w, r5) := span re_word r4 in
          let '(_, r6) := span re_space r5 in
          if bool_decide (ws1 = "") || bool_decide (ty = "")
             || bool_decide (ws2 = "") || bool_decide (w = "")
          then None
          else if all_dot r6 then Some (ty, "$" +:+ w, r6) else None
      end
  end.

(** [returnRegex]: the word [@return], one or more [\s], a group of one or
    more [\S], any number of [\s], and a group of any number of [.], up to
    the end. *)
Definition returnRegex (s : string) : option (string * string) :=
  match after_prefix "@return" s with
  | None => None
  | Some r0 =>
      let '(ws1, r1) := span re_space r0 in
      let '(ty, r2) := span (fun c => negb (re_space c)) r1 in
      let '(_, r3) := span re_space r2 in
      if bool_decide (ws1 = "") || bool_decide (ty = "") then None
      else if all_dot r3 then Some (ty, r3) else None
  end.

(** The assignments to the fields of [doc]. *)
Definition doc_Tags (v : gmap string (list string)) (d : DocBlock) : DocBlock :=
  {| Summary := Summary d; Description := Description d; Tags := v;
     Since := Since d; Deprecated := Deprecated d; SeeAlso := SeeAlso d;
     Links := Links d; Access := Access d |}.

Definition doc_Since (v : string) (d : DocBlock) : DocBlock :=
  {| Summary := Summary d; Description := Description d; Tags := Tags d;
     Since := v; Deprecated := Deprecated d; SeeAlso := SeeAlso d;
     Links := Links d; Access := Access d |}.

Definition doc_Deprecated (v : string) (d : DocBlock) : DocBlock :=
  {| Summary := Summary d; Description := Description d; Tags := Tags d;
     Since := Since d; Deprecated := v; SeeAlso := SeeAlso d;
     Links := Links d; Access := Access d |}.

Definition doc_SeeAlso (v : list string) (d : DocBlock) : DocBlock :=
  {| Summary := Summary d; Description := Description d; Tags := Tags d;
     Since := Since d; Deprecated := Deprecated d; SeeAlso := v;
     Links := Links d; Access := Access d |}.

Definition doc_Links (v : list string) (d : DocBlock) : DocBlock :=
  {| Summary := Summary d; Description := Description d; Tags := Tags d;
     Since := Since d; Deprecated := Deprecated d; SeeAlso := SeeAlso d;
     Links := v; Access := Access d |}.

Definition doc_Access (v : string) (d : DocBlock) : DocBlock :=
  {| Summary := Summary d; Description := Description d; Tags := Tags d;
     Since := Since d; Deprecated := Deprecated d; SeeAlso := SeeAlso d;
     Links := Links d; Access := v |}.

Definition doc_Text (summary description : string) (d : DocBlock) : DocBlock :=
  {| Summary := summary; Description := description; Tags := Tags d;
     Since := Since d; Deprecated := Deprecated d; SeeAlso := SeeAlso d;
     Links := Links d; Access := Access d |}.

(** A read of [doc.Tags[tag]]: the nil slice for a missing key. *)
Definition tagValues (d : DocBlock) (tag : string) : list string :=
  default [] (Tags d !! tag).

(** The first loop of [ParseDocBlock]: a line without its comment prefix. *)
Definition cleanLine (line : string) : string :=
  let trimmed := strings.TrimLeft line (String " " (String TAB "")) in
  if strings.HasPrefix trimmed "* " then strings.slice_from 2 trimmed
  else if strings.HasPrefix trimmed "*" then strings.slice_from 1 trimmed
  else trimmed.

(** The local variables of [ParseDocBlock] in its second loop. *)
Record DocState := {
  doc : DocBlock;
  summary : list string;
  description : list string;
  inTags : bool;
  currentTag : string;
  tagLines : list string
}.

Definition flushTag (s : DocState) : DocState :=
  {| doc :=
       if bool_decide (currentTag s ≠ "")
       then doc_Tags (<[currentTag s :=
                          tagValues (doc s) (currentTag s)
                          ++ [strings.Join (strings.TrimSpace <$> tagLines s) " "]]>
                        (Tags (doc s)))
                     (doc s)
       else doc s;
     summary := summary s; description := description s; inTags := inTags s;
     currentTag := ""; tagLines := [] |}.

(** The assignments [currentTag = tag; tagLines = []string{v}] after the
    field [doc] was given its value. *)
Definition openTag (d : DocBlock) (tag v : string) (s : DocState) : DocState :=
  {| doc := d; summary := summary s; description := description s;
     inTags := inTags s; currentTag := tag; tagLines := [v] |}.

(** The body of the branch [strings.HasPrefix(line, "@")], after [flushTag]. *)
Definition tagLine (line : string) (s : DocState) : DocState :=
  match sinceRegex line with
  | Some m1 =>
      openTag (if bool_decide (Since (doc s) = "")
               then doc_Since (strings.TrimSpace m1) (doc s) else doc s)
              "since" m1 s
  | None =>
      if strings.HasPrefix line "@deprecated" then
        let v := strings.TrimSpace (strings.TrimPrefix line "@deprecated") in
        openTag (doc_Deprecated v (doc s)) "deprecated" v s
      else if strings.HasPrefix line "@see" then
        let ref := strings.TrimSpace (strings.TrimPrefix line "@see") in
        openTag (doc_SeeAlso (SeeAlso (doc s) ++ [ref]) (doc s)) "see" ref s
      else if strings.HasPrefix line "@link" then
        let link := strings.TrimSpace (strings.TrimPrefix line "@link") in
        openTag (doc_Links (Links (doc s) ++ [link]) (doc s)) "link" link s
      else if strings.HasPrefix line "@access" then
        let v := strings.TrimSpace (strings.TrimPrefix line "@access") in
        openTag (doc_Access v (doc s)) "access" v s
      else
        match tagRegex line with
        | Some (m1, m2) => openTag (doc s) m1 m2 s
        | None => s
        end
  end.

Definition setInTags (s : DocState) : DocState :=
  {| doc := doc s; summary := summary s; description := description s;
     inTags := true; currentTag := currentTag s; tagLines := tagLines s |}.

Definition addTagLine (line : string) (s : DocState) : DocState :=
  {| doc := doc s; summary := summary s; description := description s;
     inTags := inTags s; currentTag := currentTag s;
     tagLines := tagLines s ++ [line] |}.

Definition addSummary (line : string) (s : DocState) : DocState :=
  {| doc := doc s; summary := summary s ++ [line]; description := description s;
     inTags := inTags s; currentTag := currentTag s; tagLines := tagLines s |}.

Definition addDescription (line : string) (s : DocState) : DocState :=
  {| doc := doc s; summary := summary s; description := description s ++ [line];
     inTags := inTags s; currentTag := currentTag s; tagLines := tagLines s |}.

(** One turn of the second loop of [ParseDocBlock]. *)
Definition docLine (s : DocState) (line : string) : DocState :=
  if strings.HasPrefix line "@" then tagLine line (flushTag (setInTags s))
  else if inTags s then
    if bool_decide (line ≠ "") then addTagLine line s else s
  else if bool_decide (summary s = []) && bool_decide (line = "") then s
  else if negb (bool_decide (summary s = [])) && bool_decide (line = "")
          && bool_decide (description s = [])
  then addDescription "" s
  else if negb (bool_decide (description s = []))
          || negb (bool_decide (summary s = [])) && bool_decide (line = "")
  then addDescription line s
  else addSummary line s.

Definition docStart : DocState :=
  {| doc := zeroDoc; summary := []; description := []; inTags := false;
     currentTag := ""; tagLines := [] |}.

(** The lines that the second loop ranges over. *)
Definition cleaned (raw : string) : list string :=
  cleanLine
    <$> strings.Split (strings.TrimSuffix (strings.TrimPrefix raw "/**") "*/") LF.

(** The second loop and what follows it. *)
Definition parseLines (lines : list string) : DocBlock :=
  let s := flushTag (foldl docLine docStart lines) in
  doc_Text (strings.TrimSpace (strings.Join (summary s) " "))
           (strings.TrimSpace (strings.Join (description s) (String LF "")))
           (doc s).

Definition ParseDocBlock (raw : string) : DocBlock := parseLines (cleaned raw).

(** [ParseParams]. *)
Definition parseParam (raw : string) : option Param :=
  match paramRegex ("@param " +:+ raw) with
  | Some (m1, m2, m3) =>
      Some {| Param_Name := strings.TrimPrefix m2 "$";
              Param_Type := if strings.HasPrefix m1 "?"
                            then strings.TrimPrefix m1 "?" else m1;
              Param_Description := strings.TrimSpace m3;
              Param_Default := "";
              IsVariadic := false;
              IsNullable := strings.HasPrefix m1 "?";
              IsPassByRef := false |}
  | None => None
  end.

Definition ParseParams (d : DocBlock) : list Param :=
  omap parseParam (tagValues d "param").

(** [ParseReturn]; [None] is nil. *)
Definition ParseReturn (d : DocBlock) : option ReturnValue :=
  match tagValues d "return" with
  | [] => None
  | raw :: _ =>
      match returnRegex ("@return " +:+ raw) with
      | Some (m1, m2) =>
          Some {| Return_Type := m1; Return_Description := strings.TrimSpace m2 |}
      | None => Some {| Return_Type := raw; Return_Description := "" |}
      end
  end.

(** ** Tree helpers ([internal/parser/helpers.go]) *)

Import sitter.

Definition nodeText (node : option Node) (src : string) : string :=
  match node with
  | None => ""
  | Some n => Content n src
  end.

Definition startLine (node : option Node) : nat :=
  match node with
  | None => 0
  | Some n => StartRow n + 1
  end.

Definition endLine (node : option Node) : nat :=
  match node with
  | None => 0
  | Some n => EndRow n + 1
  end.

Definition childByType (node : Node) (typeName : string) : option Node :=
  List.find (fun c => bool_decide (NodeType c = typeName)) (NamedChildren node).

Definition childrenByType (node : Node) (typeName : string) : list Node :=
  filter (fun c => NodeType c = typeName) (NamedChildren node).

(** [walkTree]: [fn] acts on a state. *)
Fixpoint walkTree {S} (fn : Node -> S -> S) (node : Node) (st : S) : S :=
  forNamed (walkTree fn) (Children node) (fn node st).

(** ** Doc comments ([internal/parser/comment.go]) *)

Definition modifiers : list string :=
  ["public"; "private"; "protected"; "static"; "abstract"; "final"; "readonly";
   "export"; "default"; "async"; "function"; "class"; "interface"; "const";
   "let"; "var"].

Definition isOnlyWhitespaceOrModifiers (s : string) : bool :=
  forallb (fun w => bool_decide (w ∈ modifiers)) (strings.Fields s).

Definition findDocComment (node : Node) (src : string) : DocBlock :=
  let startByte := StartByte node in
  if bool_decide (startByte <= 0) || bool_decide (String.length src < startByte)
  then zeroDoc
  else
    let chunk := strings.slice_to startByte src in
    match strings.LastIndex chunk "/**" with
    | None => zeroDoc
    | Some idx =>
        match strings.Index (strings.slice_from idx chunk) "*/" with
        | None => zeroDoc
        | Some endIdx =>
            let raw := strings.slice idx (idx + endIdx + 2) chunk in
            let between :=
              strings.TrimSpace (strings.slice_from (idx + endIdx + 2) chunk) in
            if bool_decide (between ≠ "")
               && negb (isOnlyWhitespaceOrModifiers between)
            then zeroDoc
            else ParseDocBlock raw
        end
    end.

(** ** Hook calls ([internal/parser/php_hooks.go]) *)

Definition hookFunctions : gmap string string :=
  {[ "do_action" := HookAction;
     "do_action_ref_array" := HookAction;
     "apply_filters" := HookFilter;
     "apply_filters_ref_array" := HookFilter ]}.

(** [extractHookTag]; the recursive calls are on the children under the
    fields [left] and [right], and give the empty string for nil. *)
Fixpoint extractHookTag (node : Node) (src : string) : string :=
  if bool_decide (NodeType node = "string") then
    strings.Trim (Content node src) (String "'" (String DQUOTE ""))
  else if bool_decide (NodeType node = "encapsed_string") then
    let parts :=
      (fun child =>
         if bool_decide (NodeType child = "string_content")
            || bool_decide (NodeType child = "string_value")
         then Content child src else "{$var}") <$> NamedChildren node in
    match parts with
    | [] => strings.Trim (Content node src) (String DQUOTE "")
    | _ => strings.Join parts ""
    end
  else if bool_decide (NodeType node = "binary_expression") then
    let leftStr :=
      withField "left" (fun left => extractHookTag left src) "" (Children node) in
    let rightStr :=
      withField "right" (fun right => extractHookTag right src) "" (Children node) in
    if bool_decide (leftStr ≠ "") || bool_decide (rightStr ≠ "") then
      (if bool_decide (leftStr = "") then "{$var}" else leftStr)
      +:+ (if bool_decide (rightStr = "") then "{$var}" else rightStr)
    else ""
  else "".

(** The tag that [registerHook] reads from a call: empty where the function
    returns before it has one. *)
Definition callTag (call : Node) (src : string) : string :=
  match ChildByFieldName call "arguments" with
  | None => ""
  | Some args =>
      match NamedChildren args with
      | [] => ""
      | firstArg :: _ =>
          let firstArg :=
            if bool_decide (NodeType firstArg = "argument") then
              match NamedChildren firstArg with
              | inner :: _ => inner
              | [] => firstArg
              end
            else firstArg in
          extractHookTag firstArg src
      end
  end.

(** [registerHook] on the syntax tree of the call. *)
Definition hookCall (call : Node) (src : string) : HookCall :=
  {| call_tag := callTag call src;
     call_doc := findDocComment call src;
     call_startLine := startLine (Some call);
     call_endLine := endLine (Some call) |}.

Definition registerHookAt (call : Node) (hookType callerID src file : string)
  (st : Heap * Registry) : Heap * Registry :=
  registerHook paramRegex (hookCall call src) hookType callerID file st.

Definition scanForHooks (bodyNode : Node) (src file callerID : string)
  (st : Heap * Registry) : Heap * Registry :=
  walkTree
    (fun node st =>
       if bool_decide (NodeType node ≠ "function_call_expression") then st
       else
         match ChildByFieldName node "function" with
         | None => st
         | Some fnNode =>
             match hookFunctions !! nodeText (Some fnNode) src with
             | None => st
             | Some hookType => registerHookAt node hookType callerID src file st
             end
         end)
    bodyNode st.

(** ** The PHP extractor ([internal/parser/php.go]) *)

(** [&model.Symbol{...}] with the fields that the extractors name; the
    others have their zero value. *)
Definition symbol (id name kind language : string) (d : DocBlock)
  (params : list Param) (returns : option ReturnValue) (parentID file : string)
  (node : Node) : Symbol :=
  {| ID := id; Name := name; Kind := kind; Language := language;
     Namespace := ""; Doc := d; Params := params; Returns := returns;
     Extends := []; Implements := []; Members := []; ParentID := parentID;
     HookType := ""; HookTag := ""; CallSites := []; UsedBy := []; Uses := [];
     Overrides := "";
     Location := {| File := file; StartLine := startLine (Some node);
                    EndLine := endLine (Some node) |} |}.

Definition set_Members (v : list string) (s : Symbol) : Symbol :=
  {| ID := ID s; Name := Name s; Kind := Kind s; Language := Language s;
     Namespace := Namespace s; Doc := Doc s; Params := Params s;
     Returns := Returns s; Extends := Extends s; Implements := Implements s;
     Members := v; ParentID := ParentID s; HookType := HookType s;
     HookTag := HookTag s; CallSites := CallSites s; UsedBy := UsedBy s;
     Uses := Uses s; Overrides := Overrides s; Location := Location s |}.

(** [ctx.reg.Add(sym)] for a record that was just made. *)
Definition addSymbol (sym : Symbol) (st : Heap * Registry) : Heap * Registry :=
  let '(h, p) := new st.1 sym in (h, Add h st.2 p).

(** [parent.Members = append(parent.Members, methodID)] when the registry
    has [classFQN]. *)
Definition addMember (classFQN methodID : string) (st : Heap * Registry)
  : Heap * Registry :=
  match Get st.2 classFQN with
  | Some parent =>
      (alter (fun s => set_Members (Members s ++ [methodID]) s) parent st.1, st.2)
  | None => st
  end.

Definition qualifyPHP (namespace name : string) : string :=
  if bool_decide (namespace ≠ "") then namespace +:+ "\" +:+ name else name.

Definition docMapOf (params : list Param) : gmap string Param :=
  foldl (fun m dp => <[Param_Name dp := dp]> m) ∅ params.

Definition phpParam (docMap : gmap string Param) (src : string) (param : Node)
  : option Param :=
  if bool_decide (NodeType param ≠ "simple_parameter")
     && bool_decide (NodeType param ≠ "property_promotion_parameter")
  then None
  else
    let name :=
      strings.TrimPrefix (nodeText (ChildByFieldName param "name") src) "$" in
    if bool_decide (name = "") then None
    else
      let astType :=
        match ChildByFieldName param "type" with
        | Some typeNode => nodeText (Some typeNode) src
        | None => ""
        end in
      let paramText := nodeText (Some param) src in
      Some
        match docMap !! name with
        | Some dp =>
            {| Param_Name := name;
               Param_Type := if bool_decide (astType = "")
                             then Param_Type dp else astType;
               Param_Description := Param_Description dp;
               Param_Default := "";
               IsVariadic := strings.Contains paramText "...";
               IsNullable := IsNullable dp;
               IsPassByRef := strings.Contains paramText "&$" |}
        | None =>
            {| Param_Name := name;
               Param_Type := astType;
               Param_Description := "";
               Param_Default := "";
               IsVariadic := strings.Contains paramText "...";
               IsNullable := false;
               IsPassByRef := strings.Contains paramText "&$" |}
        end.

Definition extractPHPParams (paramsNode : option Node) (src : string)
  (d : DocBlock) : list Param :=
  match paramsNode with
  | None => []
  | Some pn => omap (phpParam (docMapOf (ParseParams d)) src) (NamedChildren pn)
  end.

(** The texts of the named children of the first child of type [clause],
    as the loops over [base_clause] and [class_interface_clause] append them. *)
Definition clauseNames (node : Node) (clause : string) (src : string)
  : list string :=
  match childByType node clause with
  | Some bc => (fun c => nodeText (Some c) src) <$> NamedChildren bc
  | None => []
  end.

Section PHP.

Variable src file : string.

Definition scanBody (node : Node) (callerID : string) (st : Heap * Registry)
  : Heap * Registry :=
  match ChildByFieldName node "body" with
  | Some body => scanForHooks body src file callerID st
  | None => st
  end.

Definition handleFunction (node : Node) (namespace : string)
  (st : Heap * Registry) : Heap * Registry :=
  let name := nodeText (ChildByFieldName node "name") src in
  if bool_decide (name = "") then st
  else
    let fqn := qualifyPHP namespace name in
    let d := findDocComment node src in
    let sym :=
      symbol fqn name KindFunction "php" d
             (extractPHPParams (ChildByFieldName node "parameters") src d)
             (ParseReturn d) "" file node in
    scanBody node fqn (addSymbol sym st).

Definition handleMethod (node : Node) (namespace : string)
  (classStack : list string) (st : Heap * Registry) : Heap * Registry :=
  let name := nodeText (ChildByFieldName node "name") src in
  match last classStack with
  | None => st
  | Some classFQN =>
      if bool_decide (name = "") then st
      else
        let methodID := classFQN +:+ "::" +:+ name in
        let d := findDocComment node src in
        let sym :=
          symbol methodID name KindMethod "php" d
                 (extractPHPParams (ChildByFieldName node "parameters") src d)
                 (ParseReturn d) classFQN file node in
        scanBody node methodID (addMember classFQN methodID (addSymbol sym st))
  end.

Definition processClassBody (body : Node) (namespace : string)
  (classStack : list string) (st : Heap * Registry) : Heap * Registry :=
  forNamed
    (fun child st =>
       if bool_decide (NodeType child = "method_declaration")
       then handleMethod child namespace classStack st else st)
    (Children body) st.

Definition classBody (node : Node) (namespace : string)
  (classStack : list string) (fqn : string) (st : Heap * Registry)
  : Heap * Registry :=
  match childByType node "declaration_list" with
  | Some body => processClassBody body namespace (classStack ++ [fqn]) st
  | None => st
  end.

Definition handleClass (node : Node) (namespace : string)
  (classStack : list string) (st : Heap * Registry) : Heap * Registry :=
  let name := nodeText (ChildByFieldName node "name") src in
  if bool_decide (name = "") then st
  else
    let fqn := qualifyPHP namespace name in
    let d := findDocComment node src in
    let sym :=
      set_Implements (clauseNames node "class_interface_clause" src)
        (set_Extends (clauseNames node "base_clause" src)
           (symbol fqn name KindClass "php" d [] None "" file node)) in
    classBody node namespace classStack fqn (addSymbol sym st).

Definition handleInterface (node : Node) (namespace : string)
  (classStack : list string) (st : Heap * Registry) : Heap * Registry :=
  let name := nodeText (ChildByFieldName node "name") src in
  if bool_decide (name = "") then st
  else
    let fqn := qualifyPHP namespace name in
    let d := findDocComment node src in
    let sym :=
      set_Extends (clauseNames node "base_clause" src)
        (symbol fqn name KindInterface "php" d [] None "" file node) in
    classBody node namespace classStack fqn (addSymbol sym st).

Definition handleTrait (node : Node) (namespace : string)
  (classStack : list string) (st : Heap * Registry) : Heap * Registry :=
  let name := nodeText (ChildByFieldName node "name") src in
  if bool_decide (name = "") then st
  else
    let fqn := qualifyPHP namespace name in
    let d := findDocComment node src in
    let sym := symbol fqn name KindTrait "php" d [] None "" file node in
    classBody node namespace classStack fqn (addSymbol sym st).

Definition processNode (node : Node) (namespace : string)
  (classStack : list string) (st : Heap * Registry) : Heap * Registry :=
  if bool_decide (NodeType node = "function_definition")
  then handleFunction node namespace st
  else if bool_decide (NodeType node = "class_declaration")
  then handleClass node namespace classStack st
  else if bool_decide (NodeType node = "interface_declaration")
  then handleInterface node namespace classStack st
  else if bool_decide (NodeType node = "trait_declaration")
  then handleTrait node namespace classStack st
  else st.

(** [processChildren]; the state of the loop is [currentNS] and the store. *)
Fixpoint processChildren (node : Node) (namespace : string)
  (classStack : list string) (st : Heap * Registry) : Heap * Registry :=
  (forNamed
     (fun child '(currentNS, st) =>
        if bool_decide (NodeType child = "namespace_definition") then
          let ns := nodeText (ChildByFieldName child "name") src in
          withField "body"
            (fun body => (currentNS, processChildren body ns classStack st))
            (ns, st) (Children child)
        else (currentNS, processNode child currentNS classStack st))
     (Children node) (namespace, st)).2.

Definition extractPHP (root : Node) (st : Heap * Registry) : Heap * Registry :=
  processChildren root "" [] st.

End PHP.

(** ** The JS/TS extractor ([internal/parser/js.go]) *)

(** [parseJSDocParam]. *)
Definition parseJSDocParam (raw : string) : Param :=
  let raw := strings.TrimSpace raw in
  let '(type, raw) :=
    if strings.HasPrefix raw "{" then
      match strings.Index raw "}" with
      | Some endBrace =>
          (strings.slice 1 endBrace raw,
           strings.TrimSpace (strings.slice_from (endBrace + 1) raw))
      | None => ("", raw)
      end
    else ("", raw) in
  let parts := strings.SplitN2 raw " " in
  {| Param_Name := strings.TrimPrefix (default "" (parts !! 0)) "$";
     Param_Type := type;
     Param_Description :=
       match parts !! 1 with
       | Some rest => strings.TrimSpace rest
       | None => ""
       end;
     Param_Default := "";
     IsVariadic := false; IsNullable := false; IsPassByRef := false |}.

Definition jsDocMap (d : DocBlock) : gmap string Param :=
  foldl (fun m raw =>
           let p := parseJSDocParam raw in
           if bool_decide (Param_Name p ≠ "") then <[Param_Name p := p]> m else m)
        ∅ (tagValues d "param").

(** The switch on [param.Type()] in [extractJSParams]: the name and the
    type of one parameter. *)
Definition jsParamName (param : Node) (src : string) : string * string :=
  if bool_decide (NodeType param = "identifier") then
    (nodeText (Some param) src, "")
  else if bool_decide (NodeType param = "required_parameter")
          || bool_decide (NodeType param = "optional_parameter") then
    (match ChildByFieldName param "pattern" with
     | Some n => nodeText (Some n) src
     | None =>
         match ChildByFieldName param "name" with
         | Some n => nodeText (Some n) src
         | None => ""
         end
     end,
     match ChildByFieldName param "type" with
     | Some t => strings.TrimPrefix (nodeText (Some t) src) ": "
     | None => ""
     end)
  else if bool_decide (NodeType param = "formal_parameter") then
    (match ChildByFieldName param "name" with
     | Some n => nodeText (Some n) src
     | None => ""
     end, "")
  else (nodeText (Some param) src, "").

Definition jsParam (docMap : gmap string Param) (src : string) (param : Node)
  : option Param :=
  let '(name, typeName) := jsParamName param src in
  if bool_decide (name = "") then None
  else
    Some
      match docMap !! name with
      | Some dp =>
          {| Param_Name := name;
             Param_Type := if bool_decide (typeName = "")
                           then Param_Type dp else typeName;
             Param_Description := Param_Description dp;
             Param_Default := "";
             IsVariadic := false; IsNullable := false; IsPassByRef := false |}
      | None =>
          {| Param_Name := name; Param_Type := typeName;
             Param_Description := ""; Param_Default := "";
             IsVariadic := false; IsNullable := false; IsPassByRef := false |}
      end.

Definition extractJSParams (paramsNode : option Node) (src : string)
  (d : DocBlock) : list Param :=
  match paramsNode with
  | None => []
  | Some pn => omap (jsParam (jsDocMap d) src) (NamedChildren pn)
  end.

(** [jsReturn]. *)
Definition jsReturn (node : Node) (src : string) (d : DocBlock)
  : option ReturnValue :=
  match ChildByFieldName node "return_type" with
  | Some retType =>
      Some {| Return_Type := strings.TrimPrefix (nodeText (Some retType) src) ": ";
              Return_Description := "" |}
  | None =>
      match ParseReturn d with
      | Some ret => Some ret
      | None =>
          match tagValues d "returns" with
          | [] => None
          | raw :: _ =>
              let raw := strings.TrimSpace raw in
              match (if strings.HasPrefix raw "{"
                     then strings.Index raw "}" else None) with
              | Some endBrace =>
                  Some {| Return_Type := strings.slice 1 endBrace raw;
                          Return_Description :=
                            strings.TrimSpace
                              (strings.slice_from (endBrace + 1) raw) |}
              | None => Some {| Return_Type := raw; Return_Description := "" |}
              end
          end
      end
  end.

Module js.

Section JS.

Variable src file : string.

Definition handleFunction (node : Node) (st : Heap * Registry)
  : Heap * Registry :=
  let name := nodeText (ChildByFieldName node "name") src in
  if bool_decide (name = "") then st
  else
    let d := findDocComment node src in
    addSymbol
      (symbol name name KindFunction "js" d
              (extractJSParams (ChildByFieldName node "parameters") src d)
              (jsReturn node src d) "" file node)
      st.

Definition handleMethod (node : Node) (classStack : list string)
  (st : Heap * Registry) : Heap * Registry :=
  let name := nodeText (ChildByFieldName node "name") src in
  match last classStack with
  | None => st
  | Some classFQN =>
      if bool_decide (name = "") then st
      else
        let methodID := classFQN +:+ "." +:+ name in
        let d := findDocComment node src in
        addMember classFQN methodID
          (addSymbol
             (symbol methodID name KindMethod "js" d
                     (extractJSParams (ChildByFieldName node "parameters") src d)
                     (jsReturn node src d) classFQN file node)
             st)
  end.

Definition processClassBody (body : Node) (classStack : list string)
  (st : Heap * Registry) : Heap * Registry :=
  forNamed
    (fun child st =>
       if bool_decide (NodeType child = "method_definition")
       then handleMethod child classStack st else st)
    (Children body) st.

(** The loop over the clauses of a [class_heritage] node. *)
Definition heritage (node : Node) (sym : Symbol) : Symbol :=
  forNamed
    (fun clause sym =>
       let names := (fun n => nodeText (Some n) src) <$> NamedChildren clause in
       if bool_decide (NodeType clause = "extends_clause")
       then set_Extends (Extends sym ++ names) sym
       else if bool_decide (NodeType clause = "implements_clause")
       then set_Implements (Implements sym ++ names) sym
       else sym)
    (Children node) sym.

Definition handleClass (node : Node) (classStack : list string)
  (st : Heap * Registry) : Heap * Registry :=
  let name := nodeText (ChildByFieldName node "name") src in
  if bool_decide (name = "") then st
  else
    let d := findDocComment node src in
    let sym := symbol name name KindClass "js" d [] None "" file node in
    let sym :=
      match childByType node "class_heritage" with
      | Some h => heritage h sym
      | None => sym
      end in
    let st := addSymbol sym st in
    match ChildByFieldName node "body" with
    | Some body => processClassBody body (classStack ++ [name]) st
    | None => st
    end.

Definition handleInterface (node : Node) (st : Heap * Registry)
  : Heap * Registry :=
  let name := nodeText (ChildByFieldName node "name") src in
  if bool_decide (name = "") then st
  else
    let d := findDocComment node src in
    let sym := symbol name name KindInterface "js" d [] None "" file node in
    addSymbol
      (set_Extends
         (match childByType node "extends_type_clause" with
          | Some heritage =>
              (fun n => nodeText (Some n) src) <$> NamedChildren heritage
          | None => []
          end) sym)
      st.

Definition handleVarDecl (node : Node) (st : Heap * Registry)
  : Heap * Registry :=
  forNamed
    (fun declarator st =>
       if bool_decide (NodeType declarator ≠ "variable_declarator") then st
       else
         match ChildByFieldName declarator "name",
               ChildByFieldName declarator "value" with
         | Some nameNode, Some valueNode =>
             if bool_decide (NodeType valueNode = "arrow_function")
                || bool_decide (NodeType valueNode = "function_expression")
                || bool_decide (NodeType valueNode = "function")
             then
               let name := nodeText (Some nameNode) src in
               if bool_decide (name = "") then st
               else
                 let d := findDocComment node src in
                 addSymbol
                   (symbol name name KindFunction "js" d
                           (extractJSParams
                              (ChildByFieldName valueNode "parameters") src d)
                           (jsReturn valueNode src d) "" file node)
                   st
             else st
         | _, _ => st
         end)
    (Children node) st.

(** [processNode], with the loop of [processChildren] where it calls it. *)
Fixpoint processNode (node : Node) (classStack : list string)
  (st : Heap * Registry) : Heap * Registry :=
  if bool_decide (NodeType node = "function_declaration")
  then handleFunction node st
  else if bool_decide (NodeType node = "class_declaration")
  then handleClass node classStack st
  else if bool_decide (NodeType node = "interface_declaration")
  then handleInterface node st
  else if bool_decide (NodeType node = "export_statement")
  then forNamed (fun child st => processNode child classStack st)
                (Children node) st
  else if bool_decide (NodeType node = "lexical_declaration")
          || bool_decide (NodeType node = "variable_declaration")
  then handleVarDecl node st
  else st.

Definition processChildren (node : Node) (classStack : list string)
  (st : Heap * Registry) : Heap * Registry :=
  forNamed (fun child st => processNode child classStack st) (Children node) st.

Definition extractJS (root : Node) (st : Heap * Registry) : Heap * Registry :=
  processChildren root [] st.

End JS.

End js.

End parser.

(** ** Notions used to state the properties *)

(** The store is well formed when every pointer of the primary index is
    allocated and is filed under the ID of its record, and every pointer of
    the kind index is allocated.  [Add] files a record under its ID and no
    code writes an ID afterwards, so every store that the program builds is
    well formed. *)
Definition wf (h : Heap) (r : Registry) : Prop :=
  map_Forall (fun k p => p < length h /\ ID (deref h p) = k) (symbols r)
  /\ map_Forall (fun _ l => Forall (fun p => p < length h) l) (byKind r).

#[global] Instance wf_dec h r : Decision (wf h r).
Proof. unfold wf. apply _. Defined.

(** A symbol without the five fields that the resolver writes. *)
Definition skeleton (s : Symbol) : Symbol :=
  set_Extends [] (set_Implements [] (set_UsedBy [] (set_Overrides ""
    (set_SeeAlso [] s)))).

(** What pass 1 writes for the entry [name]. *)
Definition resolveName (h : Heap) (r : Registry) (all : list ptr)
  (name : string) : string :=
  match findSymbol h r all name with
  | Some q => ID (deref h q)
  | None => name
  end.

(** The number of entries of [names] that [findSymbol] resolves. *)
Definition resolvable (h : Heap) (r : Registry) (all : list ptr)
  (names : list string) : nat :=
  length (filter (fun e => is_Some (findSymbol h r all e)) names).

(** The symbols that pass 1 visits. *)
Definition classLike (s : Symbol) : bool :=
  bool_decide (Kind s = KindClass) || bool_decide (Kind s = KindInterface).

(** What pass 1 does to one symbol, [rn] being what it writes for an entry. *)
Definition inherit (rn : string -> string) (s : Symbol) : Symbol :=
  if classLike s
  then set_Implements (rn <$> Implements s) (set_Extends (rn <$> Extends s) s)
  else s.

(** By how much pass 1 moves its counters for one symbol. *)
Definition inheritCount (h : Heap) (r : Registry) (all : list ptr)
  (s : Symbol) : nat :=
  if classLike s
  then resolvable h r all (Extends s) + resolvable h r all (Implements s)
  else 0.

(** [k] times [r.stats.Inheritance++; r.stats.Resolved++]. *)
Definition addInheritance (k : nat) (st : Stats) : Stats :=
  {| Resolved := Resolved st + k; Unresolved := Unresolved st;
     Inheritance := Inheritance st + k; HookBindings := HookBindings st |}.

(** The symbol that pass 3 rewrites the reference [raw] to, if any. *)
Definition seeTarget (h : Heap) (r : Registry) (all : list ptr)
  (raw : string) : option nat :=
  let ref := strings.TrimSpace raw in
  if bool_decide (ref = "") then None
  else findSymbol h r all (strings.TrimSuffix ref "()").

(** What pass 3 writes for the reference [raw]. *)
Definition seeName (h : Heap) (r : Registry) (all : list ptr)
  (raw : string) : string :=
  match seeTarget h r all raw with
  | Some q => ID (deref h q)
  | None => raw
  end.

(** The references of [raws] that pass 3 resolves, and those that it looks
    up in vain. *)
Definition seeResolved (h : Heap) (r : Registry) (all : list ptr)
  (raws : list string) : nat :=
  length (filter (fun raw => is_Some (seeTarget h r all raw)) raws).

Definition seeUnresolved (h : Heap) (r : Registry) (all : list ptr)
  (raws : list string) : nat :=
  length (filter (fun raw => strings.TrimSpace raw ≠ ""
                             /\ seeTarget h r all raw = None) raws).

(** [k] times [r.stats.Resolved++] and [u] times [r.stats.Unresolved++]. *)
Definition addSee (k u : nat) (st : Stats) : Stats :=
  {| Resolved := Resolved st + k; Unresolved := Unresolved st + u;
     Inheritance := Inheritance st; HookBindings := HookBindings st |}.

(** What pass 3 does to one symbol. *)
Definition see (sn : string -> string) (s : Symbol) : Symbol :=
  set_SeeAlso (sn <$> SeeAlso (Doc s)) s.

(** [s.UsedBy = appendUnique(s.UsedBy, id)]. *)
Definition addUsedBy (id : string) (s : Symbol) : Symbol :=
  set_UsedBy (appendUnique (UsedBy s) id) s.

(** The same for a list of pairs of a target and an ID, in order. *)
Definition link (h : Heap) (edges : list (nat * string)) : Heap :=
  foldl (fun h e => alter (addUsedBy e.2) e.1 h) h edges.

(** A symbol without its [UsedBy], and without [UsedBy] and [Overrides]. *)
Definition E2 (s : Symbol) : Symbol := set_UsedBy [] s.
Definition E4 (s : Symbol) : Symbol := set_Overrides "" (set_UsedBy [] s).

(** The IDs that [edges] add to [q]. *)
Definition incoming (q : nat) (edges : list (nat * string)) : list string :=
  (filter (fun e => e.1 = q) edges).*2.

(** The symbols that pass 2 visits. *)
Definition funcLike (s : Symbol) : bool :=
  bool_decide (Kind s = KindFunction) || bool_decide (Kind s = KindMethod).

(** The additions that pass 2 makes for one symbol, for all of [l]. *)
Definition hookEdges (byTag : gmap string nat) (s : Symbol) : list (nat * string) :=
  if funcLike s
  then (fun hk => (hk, ID s)) <$> omap (fun u => byTag !! u) (Uses s)
  else [].

(** [k] times [r.stats.HookBindings++; r.stats.Resolved++]. *)
Definition addBindings (k : nat) (st : Stats) : Stats :=
  {| Resolved := Resolved st + k; Unresolved := Unresolved st;
     Inheritance := Inheritance st; HookBindings := HookBindings st + k |}.

Definition allHookEdges (byTag : gmap string nat) (h : Heap)
  (l : list ptr) : list (nat * string) :=
  l ≫= (fun p => hookEdges byTag (deref h p)).

(** The method that pass 4 finds [sym] to override, if any. *)
Definition overrideTarget (h : Heap) (r : Registry) (sym : nat)
  : option nat :=
  let s := deref h sym in
  if bool_decide (Kind s ≠ KindMethod) || bool_decide (ParentID s = "") then None
  else
    match Get r (ParentID s) with
    | None => None
    | Some parent => findOverride r (Name s) (Extends (deref h parent))
    end.

(** [k] times [r.stats.Resolved++]. *)
Definition addResolved (k : nat) (st : Stats) : Stats :=
  {| Resolved := Resolved st + k; Unresolved := Unresolved st;
     Inheritance := Inheritance st; HookBindings := HookBindings st |}.

(** The writes of [Overrides] that pass 4 makes for [l], and its additions
    to [UsedBy]; [h0] is the heap before the pass. *)
Definition setOverrides (h0 : Heap) (r : Registry) (l : list ptr)
  (h : Heap) : Heap :=
  foldl (fun h a =>
           match overrideTarget h0 r a with
           | Some pm => alter (set_Overrides (ID (deref h0 pm))) a h
           | None => h
           end) h l.

Definition overrideEdges (h0 : Heap) (r : Registry) (l : list ptr)
  : list (nat * string) :=
  omap (fun a => (fun pm => (pm, ID (deref h0 a))) <$> overrideTarget h0 r a) l.

(** What pass 4 does to the [Overrides] of the symbol at [p]. *)
Definition override (h0 : Heap) (r : Registry) (p : nat) (s : Symbol)
  : Symbol :=
  match overrideTarget h0 r p with
  | Some pm => set_Overrides (ID (deref h0 pm)) s
  | None => s
  end.

(** Two heaps that differ at most in the order of the [UsedBy] lists. *)
Definition similar (h h' : Heap) : Prop :=
  length h = length h'
  /\ forall p, E2 (deref h p) = E2 (deref h' p)
               /\ UsedBy (deref h p) ≡ₚ UsedBy (deref h' p).

(** The entry [ext] of [Extends] is registered and has a registered method
    [name]. *)
Definition candidate (r : Registry) (name ext : string) (pm : nat) : Prop :=
  is_Some (Get r ext) /\ Get r (ext +:+ "::" +:+ name) = Some pm.

(** An entry of a reference list is kept, or rewritten to a registered ID. *)
Definition kept (r : Registry) (e e' : string) : Prop :=
  e' = e \/ is_Some (Get r e').

(** What a pass may do to one symbol: nothing to its ID and to the fields
    that the resolver does not own; the entries of [Extends], [Implements]
    and of the see-also list stay where they are and are kept or rewritten
    to a registered ID; [UsedBy] is extended at its end; [Overrides] is kept
    or set to a registered ID, and is not emptied. *)
Definition grows (r : Registry) (s s' : Symbol) : Prop :=
  skeleton s' = skeleton s
  /\ Forall2 (kept r) (Extends s) (Extends s')
  /\ Forall2 (kept r) (Implements s) (Implements s')
  /\ Forall2 (kept r) (SeeAlso (Doc s)) (SeeAlso (Doc s'))
  /\ UsedBy s `prefix_of` UsedBy s'
  /\ (Overrides s' = Overrides s \/ is_Some (Get r (Overrides s')))
  /\ (Overrides s ≠ "" -> Overrides s' ≠ "").

(** What a pass may do to the store. *)
Definition monotone (R R' : Resolver) : Prop :=
  registry R' = registry R
  /\ length (mem R') = length (mem R)
  /\ forall p, grows (registry R) (deref (mem R) p) (deref (mem R') p).

(** No byte of [s] is in [seps]. *)
Definition sepFree (seps s : string) : Prop :=
  Forall (fun c => strings.byte_in c seps = false) (list_ascii_of_string s).

(** [short] is what follows the last byte of [name] that is in [seps]. *)
Definition shortNameAfter (seps name short : string) : Prop :=
  sepFree seps short
  /\ (name = short
      \/ exists pre c, strings.byte_in c seps = true
                       /\ name = pre +:+ String c short).

(** [shortNameOf] for any set of separators. *)
Definition shortAfter (seps name : string) : string :=
  match strings.LastIndexAny name seps with
  | Some idx => strings.slice_from (idx + 1) name
  | None => name
  end.

(** The lookup as the specification words it, the short name being taken
    after the last namespace separator or path separator. *)
Definition nameLookup_words (h : Heap) (r : Registry) (all : list ptr)
  (name : string) : option nat :=
  match Get r name with
  | Some s => Some s
  | None =>
      match Get r (strings.ReplaceAll name "/" "\") with
      | Some s => Some s
      | None =>
          match filter (fun sym => Name (deref h sym) = shortAfter "\/" name)
                       all with
          | [c] => Some c
          | _ => None
          end
      end
  end.

(** ** What the extractors write *)

(** A record as the extractors make it, [r] being the registry at that
    time: the fields that the resolver fills are empty, it has an ID, a name
    and one of the two languages, the owning class of a method is registered
    and is the first part of its ID, before the separator of the language
    of the method, and a hook carries its tag and a call site. *)
Definition extracted (r : Registry) (s : Symbol) : Prop :=
  Uses s = [] /\ UsedBy s = [] /\ Overrides s = ""
  /\ ID s ≠ "" /\ Name s ≠ ""
  /\ (Language s = "php" \/ Language s = "js")
  /\ (Kind s = KindMethod ->
      is_Some (Get r (ParentID s))
      /\ (Language s = "php" /\ ID s = ParentID s +:+ "::" +:+ Name s
          \/ Language s = "js" /\ ID s = ParentID s +:+ "." +:+ Name s))
  /\ (Kind s = KindHook ->
      ID s = "hook:" +:+ HookTag s /\ Name s = HookTag s
      /\ HookTag s ≠ "" /\ CallSites s ≠ []).

(** The three writes of the extractors: a new record is added, a method is
    listed with its class, a call site is listed with its hook. *)
Inductive write : Heap * Registry -> Heap * Registry -> Prop :=
| write_symbol (sym : Symbol) (st : Heap * Registry) :
    extracted st.2 sym -> write st (parser.addSymbol sym st)
| write_member (classFQN methodID : string) (st : Heap * Registry) :
    write st (parser.addMember classFQN methodID st)
| write_callSite (id callerID : string) (existing : ptr) (st : Heap * Registry) :
    Get st.2 id = Some existing ->
    write st
      (alter (fun s => set_CallSites (CallSites s ++ [callerID]) s) existing st.1,
       st.2).

Definition writes : relation (Heap * Registry) := rtc write.

(** Two records that differ at most in [Extends] and [Implements]. *)
Definition same_but_parents (s s' : Symbol) : Prop :=
  ID s' = ID s /\ Name s' = Name s /\ Kind s' = Kind s
  /\ Language s' = Language s /\ Uses s' = Uses s /\ UsedBy s' = UsedBy s
  /\ Overrides s' = Overrides s.

(** The stores that runs of the extractors make, one run after the other:
    the empty one, and what an extractor makes of one of them.  These are
    the stores that the command holds when it parsed with one worker. *)
Inductive ingested : Heap * Registry -> Prop :=
| ingested_empty : ingested ([], NewRegistry)
| ingested_php (src file : string) (root : sitter.Node) (st : Heap * Registry) :
    ingested st -> ingested (parser.extractPHP src file root st)
| ingested_js (src file : string) (root : sitter.Node) (st : Heap * Registry) :
    ingested st -> ingested (parser.js.extractJS src file root st).

(** Every cell of the heap is listed in the kind index and in the file
    index. *)
Definition indexed (h : Heap) (r : Registry) : Prop :=
  forall p, p < length h ->
    p ∈ ByKind r (Kind (deref h p))
    /\ p ∈ ByFile r (File (Location (deref h p))).

(** The pre-order of the nodes that [walkTree] calls [fn] on. *)
Fixpoint visited (node : sitter.Node) : list sitter.Node :=
  node :: flat_map (fun c => if sitter.IsNamed c then visited c else [])
                   (sitter.Children node).




(** A record after more was extracted: it has gained members or call sites
    at most.  And a store after more was extracted: the records it had are
    where they were, the lists of the indices were extended at their end,
    and an ID leads to the record it led to or to a new one. *)
Definition extends_record (s s' : Symbol) : Prop :=
  parser.set_Members [] (set_CallSites [] s')
  = parser.set_Members [] (set_CallSites [] s)
  /\ Members s `prefix_of` Members s'
  /\ CallSites s `prefix_of` CallSites s'.

Definition extends_store (st st' : Heap * Registry) : Prop :=
  length st.1 <= length st'.1
  /\ (forall p, p < length st.1 -> extends_record (deref st.1 p) (deref st'.1 p))
  /\ (forall k, ByKind st.2 k `prefix_of` ByKind st'.2 k)
  /\ (forall f, ByFile st.2 f `prefix_of` ByFile st'.2 f)
  /\ (forall id p, Get st'.2 id = Some p ->
        Get st.2 id = Some p \/ length st.1 <= p)
  /\ (forall id, is_Some (Get st.2 id) -> is_Some (Get st'.2 id)).

(** ** Source trees used in the worked instances *)

(** A PHP symbol with the given identity, references and hook tag. *)
Definition symbolOf (id name kind parent : string)
  (exts impls uses sees : list string) (tag : string) : Symbol :=
  {| ID := id; Name := name; Kind := kind; Language := "php"; Namespace := "";
     Doc := {| Summary := ""; Description := ""; Tags := ∅; Since := "";
               Deprecated := ""; SeeAlso := sees; Links := []; Access := "" |};
     Params := []; Returns := None; Extends := exts;
     Implements := impls; Members := []; ParentID := parent; HookType := "";
     HookTag := tag; CallSites := []; UsedBy := []; Uses := uses; Overrides := "";
     Location := zeroLocation |}.

(** The registry after [Add] of every cell of [h], in order. *)
Definition registryOf (h : Heap) : Registry :=
  foldl (Add h) NewRegistry (seq 0 (length h)).

(** Scenarios B, C and D of the specification in one source tree. *)
Definition scenario_heap : Heap :=
  [ symbolOf "Base" "Base" KindClass "" [] [] [] [] "";
    symbolOf "Base::save" "save" KindMethod "Base" [] [] [] [] "";
    symbolOf "Child" "Child" KindClass "" ["Base"] ["Bar"] [] [] "";
    symbolOf "Child::save" "save" KindMethod "Child" [] [] []
             ["some_function()"; ""] "";
    symbolOf "some_function" "some_function" KindFunction "" [] [] ["init"] [] "";
    symbolOf "hook:init" "init" KindHook "" [] [] [] [] "init" ].

Definition scenario_registry : Registry := registryOf scenario_heap.
Definition scenario_all : list ptr := All_canonical scenario_registry.
Definition scenario : Resolver := New scenario_registry scenario_heap.

(** Two classes that extend [Base] and both redefine its method [save]. *)
Definition family_heap : Heap :=
  [ symbolOf "Base" "Base" KindClass "" [] [] [] [] "";
    symbolOf "Base::save" "save" KindMethod "Base" [] [] [] [] "";
    symbolOf "First" "First" KindClass "" ["Base"] [] [] [] "";
    symbolOf "First::save" "save" KindMethod "First" [] [] [] [] "";
    symbolOf "Second" "Second" KindClass "" ["Base"] [] [] [] "";
    symbolOf "Second::save" "save" KindMethod "Second" [] [] [] [] "" ].
Definition family_registry : Registry := registryOf family_heap.
Definition family : Resolver := New family_registry family_heap.
Definition family_order : list ptr := All_canonical family_registry.

(** A symbol whose docblock has a bare [@see] line. *)
Definition bare_see_heap : Heap :=
  [ symbolOf "f" "f" KindFunction "" [] [] [] [""] "" ].
Definition bare_see : Resolver := New (registryOf bare_see_heap) bare_see_heap.

(** One method named [bar], of the class [Baz]. *)
Definition member_heap : Heap :=
  [ symbolOf "Baz::bar" "bar" KindMethod "Baz" [] [] [] [] "" ].
Definition member_registry : Registry := registryOf member_heap.

(** Two records that carry the same ID. *)
Definition twice_heap : Heap :=
  [ symbolOf "f" "f" KindFunction "" [] [] [] [] "";
    symbolOf "f" "f" KindFunction "" [] [] [] ["g"] "" ].

(** A hook call [do_action('init')] at line [line] of the function [caller]. *)
Definition initCall (caller : string) (line : nat) : HookEvent :=
  {| ev_call := {| call_tag := "init"; call_doc := zeroDoc;
                   call_startLine := line; call_endLine := line |};
     ev_hookType := HookAction; ev_callerID := caller; ev_file := "a.php" |}.

(** The same call in the file [file]. *)
Definition initCallIn (file caller : string) (line : nat) : HookEvent :=
  {| ev_call := {| call_tag := "init"; call_doc := zeroDoc;
                   call_startLine := line; call_endLine := line |};
     ev_hookType := HookAction; ev_callerID := caller; ev_file := file |}.

(** A hook docblock without parameter lines. *)
Definition noParams : string -> option (string * string * string) :=
  fun _ => None.

(** A file system where no file can be read, and the state that a run with
    one worker and two files ends in. *)
Definition unreadable : string -> option string := fun _ => None.
Definition noTree : parser.Grammar -> string -> option unit := fun _ _ => None.
Definition noExtract (root : unit) (src file : string) (st : Heap * Registry)
  : Heap * Registry := st.

Definition blocked : parser.Pool :=
  {| parser.ch := [];
     parser.errCh := ["a.php: reading file"];
     parser.workers := [parser.Sending "b.php: reading file"];
     parser.store := ([], NewRegistry) |}.

(** A PHP file with a class, a method and a hook call in its body, and a JS
    file with one function, as tree-sitter gives them: each node with its
    type, its field, its bytes and its children. *)
Definition base_src : string :=
  "<?php class Base { function save() { do_action('saved'); } }".

Definition leaf (type : string) (field : option string) (a b : nat)
  : sitter.Node :=
  sitter.mkNode type true field a b 0 0 [].

Definition inner (type : string) (field : option string) (a b : nat)
  (children : list sitter.Node) : sitter.Node :=
  sitter.mkNode type true field a b 0 0 children.

Definition base_call : sitter.Node :=
  inner "function_call_expression" None 37 55
    [leaf "name" (Some "function") 37 46;
     inner "arguments" (Some "arguments") 46 55
       [inner "argument" None 47 54 [leaf "string" None 47 54]]].

Definition base_method : sitter.Node :=
  inner "method_declaration" None 19 58
    [leaf "name" (Some "name") 28 32;
     leaf "formal_parameters" (Some "parameters") 32 34;
     inner "compound_statement" (Some "body") 35 58
       [inner "expression_statement" None 37 56 [base_call]]].

Definition base_tree : sitter.Node :=
  inner "program" None 0 60
    [inner "class_declaration" None 6 60
       [leaf "name" (Some "name") 12 16;
        inner "declaration_list" (Some "body") 17 60 [base_method]]].

Definition boot_src : string := "function boot() {}".

Definition boot_tree : sitter.Node :=
  inner "program" None 0 18
    [inner "function_declaration" None 0 18
       [leaf "identifier" (Some "name") 9 13;
        leaf "formal_parameters" (Some "parameters") 13 15;
        leaf "statement_block" (Some "body") 16 18]].

(** The store after the two files were parsed, and after the first only. *)
Definition base_store : Heap * Registry :=
  parser.extractPHP base_src "base.php" base_tree ([], NewRegistry).

Definition parsed_store : Heap * Registry :=
  parser.js.extractJS boot_src "boot.js" boot_tree base_store.

(** A file system that holds the PHP file, and a parser that knows it. *)
Definition disk (path : string) : option string :=
  if bool_decide (path = "base.php") then Some base_src else None.

Definition parse (lang : parser.Grammar) (src : string) : option sitter.Node :=
  if bool_decide (src = base_src) then Some base_tree else None.

Definition php_of (root : sitter.Node) (src file : string)
  (st : Heap * Registry) : Heap * Registry :=
  parser.extractPHP src file root st.

Definition js_of (root : sitter.Node) (src file : string)
  (st : Heap * Registry) : Heap * Registry :=
  parser.js.extractJS src file root st.

(** A docblock of four lines, and a method with a docblock and a modifier
    before it. *)
Definition save_doc : string :=
  "/**" +:+ String parser.LF " * Saves it." +:+ String parser.LF " * @since 1.0"
  +:+ String parser.LF " */".

Definition save_node : sitter.Node := leaf "method_declaration" None 27 45.

(** * Properties *)

(** ** The registry *)

Lemma Get_Add h r p id :
  Get (Add h r p) id = if decide (ID (deref h p) = id) then Some p else Get r id.
Proof. unfold Get, Add; simpl. apply lookup_insert. Qed.

Lemma slice_at_insert m k v k' :
  slice_at (<[k := v]> m) k' = if decide (k = k') then v else slice_at m k'.
Proof. unfold slice_at. rewrite lookup_insert. by case_decide. Qed.

Lemma ByKind_Add h r p k :
  ByKind (Add h r p) k =
  if decide (Kind (deref h p) = k) then ByKind r k ++ [p] else ByKind r k.
Proof. unfold ByKind, Add; simpl. rewrite slice_at_insert. case_decide; by subst. Qed.

Lemma ByFile_Add h r p f :
  ByFile (Add h r p) f =
  if decide (File (Location (deref h p)) = f) then ByFile r f ++ [p] else ByFile r f.
Proof. unfold ByFile, Add; simpl. rewrite slice_at_insert. case_decide; by subst. Qed.

Lemma Count_Add h r p :
  Count (Add h r p) =
  if Get r (ID (deref h p)) is Some _ then Count r else S (Count r).
Proof.
  unfold Count, Get, Add; simpl.
  destruct (symbols r !! ID (deref h p)) eqn:E.
  - rewrite map_size_insert_Some; eauto.
  - by rewrite map_size_insert_None.
Qed.

(** Claim C10.  [Add] of two distinct records that carry the same ID: [Get]
    of that ID returns the second record and [Count] is what it was after
    the first [Add]; the first record stays in the kind index and in the
    file index although no ID leads to it any more; and when the two records
    have the same kind (the same file), [ByKind] ([ByFile]) of it grows by
    two, so that on a registry that was empty it returns more entries than
    [Count]. *)
Theorem Add_same_ID_twice (h : list Symbol) (r : Registry) (s1 s2 : nat) :
  s1 ≠ s2 ->
  ID (deref h s1) = ID (deref h s2) ->
  (forall id, Get r id ≠ Some s1) ->
  let id := ID (deref h s1) in
  let k := Kind (deref h s1) in
  let f := File (Location (deref h s1)) in
  let r1 := Add h r s1 in
  let r2 := Add h r1 s2 in
  Get r2 id = Some s2
  /\ Count r2 = Count r1
  /\ s1 ∈ ByKind r2 k
  /\ s1 ∈ ByFile r2 f
  /\ (forall id', Get r2 id' ≠ Some s1)
  /\ (Kind (deref h s2) = k ->
      length (ByKind r2 k) = S (S (length (ByKind r k)))
      /\ (Count r = 0 -> Count r2 < length (ByKind r2 k)))
  /\ (File (Location (deref h s2)) = f ->
      length (ByFile r2 f) = S (S (length (ByFile r f)))
      /\ (Count r = 0 -> Count r2 < length (ByFile r2 f))).
Proof.
  intros Hne Hid Hfresh id k f r1 r2.
  assert (HC1 : Count r1 <= S (Count r)).
  { unfold r1. rewrite Count_Add. destruct (Get r _); lia. }
  assert (HC2 : Count r2 = Count r1).
  { unfold r2. rewrite Count_Add. unfold r1 at 1. rewrite Get_Add, <- Hid.
    by rewrite decide_True. }
  split_and!.
  - unfold r2. rewrite Get_Add. subst id. by rewrite decide_True.
  - done.
  - unfold r2, r1. rewrite !ByKind_Add. subst k.
    rewrite (decide_True (P := Kind (deref h s1) = _)) by done.
    case_decide; set_solver.
  - unfold r2, r1. rewrite !ByFile_Add. subst f.
    rewrite (decide_True (P := File (Location (deref h s1)) = _)) by done.
    case_decide; set_solver.
  - intros id'. unfold r2, r1. rewrite !Get_Add.
    repeat case_decide; first [congruence | apply Hfresh].
  - intros Hk.
    assert (HL : length (ByKind r2 k) = S (S (length (ByKind r k)))).
    { unfold r2, r1. rewrite !ByKind_Add.
      rewrite !decide_True by done. rewrite !length_app. simpl. lia. }
    split; [done | lia].
  - intros Hf.
    assert (HL : length (ByFile r2 f) = S (S (length (ByFile r f)))).
    { unfold r2, r1. rewrite !ByFile_Add.
      rewrite !decide_True by done. rewrite !length_app. simpl. lia. }
    split; [done | lia].
Qed.

(** ** Well-formed stores, and what a write leaves as it is *)

Lemma wf_Get h r k p :
  wf h r -> Get r k = Some p -> p < length h /\ ID (deref h p) = k.
Proof. intros [H _] Hk. exact (H k p Hk). Qed.

Lemma wf_ByKind h r k p : wf h r -> p ∈ ByKind r k -> p < length h.
Proof.
  intros [_ H] Hp. unfold ByKind, slice_at in Hp.
  destruct (byKind r !! k) as [l|] eqn:Hl; simpl in Hp.
  - specialize (H k l Hl). simpl in H. rewrite Forall_forall in H. by apply H.
  - by apply elem_of_nil in Hp.
Qed.

Section Frames.
Variable E : Symbol -> Symbol.

Lemma deref_alter_eq (f : Symbol -> Symbol) (h : list Symbol) p :
  p < length h -> deref (alter f p h) p = f (deref h p).
Proof.
  intros Hp. unfold deref.
  destruct (lookup_lt_is_Some_2 h p Hp) as [s Hs].
  rewrite (list_lookup_total_correct _ _ _ Hs).
  apply list_lookup_total_correct. rewrite list_lookup_alter_eq, Hs. done.
Qed.

Lemma deref_alter_ne (f : Symbol -> Symbol) (h : list Symbol) p q :
  p ≠ q -> deref (alter f p h) q = deref h q.
Proof.
  intros Hne. unfold deref. rewrite !list_lookup_total_alt.
  by rewrite list_lookup_alter_ne.
Qed.

Lemma deref_alter_ge (f : Symbol -> Symbol) (h : list Symbol) p :
  length h <= p -> alter f p h = h.
Proof.
  revert p. induction h as [|s h IH]; intros [|p] Hp; simpl in *; try done; try lia.
  f_equal. apply IH. lia.
Qed.

Lemma frame_alter (f : Symbol -> Symbol) (h : list Symbol) p :
  (forall s, E (f s) = E s) -> E <$> alter f p h = E <$> h.
Proof.
  intros Hf. revert p. induction h as [|s h IH]; intros [|p]; simpl; try done.
  - by rewrite Hf.
  - f_equal. apply IH.
Qed.

Lemma frame_deref (h h' : list Symbol) p :
  E <$> h' = E <$> h -> E (deref h' p) = E (deref h p).
Proof.
  intros Heq. unfold deref. rewrite !list_lookup_total_alt.
  assert (H : (E <$> h') !! p = (E <$> h) !! p) by by rewrite Heq.
  rewrite !list_lookup_fmap in H.
  destruct (h' !! p), (h !! p); simpl in *; congruence.
Qed.

Lemma frame_length (h h' : list Symbol) :
  E <$> h' = E <$> h -> length h' = length h.
Proof. intros H. apply (f_equal length) in H. by rewrite !length_fmap in H. Qed.
End Frames.

Lemma frame_skeleton (E : Symbol -> Symbol) (h h' : list Symbol) :
  (forall s, skeleton (E s) = skeleton s) ->
  E <$> h' = E <$> h -> skeleton <$> h' = skeleton <$> h.
Proof.
  intros HE Heq.
  assert (H : skeleton <$> (E <$> h') = skeleton <$> (E <$> h)) by by rewrite Heq.
  rewrite <- !list_fmap_compose in H.
  erewrite (list_fmap_ext _ skeleton h'), (list_fmap_ext _ skeleton h) in H;
    [exact H | intros; apply HE | intros; apply HE].
Qed.

Lemma skeleton_fields (h h' : list Symbol) p :
  skeleton <$> h' = skeleton <$> h ->
  ID (deref h' p) = ID (deref h p)
  /\ Name (deref h' p) = Name (deref h p)
  /\ Kind (deref h' p) = Kind (deref h p)
  /\ ParentID (deref h' p) = ParentID (deref h p)
  /\ Uses (deref h' p) = Uses (deref h p)
  /\ HookTag (deref h' p) = HookTag (deref h p).
Proof.
  intros H. apply (frame_deref skeleton _ _ p) in H.
  destruct (deref h' p), (deref h p). by inversion H.
Qed.

Lemma findSymbol_frame (h h' : list Symbol) r all name :
  skeleton <$> h' = skeleton <$> h ->
  findSymbol h' r all name = findSymbol h r all name.
Proof.
  intros H. unfold findSymbol.
  destruct (Get r name); [done|].
  destruct (Get r _); [done|].
  replace (filter (fun sym => Name (deref h' sym) = shortNameOf name) all)
    with (filter (fun sym => Name (deref h sym) = shortNameOf name) all); [done|].
  apply list_filter_iff. intros p.
  by destruct (skeleton_fields h h' p H) as (_ & -> & _).
Qed.

Lemma singleton_perm {A} (l l' : list A) :
  l ≡ₚ l' ->
  match l with [c] => Some c | _ => None end
  = match l' with [c] => Some c | _ => None end.
Proof.
  intros HP. pose proof (Permutation_length HP) as HL.
  destruct l as [|a [|b l]], l' as [|a' [|b' l']]; simpl in *; try done.
  apply Permutation_singleton_l in HP. congruence.
Qed.

Lemma findSymbol_perm (h : list Symbol) r all all' name :
  all ≡ₚ all' -> findSymbol h r all name = findSymbol h r all' name.
Proof.
  intros HP. unfold findSymbol.
  destruct (Get r name); [done|].
  destruct (Get r _); [done|].
  apply singleton_perm. by rewrite HP.
Qed.

Lemma filter_singleton {A} (P : A -> Prop) `{forall x, Decision (P x)}
    (l : list A) (c : A) :
  NoDup l ->
  filter P l = [c] <-> (c ∈ l /\ P c /\ forall q, q ∈ l -> P q -> q = c).
Proof.
  intros ND. split.
  - intros Hf.
    assert (Hc : c ∈ filter P l) by (rewrite Hf; set_solver).
    apply list_elem_of_filter in Hc as [HPc Hc]. split_and!; try done.
    intros q Hq HPq.
    assert (Hq' : q ∈ filter P l) by (apply list_elem_of_filter; done).
    rewrite Hf in Hq'. set_solver.
  - intros (Hc & HPc & Huniq).
    assert (HND : NoDup (filter P l)) by by apply NoDup_filter.
    assert (Hin : c ∈ filter P l) by (apply list_elem_of_filter; done).
    destruct (filter P l) as [|a [|b l']] eqn:Hf.
    + set_solver.
    + f_equal. set_solver.
    + exfalso.
      assert (Ha : a ∈ filter P l) by (rewrite Hf; set_solver).
      assert (Hb : b ∈ filter P l) by (rewrite Hf; set_solver).
      apply list_elem_of_filter in Ha as [HPa Ha].
      apply list_elem_of_filter in Hb as [HPb Hb].
      rewrite (Huniq a Ha HPa), (Huniq b Hb HPb) in HND.
      apply NoDup_cons in HND as [Hn _]. set_solver.
Qed.

Lemma enumerates_elem r all p :
  enumerates r all -> p ∈ all <-> exists k, Get r k = Some p.
Proof.
  unfold enumerates, All_canonical, Get. intros ->.
  rewrite list_elem_of_fmap. split.
  - intros [[k q] [-> Hin]]. exists k. by apply elem_of_map_to_list in Hin.
  - intros [k Hk]. exists (k, p). split; [done|]. by apply elem_of_map_to_list.
Qed.

Lemma enumerates_NoDup h r all : wf h r -> enumerates r all -> NoDup all.
Proof.
  unfold enumerates, All_canonical. intros Hwf ->.
  apply NoDup_fmap_2_strong; [|apply NoDup_map_to_list].
  intros [k p] [k' p'] H1 H2 Heq. simpl in Heq. subst p'.
  apply elem_of_map_to_list in H1, H2.
  destruct (wf_Get _ _ _ _ Hwf H1) as [_ <-].
  destruct (wf_Get _ _ _ _ Hwf H2) as [_ <-]. done.
Qed.

Lemma enumerates_length r all : enumerates r all -> length all = Count r.
Proof.
  unfold enumerates, All_canonical, Count. intros ->.
  by rewrite length_fmap, length_map_to_list.
Qed.

Lemma wf_NewRegistry h : wf h NewRegistry.
Proof. split; intros k x; unfold NewRegistry; simpl; by rewrite lookup_empty. Qed.

Lemma wf_Add h r p : p < length h -> wf h r -> wf h (Add h r p).
Proof.
  intros Hp [H1 H2]. split.
  - intros k q. unfold Add. simpl. rewrite lookup_insert. case_decide as Hk.
    + intros [= <-]. done.
    + apply H1.
  - intros k l. unfold Add. simpl. rewrite lookup_insert. case_decide as Hk.
    + intros [= <-]. apply Forall_app. split; [|by repeat constructor].
      unfold slice_at. destruct (byKind r !! Kind (deref h p)) as [l|] eqn:Hl;
        simpl; [|constructor]. apply (H2 _ l Hl).
    + apply H2.
Qed.

Lemma findSymbol_registered h r all name q :
  wf h r -> enumerates r all ->
  findSymbol h r all name = Some q -> Get r (ID (deref h q)) = Some q.
Proof.
  intros Hwf Hen. unfold findSymbol.
  destruct (Get r name) as [s|] eqn:H1.
  { intros [= ->]. by destruct (wf_Get _ _ _ _ Hwf H1) as [_ ->]. }
  destruct (Get r (strings.ReplaceAll name "/" "\")) as [s|] eqn:H2.
  { intros [= ->]. by destruct (wf_Get _ _ _ _ Hwf H2) as [_ ->]. }
  destruct (filter _ all) as [|c [|c' l]] eqn:Hf; try done.
  intros [= ->].
  assert (Hin : q ∈ all).
  { assert (H : q ∈ filter (fun sym => Name (deref h sym) = shortNameOf name) all)
      by (rewrite Hf; left).
    by apply list_elem_of_filter in H as [_ ?]. }
  apply (enumerates_elem _ _ _ Hen) in Hin as [k Hk].
  by destruct (wf_Get _ _ _ _ Hwf Hk) as [_ ->].
Qed.

(** ** Pass 1: inheritance *)

Lemma deref_alter (f : Symbol -> Symbol) (h : list Symbol) a p :
  f zeroSymbol = zeroSymbol ->
  deref (alter f a h) p = if decide (p = a) then f (deref h p) else deref h p.
Proof.
  intros Hz. case_decide as Hpa.
  - subst a. destruct (decide (p < length h)).
    + by apply deref_alter_eq.
    + rewrite deref_alter_ge by lia. unfold deref.
      rewrite list_lookup_total_alt, (lookup_ge_None_2 h p) by lia. simpl. done.
  - by apply deref_alter_ne.
Qed.

Lemma alter_same (f : Symbol -> Symbol) (h : list Symbol) p :
  (forall s, h !! p = Some s -> f s = s) -> alter f p h = h.
Proof.
  revert p. induction h as [|x h IH]; intros [|p] Hf; simpl; try done.
  - f_equal. by apply Hf.
  - f_equal. by apply IH.
Qed.

Lemma sum_list_with_ext {A} (f g : A -> nat) (l : list A) :
  (forall x, x ∈ l -> f x = g x) -> sum_list_with f l = sum_list_with g l.
Proof.
  induction l as [|a l IH]; intros H; simpl; [done|].
  rewrite H by set_solver. rewrite IH; [done|]. intros x Hx. apply H. set_solver.
Qed.

Lemma resolveName_frame h h' r all name :
  skeleton <$> h' = skeleton <$> h ->
  resolveName h' r all name = resolveName h r all name.
Proof.
  intros H. unfold resolveName. rewrite (findSymbol_frame h h') by done.
  destruct (findSymbol h r all name); [|done].
  by destruct (skeleton_fields h h' n H) as (-> & _).
Qed.

Lemma resolvable_frame h h' r all names :
  skeleton <$> h' = skeleton <$> h ->
  resolvable h' r all names = resolvable h r all names.
Proof.
  intros H. unfold resolvable. f_equal. apply list_filter_iff. intros e.
  by rewrite (findSymbol_frame h h').
Qed.

Lemma resolvable_snoc h r all l x :
  resolvable h r all (l ++ [x]) =
  resolvable h r all l + (if findSymbol h r all x is Some _ then 1 else 0).
Proof.
  unfold resolvable. rewrite filter_app, length_app. f_equal.
  rewrite filter_cons, filter_nil.
  destruct (findSymbol h r all x); simpl; done.
Qed.

Lemma range_snoc {A} (l : list A) x : range (l ++ [x]) = range l ++ [(length l, x)].
Proof. unfold range. rewrite imap_app. simpl. by rewrite Nat.add_0_r. Qed.

Lemma skeleton_alter f (h : list Symbol) p :
  (forall s, skeleton (f s) = skeleton s) ->
  skeleton <$> alter f p h = skeleton <$> h.
Proof. apply frame_alter. Qed.

Lemma extends_loop all sym R l rest :
  Extends (deref (mem R) sym) = l ++ rest ->
  foldl (extendsStep all sym) R (range l) =
  {| registry := registry R;
     mem := alter (set_Extends
                     ((resolveName (mem R) (registry R) all <$> l) ++ rest))
                  sym (mem R);
     stats := addInheritance (resolvable (mem R) (registry R) all l) (stats R) |}.
Proof.
  revert rest. induction l as [|x l IH] using rev_ind; intros rest Hext.
  - simpl. destruct R as [r h [a b c d]]; simpl in *. unfold addInheritance; simpl.
    rewrite !Nat.add_0_r. f_equal.
    symmetry. apply alter_same. intros s Hs.
    unfold deref in Hext. rewrite (list_lookup_total_correct _ _ _ Hs) in Hext.
    rewrite <- Hext. by destruct s.
  - rewrite range_snoc, foldl_app. rewrite (IH (x :: rest)); clear IH.
    2:{ rewrite Hext. by rewrite <- app_assoc. }
    simpl. unfold extendsStep at 1. simpl.
    set (g := set_Extends _).
    assert (Hsk : skeleton <$> alter g sym (mem R) = skeleton <$> mem R).
    { apply skeleton_alter. intros s. by destruct s. }
    rewrite (findSymbol_frame _ _ _ _ _ Hsk).
    rewrite resolvable_snoc, fmap_app. simpl.
    unfold resolveName at 2.
    destruct (findSymbol (mem R) (registry R) all x) as [q|] eqn:Hf.
    + f_equal.
      * rewrite list_alter_alter_eq. apply list_alter_ext; [|done].
        intros s _.
        destruct (skeleton_fields _ _ q Hsk) as (HID & _).
        unfold g in *. simpl. rewrite HID.
        rewrite insert_app_r_alt by (rewrite length_fmap; lia).
        rewrite length_fmap, Nat.sub_diag. simpl.
        rewrite <- app_assoc. simpl. by destruct s.
      * unfold addInheritance. simpl. f_equal; lia.
    + f_equal.
      * unfold g. by rewrite <- app_assoc.
      * unfold addInheritance; simpl. f_equal; lia.
Qed.

Lemma implements_loop all sym R l rest :
  Implements (deref (mem R) sym) = l ++ rest ->
  foldl (implementsStep all sym) R (range l) =
  {| registry := registry R;
     mem := alter (set_Implements
                     ((resolveName (mem R) (registry R) all <$> l) ++ rest))
                  sym (mem R);
     stats := addInheritance (resolvable (mem R) (registry R) all l) (stats R) |}.
Proof.
  revert rest. induction l as [|x l IH] using rev_ind; intros rest Hext.
  - simpl. destruct R as [r h [a b c d]]; simpl in *. unfold addInheritance; simpl.
    rewrite !Nat.add_0_r. f_equal.
    symmetry. apply alter_same. intros s Hs.
    unfold deref in Hext. rewrite (list_lookup_total_correct _ _ _ Hs) in Hext.
    rewrite <- Hext. by destruct s.
  - rewrite range_snoc, foldl_app. rewrite (IH (x :: rest)); clear IH.
    2:{ rewrite Hext. by rewrite <- app_assoc. }
    simpl. unfold implementsStep at 1. simpl.
    set (g := set_Implements _).
    assert (Hsk : skeleton <$> alter g sym (mem R) = skeleton <$> mem R).
    { apply skeleton_alter. intros s. by destruct s. }
    rewrite (findSymbol_frame _ _ _ _ _ Hsk).
    rewrite resolvable_snoc, fmap_app. simpl.
    unfold resolveName at 2.
    destruct (findSymbol (mem R) (registry R) all x) as [q|] eqn:Hf.
    + f_equal.
      * rewrite list_alter_alter_eq. apply list_alter_ext; [|done].
        intros s _.
        destruct (skeleton_fields _ _ q Hsk) as (HID & _).
        unfold g in *. simpl. rewrite HID.
        rewrite insert_app_r_alt by (rewrite length_fmap; lia).
        rewrite length_fmap, Nat.sub_diag. simpl.
        rewrite <- app_assoc. simpl. by destruct s.
      * unfold addInheritance. simpl. f_equal; lia.
    + f_equal.
      * unfold g. by rewrite <- app_assoc.
      * unfold addInheritance; simpl. f_equal; lia.
Qed.

Lemma classLike_code (s : Symbol) :
  bool_decide (Kind s ≠ KindClass) && bool_decide (Kind s ≠ KindInterface)
  = negb (classLike s).
Proof.
  unfold classLike. repeat case_bool_decide; simpl; try done; contradiction.
Qed.

Lemma classLike_valid (h : list Symbol) p :
  classLike (deref h p) = true -> p < length h.
Proof.
  intros H. destruct (decide (p < length h)) as [|Hge]; [done|].
  unfold deref in H. rewrite list_lookup_total_alt, lookup_ge_None_2 in H by lia.
  done.
Qed.

Lemma deref_lookup (h : list Symbol) p s : h !! p = Some s -> deref h p = s.
Proof. apply list_lookup_total_correct. Qed.

Lemma addInheritance_0 st : addInheritance 0 st = st.
Proof. destruct st. unfold addInheritance. simpl. f_equal; lia. Qed.

Lemma addInheritance_add a b st :
  addInheritance a (addInheritance b st) = addInheritance (b + a) st.
Proof. unfold addInheritance. simpl. f_equal; lia. Qed.

Lemma inheritanceStep_eq all R sym :
  inheritanceStep all R sym =
  {| registry := registry R;
     mem := alter (inherit (resolveName (mem R) (registry R) all)) sym (mem R);
     stats := addInheritance
                (inheritCount (mem R) (registry R) all (deref (mem R) sym))
                (stats R) |}.
Proof.
  unfold inheritanceStep. rewrite classLike_code.
  destruct (classLike (deref (mem R) sym)) eqn:Hc; simpl.
  - pose proof (classLike_valid _ _ Hc) as Hv.
    rewrite (extends_loop all sym R (Extends (deref (mem R) sym)) [])
      by by rewrite app_nil_r.
    rewrite app_nil_r.
    set (g := set_Extends _).
    assert (Hsk : skeleton <$> alter g sym (mem R) = skeleton <$> mem R).
    { apply skeleton_alter. intros s. by destruct s. }
    set (R1 := Build_Resolver _ _ _).
    assert (Himpl : Implements (deref (mem R1) sym) = Implements (deref (mem R) sym)).
    { unfold R1; simpl. rewrite deref_alter_eq by done. unfold g. by destruct (deref (mem R) sym). }
    rewrite Himpl.
    rewrite (implements_loop all sym R1 (Implements (deref (mem R) sym)) [])
      by by rewrite app_nil_r.
    unfold R1; simpl. rewrite app_nil_r. f_equal.
    + rewrite list_alter_alter_eq. apply list_alter_ext; [|done].
      intros s Hs. apply deref_lookup in Hs. rewrite Hs in Hc.
      unfold inherit. rewrite Hc. unfold g; simpl. rewrite Hs.
      f_equal. apply list_fmap_ext. intros ? ? _. apply resolveName_frame.
      apply skeleton_alter. intros s'. by destruct s'.
    + rewrite addInheritance_add. unfold inheritCount. rewrite Hc.
      by rewrite (resolvable_frame _ _ _ _ _ Hsk).
  - destruct R as [r h st]; simpl in *. f_equal.
    + symmetry. apply alter_same. intros s Hs. apply deref_lookup in Hs.
      rewrite Hs in Hc. unfold inherit. by rewrite Hc.
    + unfold inheritCount. by rewrite Hc, addInheritance_0.
Qed.

Lemma inherit_zero rn : inherit rn zeroSymbol = zeroSymbol.
Proof. done. Qed.

Lemma inherit_skeleton rn s : skeleton (inherit rn s) = skeleton s.
Proof. unfold inherit. destruct (classLike s); by destruct s. Qed.

Lemma inheritCount_frame h h' r all s s' :
  skeleton <$> h' = skeleton <$> h -> s' = s ->
  inheritCount h' r all s' = inheritCount h r all s.
Proof.
  intros H ->. unfold inheritCount. by rewrite !(resolvable_frame _ _ _ _ _ H).
Qed.

Lemma inherit_frame h h' r all s :
  skeleton <$> h' = skeleton <$> h ->
  inherit (resolveName h' r all) s = inherit (resolveName h r all) s.
Proof.
  intros H. unfold inherit. destruct (classLike s); [|done].
  f_equal; [|f_equal]; apply list_fmap_ext; intros; by apply resolveName_frame.
Qed.

Lemma inheritance_fold all l R :
  NoDup l ->
  let R' := foldl (inheritanceStep all) R l in
  registry R' = registry R
  /\ skeleton <$> mem R' = skeleton <$> mem R
  /\ (forall p, deref (mem R') p =
                if decide (p ∈ l)
                then inherit (resolveName (mem R) (registry R) all) (deref (mem R) p)
                else deref (mem R) p)
  /\ stats R' =
     addInheritance
       (sum_list_with
          (fun p => inheritCount (mem R) (registry R) all (deref (mem R) p)) l)
       (stats R).
Proof.
  revert R. induction l as [|a l IH]; intros R ND; simpl.
  - split_and!; try done. by rewrite addInheritance_0.
  - apply NoDup_cons in ND as [Ha ND].
    specialize (IH (inheritanceStep all R a) ND). simpl in IH.
    rewrite inheritanceStep_eq in IH. rewrite inheritanceStep_eq.
    simpl in IH.
    destruct IH as (Hr & Hsk & Hd & Hst).
    assert (Hsk1 : skeleton <$>
        alter (inherit (resolveName (mem R) (registry R) all)) a (mem R)
        = skeleton <$> mem R).
    { apply skeleton_alter. apply inherit_skeleton. }
    split_and!.
    + done.
    + by rewrite Hsk.
    + intros p. rewrite Hd. rewrite deref_alter by apply inherit_zero.
      rewrite (decide_ext (p ∈ a :: l) (p = a \/ p ∈ l)) by apply elem_of_cons.
      destruct (decide (p = a)) as [->|Hne].
      * rewrite decide_False by done. by rewrite decide_True by (by left).
      * destruct (decide (p ∈ l)).
        -- rewrite decide_True by (by right). by apply inherit_frame.
        -- rewrite decide_False by (intros [|]; done). done.
    + rewrite Hst, addInheritance_add. f_equal. f_equal.
      apply sum_list_with_ext. 
      intros p Hp. apply inheritCount_frame; [done|].
      rewrite deref_alter by apply inherit_zero.
      rewrite decide_False; [done|]. intros ->. done.
Qed.

(** ** Pass 3: see-also references *)

Lemma seeTarget_frame h h' r all raw :
  skeleton <$> h' = skeleton <$> h ->
  seeTarget h' r all raw = seeTarget h r all raw.
Proof.
  intros H. unfold seeTarget. case_bool_decide; [done|]. by apply findSymbol_frame.
Qed.

Lemma seeName_frame h h' r all raw :
  skeleton <$> h' = skeleton <$> h ->
  seeName h' r all raw = seeName h r all raw.
Proof.
  intros H. unfold seeName. rewrite (seeTarget_frame h h') by done.
  destruct (seeTarget h r all raw); [|done].
  by destruct (skeleton_fields h h' n H) as (-> & _).
Qed.

Lemma seeResolved_frame h h' r all raws :
  skeleton <$> h' = skeleton <$> h ->
  seeResolved h' r all raws = seeResolved h r all raws.
Proof.
  intros H. unfold seeResolved. f_equal. apply list_filter_iff. intros e.
  by rewrite (seeTarget_frame h h').
Qed.

Lemma seeUnresolved_frame h h' r all raws :
  skeleton <$> h' = skeleton <$> h ->
  seeUnresolved h' r all raws = seeUnresolved h r all raws.
Proof.
  intros H. unfold seeUnresolved. f_equal. apply list_filter_iff. intros e.
  by rewrite (seeTarget_frame h h').
Qed.

Lemma seeResolved_snoc h r all l x :
  seeResolved h r all (l ++ [x]) =
  seeResolved h r all l + (if seeTarget h r all x is Some _ then 1 else 0).
Proof.
  unfold seeResolved. rewrite filter_app, length_app. f_equal.
  rewrite filter_cons, filter_nil.
  destruct (seeTarget h r all x); simpl; done.
Qed.

Lemma seeUnresolved_snoc h r all l x :
  seeUnresolved h r all (l ++ [x]) =
  seeUnresolved h r all l +
  (if bool_decide (strings.TrimSpace x = "") then 0
   else if seeTarget h r all x is Some _ then 0 else 1).
Proof.
  unfold seeUnresolved. rewrite filter_app, length_app. f_equal.
  rewrite filter_cons, filter_nil.
  case_bool_decide as Hx.
  - rewrite decide_False; [done|]. intros [? _]. done.
  - destruct (seeTarget h r all x) eqn:Ht.
    + rewrite decide_False; [done|]. intros [_ ?]. done.
    + rewrite decide_True; done.
Qed.

Lemma seeStep_eq all sym R ie :
  seeStep all sym R ie =
  match seeTarget (mem R) (registry R) all ie.2 with
  | Some resolved =>
      {| registry := registry R;
         mem := alter (fun s => set_SeeAlso
                         (<[ie.1 := ID (deref (mem R) resolved)]> (SeeAlso (Doc s))) s)
                      sym (mem R);
         stats := addSee 1 0 (stats R) |}
  | None =>
      if bool_decide (strings.TrimSpace ie.2 = "") then R
      else {| registry := registry R; mem := mem R;
              stats := addSee 0 1 (stats R) |}
  end.
Proof.
  unfold seeStep, seeTarget. case_bool_decide; [done|].
  destruct (findSymbol _ _ _ _); unfold addSee; simpl;
    repeat f_equal; lia.
Qed.

Lemma see_loop all sym R l rest :
  SeeAlso (Doc (deref (mem R) sym)) = l ++ rest ->
  foldl (seeStep all sym) R (range l) =
  {| registry := registry R;
     mem := alter (set_SeeAlso
                     ((seeName (mem R) (registry R) all <$> l) ++ rest))
                  sym (mem R);
     stats := addSee (seeResolved (mem R) (registry R) all l)
                     (seeUnresolved (mem R) (registry R) all l) (stats R) |}.
Proof.
  revert rest. induction l as [|x l IH] using rev_ind; intros rest Hext.
  - simpl. destruct R as [r h [a b c d]]; simpl in *. unfold addSee; simpl.
    rewrite !Nat.add_0_r. f_equal.
    symmetry. apply alter_same. intros s Hs.
    unfold deref in Hext. rewrite (list_lookup_total_correct _ _ _ Hs) in Hext.
    rewrite <- Hext. by destruct s as [? ? ? ? ? []].
  - rewrite range_snoc, foldl_app. rewrite (IH (x :: rest)); clear IH.
    2:{ rewrite Hext. by rewrite <- app_assoc. }
    simpl. rewrite seeStep_eq. simpl.
    set (g := set_SeeAlso _).
    assert (Hsk : skeleton <$> alter g sym (mem R) = skeleton <$> mem R).
    { apply skeleton_alter. intros s. by destruct s. }
    rewrite seeResolved_snoc, seeUnresolved_snoc, fmap_app. simpl.
    rewrite (seeTarget_frame _ _ _ _ _ Hsk).
    unfold seeName at 2.
    destruct (seeTarget (mem R) (registry R) all x) as [q|] eqn:Hf.
    + assert (Hx : strings.TrimSpace x ≠ "").
      { intros Hx. unfold seeTarget in Hf. by rewrite bool_decide_true in Hf. }
      rewrite bool_decide_false by done.
      f_equal.
      * rewrite list_alter_alter_eq. apply list_alter_ext; [|done].
        intros s _.
        destruct (skeleton_fields _ _ q Hsk) as (HID & _).
        unfold g in *. simpl. rewrite HID.
        rewrite insert_app_r_alt by (rewrite length_fmap; lia).
        rewrite length_fmap, Nat.sub_diag. simpl.
        rewrite <- app_assoc. simpl. by destruct s.
      * unfold addSee. simpl. f_equal; lia.
    + case_bool_decide.
      * f_equal.
        -- unfold g. by rewrite <- app_assoc.
        -- unfold addSee; simpl. f_equal; lia.
      * f_equal.
        -- unfold g. by rewrite <- app_assoc.
        -- unfold addSee; simpl. f_equal; lia.
Qed.

Lemma addSee_0 st : addSee 0 0 st = st.
Proof. destruct st. unfold addSee. simpl. f_equal; lia. Qed.

Lemma addSee_add a b c d st :
  addSee a b (addSee c d st) = addSee (c + a) (d + b) st.
Proof. unfold addSee. simpl. f_equal; lia. Qed.

Lemma seeReferencesStep_eq all R sym :
  seeReferencesStep all R sym =
  {| registry := registry R;
     mem := alter (see (seeName (mem R) (registry R) all)) sym (mem R);
     stats := addSee
                (seeResolved (mem R) (registry R) all
                   (SeeAlso (Doc (deref (mem R) sym))))
                (seeUnresolved (mem R) (registry R) all
                   (SeeAlso (Doc (deref (mem R) sym))))
                (stats R) |}.
Proof.
  unfold seeReferencesStep.
  rewrite (see_loop all sym R (SeeAlso (Doc (deref (mem R) sym))) [])
    by by rewrite app_nil_r.
  rewrite app_nil_r. f_equal.
  apply list_alter_ext; [|done]. intros s Hs. apply deref_lookup in Hs.
  by rewrite Hs.
Qed.

Lemma see_zero sn : see sn zeroSymbol = zeroSymbol.
Proof. done. Qed.

Lemma see_skeleton sn s : skeleton (see sn s) = skeleton s.
Proof. by destruct s. Qed.

Lemma see_frame h h' r all s :
  skeleton <$> h' = skeleton <$> h ->
  see (seeName h' r all) s = see (seeName h r all) s.
Proof.
  intros H. unfold see. f_equal.
  apply list_fmap_ext; intros; by apply seeName_frame.
Qed.

Lemma seeReferences_fold all l R :
  NoDup l ->
  let R' := foldl (seeReferencesStep all) R l in
  registry R' = registry R
  /\ skeleton <$> mem R' = skeleton <$> mem R
  /\ (forall p, deref (mem R') p =
                if decide (p ∈ l)
                then see (seeName (mem R) (registry R) all) (deref (mem R) p)
                else deref (mem R) p)
  /\ stats R' =
     addSee
       (sum_list_with
          (fun p => seeResolved (mem R) (registry R) all
                      (SeeAlso (Doc (deref (mem R) p)))) l)
       (sum_list_with
          (fun p => seeUnresolved (mem R) (registry R) all
                      (SeeAlso (Doc (deref (mem R) p)))) l)
       (stats R).
Proof.
  revert R. induction l as [|a l IH]; intros R ND; simpl.
  - split_and!; try done. by rewrite addSee_0.
  - apply NoDup_cons in ND as [Ha ND].
    specialize (IH (seeReferencesStep all R a) ND). simpl in IH.
    rewrite seeReferencesStep_eq in IH. rewrite seeReferencesStep_eq.
    simpl in IH.
    destruct IH as (Hr & Hsk & Hd & Hst).
    assert (Hsk1 : skeleton <$>
        alter (see (seeName (mem R) (registry R) all)) a (mem R)
        = skeleton <$> mem R).
    { apply skeleton_alter. apply see_skeleton. }
    assert (Hother : forall p, p ∈ l ->
       deref (alter (see (seeName (mem R) (registry R) all)) a (mem R)) p
       = deref (mem R) p).
    { intros p Hp. rewrite deref_alter by apply see_zero.
      rewrite decide_False; [done|]. intros ->. done. }
    split_and!.
    + done.
    + by rewrite Hsk.
    + intros p. rewrite Hd. rewrite deref_alter by apply see_zero.
      rewrite (decide_ext (p ∈ a :: l) (p = a \/ p ∈ l)) by apply elem_of_cons.
      destruct (decide (p = a)) as [->|Hne].
      * rewrite decide_False by done. by rewrite decide_True by (by left).
      * destruct (decide (p ∈ l)).
        -- rewrite decide_True by (by right). by apply see_frame.
        -- rewrite decide_False by (intros [|]; done). done.
    + rewrite Hst, addSee_add. f_equal.
      * f_equal. apply sum_list_with_ext. intros p Hp.
        rewrite Hother by done. by apply seeResolved_frame.
      * f_equal. apply sum_list_with_ext. intros p Hp.
        rewrite Hother by done. by apply seeUnresolved_frame.
Qed.

(** ** [appendUnique] and the additions to [UsedBy] *)

Lemma contains_spec slice val : contains slice val = true <-> val ∈ slice.
Proof.
  induction slice as [|s rest IH]; simpl.
  - split; [done|]. by intros ?%elem_of_nil.
  - destruct (String.eqb s val) eqn:E.
    + apply String.eqb_eq in E as ->. split; [intros _; left | done].
    + apply String.eqb_neq in E. rewrite IH, elem_of_cons. naive_solver.
Qed.

Lemma appendUnique_present slice val :
  val ∈ slice -> appendUnique slice val = slice.
Proof.
  intros H. unfold appendUnique. apply contains_spec in H. by rewrite H.
Qed.

Lemma appendUnique_absent slice val :
  val ∉ slice -> appendUnique slice val = slice ++ [val].
Proof.
  intros H. unfold appendUnique. destruct (contains slice val) eqn:E; [|done].
  apply contains_spec in E. done.
Qed.

Lemma appendUnique_elem slice val x :
  x ∈ appendUnique slice val <-> x ∈ slice \/ x = val.
Proof.
  destruct (decide (val ∈ slice)).
  - rewrite appendUnique_present by done. naive_solver.
  - rewrite appendUnique_absent by done. rewrite elem_of_app, list_elem_of_singleton. done.
Qed.

Lemma appendUnique_NoDup slice val : NoDup slice -> NoDup (appendUnique slice val).
Proof.
  intros ND. destruct (decide (val ∈ slice)).
  - by rewrite appendUnique_present.
  - rewrite appendUnique_absent by done. apply NoDup_app. split_and!; [done| |apply NoDup_singleton].
    intros x Hx ->%list_elem_of_singleton. done.
Qed.

Lemma appendUnique_all_spec init xs :
  exists news,
    foldl appendUnique init xs = init ++ news
    /\ NoDup news
    /\ forall x, x ∈ news <-> x ∈ xs /\ x ∉ init.
Proof.
  revert init. induction xs as [|a xs IH]; intros init; simpl.
  - exists []. rewrite app_nil_r. split_and!; [done|constructor|].
    intros x. split; [by intros ?%elem_of_nil | by intros [?%elem_of_nil _]].
  - destruct (decide (a ∈ init)) as [Hin|Hnin].
    + rewrite appendUnique_present by done.
      destruct (IH init) as (news & Heq & ND & Hel).
      exists news. split_and!; try done.
      intros x. rewrite Hel, elem_of_cons. naive_solver.
    + rewrite appendUnique_absent by done.
      destruct (IH (init ++ [a])) as (news & Heq & ND & Hel).
      exists (a :: news). split_and!.
      * rewrite Heq. by rewrite <- app_assoc.
      * apply NoDup_cons. split; [|done]. rewrite Hel.
        intros [_ Hn]. apply Hn. set_solver.
      * intros x. rewrite !elem_of_cons, Hel, elem_of_app, list_elem_of_singleton.
        destruct (decide (x = a)); naive_solver.
Qed.

Lemma appendUnique_all_elem init xs x :
  x ∈ foldl appendUnique init xs <-> x ∈ init \/ x ∈ xs.
Proof.
  destruct (appendUnique_all_spec init xs) as (news & -> & _ & Hel).
  rewrite elem_of_app, Hel. destruct (decide (x ∈ init)); naive_solver.
Qed.

Lemma appendUnique_all_NoDup init xs :
  NoDup init -> NoDup (foldl appendUnique init xs).
Proof.
  intros ND. destruct (appendUnique_all_spec init xs) as (news & -> & ND' & Hel).
  apply NoDup_app. split_and!; try done. intros x Hx Hx'. apply Hel in Hx'. naive_solver.
Qed.

Lemma appendUnique_all_prefix init xs : init `prefix_of` foldl appendUnique init xs.
Proof.
  destruct (appendUnique_all_spec init xs) as (news & -> & _). by exists news.
Qed.

Lemma appendUnique_all_perm init xs ys :
  xs ≡ₚ ys -> foldl appendUnique init xs ≡ₚ foldl appendUnique init ys.
Proof.
  intros HP.
  destruct (appendUnique_all_spec init xs) as (n1 & -> & ND1 & H1).
  destruct (appendUnique_all_spec init ys) as (n2 & -> & ND2 & H2).
  apply Permutation_app_head. apply NoDup_Permutation; try done.
  intros x. rewrite H1, H2. by rewrite HP.
Qed.

Lemma link_frame (E : Symbol -> Symbol) h edges :
  (forall id s, E (addUsedBy id s) = E s) ->
  E <$> link h edges = E <$> h.
Proof.
  intros HE. revert h. induction edges as [|e edges IH]; intros h; simpl; [done|].
  unfold link in IH. rewrite IH. apply frame_alter. intros s. apply HE.
Qed.

Lemma link_E2 h edges : E2 <$> link h edges = E2 <$> h.
Proof. apply link_frame. intros id s. by destruct s. Qed.

Lemma link_skeleton h edges : skeleton <$> link h edges = skeleton <$> h.
Proof. apply link_frame. intros id s. by destruct s. Qed.

Lemma link_length h edges : length (link h edges) = length h.
Proof. apply (frame_length skeleton), link_skeleton. Qed.

Lemma link_app h e1 e2 : link h (e1 ++ e2) = link (link h e1) e2.
Proof. unfold link. by rewrite foldl_app. Qed.

Lemma link_deref h edges q :
  q < length h ->
  deref (link h edges) q =
  set_UsedBy (foldl appendUnique (UsedBy (deref h q)) (incoming q edges))
             (deref h q).
Proof.
  revert h. induction edges as [|[t id] edges IH]; intros h Hq; simpl.
  - by destruct (deref h q).
  - unfold link in IH. rewrite IH by by rewrite length_alter.
    unfold incoming. rewrite filter_cons. simpl.
    destruct (decide (t = q)) as [->|Hne].
    + rewrite deref_alter_eq by done. simpl. by destruct (deref h q).
    + rewrite deref_alter_ne by done. done.
Qed.

Lemma link_UsedBy h edges q :
  q < length h ->
  UsedBy (deref (link h edges) q) =
  foldl appendUnique (UsedBy (deref h q)) (incoming q edges).
Proof. intros Hq. rewrite link_deref by done. by destruct (deref h q). Qed.

(** ** Pass 2: hook bindings *)

Lemma addBindings_0 st : addBindings 0 st = st.
Proof. destruct st. unfold addBindings. simpl. f_equal; lia. Qed.

Lemma addBindings_add a b st :
  addBindings a (addBindings b st) = addBindings (b + a) st.
Proof. unfold addBindings. simpl. f_equal; lia. Qed.

Lemma bind_loop byTag sym R uses :
  foldl (bindStep byTag sym) R uses =
  {| registry := registry R;
     mem := link (mem R)
              ((fun hk => (hk, ID (deref (mem R) sym)))
                 <$> omap (fun u => byTag !! u) uses);
     stats := addBindings (length (omap (fun u => byTag !! u) uses)) (stats R) |}.
Proof.
  revert R. induction uses as [|u uses IH]; intros R; simpl.
  - destruct R; simpl. by rewrite addBindings_0.
  - rewrite IH. unfold bindStep. destruct (byTag !! u) as [hook|] eqn:Hu; simpl.
    + f_equal.
      * apply f_equal2; [reflexivity|].
        apply list_fmap_ext. intros ? hk ?. f_equal.
        apply skeleton_fields. apply skeleton_alter. intros s. by destruct s.
      * unfold addBindings. simpl. f_equal; by rewrite Nat.add_succ_r.
    + done.
Qed.

Lemma funcLike_code (s : Symbol) :
  bool_decide (Kind s ≠ KindFunction) && bool_decide (Kind s ≠ KindMethod)
  = negb (funcLike s).
Proof.
  unfold funcLike. repeat case_bool_decide; simpl; try done; contradiction.
Qed.

Lemma hookBindingStep_eq byTag R sym :
  hookBindingStep byTag R sym =
  {| registry := registry R;
     mem := link (mem R) (hookEdges byTag (deref (mem R) sym));
     stats := addBindings (length (hookEdges byTag (deref (mem R) sym))) (stats R) |}.
Proof.
  unfold hookBindingStep, hookEdges. rewrite funcLike_code.
  destruct (funcLike (deref (mem R) sym)); simpl.
  - rewrite bind_loop. by rewrite length_fmap.
  - destruct R; simpl. by rewrite addBindings_0.
Qed.

Lemma hookEdges_frame byTag h h' p :
  skeleton <$> h' = skeleton <$> h ->
  hookEdges byTag (deref h' p) = hookEdges byTag (deref h p).
Proof.
  intros H. destruct (skeleton_fields h h' p H) as (HID & _ & HK & _ & HU & _).
  unfold hookEdges, funcLike. by rewrite HID, HK, HU.
Qed.

Lemma hookBindings_fold byTag l R :
  foldl (hookBindingStep byTag) R l =
  {| registry := registry R;
     mem := link (mem R) (allHookEdges byTag (mem R) l);
     stats := addBindings (length (allHookEdges byTag (mem R) l)) (stats R) |}.
Proof.
  revert R. induction l as [|a l IH]; intros R; simpl.
  - destruct R; simpl. by rewrite addBindings_0.
  - rewrite IH, hookBindingStep_eq. simpl.
    assert (Heq : allHookEdges byTag
                    (link (mem R) (hookEdges byTag (deref (mem R) a))) l
                  = allHookEdges byTag (mem R) l).
    { unfold allHookEdges. apply list_bind_ext; [|done]. intros p.
      apply hookEdges_frame, link_skeleton. }
    rewrite Heq. unfold allHookEdges at 3 4. simpl.
    fold (allHookEdges byTag (mem R) l).
    rewrite link_app, length_app, addBindings_add. done.
Qed.

Lemma resolveHookBindings_eq all R :
  resolveHookBindings all R =
  let byTag := hooksByTag (mem R) (ByKind (registry R) KindHook) in
  {| registry := registry R;
     mem := link (mem R) (allHookEdges byTag (mem R) all);
     stats := addBindings (length (allHookEdges byTag (mem R) all)) (stats R) |}.
Proof. unfold resolveHookBindings. apply hookBindings_fold. Qed.

(** ** Pass 4: method overrides *)

Lemma addResolved_0 st : addResolved 0 st = st.
Proof. destruct st. unfold addResolved. simpl. f_equal; lia. Qed.

Lemma overrideStep_eq R sym :
  overrideStep R sym =
  match overrideTarget (mem R) (registry R) sym with
  | None => R
  | Some parentMethod =>
      {| registry := registry R;
         mem := link (alter (set_Overrides (ID (deref (mem R) parentMethod)))
                            sym (mem R))
                     [(parentMethod, ID (deref (mem R) sym))];
         stats := addResolved 1 (stats R) |}
  end.
Proof.
  unfold overrideStep, overrideTarget.
  destruct (_ || _); [done|].
  destruct (Get _ _) as [parent|]; [|done].
  destruct (findOverride _ _ _) as [pm|]; [|done].
  unfold link, addUsedBy, addResolved. simpl. f_equal.
  - apply list_alter_ext; [|done]. intros s _.
    assert (H : skeleton <$> alter (set_Overrides (ID (deref (mem R) pm))) sym (mem R)
                = skeleton <$> mem R).
    { apply skeleton_alter. intros s'. by destruct s'. }
    by destruct (skeleton_fields _ _ sym H) as (-> & _).
  - f_equal. lia.
Qed.

Lemma E4_fields (h h' : list Symbol) p :
  E4 <$> h' = E4 <$> h ->
  ID (deref h' p) = ID (deref h p)
  /\ Name (deref h' p) = Name (deref h p)
  /\ Kind (deref h' p) = Kind (deref h p)
  /\ ParentID (deref h' p) = ParentID (deref h p)
  /\ Extends (deref h' p) = Extends (deref h p).
Proof.
  intros H. apply (frame_deref E4 _ _ p) in H.
  destruct (deref h' p), (deref h p). by inversion H.
Qed.

Lemma overrideTarget_frame h h' r sym :
  E4 <$> h' = E4 <$> h -> overrideTarget h' r sym = overrideTarget h r sym.
Proof.
  intros H. unfold overrideTarget.
  destruct (E4_fields h h' sym H) as (_ & -> & -> & -> & _).
  destruct (_ || _); [done|].
  destruct (Get _ _) as [parent|]; [|done].
  by destruct (E4_fields h h' parent H) as (_ & _ & _ & _ & ->).
Qed.

Lemma setOverrides_frame (E : Symbol -> Symbol) h0 r l h :
  (forall v s, E (set_Overrides v s) = E s) ->
  E <$> setOverrides h0 r l h = E <$> h.
Proof.
  intros HE. unfold setOverrides.
  revert h. induction l as [|a l IH]; intros h; simpl; [done|].
  rewrite IH.
  destruct (overrideTarget h0 r a); [|done]. apply frame_alter. intros s. apply HE.
Qed.

Lemma alter_link_comm v a h es :
  alter (set_Overrides v) a (link h es) = link (alter (set_Overrides v) a h) es.
Proof.
  revert h. induction es as [|[t id] es IH]; intros h; simpl; [done|].
  unfold link in *. rewrite IH. f_equal.
  destruct (decide (a = t)) as [->|Hne].
  - rewrite !list_alter_alter_eq. apply list_alter_ext; [|done].
    intros s _. by destruct s.
  - by apply list_alter_alter_ne.
Qed.

Lemma overrideEdges_snoc h0 r l a :
  overrideEdges h0 r (l ++ [a]) =
  overrideEdges h0 r l ++
  match overrideTarget h0 r a with
  | Some pm => [(pm, ID (deref h0 a))]
  | None => []
  end.
Proof.
  unfold overrideEdges. rewrite omap_app. simpl.
  by destruct (overrideTarget h0 r a).
Qed.

Lemma setOverrides_snoc h0 r l a h :
  setOverrides h0 r (l ++ [a]) h =
  match overrideTarget h0 r a with
  | Some pm => alter (set_Overrides (ID (deref h0 pm))) a (setOverrides h0 r l h)
  | None => setOverrides h0 r l h
  end.
Proof. unfold setOverrides. by rewrite foldl_app. Qed.

Lemma overrides_fold l R :
  foldl overrideStep R l =
  {| registry := registry R;
     mem := link (setOverrides (mem R) (registry R) l (mem R))
                 (overrideEdges (mem R) (registry R) l);
     stats := addResolved (length (overrideEdges (mem R) (registry R) l))
                          (stats R) |}.
Proof.
  induction l as [|a l IH] using rev_ind.
  - simpl. destruct R; simpl. by rewrite addResolved_0.
  - rewrite foldl_app. simpl. rewrite IH. rewrite overrideStep_eq. simpl.
    set (H := link _ _).
    assert (HE4 : E4 <$> H = E4 <$> mem R).
    { unfold H. rewrite link_frame by (intros ? s; by destruct s).
      apply setOverrides_frame. intros ? s; by destruct s. }
    assert (Hsk : skeleton <$> H = skeleton <$> mem R).
    { unfold H. rewrite link_skeleton.
      apply setOverrides_frame. intros ? s; by destruct s. }
    rewrite (overrideTarget_frame _ _ _ _ HE4).
    rewrite overrideEdges_snoc, setOverrides_snoc.
    destruct (overrideTarget (mem R) (registry R) a) as [pm|] eqn:Hov; simpl.
    + f_equal.
      * destruct (skeleton_fields _ _ pm Hsk) as (-> & _).
        destruct (skeleton_fields _ _ a Hsk) as (-> & _).
        unfold H. rewrite alter_link_comm. by rewrite link_app.
      * rewrite length_app. unfold addResolved; simpl. f_equal. lia.
    + rewrite !app_nil_r. done.
Qed.

Lemma deref_invalid (h : list Symbol) p : length h <= p -> deref h p = zeroSymbol.
Proof.
  intros H. unfold deref. by rewrite list_lookup_total_alt, lookup_ge_None_2.
Qed.

Lemma heap_ext (h h' : list Symbol) :
  length h = length h' -> (forall p, deref h p = deref h' p) -> h = h'.
Proof.
  intros HL Hd. apply list_eq_same_length with (length h); try done.
  intros i x y Hi Hx Hy. specialize (Hd i). unfold deref in Hd.
  rewrite (list_lookup_total_correct _ _ _ Hx) in Hd.
  rewrite (list_lookup_total_correct _ _ _ Hy) in Hd. done.
Qed.

Lemma overrideTarget_valid h r a pm :
  overrideTarget h r a = Some pm -> a < length h.
Proof.
  intros H. destruct (decide (a < length h)); [done|].
  unfold overrideTarget in H. rewrite deref_invalid in H by lia. done.
Qed.

Lemma setOverrides_length h0 r l h : length (setOverrides h0 r l h) = length h.
Proof.
  apply (frame_length skeleton). apply setOverrides_frame. intros ? s; by destruct s.
Qed.

Lemma setOverrides_deref h0 r l h p :
  length h = length h0 ->
  deref (setOverrides h0 r l h) p =
  if decide (p ∈ l) then override h0 r p (deref h p) else deref h p.
Proof.
  unfold setOverrides. revert h. induction l as [|a l IH]; intros h HL; simpl.
  - done.
  - assert (Hstep : deref
        match overrideTarget h0 r a with
        | Some pm => alter (set_Overrides (ID (deref h0 pm))) a h
        | None => h
        end p = if decide (p = a) then override h0 r p (deref h p) else deref h p).
    { unfold override. destruct (decide (p = a)) as [->|Hne].
      - destruct (overrideTarget h0 r a) as [pm|] eqn:Hov; [|done].
        pose proof (overrideTarget_valid _ _ _ _ Hov) as Hv.
        by rewrite deref_alter_eq by lia.
      - destruct (overrideTarget h0 r a) as [pm|]; [|done].
        by rewrite deref_alter_ne by done. }
    rewrite IH by (destruct (overrideTarget h0 r a); by rewrite ?length_alter).
    rewrite Hstep.
    destruct (decide (p ∈ l)) as [Hin|Hin], (decide (p = a)) as [Heq|Hne].
    + rewrite decide_True by (apply elem_of_cons; auto). unfold override.
      destruct (overrideTarget h0 r p); [|done]. by destruct (deref h p).
    + by rewrite decide_True by (apply elem_of_cons; auto).
    + by rewrite decide_True by (apply elem_of_cons; auto).
    + rewrite decide_False; [done|]. by intros [|]%elem_of_cons.
Qed.

(** ** The order of enumeration *)

Lemma similar_refl h : similar h h.
Proof. split; [done|]. intros p. split; done. Qed.

Lemma similar_frame (E : Symbol -> Symbol) h h' :
  (forall s, E (E2 s) = E s) ->
  similar h h' -> E <$> h = E <$> h'.
Proof.
  intros HE [HL Hp]. apply list_eq_same_length with (length h);
    rewrite ?length_fmap; try done.
  intros i x y Hi Hx Hy. rewrite list_lookup_fmap in Hx, Hy.
  destruct (h !! i) as [s|] eqn:Hs; [|done].
  destruct (h' !! i) as [s'|] eqn:Hs'; [|done].
  simpl in *. destruct (Hp i) as [HE2 _]. unfold deref in HE2.
  rewrite (list_lookup_total_correct _ _ _ Hs) in HE2.
  rewrite (list_lookup_total_correct _ _ _ Hs') in HE2.
  assert (E s = E s') by (rewrite <- (HE s), <- (HE s'); by f_equal).
  congruence.
Qed.

Lemma similar_skeleton h h' : similar h h' -> skeleton <$> h = skeleton <$> h'.
Proof. apply similar_frame. intros s. by destruct s. Qed.

Lemma similar_E4 h h' : similar h h' -> E4 <$> h = E4 <$> h'.
Proof. apply similar_frame. intros s. by destruct s. Qed.

Lemma appendUnique_all_perm2 init init' xs ys :
  init ≡ₚ init' -> xs ≡ₚ ys ->
  foldl appendUnique init xs ≡ₚ foldl appendUnique init' ys.
Proof.
  intros HI HP.
  destruct (appendUnique_all_spec init xs) as (n1 & -> & ND1 & H1).
  destruct (appendUnique_all_spec init' ys) as (n2 & -> & ND2 & H2).
  apply Permutation_app; [done|]. apply NoDup_Permutation; try done.
  intros x. rewrite H1, H2. by rewrite HP, HI.
Qed.

Lemma incoming_perm q es es' : es ≡ₚ es' -> incoming q es ≡ₚ incoming q es'.
Proof. intros H. unfold incoming. by rewrite H. Qed.

Lemma link_similar h h' es es' :
  similar h h' -> es ≡ₚ es' -> similar (link h es) (link h' es').
Proof.
  intros [HL Hp] HP. split; [by rewrite !link_length|].
  intros p. destruct (decide (p < length h)) as [Hv|Hv].
  - rewrite !link_deref by lia. destruct (Hp p) as [HE HU]. split.
    + destruct (deref h p), (deref h' p). simpl in *. inversion HE. by subst.
    + destruct (deref h p), (deref h' p). simpl in *.
      apply appendUnique_all_perm2; [done|by apply incoming_perm].
  - rewrite !deref_invalid by (rewrite ?link_length; lia). done.
Qed.

Lemma resolveInheritance_spec all R :
  NoDup all ->
  let R' := resolveInheritance all R in
  registry R' = registry R
  /\ skeleton <$> mem R' = skeleton <$> mem R
  /\ (forall p, deref (mem R') p =
                if decide (p ∈ all)
                then inherit (resolveName (mem R) (registry R) all) (deref (mem R) p)
                else deref (mem R) p)
  /\ stats R' =
     addInheritance
       (sum_list_with
          (fun p => inheritCount (mem R) (registry R) all (deref (mem R) p)) all)
       (stats R).
Proof. apply inheritance_fold. Qed.

Lemma resolveSeeReferences_spec all R :
  NoDup all ->
  let R' := resolveSeeReferences all R in
  registry R' = registry R
  /\ skeleton <$> mem R' = skeleton <$> mem R
  /\ (forall p, deref (mem R') p =
                if decide (p ∈ all)
                then see (seeName (mem R) (registry R) all) (deref (mem R) p)
                else deref (mem R) p)
  /\ stats R' =
     addSee
       (sum_list_with
          (fun p => seeResolved (mem R) (registry R) all
                      (SeeAlso (Doc (deref (mem R) p)))) all)
       (sum_list_with
          (fun p => seeUnresolved (mem R) (registry R) all
                      (SeeAlso (Doc (deref (mem R) p)))) all)
       (stats R).
Proof. apply seeReferences_fold. Qed.

Lemma resolveMethodOverrides_eq all R :
  resolveMethodOverrides all R =
  {| registry := registry R;
     mem := link (setOverrides (mem R) (registry R) all (mem R))
                 (overrideEdges (mem R) (registry R) all);
     stats := addResolved (length (overrideEdges (mem R) (registry R) all))
                          (stats R) |}.
Proof. apply overrides_fold. Qed.

Lemma resolveName_perm h r all all' name :
  all ≡ₚ all' -> resolveName h r all name = resolveName h r all' name.
Proof. intros H. unfold resolveName. by rewrite (findSymbol_perm _ _ _ _ _ H). Qed.

Lemma resolvable_perm h r all all' names :
  all ≡ₚ all' -> resolvable h r all names = resolvable h r all' names.
Proof.
  intros H. unfold resolvable. f_equal. apply list_filter_iff. intros e.
  by rewrite (findSymbol_perm _ _ _ _ _ H).
Qed.

Lemma seeTarget_perm h r all all' raw :
  all ≡ₚ all' -> seeTarget h r all raw = seeTarget h r all' raw.
Proof.
  intros H. unfold seeTarget. case_bool_decide; [done|]. by apply findSymbol_perm.
Qed.

Lemma pass1_order all all' R :
  NoDup all -> all ≡ₚ all' ->
  resolveInheritance all R = resolveInheritance all' R.
Proof.
  intros ND HP.
  assert (ND' : NoDup all') by by rewrite <- HP.
  destruct (resolveInheritance_spec all R ND) as (Hr & Hsk & Hd & Hst).
  destruct (resolveInheritance_spec all' R ND') as (Hr' & Hsk' & Hd' & Hst').
  destruct (resolveInheritance all R) as [r1 h1 s1].
  destruct (resolveInheritance all' R) as [r2 h2 s2]. simpl in *.
  f_equal.
  - congruence.
  - apply heap_ext.
    + rewrite (frame_length _ _ _ Hsk), (frame_length _ _ _ Hsk'). done.
    + intros p. rewrite Hd, Hd'.
      rewrite (decide_ext (p ∈ all) (p ∈ all')) by by rewrite HP.
      destruct (decide (p ∈ all')); [|done].
      unfold inherit. destruct (classLike _); [|done].
      f_equal; [|f_equal]; apply list_fmap_ext; intros; by apply resolveName_perm.
  - rewrite Hst, Hst'. f_equal. rewrite HP.
    apply sum_list_with_ext. intros p _. unfold inheritCount.
    destruct (classLike _); [|done]. by rewrite !(resolvable_perm _ _ _ _ _ HP).
Qed.

Lemma allHookEdges_perm byTag h l l' :
  l ≡ₚ l' -> allHookEdges byTag h l ≡ₚ allHookEdges byTag h l'.
Proof. intros H. unfold allHookEdges. by rewrite H. Qed.

Lemma pass2_order all all' R :
  all ≡ₚ all' ->
  let A := resolveHookBindings all R in
  let B := resolveHookBindings all' R in
  registry A = registry B /\ stats A = stats B /\ similar (mem A) (mem B).
Proof.
  intros HP. simpl. rewrite !resolveHookBindings_eq. simpl.
  pose proof (allHookEdges_perm
    (hooksByTag (mem R) (ByKind (registry R) KindHook)) (mem R) _ _ HP) as HE.
  split_and!; [done| |].
  - by rewrite (Permutation_length HE).
  - apply link_similar; [apply similar_refl|done].
Qed.

Lemma similar_fields h h' p :
  similar h h' ->
  SeeAlso (Doc (deref h p)) = SeeAlso (Doc (deref h' p))
  /\ Extends (deref h p) = Extends (deref h' p)
  /\ Implements (deref h p) = Implements (deref h' p)
  /\ Overrides (deref h p) = Overrides (deref h' p)
  /\ ID (deref h p) = ID (deref h' p).
Proof.
  intros [_ H]. destruct (H p) as [HE _].
  destruct (deref h p), (deref h' p). by inversion HE.
Qed.

Lemma pass3_order all all' A B :
  NoDup all -> all ≡ₚ all' ->
  registry A = registry B -> stats A = stats B -> similar (mem A) (mem B) ->
  let A' := resolveSeeReferences all A in
  let B' := resolveSeeReferences all' B in
  registry A' = registry B' /\ stats A' = stats B' /\ similar (mem A') (mem B').
Proof.
  intros ND HP Hr Hs Hsim. simpl.
  assert (ND' : NoDup all') by by rewrite <- HP.
  destruct (resolveSeeReferences_spec all A ND) as (Hr1 & Hsk1 & Hd1 & Hst1).
  destruct (resolveSeeReferences_spec all' B ND') as (Hr2 & Hsk2 & Hd2 & Hst2).
  pose proof (similar_skeleton _ _ Hsim) as Hsk.
  assert (Htg : forall raw, seeTarget (mem A) (registry A) all raw
                            = seeTarget (mem B) (registry B) all' raw).
  { intros raw. rewrite Hr, (seeTarget_perm _ _ _ _ _ HP).
    by apply seeTarget_frame. }
  assert (Hsn : forall raw, seeName (mem A) (registry A) all raw
                            = seeName (mem B) (registry B) all' raw).
  { intros raw. unfold seeName. rewrite Htg.
    destruct (seeTarget _ _ _ _); [|done]. apply similar_fields. done. }
  split_and!.
  - congruence.
  - rewrite Hst1, Hst2, Hs. f_equal.
    + rewrite HP. apply sum_list_with_ext. intros p _.
      destruct (similar_fields _ _ p Hsim) as (-> & _).
      unfold seeResolved. f_equal. apply list_filter_iff. intros raw. by rewrite Htg.
    + rewrite HP. apply sum_list_with_ext. intros p _.
      destruct (similar_fields _ _ p Hsim) as (-> & _).
      unfold seeUnresolved. f_equal. apply list_filter_iff. intros raw. by rewrite Htg.
  - destruct Hsim as [HL Hp]. split.
    + rewrite (frame_length _ _ _ Hsk1), (frame_length _ _ _ Hsk2). done.
    + intros p. rewrite Hd1, Hd2.
      rewrite (decide_ext (p ∈ all) (p ∈ all')) by by rewrite HP.
      destruct (decide (p ∈ all')); [|apply Hp].
      destruct (Hp p) as [HE HU]. unfold see.
      erewrite (list_fmap_ext (seeName (mem A) _ _)); [|intros; apply Hsn].
      destruct (deref (mem A) p) as [? ? ? ? ? []], (deref (mem B) p) as [? ? ? ? ? []].
      simpl in *. inversion HE. subst. done.
Qed.

Lemma pass4_order all all' A B :
  all ≡ₚ all' ->
  registry A = registry B -> stats A = stats B -> similar (mem A) (mem B) ->
  let A' := resolveMethodOverrides all A in
  let B' := resolveMethodOverrides all' B in
  registry A' = registry B' /\ stats A' = stats B' /\ similar (mem A') (mem B').
Proof.
  intros HP Hr Hs Hsim. simpl. rewrite !resolveMethodOverrides_eq. simpl.
  pose proof (similar_E4 _ _ Hsim) as HE4.
  assert (Hov : forall a, overrideTarget (mem A) (registry A) a
                          = overrideTarget (mem B) (registry B) a).
  { intros a. rewrite Hr. by apply overrideTarget_frame. }
  assert (HE : overrideEdges (mem A) (registry A) all
               ≡ₚ overrideEdges (mem B) (registry B) all').
  { unfold overrideEdges. rewrite HP. 
    erewrite (list_omap_ext _ _ all' all'); [done|].
    apply Forall2_same_length_lookup_2; [done|].
    intros i a a' Ha Ha'. assert (a' = a) as -> by congruence. rewrite Hov.
    destruct (overrideTarget (mem B) (registry B) a); simpl; [|done].
    do 2 f_equal. apply similar_fields. done. }
  split_and!; [done| |].
  - by rewrite Hs, (Permutation_length HE).
  - apply link_similar; [|done].
    destruct Hsim as [HL Hp]. split.
    + by rewrite !setOverrides_length.
    + intros p. rewrite !setOverrides_deref by done.
      rewrite (decide_ext (p ∈ all) (p ∈ all')) by by rewrite HP.
      destruct (decide (p ∈ all')); [|apply Hp].
      unfold override. rewrite Hov.
      destruct (overrideTarget (mem B) (registry B) p) as [pm|]; [|apply Hp].
      destruct (similar_fields _ _ pm (conj HL Hp)) as (_ & _ & _ & _ & ->).
      destruct (Hp p) as [HE2 HU].
      destruct (deref (mem A) p), (deref (mem B) p). simpl in *.
      inversion HE2. subst. done.
Qed.

(** ** The passes, as the specification states them *)

Lemma Forall2_fmap_spec {A} (f : A -> A) (P : A -> A -> Prop) (l : list A) :
  (forall x, P x (f x)) -> Forall2 P l (f <$> l).
Proof. intros H. induction l; simpl; constructor; auto. Qed.

(** Claim C4.  Pass 1, for a class or interface [sym] of the registry:
    every entry of [Extends] and of [Implements] is afterwards, at its own
    index, the ID of the symbol that [findSymbol] finds for it, or the entry
    itself when [findSymbol] finds none.  No entry is removed; in particular
    a name that is not found is still there after the pass. *)
Theorem resolveInheritance_rewrites (R : Resolver) (all : list nat) (sym : nat) :
  wf (mem R) (registry R) ->
  enumerates (registry R) all ->
  sym ∈ all ->
  Kind (deref (mem R) sym) = KindClass \/ Kind (deref (mem R) sym) = KindInterface ->
  let R' := resolveInheritance all R in
  let rewritten (name name' : string) :=
    match findSymbol (mem R) (registry R) all name with
    | Some resolved => name' = ID (deref (mem R) resolved)
    | None => name' = name
    end in
  Forall2 rewritten (Extends (deref (mem R) sym)) (Extends (deref (mem R') sym))
  /\ Forall2 rewritten (Implements (deref (mem R) sym))
             (Implements (deref (mem R') sym))
  /\ (forall i name,
        Implements (deref (mem R) sym) !! i = Some name ->
        findSymbol (mem R) (registry R) all name = None ->
        Implements (deref (mem R') sym) !! i = Some name)
  /\ (forall i name,
        Extends (deref (mem R) sym) !! i = Some name ->
        findSymbol (mem R) (registry R) all name = None ->
        Extends (deref (mem R') sym) !! i = Some name).
Proof.
  intros Hwf Hen Hin Hk R' rewritten.
  pose proof (enumerates_NoDup _ _ _ Hwf Hen) as ND.
  destruct (resolveInheritance_spec all R ND) as (_ & _ & Hd & _).
  fold R' in Hd. rewrite (Hd sym), decide_True by done.
  assert (Hc : classLike (deref (mem R) sym) = true).
  { unfold classLike. destruct Hk as [-> | ->]; done. }
  unfold inherit. rewrite Hc.
  assert (Hrw : forall x, rewritten x (resolveName (mem R) (registry R) all x)).
  { intros x. unfold rewritten, resolveName. by destruct (findSymbol _ _ _ x). }
  assert (Hkeep : forall x, findSymbol (mem R) (registry R) all x = None ->
                            resolveName (mem R) (registry R) all x = x).
  { intros x Hx. unfold resolveName. by rewrite Hx. }
  destruct (deref (mem R) sym); simpl. split_and!.
  - by apply Forall2_fmap_spec.
  - by apply Forall2_fmap_spec.
  - intros i name Hi Hn. rewrite list_lookup_fmap, Hi. simpl. by rewrite Hkeep.
  - intros i name Hi Hn. rewrite list_lookup_fmap, Hi. simpl. by rewrite Hkeep.
Qed.

Lemma sum_filter_bind {A B} (P : B -> Prop) `{forall x, Decision (P x)}
    (f : A -> list B) (l : list A) :
  sum_list_with (fun a => length (filter P (f a))) l = length (filter P (l ≫= f)).
Proof.
  induction l as [|a l IH]; simpl; [done|].
  by rewrite filter_app, length_app, IH.
Qed.

(** Claim C5, as amended.  Pass 3: a reference that is empty once trimmed is
    skipped, it stays as it is and neither counter moves.  Every other
    reference is trimmed, loses one trailing "()" and is looked up with
    [findSymbol]; when a symbol is found the entry is rewritten in place to
    its ID and [Resolved] is incremented, otherwise the entry stays the
    literal string and [Unresolved] is incremented. *)
Theorem resolveSeeReferences_rewrites (R : Resolver) (all : list nat) :
  wf (mem R) (registry R) ->
  enumerates (registry R) all ->
  let R' := resolveSeeReferences all R in
  let lookup (raw : string) : option nat :=
    findSymbol (mem R) (registry R) all
      (strings.TrimSuffix (strings.TrimSpace raw) "()") in
  let rewritten (raw raw' : string) :=
    if bool_decide (strings.TrimSpace raw = "") then raw' = raw
    else match lookup raw with
         | Some resolved => raw' = ID (deref (mem R) resolved)
         | None => raw' = raw
         end in
  let refs := all ≫= (fun sym => SeeAlso (Doc (deref (mem R) sym))) in
  (forall sym, sym ∈ all ->
     Forall2 rewritten (SeeAlso (Doc (deref (mem R) sym)))
             (SeeAlso (Doc (deref (mem R') sym))))
  /\ Resolved (stats R') =
     Resolved (stats R)
     + length (filter (fun raw => strings.TrimSpace raw ≠ ""
                                  /\ is_Some (lookup raw)) refs)
  /\ Unresolved (stats R') =
     Unresolved (stats R)
     + length (filter (fun raw => strings.TrimSpace raw ≠ ""
                                  /\ lookup raw = None) refs)
  /\ Inheritance (stats R') = Inheritance (stats R)
  /\ HookBindings (stats R') = HookBindings (stats R).
Proof.
  intros Hwf Hen R' lookup rewritten refs.
  pose proof (enumerates_NoDup _ _ _ Hwf Hen) as ND.
  destruct (resolveSeeReferences_spec all R ND) as (_ & _ & Hd & Hst).
  fold R' in Hd, Hst.
  assert (Htg : forall raw, seeTarget (mem R) (registry R) all raw =
                  if bool_decide (strings.TrimSpace raw = "") then None
                  else lookup raw) by done.
  split_and!.
  - intros sym Hin. rewrite (Hd sym), decide_True by done.
    unfold see. destruct (deref (mem R) sym) as [? ? ? ? ? []]; simpl.
    apply Forall2_fmap_spec. intros x. unfold rewritten, seeName. rewrite Htg.
    case_bool_decide; [done|]. by destruct (lookup x).
  - rewrite Hst. simpl. f_equal. unfold refs.
    rewrite <- sum_filter_bind. apply sum_list_with_ext. intros a _.
    unfold seeResolved. f_equal. apply list_filter_iff. intros raw.
    rewrite Htg. case_bool_decide.
    + split; [by intros [? ?] | by intros [? _]].
    + split; [done | by intros [_ ?]].
  - rewrite Hst. simpl. f_equal. unfold refs.
    rewrite <- sum_filter_bind. apply sum_list_with_ext. intros a _.
    unfold seeUnresolved. f_equal. apply list_filter_iff. intros raw.
    rewrite Htg. case_bool_decide; naive_solver.
  - by rewrite Hst.
  - by rewrite Hst.
Qed.

Lemma hooksByTag_spec h hooks u hook :
  hooksByTag h hooks !! u = Some hook ->
  hook ∈ hooks /\ HookTag (deref h hook) = u.
Proof.
  unfold hooksByTag. induction hooks as [|x l IH] using rev_ind; simpl.
  - by rewrite lookup_empty.
  - rewrite foldl_app. simpl. rewrite lookup_insert. case_decide as Hx.
    + intros [= <-]. split; [set_solver | done].
    + intros H. destruct (IH H). split; [set_solver | done].
Qed.

Lemma hooksByTag_total h hooks hk :
  hk ∈ hooks -> is_Some (hooksByTag h hooks !! HookTag (deref h hk)).
Proof.
  unfold hooksByTag. induction hooks as [|x l IH] using rev_ind; simpl.
  - by intros ?%elem_of_nil.
  - rewrite foldl_app. simpl. rewrite lookup_insert. case_decide as Hx; [eauto|].
    intros [Hin | ->%list_elem_of_singleton]%elem_of_app; [by apply IH | done].
Qed.

Lemma incoming_elem q es x : x ∈ incoming q es <-> (q, x) ∈ es.
Proof.
  unfold incoming. rewrite list_elem_of_fmap. split.
  - intros [[t y] [-> [Ht Hin]%list_elem_of_filter]]. simpl in *. by subst.
  - intros H. exists (q, x). split; [done|]. by apply list_elem_of_filter.
Qed.

(** Claim C8.  Pass 2: for a function or method [sym] of the enumeration and
    an entry [tag] of its [Uses] that is the tag of a hook of the kind index,
    the ID of [sym] is in the [UsedBy] of the hook that the tag index holds
    for [tag] (that hook itself when no other hook has the tag);
    [appendUnique] leaves a list that holds the value as it is; and a
    [UsedBy] list without duplicates before the pass has none after it. *)
Theorem resolveHookBindings_spec (R : Resolver) (all : list nat) :
  wf (mem R) (registry R) ->
  let R' := resolveHookBindings all R in
  let hooks := ByKind (registry R) KindHook in
  (forall sym tag hk,
     sym ∈ all ->
     Kind (deref (mem R) sym) = KindFunction
     \/ Kind (deref (mem R) sym) = KindMethod ->
     tag ∈ Uses (deref (mem R) sym) ->
     hk ∈ hooks -> HookTag (deref (mem R) hk) = tag ->
     exists hook,
       hook ∈ hooks /\ HookTag (deref (mem R) hook) = tag
       /\ ID (deref (mem R) sym) ∈ UsedBy (deref (mem R') hook)
       /\ ((forall hk', hk' ∈ hooks -> HookTag (deref (mem R) hk') = tag -> hk' = hk)
           -> hook = hk))
  /\ (forall slice val, val ∈ slice -> appendUnique slice val = slice)
  /\ (forall p, NoDup (UsedBy (deref (mem R) p)) ->
                NoDup (UsedBy (deref (mem R') p))).
Proof.
  intros Hwf R' hooks. unfold R'. rewrite resolveHookBindings_eq. simpl.
  fold hooks. set (byTag := hooksByTag (mem R) hooks). split_and!.
  - intros sym tag hk Hin Hk Htag Hhk Htg.
    destruct (hooksByTag_total (mem R) hooks hk Hhk) as [hook Hhook].
    rewrite Htg in Hhook. fold byTag in Hhook.
    destruct (hooksByTag_spec _ _ _ _ Hhook) as [Hh1 Hh2].
    exists hook. split_and!; try done.
    + rewrite link_UsedBy by by eapply wf_ByKind.
      apply appendUnique_all_elem. right. apply incoming_elem.
      unfold allHookEdges. apply list_elem_of_bind. exists sym. split; [|done].
      unfold hookEdges.
      assert (Hf : funcLike (deref (mem R) sym) = true).
      { unfold funcLike. destruct Hk as [-> | ->]; done. }
      rewrite Hf. apply list_elem_of_fmap. exists hook. split; [done|].
      apply list_elem_of_omap. by exists tag.
    + intros Huniq. by apply Huniq.
  - apply appendUnique_present.
  - intros p ND. destruct (decide (p < length (mem R))).
    + rewrite link_UsedBy by done. by apply appendUnique_all_NoDup.
    + rewrite deref_invalid by (rewrite link_length; lia). constructor.
Qed.

Lemma findOverride_Some r name exts pm :
  findOverride r name exts = Some pm <->
  exists pre ext post,
    exts = pre ++ ext :: post
    /\ candidate r name ext pm
    /\ Forall (fun e => forall pm', ~ candidate r name e pm') pre.
Proof.
  unfold candidate. induction exts as [|e exts IH]; simpl.
  - split; [done|]. intros (pre & ext & post & H & _). by destruct pre.
  - destruct (Get r e) as [c|] eqn:He.
    + destruct (Get r (e +:+ "::" +:+ name)) as [m|] eqn:Hm.
      * split.
        -- intros [= <-]. exists [], e, exts.
           split_and!; [done | rewrite He; eauto | done | constructor].
        -- intros (pre & ext & post & Heq & [_ Hc] & Hpre).
           destruct pre as [|e' pre]; simpl in Heq; injection Heq as <- ->.
           ++ congruence.
           ++ apply Forall_cons in Hpre as [Hno _]. exfalso.
              apply (Hno m). split; [rewrite He; eauto | done].
      * rewrite IH. split.
        -- intros (pre & ext & post & -> & [Hs Hc] & Hpre).
           exists (e :: pre), ext, post. split_and!; try done.
           constructor; [|done]. intros pm' [_ ?]. congruence.
        -- intros (pre & ext & post & Heq & [Hs Hc] & Hpre).
           destruct pre as [|e' pre]; simpl in Heq; injection Heq as <- ->.
           ++ congruence.
           ++ apply Forall_cons in Hpre as [_ Hpre]. by exists pre, ext, post.
    + rewrite IH. split.
      * intros (pre & ext & post & -> & [Hs Hc] & Hpre).
        exists (e :: pre), ext, post. split_and!; try done.
        constructor; [|done]. intros pm' [[? ?] _]. congruence.
      * intros (pre & ext & post & Heq & [Hs Hc] & Hpre).
        destruct pre as [|e' pre]; simpl in Heq; injection Heq as <- ->.
        -- destruct Hs. congruence.
        -- apply Forall_cons in Hpre as [_ Hpre]. by exists pre, ext, post.
Qed.

Lemma findOverride_None r name exts :
  findOverride r name exts = None <->
  Forall (fun e => forall pm', ~ candidate r name e pm') exts.
Proof.
  unfold candidate. induction exts as [|e exts IH]; simpl.
  - split; [constructor | done].
  - rewrite Forall_cons. destruct (Get r e) as [c|] eqn:He.
    + destruct (Get r (e +:+ "::" +:+ name)) as [m|] eqn:Hm.
      * split; [done|]. intros [Hno _]. exfalso. apply (Hno m).
        split; [try rewrite He; eauto | done].
      * rewrite IH. split; [|by intros [_ ?]]. intros H. split; [|done].
        intros pm' [_ ?]. congruence.
    + rewrite IH. split; [|by intros [_ ?]]. intros H. split; [|done].
      intros pm' [[? ?] _]. congruence.
Qed.

Lemma registered_Get h r all p :
  wf h r -> enumerates r all -> p ∈ all ->
  p < length h /\ Get r (ID (deref h p)) = Some p.
Proof.
  intros Hwf Hen Hp. apply (enumerates_elem _ _ _ Hen) in Hp as [k Hk].
  destruct (wf_Get _ _ _ _ Hwf Hk) as [Hv <-]. done.
Qed.

Lemma overrides_state R all :
  let R' := resolveMethodOverrides all R in
  let h := mem R in
  let r := registry R in
  forall p, p < length h ->
    Overrides (deref (mem R') p) =
      Overrides (if decide (p ∈ all) then override h r p (deref h p) else deref h p)
    /\ UsedBy (deref (mem R') p) =
       foldl appendUnique (UsedBy (deref h p)) (incoming p (overrideEdges h r all)).
Proof.
  intros R' h r p Hp. unfold R'. rewrite resolveMethodOverrides_eq. simpl.
  fold h r. rewrite link_deref by by rewrite setOverrides_length.
  rewrite setOverrides_deref by done.
  assert (HU : UsedBy (if decide (p ∈ all) then override h r p (deref h p)
                       else deref h p) = UsedBy (deref h p)).
  { destruct (decide _); [|done]. unfold override.
    destruct (overrideTarget h r p); [|done]. by destruct (deref h p). }
  split.
  - by destruct (if decide (p ∈ all) then _ else _).
  - rewrite <- HU. by destruct (if decide (p ∈ all) then _ else _).
Qed.

Lemma overrideEdges_elem h r all q x :
  (q, x) ∈ overrideEdges h r all <->
  exists a, a ∈ all /\ overrideTarget h r a = Some q /\ x = ID (deref h a).
Proof.
  unfold overrideEdges. rewrite list_elem_of_omap. split.
  - intros (a & Ha & Hq). exists a. destruct (overrideTarget h r a); simpl in Hq; [|done].
    injection Hq as -> ->. done.
  - intros (a & Ha & Hov & ->). exists a. split; [done|]. by rewrite Hov.
Qed.

(** Claim C3.  Pass 4, for a method [sym] of the registry whose [ParentID] is
    not empty.  When the owning class is registered, the entries of its
    [Extends] are tried in order and the first entry [ext] such that [ext] is
    registered and [ext::name] is registered decides: [Overrides] of [sym]
    becomes the ID of that method, which is [ext::name], the ID of [sym] is
    in its [UsedBy], and no other symbol gains the ID of [sym].  When no
    entry qualifies, or the owning class is not registered, [Overrides] is
    left as it was; the pass is a total function and raises nothing. *)
Theorem resolveMethodOverrides_first_match (R : Resolver) (all : list nat)
    (sym : nat) :
  wf (mem R) (registry R) ->
  enumerates (registry R) all ->
  sym ∈ all ->
  Kind (deref (mem R) sym) = KindMethod ->
  ParentID (deref (mem R) sym) ≠ "" ->
  let R' := resolveMethodOverrides all R in
  let s := deref (mem R) sym in
  match Get (registry R) (ParentID s) with
  | None => Overrides (deref (mem R') sym) = Overrides s
  | Some parent =>
      let exts := Extends (deref (mem R) parent) in
      (forall pre ext post parentMethod,
         exts = pre ++ ext :: post ->
         candidate (registry R) (Name s) ext parentMethod ->
         Forall (fun e => forall pm, ~ candidate (registry R) (Name s) e pm) pre ->
         Overrides (deref (mem R') sym) = ID (deref (mem R) parentMethod)
         /\ ID (deref (mem R) parentMethod) = ext +:+ "::" +:+ Name s
         /\ ID s ∈ UsedBy (deref (mem R') parentMethod)
         /\ (forall q, q < length (mem R) -> q ≠ parentMethod ->
               ID s ∈ UsedBy (deref (mem R') q) ->
               ID s ∈ UsedBy (deref (mem R) q)))
      /\ (Forall (fun e => forall pm, ~ candidate (registry R) (Name s) e pm) exts ->
          Overrides (deref (mem R') sym) = Overrides s)
  end.
Proof.
  intros Hwf Hen Hin Hk Hpar R' s.
  destruct (registered_Get _ _ _ _ Hwf Hen Hin) as [Hv Hreg].
  pose proof (overrides_state R all) as Hst. simpl in Hst. fold R' in Hst.
  assert (Hov : overrideTarget (mem R) (registry R) sym =
                match Get (registry R) (ParentID s) with
                | None => None
                | Some parent => findOverride (registry R) (Name s)
                                   (Extends (deref (mem R) parent))
                end).
  { unfold overrideTarget, s. rewrite Hk.
    rewrite bool_decide_false by (intros H; by apply H).
    by rewrite bool_decide_false. }
  destruct (Hst sym Hv) as [HO _]. rewrite decide_True in HO by done.
  unfold override in HO. rewrite Hov in HO. fold s in HO.
  destruct (Get (registry R) (ParentID s)) as [parent|] eqn:Hp; [|done].
  split.
  - intros pre ext post pm Hexts Hc Hpre.
    assert (Hf : findOverride (registry R) (Name s) (Extends (deref (mem R) parent))
                 = Some pm).
    { apply findOverride_Some. by exists pre, ext, post. }
    rewrite Hf in HO, Hov.
    destruct Hc as [_ Hpm]. destruct (wf_Get _ _ _ _ Hwf Hpm) as [Hvpm Hid].
    split_and!.
    + rewrite HO. by destruct s.
    + done.
    + destruct (Hst pm Hvpm) as [_ ->]. apply appendUnique_all_elem. right.
      apply incoming_elem, overrideEdges_elem. by exists sym.
    + intros q Hq Hne. destruct (Hst q Hq) as [_ ->].
      intros [?|Hinc]%appendUnique_all_elem; [done|]. exfalso.
      apply incoming_elem, overrideEdges_elem in Hinc as (a & Ha & Hova & Hida).
      destruct (registered_Get _ _ _ _ Hwf Hen Ha) as [_ Hrega].
      fold s in Hida. unfold s in Hida. rewrite <- Hida in Hrega.
      assert (a = sym) as -> by congruence. congruence.
  - intros Hnone. apply findOverride_None in Hnone. by rewrite Hnone in HO.
Qed.

(** ** [ResolveAll]: what it keeps, and what depends on the order *)

Lemma kept_all_refl r (l : list string) : Forall2 (kept r) l l.
Proof. induction l; constructor; [by left | done]. Qed.

Lemma kept_all_trans r (l1 l2 l3 : list string) :
  Forall2 (kept r) l1 l2 -> Forall2 (kept r) l2 l3 -> Forall2 (kept r) l1 l3.
Proof.
  intros H. revert l3. induction H as [|a b l1 l2 Hab _ IH]; intros l3 H23.
  - by inversion H23.
  - inversion H23 as [|? c ? l3' Hbc H' ]; subst. constructor; [|by apply IH].
    destruct Hbc as [->|?]; [done | by right].
Qed.

Lemma grows_refl r s : grows r s s.
Proof. unfold grows. split_and!; try done; try apply kept_all_refl. by left. Qed.

Lemma wf_frame h h' r :
  skeleton <$> h' = skeleton <$> h -> wf h r -> wf h' r.
Proof.
  intros H [H1 H2]. pose proof (frame_length _ _ _ H) as HL. split.
  - intros k p Hk. destruct (H1 k p Hk) as [Hv Hid]. simpl in *.
    destruct (skeleton_fields h h' p H) as (-> & _). split; [lia|done].
  - intros k l Hk. specialize (H2 k l Hk). simpl in *. by rewrite HL.
Qed.

Lemma pass1_monotone all R :
  wf (mem R) (registry R) -> enumerates (registry R) all ->
  monotone R (resolveInheritance all R).
Proof.
  intros Hwf Hen. pose proof (enumerates_NoDup _ _ _ Hwf Hen) as ND.
  destruct (resolveInheritance_spec all R ND) as (Hr & Hsk & Hd & _).
  split_and!; [done | by apply (frame_length skeleton) |].
  intros p. rewrite Hd. destruct (decide (p ∈ all)); [|apply grows_refl].
  unfold inherit. destruct (classLike _); [|apply grows_refl].
  assert (Hk : forall x, kept (registry R) x
                           (resolveName (mem R) (registry R) all x)).
  { intros x. unfold kept, resolveName.
    destruct (findSymbol _ _ _ x) as [q|] eqn:Hq; [right | by left].
    rewrite (findSymbol_registered _ _ _ _ _ Hwf Hen Hq). eauto. }
  unfold grows. destruct (deref (mem R) p); simpl.
  split_and!; try done; try (by apply Forall2_fmap_spec);
    try apply kept_all_refl. by left.
Qed.

Lemma pass3_monotone all R :
  wf (mem R) (registry R) -> enumerates (registry R) all ->
  monotone R (resolveSeeReferences all R).
Proof.
  intros Hwf Hen. pose proof (enumerates_NoDup _ _ _ Hwf Hen) as ND.
  destruct (resolveSeeReferences_spec all R ND) as (Hr & Hsk & Hd & _).
  split_and!; [done | by apply (frame_length skeleton) |].
  intros p. rewrite Hd. destruct (decide (p ∈ all)); [|apply grows_refl].
  assert (Hk : forall x, kept (registry R) x
                           (seeName (mem R) (registry R) all x)).
  { intros x. unfold kept, seeName, seeTarget. case_bool_decide; [by left|].
    destruct (findSymbol _ _ _ _) as [q|] eqn:Hq; [right | by left].
    rewrite (findSymbol_registered _ _ _ _ _ Hwf Hen Hq). eauto. }
  unfold see, grows. destruct (deref (mem R) p) as [? ? ? ? ? []]; simpl.
  split_and!; try done; try (by apply Forall2_fmap_spec);
    try apply kept_all_refl. by left.
Qed.

Lemma link_grows r h es p : grows r (deref h p) (deref (link h es) p).
Proof.
  destruct (decide (p < length h)).
  - rewrite link_deref by done. unfold grows.
    pose proof (appendUnique_all_prefix (UsedBy (deref h p)) (incoming p es)).
    destruct (deref h p); simpl in *.
    split_and!; try done; try apply kept_all_refl. by left.
  - rewrite !deref_invalid by (rewrite ?link_length; lia). apply grows_refl.
Qed.

Lemma pass2_monotone all R : monotone R (resolveHookBindings all R).
Proof.
  rewrite resolveHookBindings_eq. simpl.
  split_and!; [done | apply link_length | intros p; simpl; apply link_grows].
Qed.

Lemma grows_trans r s1 s2 s3 : grows r s1 s2 -> grows r s2 s3 -> grows r s1 s3.
Proof.
  unfold grows.
  intros (A1 & A2 & A3 & A4 & A5 & A6 & A7) (B1 & B2 & B3 & B4 & B5 & B6 & B7).
  split_and!; try congruence; try (by eapply kept_all_trans); [by etrans | | auto].
  destruct B6 as [->|?]; [done | by right].
Qed.

Lemma monotone_trans R1 R2 R3 : monotone R1 R2 -> monotone R2 R3 -> monotone R1 R3.
Proof.
  intros (A1 & A2 & A3) (B1 & B2 & B3).
  split_and!; try congruence. intros p. rewrite A1 in B3. eapply grows_trans; eauto.
Qed.

Lemma findOverride_key r name exts pm :
  findOverride r name exts = Some pm ->
  exists ext, Get r (ext +:+ "::" +:+ name) = Some pm.
Proof.
  intros (pre & ext & post & _ & [_ H] & _)%findOverride_Some. eauto.
Qed.

Lemma append_nonempty (a b : string) : b ≠ "" -> a +:+ b ≠ "".
Proof. destruct a; simpl; [done|]. intros _ ?. discriminate. Qed.

Lemma pass4_monotone all R :
  wf (mem R) (registry R) -> monotone R (resolveMethodOverrides all R).
Proof.
  intros Hwf. rewrite resolveMethodOverrides_eq. simpl.
  split_and!; [done | simpl; by rewrite link_length, setOverrides_length |].
  intros p. simpl. eapply grows_trans; [|apply link_grows].
  rewrite setOverrides_deref by done.
  destruct (decide (p ∈ all)); [|apply grows_refl].
  unfold override. destruct (overrideTarget _ _ p) as [pm|] eqn:Hov; [|apply grows_refl].
  assert (Hne : ID (deref (mem R) pm) ≠ ""
                /\ Get (registry R) (ID (deref (mem R) pm)) = Some pm).
  { unfold overrideTarget in Hov. destruct (_ || _); [done|].
    destruct (Get _ (ParentID _)); [|done].
    apply findOverride_key in Hov as [ext Hext].
    destruct (wf_Get _ _ _ _ Hwf Hext) as [_ ->].
    split; [by apply append_nonempty | done]. }
  destruct Hne as [Hne Hreg].
  unfold grows. destruct (deref (mem R) p); simpl.
  split_and!; try done; try apply kept_all_refl. right. rewrite Hreg. eauto.
Qed.

Lemma monotone_wf R R' : monotone R R' -> wf (mem R) (registry R) -> wf (mem R') (registry R').
Proof.
  intros (Hr & HL & Hg) Hwf. rewrite Hr. apply (wf_frame (mem R)); [|done].
  apply list_eq_same_length with (length (mem R)); rewrite ?length_fmap; try done.
  intros i x y Hi Hx Hy. rewrite list_lookup_fmap in Hx, Hy.
  destruct (mem R' !! i) as [s'|] eqn:Hs'; [|done].
  destruct (mem R !! i) as [s|] eqn:Hs; [|done].
  simpl in *. destruct (Hg i) as [Hsk _]. unfold deref in Hsk.
  rewrite (list_lookup_total_correct _ _ _ Hs) in Hsk.
  rewrite (list_lookup_total_correct _ _ _ Hs') in Hsk. congruence.
Qed.

(** Claim C7.  Each of the four passes of [ResolveAll], and so their
    composition, leaves the registry as it is (same count, same record under
    every ID) and the heap with the same cells; on every symbol it keeps the
    ID and every field that the resolver does not own, keeps the length of
    [Extends], of [Implements] and of the see-also list, only extends
    [UsedBy], and never empties an [Overrides] that was set. *)
Theorem ResolveAll_monotone (R : Resolver) (o1 o2 o3 o4 : list nat) :
  wf (mem R) (registry R) ->
  enumerates (registry R) o1 -> enumerates (registry R) o2 ->
  enumerates (registry R) o3 -> enumerates (registry R) o4 ->
  let R1 := resolveInheritance o1 R in
  let R2 := resolveHookBindings o2 R1 in
  let R3 := resolveSeeReferences o3 R2 in
  let R4 := resolveMethodOverrides o4 R3 in
  R4 = ResolveAll o1 o2 o3 o4 R
  /\ monotone R R1 /\ monotone R1 R2 /\ monotone R2 R3 /\ monotone R3 R4
  /\ monotone R R4
  /\ Count (registry R4) = Count (registry R)
  /\ (forall id, Get (registry R4) id = Get (registry R) id)
  /\ (forall p, ID (deref (mem R4) p) = ID (deref (mem R) p)).
Proof.
  intros Hwf H1 H2 H3 H4 R1 R2 R3 R4.
  assert (M1 : monotone R R1) by by apply pass1_monotone.
  assert (M2 : monotone R1 R2) by apply pass2_monotone.
  assert (W2 : wf (mem R2) (registry R2)) by eauto using monotone_wf.
  assert (E2' : registry R2 = registry R).
  { destruct M1 as [A _], M2 as [B _]. congruence. }
  assert (M3 : monotone R2 R3).
  { apply pass3_monotone; [done | by rewrite E2']. }
  assert (M4 : monotone R3 R4).
  { apply pass4_monotone. eauto using monotone_wf. }
  assert (M : monotone R R4) by eauto using monotone_trans.
  split_and!; try done.
  - destruct M as [-> _]. done.
  - intros id. destruct M as [-> _]. done.
  - intros p. destruct M as (_ & _ & Hg). destruct (Hg p) as [Hsk _].
    destruct (deref (mem R4) p), (deref (mem R) p). by inversion Hsk.
Qed.

(** Claim C9, as amended.  Two runs of [ResolveAll] on the same store, each
    pass of each run seeing any enumeration of the registry: the counters
    are the same, on every symbol [Extends], [Implements], [Overrides] and
    the see-also list are the same, and the two [UsedBy] lists have the same
    elements, possibly in another order. *)
Theorem ResolveAll_order (R : Resolver) (o1 o2 o3 o4 o1' o2' o3' o4' : list nat) :
  wf (mem R) (registry R) ->
  enumerates (registry R) o1 -> enumerates (registry R) o2 ->
  enumerates (registry R) o3 -> enumerates (registry R) o4 ->
  enumerates (registry R) o1' -> enumerates (registry R) o2' ->
  enumerates (registry R) o3' -> enumerates (registry R) o4' ->
  let A := ResolveAll o1 o2 o3 o4 R in
  let B := ResolveAll o1' o2' o3' o4' R in
  stats A = stats B
  /\ forall p,
       Extends (deref (mem A) p) = Extends (deref (mem B) p)
       /\ Implements (deref (mem A) p) = Implements (deref (mem B) p)
       /\ Overrides (deref (mem A) p) = Overrides (deref (mem B) p)
       /\ SeeAlso (Doc (deref (mem A) p)) = SeeAlso (Doc (deref (mem B) p))
       /\ UsedBy (deref (mem A) p) ≡ₚ UsedBy (deref (mem B) p).
Proof.
  intros Hwf H1 H2 H3 H4 H1' H2' H3' H4' A B.
  assert (P : forall o o', enumerates (registry R) o -> enumerates (registry R) o' ->
                           NoDup o /\ o ≡ₚ o').
  { intros o o' Ho Ho'. split; [by eapply enumerates_NoDup|].
    unfold enumerates in *. by rewrite Ho, Ho'. }
  destruct (P _ _ H1 H1') as [N1 P1]. destruct (P _ _ H2 H2') as [N2 P2].
  destruct (P _ _ H3 H3') as [N3 P3]. destruct (P _ _ H4 H4') as [N4 P4].
  unfold A, B, ResolveAll.
  rewrite <- (pass1_order o1 o1' R N1 P1).
  destruct (pass2_order o2 o2' (resolveInheritance o1 R) P2) as (Q1 & Q2 & Q3).
  destruct (pass3_order o3 o3' _ _ N3 P3 Q1 Q2 Q3) as (S1 & S2 & S3).
  destruct (pass4_order o4 o4' _ _ P4 S1 S2 S3) as (T1 & T2 & T3).
  split; [done|]. intros p.
  destruct (similar_fields _ _ p T3) as (? & ? & ? & ? & _).
  destruct T3 as [_ T3]. destruct (T3 p) as [_ ?]. split_and!; done.
Qed.

(** ** The name lookup *)

Lemma LastIndexAny_from_acc s chars i acc :
  strings.LastIndexAny_from s chars i acc =
  match strings.LastIndexAny_from s chars i None with
  | Some j => Some j
  | None => acc
  end.
Proof.
  revert i acc. induction s as [|c s IH]; intros i acc; simpl; [done|].
  rewrite (IH (S i) (if strings.byte_in c chars then Some i else acc)).
  rewrite (IH (S i) (if strings.byte_in c chars then Some i else None)).
  destruct (strings.LastIndexAny_from s chars (S i) None); [done|].
  by destruct (strings.byte_in c chars).
Qed.

Lemma LastIndexAny_from_shift s chars i :
  strings.LastIndexAny_from s chars (S i) None =
  S <$> strings.LastIndexAny_from s chars i None.
Proof.
  revert i. induction s as [|c s IH]; intros i; simpl; [done|].
  rewrite (LastIndexAny_from_acc s chars (S (S i))).
  rewrite (LastIndexAny_from_acc s chars (S i)).
  rewrite IH. destruct (strings.LastIndexAny_from s chars (S i) None); simpl; [done|].
  by destruct (strings.byte_in c chars).
Qed.

Lemma LastIndexAny_cons c s chars :
  strings.LastIndexAny (String c s) chars =
  match strings.LastIndexAny s chars with
  | Some j => Some (S j)
  | None => if strings.byte_in c chars then Some 0 else None
  end.
Proof.
  unfold strings.LastIndexAny. simpl.
  rewrite LastIndexAny_from_acc, LastIndexAny_from_shift.
  by destruct (strings.LastIndexAny_from s chars 0 None).
Qed.

Lemma LastIndexAny_sepFree s chars :
  sepFree chars s -> strings.LastIndexAny s chars = None.
Proof.
  unfold sepFree. induction s as [|c s IH]; simpl; [done|].
  intros [Hc Hs]%Forall_cons. rewrite LastIndexAny_cons, IH by done. by rewrite Hc.
Qed.

Lemma LastIndexAny_split pre c short chars :
  sepFree chars short -> strings.byte_in c chars = true ->
  strings.LastIndexAny (pre +:+ String c short) chars = Some (String.length pre).
Proof.
  intros Hs Hc. induction pre as [|p pre IH].
  - change ("" +:+ String c short) with (String c short).
    rewrite LastIndexAny_cons, LastIndexAny_sepFree by done. by rewrite Hc.
  - change (String p pre +:+ String c short)
      with (String p (pre +:+ String c short)).
    by rewrite LastIndexAny_cons, IH.
Qed.

Lemma slice_from_split pre c short :
  strings.slice_from (String.length pre + 1) (pre +:+ String c short) = short.
Proof. induction pre as [|p pre IH]; simpl; [by destruct short | done]. Qed.

Lemma shortNameAfter_exists seps name : exists short, shortNameAfter seps name short.
Proof.
  unfold shortNameAfter. induction name as [|c name (short & Hfree & Hsplit)].
  - exists "". split; [constructor | by left].
  - destruct Hsplit as [-> | (pre & c' & Hc' & ->)].
    + destruct (strings.byte_in c seps) eqn:Hc.
      * exists short. split; [done|]. right. by exists "", c.
      * exists (String c short). split; [by constructor | by left].
    + exists short. split; [done|]. right. by exists (String c pre), c'.
Qed.

Lemma shortAfter_spec seps name short :
  shortAfter seps name = short <-> shortNameAfter seps name short.
Proof.
  assert (Hcomp : forall short', shortNameAfter seps name short' ->
                                 shortAfter seps name = short').
  { intros short' [Hfree [-> | (pre & c & Hc & ->)]]; unfold shortAfter.
    - by rewrite LastIndexAny_sepFree.
    - rewrite LastIndexAny_split by done. apply slice_from_split. }
  split; [|apply Hcomp].
  intros <-. destruct (shortNameAfter_exists seps name) as [short' H].
  by rewrite (Hcomp _ H).
Qed.

(** Claim C2, as amended.  [findSymbol] returns [p] exactly when [p] is
    registered under [name]; or else under [name] with every "/" replaced by
    "\"; or else, neither ID being registered, [p] is the one symbol of the
    registry whose [Name] is the short name.  The short name is what follows
    the last "\", "/" or ":" of [name], the whole of [name] when it has none
    of them.  Two symbols with that short name, and no match on the ID, give
    no result. *)
Theorem findSymbol_lookup_order (h : list Symbol) (r : Registry)
    (all : list nat) (name : string) :
  wf h r ->
  enumerates r all ->
  let alternate := strings.ReplaceAll name "/" "\" in
  let short := shortNameOf name in
  let named (p : nat) := p ∈ all /\ Name (deref h p) = short in
  shortNameAfter "\/:" name short
  /\ (forall p,
        findSymbol h r all name = Some p <->
        Get r name = Some p
        \/ (Get r name = None /\ Get r alternate = Some p)
        \/ (Get r name = None /\ Get r alternate = None
            /\ named p /\ forall q, named q -> q = p))
  /\ (forall p q,
        Get r name = None -> Get r alternate = None ->
        named p -> named q -> p ≠ q ->
        findSymbol h r all name = None).
Proof.
  intros Hwf Hen alternate short named.
  pose proof (enumerates_NoDup _ _ _ Hwf Hen) as ND.
  assert (Hchar : forall p,
        findSymbol h r all name = Some p <->
        Get r name = Some p
        \/ (Get r name = None /\ Get r alternate = Some p)
        \/ (Get r name = None /\ Get r alternate = None
            /\ named p /\ forall q, named q -> q = p)).
  { intros p. unfold findSymbol. fold alternate short.
    destruct (Get r name) as [s|] eqn:H1.
    { split; [by left | intros [?|[[? _]|[? _]]]; done]. }
    destruct (Get r alternate) as [s|] eqn:H2.
    { split; [by right; left | intros [?|[[_ ?]|(_ & ? & _)]]; done]. }
    pose proof (filter_singleton (fun sym => Name (deref h sym) = short) all p ND)
      as Hs.
    destruct (filter _ all) as [|a [|b l]] eqn:Hf.
    - split; [done|]. intros [?|[[_ ?]|(_ & _ & [Hin Hn] & Hu)]]; try done.
      assert (Hx : [] = [p]).
      { apply Hs. split_and!; try done. intros q ? ?. by apply Hu. }
      done.
    - split.
      + intros [= ->]. right; right. destruct Hs as [Hs _].
        destruct (Hs eq_refl) as (? & ? & Hu). split_and!; try done.
        intros q [? ?]. by apply Hu.
      + intros [?|[[_ ?]|(_ & _ & [Hin Hn] & Hu)]]; try done.
        assert (Hx : [a] = [p]).
        { apply Hs. split_and!; try done. intros q ? ?. by apply Hu. }
        congruence.
    - split; [done|]. intros [?|[[_ ?]|(_ & _ & [Hin Hn] & Hu)]]; try done.
      assert (Hx : a :: b :: l = [p]).
      { apply Hs. split_and!; try done. intros q ? ?. by apply Hu. }
      done. }
  split_and!.
  - by apply (shortAfter_spec "\/:" name short).
  - done.
  - intros p q H1 H2 Hp Hq Hne.
    destruct (findSymbol h r all name) as [x|] eqn:Hx; [|done]. exfalso.
    destruct (Hchar x) as [Hc _].
    destruct (Hc eq_refl) as [?|[[_ ?]|(_ & _ & _ & Hu)]]; try congruence.
    apply Hne. by rewrite (Hu p), (Hu q).
Qed.

(** ** The hook upsert *)

Lemma deref_app_l (h : Heap) s p : p < length h -> deref (h ++ [s]) p = deref h p.
Proof.
  intros Hp. unfold deref. rewrite !list_lookup_total_alt.
  by rewrite lookup_app_l.
Qed.

Lemma deref_app_new (h : Heap) s : deref (h ++ [s]) (length h) = s.
Proof.
  unfold deref. apply list_lookup_total_correct.
  rewrite lookup_app_r by lia. by rewrite Nat.sub_diag.
Qed.

Lemma wf_alter_CallSites h r p v :
  wf h r -> wf (alter (fun s => set_CallSites (v s) s) p h) r.
Proof.
  intros [H1 H2]. split.
  - intros k q Hk. destruct (H1 k q Hk) as [Hv Hid]. simpl in *.
    rewrite length_alter. split; [done|].
    destruct (decide (p = q)) as [->|Hne].
    + rewrite deref_alter_eq by done. by destruct (deref h q).
    + by rewrite deref_alter_ne.
  - intros k l Hk. specialize (H2 k l Hk). simpl in *. by rewrite length_alter.
Qed.

Lemma wf_new_Add h r s :
  wf h r -> wf (h ++ [s]) (Add (h ++ [s]) r (length h)).
Proof.
  intros [H1 H2]. split.
  - intros k q. unfold Add. simpl. rewrite deref_app_new, length_app. simpl.
    rewrite lookup_insert. case_decide as Hk.
    + intros [= <-]. rewrite deref_app_new. split; [lia|done].
    + intros Hq. destruct (H1 k q Hq) as [Hv Hid]. simpl in *.
      rewrite deref_app_l by done. split; [lia|done].
  - intros k l. unfold Add. simpl. rewrite deref_app_new, length_app. simpl.
    rewrite lookup_insert. case_decide as Hk.
    + intros [= <-]. apply Forall_app. split.
      * unfold slice_at. destruct (byKind r !! Kind s) as [l|] eqn:Hl; simpl; [|constructor].
        specialize (H2 _ l Hl). simpl in H2. eapply Forall_impl; [exact H2|].
        intros; simpl in *; lia.
      * repeat constructor. lia.
    + intros Hl. specialize (H2 _ l Hl). simpl in H2. eapply Forall_impl; [exact H2|].
      intros; simpl in *; lia.
Qed.

Section HookUpsert.
Variable paramSubmatch : string -> option (string * string * string).

Local Abbreviation registerHook := (registerHook paramSubmatch).
Local Abbreviation ingest := (ingest paramSubmatch).
Local Abbreviation hookSymbol := (hookSymbol paramSubmatch).
Local Abbreviation eventSymbol := (eventSymbol paramSubmatch).
Local Abbreviation hookState := (hookState paramSubmatch).

Lemma registerHook_wf call hookType callerID file st :
  wf st.1 st.2 ->
  wf (registerHook call hookType callerID file st).1
     (registerHook call hookType callerID file st).2.
Proof.
  intros Hwf. unfold registerHook. case_bool_decide; [done|].
  destruct (Get st.2 _) as [existing|]; simpl.
  - by apply (wf_alter_CallSites _ _ _ (fun s => CallSites s ++ [callerID])).
  - by apply wf_new_Add.
Qed.

Lemma hookID_inj t1 t2 : "hook:" +:+ t1 = "hook:" +:+ t2 -> t1 = t2.
Proof. by intros [=]. Qed.

Lemma filter_ID_frame (h h' : Heap) (l : list nat) id :
  (forall q, q ∈ l -> ID (deref h' q) = ID (deref h q)) ->
  filter (fun q => ID (deref h' q) = id) l = filter (fun q => ID (deref h q) = id) l.
Proof.
  intros H. induction l as [|a l IH]; [done|].
  rewrite !filter_cons. rewrite H by set_solver.
  rewrite IH; [done|]. intros q Hq. apply H. set_solver.
Qed.

Lemma Forall_ID_frame (h h' : Heap) (l : list nat) id :
  (forall q, q ∈ l -> ID (deref h' q) = ID (deref h q)) ->
  Forall (fun q => ID (deref h q) ≠ id) l ->
  Forall (fun q => ID (deref h' q) ≠ id) l.
Proof.
  intros H. rewrite !Forall_forall. intros HF q Hq. rewrite H by done. by apply HF.
Qed.

Lemma filter_none {A} (P : A -> Prop) `{forall x, Decision (P x)} (l : list A) :
  Forall (fun x => ~ P x) l -> filter P l = [].
Proof.
  induction 1 as [|x l Hx _ IH]; [done|]. rewrite filter_cons.
  by rewrite decide_False.
Qed.

Lemma registerHook_step tag mine e st :
  tag ≠ "" ->
  wf st.1 st.2 ->
  hookState tag mine st ->
  hookState tag
    (mine ++ if decide (call_tag (ev_call e) = tag) then [e] else [])
    (registerHook (ev_call e) (ev_hookType e) (ev_callerID e) (ev_file e) st).
Proof.
  intros Htag Hwf Hst. destruct st as [h r]. simpl in Hwf.
  unfold registerHook. simpl.
  case_bool_decide as Hempty.
  { rewrite decide_False by congruence. by rewrite app_nil_r. }
  destruct (decide (call_tag (ev_call e) = tag)) as [He|Hne].
  - (* a call site of [tag] *)
    rewrite He. destruct mine as [|first mine]; simpl in Hst.
    + destruct Hst as [Hget Hnone]. rewrite Hget. simpl.
      exists (length h). rewrite deref_app_new. split_and!.
      * rewrite Get_Add, ?deref_app_new. simpl. by rewrite He, decide_True.
      * rewrite ?deref_app_new. by unfold eventSymbol.
      * rewrite ByKind_Add, ?deref_app_new. simpl.
        rewrite filter_app.
        rewrite filter_none.
        2:{ eapply Forall_ID_frame; [|exact Hnone]. intros q Hq.
            f_equal. apply deref_app_l. by eapply wf_ByKind. }
        rewrite filter_cons, ?deref_app_new. simpl.
        by rewrite He, decide_True.
    + destruct Hst as (p & Hget & Hd & Hf). rewrite Hget. simpl.
      destruct (wf_Get _ _ _ _ Hwf Hget) as [Hv _].
      exists p. split_and!; [done | |].
      * rewrite deref_alter_eq by done. rewrite Hd. simpl.
        by rewrite fmap_app.
      * rewrite <- Hf. apply filter_ID_frame. intros q _.
        destruct (decide (p = q)) as [->|Hn].
        -- rewrite deref_alter_eq by done. by destruct (deref h q).
        -- by rewrite deref_alter_ne.
  - (* a call site of another tag *)
    rewrite app_nil_r.
    assert (Hid : "hook:" +:+ call_tag (ev_call e) ≠ "hook:" +:+ tag).
    { intros H. by apply hookID_inj in H. }
    destruct (Get r ("hook:" +:+ call_tag (ev_call e))) as [existing|] eqn:Hex; simpl.
    + destruct (wf_Get _ _ _ _ Hwf Hex) as [Hv Hide].
      assert (HID : forall q,
        ID (deref (alter (fun s => set_CallSites (CallSites s ++ [ev_callerID e]) s)
                         existing h) q) = ID (deref h q)).
      { intros q. destruct (decide (existing = q)) as [->|Hn].
        - rewrite deref_alter_eq by done. by destruct (deref h q).
        - by rewrite deref_alter_ne. }
      destruct mine as [|first mine]; simpl in *.
      * destruct Hst as [Hget Hnone]. split; [done|].
        eapply Forall_ID_frame; [|exact Hnone]. intros; apply HID.
      * destruct Hst as (p & Hget & Hd & Hf). exists p. split_and!; [done| |].
        -- rewrite deref_alter_ne; [done|]. intros ->.
           destruct (wf_Get _ _ _ _ Hwf Hget) as [_ Hidp]. congruence.
        -- rewrite <- Hf. apply filter_ID_frame. intros; apply HID.
    + set (sym := hookSymbol _ _ _ _).
      assert (Hold : forall q, q ∈ ByKind r KindHook ->
                ID (deref (h ++ [sym]) q) = ID (deref h q)).
      { intros q Hq. f_equal. apply deref_app_l. by eapply wf_ByKind. }
      assert (HBK : ByKind (Add (h ++ [sym]) r (length h)) KindHook
                    = ByKind r KindHook ++ [length h]).
      { rewrite ByKind_Add, deref_app_new. by rewrite decide_True. }
      assert (HG : Get (Add (h ++ [sym]) r (length h)) ("hook:" +:+ tag)
                   = Get r ("hook:" +:+ tag)).
      { rewrite Get_Add, ?deref_app_new. by rewrite decide_False. }
      destruct mine as [|first mine]; unfold hookState in *;
        cbn [fst snd] in *; rewrite HG, HBK.
      * destruct Hst as [Hget Hnone]. split; [done|].
        apply Forall_app. split.
        -- eapply Forall_ID_frame; [|exact Hnone]. done.
        -- repeat constructor. by rewrite deref_app_new.
      * destruct Hst as (p & Hget & Hd & Hf). exists p.
        destruct (wf_Get _ _ _ _ Hwf Hget) as [Hvp _].
        split_and!; [done| |].
        -- by rewrite deref_app_l.
        -- rewrite filter_app, filter_cons, deref_app_new, filter_nil.
           rewrite decide_False by done. rewrite app_nil_r.
           rewrite <- Hf. by apply filter_ID_frame.
Qed.

Lemma tagged_snoc tag evs e :
  tagged tag (evs ++ [e]) =
  tagged tag evs ++ if decide (call_tag (ev_call e) = tag) then [e] else [].
Proof. unfold tagged. rewrite filter_app. f_equal. Qed.

Lemma ingest_snoc evs e st :
  ingest (evs ++ [e]) st =
  registerHook (ev_call e) (ev_hookType e) (ev_callerID e) (ev_file e)
    (ingest evs st).
Proof. unfold ingest. by rewrite foldl_app. Qed.

Lemma ingest_state tag evs st :
  tag ≠ "" ->
  wf st.1 st.2 ->
  hookState tag [] st ->
  wf (ingest evs st).1 (ingest evs st).2
  /\ hookState tag (tagged tag evs) (ingest evs st).
Proof.
  intros Htag Hwf H0. induction evs as [|e evs [IHwf IH]] using rev_ind.
  - done.
  - rewrite ingest_snoc, tagged_snoc. split.
    + by apply registerHook_wf.
    + by apply registerHook_step.
Qed.
End HookUpsert.

(** Calls of [registerHook] one after the other, in any order, for a tag
    not seen before: there is exactly one hook symbol with the ID
    "hook:" + tag; its docblock and its parameters are those of the first
    call site of the tag; [CallSites] lists the caller ID of every call site
    of the tag in the order met, one entry per call site.  Another order
    gives a permutation of that list, and the list is free of duplicates
    exactly when the caller IDs of the call sites are. *)
Theorem ingest_hook_merge (paramSubmatch : string -> option (string * string * string))
    (h : Heap) (r : Registry) (evs : list HookEvent) (tag : string)
    (first : HookEvent) (rest : list HookEvent) :
  tag ≠ "" ->
  wf h r ->
  Get r ("hook:" +:+ tag) = None ->
  Forall (fun q => ID (deref h q) ≠ "hook:" +:+ tag) (ByKind r KindHook) ->
  tagged tag evs = first :: rest ->
  let hookID := "hook:" +:+ tag in
  let st := ingest paramSubmatch evs (h, r) in
  exists p,
    Get st.2 hookID = Some p
    /\ filter (fun q => ID (deref st.1 q) = hookID) (ByKind st.2 KindHook) = [p]
    /\ ID (deref st.1 p) = hookID
    /\ Kind (deref st.1 p) = KindHook
    /\ HookTag (deref st.1 p) = tag
    /\ Doc (deref st.1 p) = call_doc (ev_call first)
    /\ Params (deref st.1 p) = hookParams paramSubmatch (call_doc (ev_call first))
    /\ CallSites (deref st.1 p) = ev_callerID <$> (first :: rest)
    /\ (NoDup (CallSites (deref st.1 p)) <-> NoDup (ev_callerID <$> (first :: rest)))
    /\ (forall evs', evs' ≡ₚ evs ->
          let st' := ingest paramSubmatch evs' (h, r) in
          exists p',
            Get st'.2 hookID = Some p'
            /\ CallSites (deref st'.1 p') ≡ₚ CallSites (deref st.1 p)).
Proof.
  intros Htag Hwf Hget Hnone Hmine hookID st.
  assert (H0 : hookState paramSubmatch tag [] (h, r)) by done.
  destruct (ingest_state paramSubmatch tag evs (h, r) Htag Hwf H0) as [_ Hst].
  rewrite Hmine in Hst. destruct Hst as (p & Hp & Hd & Hf). fold st in Hp, Hd, Hf.
  assert (Htagfirst : call_tag (ev_call first) = tag).
  { assert (Hin : first ∈ tagged tag evs) by (rewrite Hmine; left).
    by apply list_elem_of_filter in Hin as [? _]. }
  assert (Hfields : forall s,
    s = set_CallSites (ev_callerID <$> first :: rest)
          (eventSymbol paramSubmatch first) ->
    ID s = hookID /\ Kind s = KindHook /\ HookTag s = tag
    /\ Doc s = call_doc (ev_call first)
    /\ Params s = hookParams paramSubmatch (call_doc (ev_call first))
    /\ CallSites s = ev_callerID <$> first :: rest).
  { intros s ->. unfold hookID. rewrite <- Htagfirst. split_and!; reflexivity. }
  destruct (Hfields _ Hd) as (F1 & F2 & F3 & F4 & F5 & F6).
  exists p. split; [exact Hp|]. split; [exact Hf|].
  split; [exact F1|]. split; [exact F2|]. split; [exact F3|].
  split; [exact F4|]. split; [exact F5|]. split; [exact F6|].
  split; [by rewrite F6|]. rewrite F6.
  intros evs' HP. set (st' := ingest paramSubmatch evs' (h, r)).
  destruct (ingest_state paramSubmatch tag evs' (h, r) Htag Hwf H0) as [_ Hst'].
  assert (HP' : tagged tag evs' ≡ₚ first :: rest).
  { rewrite <- Hmine. unfold tagged. by rewrite HP. }
  destruct (tagged tag evs') as [|first' rest'] eqn:Hmine'.
  { by apply Permutation_nil_cons in HP'. }
  destruct Hst' as (p' & Hp' & Hd' & _). fold st' in Hp', Hd'.
  exists p'. split; [exact Hp'|]. rewrite Hd'.
  apply (fmap_Permutation ev_callerID) in HP'. exact HP'.
Qed.

Lemma serial_nil : serial [].
Proof. intros [|a l1] i l2 l3 H; discriminate H. Qed.

Lemma serial_new i l : i ∉ l -> serial l -> serial (i :: l).
Proof.
  intros Hi Hl [|a l1] j l2 l3 H; simplify_eq/=.
  - exfalso. apply Hi. apply elem_of_app. right. by left.
  - by eapply Hl.
Qed.

Lemma serial_again i l : serial (i :: l) -> serial (i :: i :: l).
Proof.
  intros Hl [|a l1] j l2 l3 H; simplify_eq/=.
  - destruct l2 as [|x l2]; [constructor|]. simplify_eq/=.
    constructor; [done|]. by apply (Hl [] x l2 l3).
  - by eapply Hl.
Qed.

Lemma serial_1100 : serial [1; 1; 0; 0].
Proof.
  apply serial_again, serial_new; [|apply serial_again, serial_new].
  - by intros [?|[?|?%elem_of_nil]%elem_of_cons]%elem_of_cons.
  - apply not_elem_of_nil.
  - apply serial_nil.
Qed.

(** ** Calls of [registerHook] that do not overlap *)

Section HookCalls.
Variable paramSubmatch : string -> option (string * string * string).

Local Abbreviation registerHook := (registerHook paramSubmatch).
Local Abbreviation ingest := (ingest paramSubmatch).
Local Abbreviation hookStep := (hookStep paramSubmatch).
Local Abbreviation stepCall := (stepCall paramSubmatch).
Local Abbreviation runCalls := (runCalls paramSubmatch).

Lemma serial_tail i l : serial (i :: l) -> serial l.
Proof. intros H l1 j l2 l3 ->. by apply (H (i :: l1) j l2 l3). Qed.

Lemma serial_next i l : serial (i :: l) -> i ∈ l -> exists l', l = i :: l'.
Proof.
  intros H (l2 & l3 & ->)%list_elem_of_split.
  specialize (H [] i l2 l3 eq_refl).
  destruct l2 as [|j l2]; [by eexists|].
  apply Forall_cons in H as [<- _]. by eexists.
Qed.

Lemma runCalls_untouched sched ths st ths' st' i :
  i ∉ sched ->
  runCalls sched (ths, st) = Some (ths', st') -> ths' !! i = ths !! i.
Proof.
  revert ths st. induction sched as [|j sched IH]; intros ths st Hi; simpl.
  - by intros [= <- _].
  - apply not_elem_of_cons in Hi as [Hij Hi].
    unfold stepCall. simpl.
    destruct (ths !! j) as [t|]; [|done].
    destruct (hookStep t st) as [[t' st1]|]; [|done].
    intros Hrun. rewrite (IH _ _ Hi Hrun).
    by apply list_lookup_insert_ne.
Qed.

Lemma runCalls_length sched ths st ths' st' :
  runCalls sched (ths, st) = Some (ths', st') -> length ths' = length ths.
Proof.
  revert ths st. induction sched as [|j sched IH]; intros ths st; simpl.
  - by intros [= <- _].
  - unfold stepCall. simpl.
    destruct (ths !! j) as [t|]; [|done].
    destruct (hookStep t st) as [[t' st1]|]; [|done].
    intros Hrun. rewrite (IH _ _ Hrun). by rewrite length_insert.
Qed.

(** A call that ran alone did what [registerHook] does. *)
Lemma hookStep_alone e st :
  match hookStep (Called e) st with
  | Some (Returned, st1) => st1 = st /\ call_tag (ev_call e) = ""
  | Some (t, st1) =>
      st1 = st
      /\ exists st2, hookStep t st = Some (Returned, st2)
           /\ st2 = registerHook (ev_call e) (ev_hookType e) (ev_callerID e)
                      (ev_file e) st
  | None => False
  end.
Proof.
  unfold hookStep, registerHook.
  case_bool_decide as Htag; [done|].
  destruct (Get st.2 _) as [existing|]; (split; [done|]); eexists; split; done.
Qed.

Lemma registerHook_no_tag e st :
  call_tag (ev_call e) = "" ->
  registerHook (ev_call e) (ev_hookType e) (ev_callerID e) (ev_file e) st = st.
Proof. intros H. unfold registerHook. by rewrite bool_decide_eq_true_2. Qed.

Local Abbreviation clean := (fun t : HookThread => t = Returned \/ exists e, t = Called e).


Lemma runCalls_returned sched ths st ths' st' i :
  ths !! i = Some Returned ->
  runCalls sched (ths, st) = Some (ths', st') -> i ∉ sched.
Proof.
  revert ths st. induction sched as [|j sched IH]; intros ths st Hi; simpl.
  - intros _. apply not_elem_of_nil.
  - unfold stepCall. simpl.
    destruct (ths !! j) as [t|] eqn:Hj; [|done].
    destruct (hookStep t st) as [[t' st1]|] eqn:Hs; [|done].
    intros Hrun.
    assert (Hij : j ≠ i).
    { intros ->. rewrite Hi in Hj. injection Hj as <-. done. }
    apply not_elem_of_cons. split; [done|].
    apply (IH (<[j := t']> ths) st1); [|done].
    by rewrite list_lookup_insert_ne.
Qed.

Lemma omap_cons_eq {A B} (f : A -> option B) x l :
  omap f (x :: l)
  = match f x with Some y => y :: omap f l | None => omap f l end.
Proof. reflexivity. Qed.

Lemma called_none ths : Forall (eq Returned) ths -> omap called ths = [].
Proof. induction 1 as [|t ths <- _ IH]; [done|]. simpl. exact IH. Qed.

Lemma called_insert ths i e :
  ths !! i = Some (Called e) ->
  omap called ths ≡ₚ e :: omap called (<[i := Returned]> ths).
Proof.
  revert i. induction ths as [|t ths IH]; intros [|i] Hi; try done.
  - by injection Hi as ->.
  - specialize (IH i Hi).
    change (omap called (t :: ths))
      with (match called t with Some x => x :: omap called ths
                              | None => omap called ths end).
    change (omap called (<[S i := Returned]> (t :: ths)))
      with (match called t with
            | Some x => x :: omap called (<[i := Returned]> ths)
            | None => omap called (<[i := Returned]> ths) end).
    destruct (called t); [|done]. rewrite IH. apply perm_swap.
Qed.

Lemma callOrder_insert i t l ths :
  i ∉ l -> callOrder l (<[i := t]> ths) = callOrder l ths.
Proof.
  intros Hi. unfold callOrder.
  assert (Hr : i ∉ remove_dups l) by by rewrite elem_of_remove_dups.
  induction (remove_dups l) as [|j js IH]; [done|].
  apply not_elem_of_cons in Hr as [Hij Hr].
  rewrite !omap_cons_eq, list_lookup_insert_ne by done. by rewrite IH.
Qed.

Lemma callOrder_first i l ths e :
  i ∉ l -> ths !! i = Some (Called e) ->
  callOrder (i :: l) ths = e :: callOrder l (<[i := Returned]> ths).
Proof.
  intros Hi He. rewrite callOrder_insert by done. unfold callOrder.
  change (remove_dups (i :: l))
    with (if decide (i ∈ l) then remove_dups l else i :: remove_dups l).
  rewrite decide_False by done. rewrite omap_cons_eq, He. done.
Qed.

Lemma callOrder_twice i l ths : callOrder (i :: i :: l) ths = callOrder (i :: l) ths.
Proof.
  unfold callOrder.
  change (remove_dups (i :: i :: l))
    with (if decide (i ∈ i :: l) then remove_dups (i :: l)
          else i :: remove_dups (i :: l)).
  by rewrite decide_True by by left.
Qed.

Lemma ingest_cons e l st :
  ingest (e :: l) st
  = ingest l (registerHook (ev_call e) (ev_hookType e) (ev_callerID e)
                (ev_file e) st).
Proof. reflexivity. Qed.

(** A schedule that lets no two calls overlap and lets every call return
    does what [ingest] does with the calls in the order of the schedule,
    and that order has every call once. *)
Lemma runCalls_serial n sched ths st ths' st' :
  length sched <= n ->
  serial sched ->
  Forall clean ths ->
  runCalls sched (ths, st) = Some (ths', st') ->
  Forall (eq Returned) ths' ->
  st' = ingest (callOrder sched ths) st
  /\ callOrder sched ths ≡ₚ omap called ths.
Proof.
  revert sched ths st.
  induction n as [|n IH]; intros sched ths st Hn Hser Hclean Hrun Hret.
  { destruct sched; [|simpl in Hn; lia]. injection Hrun as <- <-.
    rewrite called_none by done. done. }
  destruct sched as [|i rest].
  { injection Hrun as <- <-. rewrite called_none by done. done. }
  simpl in Hrun, Hn. unfold stepCall in Hrun. simpl in Hrun.
  destruct (ths !! i) as [t|] eqn:Hi; [|done].
  assert (Ht : clean t) by (rewrite Forall_lookup in Hclean; by eapply Hclean).
  destruct Ht as [->|[e ->]]; [done|].
  pose proof (hookStep_alone e st) as Hstep.
  destruct (hookStep (Called e) st) as [[t1 st1]|]; [|done].
  assert (Hlt : i < length ths) by (by eapply lookup_lt_Some).
  assert (Hcl : Forall clean (<[i := Returned]> ths))
    by (apply Forall_insert; [done | by left]).
  assert (Hdone : forall l st2,
            runCalls l (<[i := Returned]> ths, st2) = Some (ths', st') ->
            length l <= n -> serial l ->
            st2 = registerHook (ev_call e) (ev_hookType e) (ev_callerID e)
                    (ev_file e) st ->
            st' = ingest (e :: callOrder l (<[i := Returned]> ths)) st
            /\ e :: callOrder l (<[i := Returned]> ths) ≡ₚ omap called ths).
  { intros l st2 Hl Hlen Hs ->.
    destruct (IH l _ _ Hlen Hs Hcl Hl Hret) as [-> Hp].
    split; [done|]. rewrite Hp. symmetry. by apply called_insert. }
  assert (Hcase : t1 = Returned \/ t1 ≠ Returned)
    by (destruct t1; (by left) || (by right)).
  destruct Hcase as [->|Hmid].
  - destruct Hstep as [-> Htag].
    assert (Hnot : i ∉ rest).
    { eapply runCalls_returned; [|exact Hrun]. by apply list_lookup_insert_eq. }
    rewrite (callOrder_first i rest ths e Hnot Hi).
    apply (Hdone rest st Hrun); [lia | by eapply serial_tail |].
    by rewrite registerHook_no_tag.
  - assert (Hst : st1 = st
                  /\ exists st2, hookStep t1 st = Some (Returned, st2)
                       /\ st2 = registerHook (ev_call e) (ev_hookType e)
                                  (ev_callerID e) (ev_file e) st)
      by (by destruct t1).
    destruct Hst as (-> & st2 & Hstep2 & Hst2).
    assert (Hin : i ∈ rest).
    { destruct (decide (i ∈ rest)) as [|Hno]; [done|]. exfalso.
      pose proof (runCalls_untouched _ _ _ _ _ i Hno Hrun) as Hsame.
      rewrite list_lookup_insert_eq in Hsame by done.
      rewrite Forall_lookup in Hret. by specialize (Hret _ _ Hsame). }
    destruct (serial_next i rest Hser Hin) as [l ->].
    simpl in Hrun, Hn. unfold stepCall in Hrun. simpl in Hrun.
    rewrite list_lookup_insert_eq in Hrun by done. rewrite Hstep2 in Hrun.
    rewrite list_insert_insert_eq in Hrun.
    assert (Hnot : i ∉ l).
    { eapply runCalls_returned; [|exact Hrun]. by apply list_lookup_insert_eq. }
    rewrite callOrder_twice, (callOrder_first i l ths e Hnot Hi).
    apply (Hdone l st2 Hrun); [lia | by eapply serial_tail, serial_tail | done].
Qed.

End HookCalls.

Lemma called_fmap (evs : list HookEvent) : omap called (Called <$> evs) = evs.
Proof. induction evs as [|e evs IH]; [done|]. rewrite fmap_cons, omap_cons_eq. simpl. by rewrite IH. Qed.

Lemma registerHook_overlap_run (paramSubmatch : string -> option (string * string * string))
    (h : Heap) (r : Registry) (e1 e2 : HookEvent) :
  call_tag (ev_call e1) ≠ "" ->
  call_tag (ev_call e2) = call_tag (ev_call e1) ->
  Get r ("hook:" +:+ call_tag (ev_call e1)) = None ->
  let h1 := h ++ [eventSymbol paramSubmatch e1] in
  let h2 := h1 ++ [eventSymbol paramSubmatch e2] in
  runCalls paramSubmatch [0; 1; 0; 1] ([Called e1; Called e2], (h, r))
  = Some ([Returned; Returned],
          (h2, Add h2 (Add h1 r (length h)) (length h1))).
Proof.
  intros Htag H2 Hget h1 h2.
  unfold runCalls, stepCall, hookStep. simpl.
  rewrite (bool_decide_eq_false_2 _ Htag), Hget. simpl.
  rewrite H2, (bool_decide_eq_false_2 _ Htag), Hget. simpl.
  reflexivity.
Qed.

Lemma not_serial_0101 : ~ serial [0; 1; 0; 1].
Proof.
  intros H. specialize (H [] 0 [1] [1] eq_refl).
  apply Forall_cons in H as [H _]. discriminate H.
Qed.

(** Two calls of [registerHook] for one tag that is not yet registered,
    made by two goroutines: when both have called [reg.Get] before either
    calls [reg.Add], each adds a record of its own.  The kind index then
    holds two hook records with the one ID, the primary index leads to the
    record added last, and that record has the docblock and the one call
    site of its own call: the call site of the other call is not on the
    registered hook.  The schedule is not serial. *)
Theorem registerHook_overlap
    (paramSubmatch : string -> option (string * string * string))
    (h : Heap) (r : Registry) (e1 e2 : HookEvent) (tag : string) :
  tag ≠ "" ->
  call_tag (ev_call e1) = tag ->
  call_tag (ev_call e2) = tag ->
  wf h r ->
  Get r ("hook:" +:+ tag) = None ->
  Forall (fun q => ID (deref h q) ≠ "hook:" +:+ tag) (ByKind r KindHook) ->
  let hookID := "hook:" +:+ tag in
  let p1 := length h in
  let p2 := S (length h) in
  ~ serial [0; 1; 0; 1]
  /\ exists st',
      runCalls paramSubmatch [0; 1; 0; 1] ([Called e1; Called e2], (h, r))
      = Some ([Returned; Returned], st')
      /\ filter (fun q => ID (deref st'.1 q) = hookID) (ByKind st'.2 KindHook)
         = [p1; p2]
      /\ Get st'.2 hookID = Some p2
      /\ CallSites (deref st'.1 p1) = [ev_callerID e1]
      /\ CallSites (deref st'.1 p2) = [ev_callerID e2]
      /\ Doc (deref st'.1 p2) = call_doc (ev_call e2)
      /\ Count st'.2 = S (Count r).
Proof.
  intros Htag <- H2 Hwf Hget Hnone hookID p1 p2.
  split; [exact not_serial_0101|].
  set (s1 := eventSymbol paramSubmatch e1).
  set (s2 := eventSymbol paramSubmatch e2).
  set (h1 := h ++ [s1]). set (h2 := h1 ++ [s2]).
  exists (h2, Add h2 (Add h1 r p1) (length h1)).
  assert (Hl1 : length h1 = p2) by (unfold h1; rewrite length_app; simpl; lia).
  assert (D2 : deref h2 p2 = s2) by (rewrite <- Hl1; apply deref_app_new).
  assert (D1 : deref h1 p1 = s1) by apply deref_app_new.
  assert (D12 : deref h2 p1 = s1).
  { unfold h2. rewrite deref_app_l by (rewrite Hl1; unfold p1, p2; lia). done. }
  assert (Hold : forall q, q < length h -> deref h2 q = deref h q).
  { intros q Hq. unfold h2, h1.
    rewrite !deref_app_l; [done | done | rewrite length_app; simpl; lia]. }
  assert (I1 : ID s1 = hookID) by reflexivity.
  assert (I2 : ID s2 = hookID) by (unfold hookID; rewrite <- H2; reflexivity).
  split; [by apply registerHook_overlap_run|]. simpl. rewrite Hl1.
  split_and!.
  - rewrite !ByKind_Add, D2, D1.
    rewrite !decide_True by reflexivity.
    rewrite !filter_app.
    assert (Hf : filter (fun q => ID (deref h2 q) = hookID) (ByKind r KindHook) = []).
    { apply filter_none.
      rewrite Forall_forall in Hnone. apply Forall_forall. intros q Hq.
      rewrite Hold by (by eapply wf_ByKind). by apply Hnone. }
    rewrite Hf. rewrite !filter_cons, filter_nil, D12, D2, I1, I2.
    by rewrite !decide_True by reflexivity.
  - rewrite Get_Add, D2, I2. by rewrite decide_True by reflexivity.
  - by rewrite D12.
  - by rewrite D2.
  - by rewrite D2.
  - rewrite !Count_Add, D2, D1, I1, I2, Get_Add, D1, I1.
    rewrite decide_True by reflexivity. fold hookID in Hget. by rewrite Hget.
Qed.

(** Claim C1, as amended.  Calls of [registerHook] that do not overlap, in
    any order, for a tag not seen before: when all have returned the store
    is what [ingest] makes of the calls in the order in which they ran;
    there is exactly one hook symbol with the ID "hook:" + tag; its docblock
    and its parameters are those of the call for the tag that ran first;
    [CallSites] lists the caller ID of every call for the tag in the order
    in which they ran, one entry per call, so it is a permutation of the
    caller IDs of the call sites, and it is free of duplicates exactly when
    these are.  Calls that overlap are not covered. *)
Theorem registerHook_serial_merge
    (paramSubmatch : string -> option (string * string * string))
    (h : Heap) (r : Registry) (evs : list HookEvent) (tag : string)
    (sched : list nat) (ths' : list HookThread) (st' : Heap * Registry) :
  tag ≠ "" ->
  wf h r ->
  Get r ("hook:" +:+ tag) = None ->
  Forall (fun q => ID (deref h q) ≠ "hook:" +:+ tag) (ByKind r KindHook) ->
  tagged tag evs ≠ [] ->
  serial sched ->
  runCalls paramSubmatch sched (Called <$> evs, (h, r)) = Some (ths', st') ->
  Forall (eq Returned) ths' ->
  let hookID := "hook:" +:+ tag in
  let order := callOrder sched (Called <$> evs) in
  order ≡ₚ evs
  /\ st' = ingest paramSubmatch order (h, r)
  /\ exists p first rest,
      tagged tag order = first :: rest
      /\ first :: rest ≡ₚ tagged tag evs
      /\ Get st'.2 hookID = Some p
      /\ filter (fun q => ID (deref st'.1 q) = hookID) (ByKind st'.2 KindHook) = [p]
      /\ ID (deref st'.1 p) = hookID
      /\ Kind (deref st'.1 p) = KindHook
      /\ HookTag (deref st'.1 p) = tag
      /\ Doc (deref st'.1 p) = call_doc (ev_call first)
      /\ Params (deref st'.1 p) = hookParams paramSubmatch (call_doc (ev_call first))
      /\ CallSites (deref st'.1 p) = ev_callerID <$> (first :: rest)
      /\ CallSites (deref st'.1 p) ≡ₚ ev_callerID <$> tagged tag evs
      /\ (NoDup (CallSites (deref st'.1 p))
          <-> NoDup (ev_callerID <$> tagged tag evs)).
Proof.
  intros Htag Hwf Hget Hnone Hsome Hser Hrun Hret hookID order.
  assert (Hclean : Forall (fun t => t = Returned \/ exists e, t = Called e)
                     (Called <$> evs)).
  { apply Forall_fmap, Forall_forall. intros e _. right. by exists e. }
  destruct (runCalls_serial paramSubmatch (length sched) sched _ _ _ _
              (le_n _) Hser Hclean Hrun Hret) as [Hst Hperm].
  fold order in Hst, Hperm. rewrite called_fmap in Hperm.
  split; [exact Hperm|]. split; [exact Hst|].
  assert (Htagged : tagged tag order ≡ₚ tagged tag evs)
    by (unfold tagged; by rewrite Hperm).
  destruct (tagged tag order) as [|first rest] eqn:Hmine.
  { apply Permutation_nil in Htagged. by rewrite Htagged in Hsome. }
  destruct (ingest_hook_merge paramSubmatch h r order tag first rest
              Htag Hwf Hget Hnone Hmine)
    as (p & Hp & Hf & HID & HK & HT & HD & HP & HC & _ & _).
  rewrite <- Hst in Hp, Hf, HID, HK, HT, HD, HP, HC.
  exists p, first, rest.
  split; [done|]. split; [done|]. split; [done|]. split; [done|].
  split; [done|]. split; [done|]. split; [done|]. split; [done|].
  split; [done|]. split; [done|].
  assert (HCp : CallSites (deref st'.1 p) ≡ₚ ev_callerID <$> tagged tag evs)
    by (rewrite HC; by rewrite Htagged).
  split; [done|]. by rewrite HCp.
Qed.

(** ** The worker pool *)

Module parser_proofs.
Import parser.

Section Pool.
Context {Tree : Type}.
Variable ReadFile : string -> option string.
Variable ParseCtx : Grammar -> string -> option Tree.
Variable extractPHP extractJS :
    Tree -> string -> string -> Heap * Registry -> Heap * Registry.
Variable Join : string -> string -> string.
Variable srcRoot : string.

Local Abbreviation parseFile := (parseFile ReadFile ParseCtx extractPHP extractJS Join srcRoot).
Local Abbreviation fails := (fails ReadFile ParseCtx Join srcRoot).
Local Abbreviation step_worker := (step_worker ReadFile ParseCtx extractPHP extractJS Join srcRoot).
Local Abbreviation step := (step ReadFile ParseCtx extractPHP extractJS Join srcRoot).
Local Abbreviation reachable := (reachable ReadFile ParseCtx extractPHP extractJS Join srcRoot).
Local Abbreviation returns := (returns ReadFile ParseCtx extractPHP extractJS Join srcRoot).
Local Abbreviation sequential := (sequential ReadFile ParseCtx extractPHP extractJS Join srcRoot).
Local Abbreviation failing := (failing ReadFile ParseCtx Join srcRoot).
Local Abbreviation pool_inv := (pool_inv ReadFile ParseCtx Join srcRoot).

Lemma parseFile_error file st err st' :
  parseFile file st = (Some err, st') -> st' = st /\ fails file = true.
Proof.
  unfold parser.parseFile, parser.fails.
  destruct (ReadFile _); [|by intros [= _ <-]].
  destruct (detectLanguage file) as [[lang langName]|]; [|by intros [= _ <-]].
  destruct (ParseCtx lang s); [done | by intros [= _ <-]].
Qed.

Lemma parseFile_ok file st st' :
  parseFile file st = (None, st') -> fails file = false.
Proof.
  unfold parser.parseFile, parser.fails.
  destruct (ReadFile _); [|done].
  destruct (detectLanguage file) as [[lang langName]|]; [|done].
  destruct (ParseCtx lang s); done.
Qed.

Lemma sum_insert {A} (f : A -> nat) (l : list A) i x y :
  l !! i = Some x ->
  sum_list_with f (<[i := y]> l) + f x = sum_list_with f l + f y.
Proof.
  revert i. induction l as [|a l IH]; intros [|i] H; simpl in *; try done.
  - injection H as ->. lia.
  - specialize (IH i H). lia.
Qed.

Lemma elem_insert {A} (l : list A) i x y : x ∈ <[i := y]> l -> x = y \/ x ∈ l.
Proof.
  revert i. induction l as [|a l IH]; intros [|i]; simpl;
    try (intros ?%elem_of_nil; done).
  - rewrite !elem_of_cons. naive_solver.
  - rewrite !elem_of_cons. intros [->|H]; [right; by left|].
    destruct (IH i H); [by left | right; by right].
Qed.

Lemma pool_inv_start n files st :
  pool_inv (failing files) n (start n files st).
Proof.
  unfold pool_inv, start. simpl. rewrite length_replicate. split_and!; try lia.
  - assert (H : sending (replicate n Receiving) = 0).
    { unfold sending. induction n; simpl; lia. }
    lia.
  - intros H. apply elem_of_replicate in H as [? _]. done.
Qed.

Lemma pool_inv_step total n s s' :
  pool_inv total n s -> step s s' -> pool_inv total n s'.
Proof.
  intros (HL & Hsum & Hcap & Hdone) Hst.
  inversion Hst as [i s0 s1 Hstep]; subst s0 s1. clear Hst.
  unfold parser.step_worker in Hstep.
  destruct (workers s !! i) as [[|err|]|] eqn:Hw; try done.
  - destruct (ch s) as [|file rest] eqn:Hch.
    + injection Hstep as <-. unfold pool_inv. simpl.
      rewrite length_insert. split_and!; try done.
      pose proof (sum_insert (fun w => match w with Sending _ => 1 | _ => 0 end)
                    _ i _ Done Hw) as Hs. simpl in Hs.
      unfold sending in *. try rewrite Hch in Hsum. simpl in *. lia.
    + destruct (parseFile file (store s)) as [[err|] st] eqn:Hp.
      * injection Hstep as <-. unfold pool_inv. simpl.
        rewrite length_insert. split_and!; try done.
        -- apply parseFile_error in Hp as [_ Hf].
           pose proof (sum_insert (fun w => match w with Sending _ => 1 | _ => 0 end)
                         _ i _ (Sending (file +:+ ": " +:+ err)) Hw) as Hs.
           simpl in Hs. unfold sending, failing in *. try rewrite Hch in Hsum.
           simpl in Hsum. rewrite Hf in Hsum. lia.
        -- intros [?|Hd]%elem_insert; [done|]. by specialize (Hdone Hd).
      * injection Hstep as <-. unfold pool_inv. simpl. split_and!; try done.
        -- apply parseFile_ok in Hp.
           unfold failing in *. try rewrite Hch in Hsum.
           simpl in Hsum. rewrite Hp in Hsum. lia.
        -- intros Hd. by specialize (Hdone Hd).
  - case_decide as Hlt; [|done]. injection Hstep as <-. unfold pool_inv. simpl.
    rewrite length_insert, length_app. simpl. unfold capacity in Hlt.
    split_and!; try done; try lia.
    + pose proof (sum_insert (fun w => match w with Sending _ => 1 | _ => 0 end)
                    _ i _ Receiving Hw) as Hs.
      simpl in Hs. unfold sending in *. lia.
    + intros [?|Hd]%elem_insert; [done|]. by apply Hdone.
Qed.

Lemma pool_inv_reachable n files st s :
  reachable (start n files st) s -> pool_inv (failing files) n s.
Proof.
  induction 1 as [|s s' _ IH Hstep].
  - apply pool_inv_start.
  - by eapply pool_inv_step.
Qed.

Lemma waited_spec s : waited s = true <-> Forall (fun w => w = Done) (workers s).
Proof.
  unfold waited. rewrite forallb_forall, Forall_forall.
  split; intros H w Hw.
  - apply list_elem_of_In in Hw. specialize (H w Hw). by destruct w.
  - apply list_elem_of_In in Hw. by rewrite (H w Hw).
Qed.

Lemma waited_sending ws : Forall (fun w => w = Done) ws -> sending ws = 0.
Proof. unfold sending. induction 1 as [|w ws -> _ IH]; simpl; lia. Qed.

Lemma reachable_drain s0 files s :
  reachable s0 s ->
  workers s !! 0 = Some Receiving ->
  ch s = files ->
  length (errCh s) + failing files <= capacity s ->
  exists s',
    reachable s0 s' /\ ch s' = [] /\ workers s' = workers s
    /\ store s' = sequential files (store s)
    /\ length (errCh s') = length (errCh s) + failing files.
Proof.
  revert s. induction files as [|f rest IH]; intros s Hr Hw Hch Hcap.
  - exists s. unfold failing. simpl. split_and!; try done; lia.
  - unfold failing in Hcap. simpl in Hcap. fold (failing rest) in Hcap.
    destruct (parseFile f (store s)) as [[err|] st1] eqn:Hp.
    + pose proof (parseFile_error _ _ _ _ Hp) as [_ Hf]. rewrite Hf in Hcap.
      set (s1 := {| ch := rest; errCh := errCh s;
                    workers := <[0 := Sending (f +:+ ": " +:+ err)]> (workers s);
                    store := st1 |}).
      assert (H1 : step_worker 0 s = Some s1).
      { unfold parser.step_worker. by rewrite Hw, Hch, Hp. }
      assert (Hlen : 0 < length (workers s)).
      { apply lookup_lt_Some in Hw. done. }
      set (s2 := {| ch := rest; errCh := errCh s ++ [f +:+ ": " +:+ err];
                    workers := workers s; store := st1 |}).
      assert (H2 : step_worker 0 s1 = Some s2).
      { unfold parser.step_worker, s1. simpl.
        rewrite list_lookup_insert_eq by done.
        unfold capacity. simpl. rewrite length_insert.
        unfold capacity in Hcap. rewrite decide_True by lia.
        unfold s2. f_equal. f_equal.
        rewrite list_insert_insert_eq. by apply list_insert_id. }
      destruct (IH s2) as (s' & Hr' & Hch' & Hw' & Hst' & Hlen').
      * eapply reach_step; [eapply reach_step; [exact Hr|]|];
          econstructor; eassumption.
      * done.
      * done.
      * unfold capacity in *. simpl. rewrite length_app. simpl. lia.
      * exists s'. simpl in *. rewrite length_app in Hlen'. simpl in Hlen'.
        unfold failing. simpl. fold (failing rest). rewrite Hf, Hp.
        split_and!; try done; lia.
    + pose proof (parseFile_ok _ _ _ Hp) as Hf. rewrite Hf in Hcap.
      set (s1 := {| ch := rest; errCh := errCh s; workers := workers s;
                    store := st1 |}).
      assert (H1 : step_worker 0 s = Some s1).
      { unfold parser.step_worker. by rewrite Hw, Hch, Hp. }
      destruct (IH s1) as (s' & Hr' & Hch' & Hw' & Hst' & Hlen').
      * eapply reach_step; [exact Hr|]. econstructor; eassumption.
      * done.
      * done.
      * done.
      * exists s'. simpl in *.
        unfold failing. simpl. fold (failing rest). rewrite Hf, Hp.
        split_and!; try done.
Qed.

Lemma replicate_cons_app {A} (x : A) k l :
  replicate k x ++ x :: l = replicate (S k) x ++ l.
Proof. induction k as [|k IH]; simpl; [done|]. by rewrite IH. Qed.

Lemma reachable_done s0 m k s :
  reachable s0 s ->
  ch s = [] ->
  workers s = replicate k Done ++ replicate m Receiving ->
  exists s',
    reachable s0 s' /\ workers s' = replicate (k + m) Done
    /\ store s' = store s /\ errCh s' = errCh s.
Proof.
  revert k s. induction m as [|m IH]; intros k s Hr Hch Hw.
  - exists s. simpl in Hw. rewrite app_nil_r in Hw.
    by rewrite Nat.add_0_r.
  - set (s1 := {| ch := []; errCh := errCh s;
                  workers := <[k := Done]> (workers s); store := store s |}).
    assert (Hk : workers s !! k = Some Receiving).
    { rewrite Hw, lookup_app_r by by rewrite length_replicate.
      by rewrite length_replicate, Nat.sub_diag. }
    assert (H1 : step_worker k s = Some s1).
    { unfold parser.step_worker. by rewrite Hk, Hch. }
    destruct (IH (S k) s1) as (s' & Hr' & Hw' & Hst' & He').
    + eapply reach_step; [exact Hr|]. econstructor; eassumption.
    + done.
    + unfold s1. simpl. rewrite Hw.
      rewrite insert_app_r_alt by by rewrite length_replicate.
      rewrite length_replicate, Nat.sub_diag.
      apply replicate_cons_app.
    + exists s'. split_and!; try done.
      rewrite Hw'. f_equal. lia.
Qed.

(** With no more failing files than workers, the run in which the first
    worker takes every file ends, with the store that parsing the files
    one after the other gives. *)
Lemma ParseFiles_returns (nworkers : nat) (files : list string)
    (st : Heap * Registry) :
  0 < nworkers ->
  failing files <= nworkers ->
  returns nworkers files st (sequential files st, failing files).
Proof.
  intros Hn Hfail. unfold parser.returns.
  destruct files as [|f files]; [done|].
  set (s0 := start nworkers (f :: files) st).
  destruct (reachable_drain s0 (f :: files) s0) as (s1 & Hr1 & Hch1 & Hw1 & Hst1 & He1).
  - constructor.
  - unfold s0, start. simpl. destruct nworkers; [lia|done].
  - done.
  - unfold s0, start, capacity. simpl. rewrite length_replicate. done.
  - destruct (reachable_done s0 nworkers 0 s1) as (s2 & Hr2 & Hw2 & Hst2 & He2).
    + done.
    + done.
    + rewrite Hw1. done.
    + exists s2. split_and!; [done | |].
      * apply waited_spec. rewrite Hw2. apply Forall_replicate. done.
      * rewrite Hst2, Hst1, He2, He1. done.
Qed.

(** Claim C6, which the code does not meet.  A file on which [parseFile]
    fails leaves the store as it was.  But with at least one worker and more
    failing files than workers, no state of the run has all its workers
    done: [wg.Wait] never returns, and [ParseFiles] returns nothing. *)
Theorem ParseFiles_blocks (nworkers : nat) (files : list string)
    (st : Heap * Registry) :
  0 < nworkers ->
  nworkers < failing files ->
  (forall file err st', parseFile file st = (Some err, st') -> st' = st)
  /\ (forall s, reachable (start nworkers files st) s -> waited s = false)
  /\ (forall out, ~ returns nworkers files st out).
Proof.
  intros Hn Hfail.
  assert (Hnever : forall s, reachable (start nworkers files st) s -> waited s = false).
  { intros s Hr. destruct (waited s) eqn:Hw; [|done]. exfalso.
    apply waited_spec in Hw.
    destruct (pool_inv_reachable _ _ _ _ Hr) as (HL & Hsum & Hcap & Hdone).
    rewrite (waited_sending _ Hw) in Hsum.
    assert (Hd : Done ∈ workers s).
    { destruct (workers s) as [|w ws]; simpl in HL; [lia|].
      apply Forall_cons in Hw as [-> _]. by left. }
    rewrite (Hdone Hd) in Hsum. unfold failing at 1 in Hsum. simpl in Hsum. lia. }
  split_and!.
  - intros file err st' H. by apply parseFile_error in H as [? _].
  - done.
  - intros out Hret. unfold parser.returns in Hret.
    destruct files as [|f files]; [simpl in Hfail; lia|].
    destruct Hret as (s & Hr & Hw & _). by rewrite (Hnever s Hr) in Hw.
Qed.
End Pool.
End parser_proofs.

(** ** Worked instances *)

Ltac by_computation P :=
  apply (bool_decide_unpack P); vm_compute; exact I.

Ltac computed := vm_compute; reflexivity.

(** Scenario A: two functions fire [init]; one hook symbol, two call sites. *)
Lemma ingest_hook_merge_witness :
  let st := ingest noParams [initCall "f" 3; initCall "g" 8] ([], NewRegistry) in
  Get st.2 "hook:init" = Some 0
  /\ CallSites (deref st.1 0) = ["f"; "g"]
  /\ ByKind st.2 KindHook = [0].
Proof.
  pose proof (ingest_hook_merge noParams [] NewRegistry
                [initCall "f" 3; initCall "g" 8] "init"
                (initCall "f" 3) [initCall "g" 8]) as H.
  assert (H1 : "init" ≠ "") by discriminate.
  assert (H2 : wf [] NewRegistry) by by_computation (wf [] NewRegistry).
  assert (H3 : Get NewRegistry ("hook:" +:+ "init") = None) by computed.
  assert (H4 : Forall (fun q => ID (deref [] q) ≠ "hook:" +:+ "init")
                      (ByKind NewRegistry KindHook)) by (vm_compute; constructor).
  assert (H5 : tagged "init" [initCall "f" 3; initCall "g" 8]
               = [initCall "f" 3; initCall "g" 8]) by computed.
  specialize (H H1 H2 H3 H4 H5).
  destruct H as (p & Hp & _ & _ & _ & _ & _ & _ & Hc & _).
  vm_compute in Hp. injection Hp as <-. vm_compute in Hc.
  split_and!; [computed | exact Hc | computed].
Defined.

(** Scenario A with two files: [g] in [b.php] fires [init] before [f] in
    [a.php] does, and the calls do not overlap. *)
Lemma registerHook_serial_merge_witness :
  let evs := [initCallIn "a.php" "f" 3; initCallIn "b.php" "g" 8] in
  exists st',
    runCalls noParams [1; 1; 0; 0] (Called <$> evs, ([], NewRegistry))
    = Some ([Returned; Returned], st')
    /\ Get st'.2 "hook:init" = Some 0
    /\ filter (fun q => ID (deref st'.1 q) = "hook:init") (ByKind st'.2 KindHook)
       = [0]
    /\ CallSites (deref st'.1 0) = ["g"; "f"].
Proof.
  intros evs.
  set (st' := ingest noParams [initCallIn "b.php" "g" 8; initCallIn "a.php" "f" 3]
                ([], NewRegistry)).
  pose proof (registerHook_serial_merge noParams [] NewRegistry evs "init"
                [1; 1; 0; 0] [Returned; Returned] st') as H.
  assert (H1 : "init" ≠ "") by discriminate.
  assert (H2 : wf [] NewRegistry) by by_computation (wf [] NewRegistry).
  assert (H3 : Get NewRegistry ("hook:" +:+ "init") = None) by computed.
  assert (H4 : Forall (fun q => ID (deref [] q) ≠ "hook:" +:+ "init")
                      (ByKind NewRegistry KindHook)) by (vm_compute; constructor).
  assert (H5 : tagged "init" evs ≠ []) by (vm_compute; discriminate).
  assert (H6 : runCalls noParams [1; 1; 0; 0] (Called <$> evs, ([], NewRegistry))
               = Some ([Returned; Returned], st')) by computed.
  assert (H7 : Forall (eq Returned) [Returned; Returned])
    by (repeat constructor).
  destruct (H H1 H2 H3 H4 H5 serial_1100 H6 H7)
    as (_ & _ & p & first & rest & Hmine & _ & Hp & Hf & _ & _ & _ & _ & _ & Hc & _).
  assert (Hp0 : Get st'.2 ("hook:" +:+ "init") = Some 0) by computed.
  assert (E : p = 0) by (rewrite Hp0 in Hp; by injection Hp). subst p.
  assert (Hm : tagged "init" (callOrder [1; 1; 0; 0] (Called <$> evs))
               = [initCallIn "b.php" "g" 8; initCallIn "a.php" "f" 3]) by computed.
  rewrite Hm in Hmine. injection Hmine as <- <-.
  exists st'. split_and!; [exact H6 | exact Hp0 | exact Hf | exact Hc].
Defined.

(** Scenario A with two files and two workers whose calls overlap: both
    look for [hook:init] before either adds it. *)
Lemma registerHook_overlap_witness :
  exists st',
    runCalls noParams [0; 1; 0; 1]
      ([Called (initCallIn "a.php" "f" 3); Called (initCallIn "b.php" "g" 8)],
       ([], NewRegistry))
    = Some ([Returned; Returned], st')
    /\ filter (fun q => ID (deref st'.1 q) = "hook:init") (ByKind st'.2 KindHook)
       = [0; 1]
    /\ Get st'.2 "hook:init" = Some 1
    /\ CallSites (deref st'.1 1) = ["g"].
Proof.
  pose proof (registerHook_overlap noParams [] NewRegistry
                (initCallIn "a.php" "f" 3) (initCallIn "b.php" "g" 8) "init") as H.
  assert (H1 : "init" ≠ "") by discriminate.
  assert (H2 : wf [] NewRegistry) by by_computation (wf [] NewRegistry).
  assert (H3 : Get NewRegistry ("hook:" +:+ "init") = None) by computed.
  assert (H4 : Forall (fun q => ID (deref [] q) ≠ "hook:" +:+ "init")
                      (ByKind NewRegistry KindHook)) by (vm_compute; constructor).
  destruct (H H1 eq_refl eq_refl H2 H3 H4)
    as (_ & st' & Hrun & Hf & Hg & _ & Hc & _).
  exists st'. split_and!; [exact Hrun | exact Hf | exact Hg | exact Hc].
Defined.

(** One function fires [init] at two places: its ID is listed twice. *)
Lemma registerHook_same_caller_twice :
  let st := ingest noParams [initCall "f" 3; initCall "f" 8] ([], NewRegistry) in
  Get st.2 "hook:init" = Some 0
  /\ CallSites (deref st.1 0) = ["f"; "f"]
  /\ ~ NoDup (CallSites (deref st.1 0)).
Proof.
  split_and!; [computed | computed |].
  vm_compute. intros H. apply NoDup_cons in H as [H _]. apply H. left.
Qed.

(** Two methods are named [save]: the short name alone resolves to neither. *)
Lemma findSymbol_lookup_order_witness :
  findSymbol scenario_heap scenario_registry scenario_all "some_function" = Some 4
  /\ findSymbol scenario_heap scenario_registry scenario_all "save" = None.
Proof.
  pose proof (findSymbol_lookup_order scenario_heap scenario_registry scenario_all
                "save") as H.
  assert (H1 : wf scenario_heap scenario_registry)
    by by_computation (wf scenario_heap scenario_registry).
  assert (H2 : enumerates scenario_registry scenario_all)
    by (unfold enumerates; apply Permutation_refl).
  destruct (H H1 H2) as (_ & _ & Hamb).
  split; [computed|].
  apply (Hamb 1 3); [computed | computed | | | discriminate].
  - split; [by_computation (1 ∈ scenario_all) | computed].
  - split; [by_computation (3 ∈ scenario_all) | computed].
Defined.

(** [Foo::bar] is not registered, [Baz::bar] is the only symbol named [bar]:
    the code cuts the name at its last ":" and finds [Baz::bar], the lookup
    that cuts at namespace and path separators only finds nothing. *)
Lemma findSymbol_member_separator :
  findSymbol member_heap member_registry [0] "Foo::bar" = Some 0
  /\ nameLookup_words member_heap member_registry [0] "Foo::bar" = None
  /\ shortAfter "\/" "Foo::bar" = "Foo::bar"
  /\ shortNameOf "Foo::bar" = "bar".
Proof. split_and!; computed. Qed.

(** Scenario B. *)
Lemma resolveMethodOverrides_witness :
  let R := resolveInheritance scenario_all scenario in
  let R' := resolveMethodOverrides scenario_all R in
  Overrides (deref (mem R') 3) = "Base::save"
  /\ "Child::save" ∈ UsedBy (deref (mem R') 1).
Proof.
  intros R R'.
  pose proof (resolveMethodOverrides_first_match R scenario_all 3) as H.
  assert (H1 : wf (mem R) (registry R)) by by_computation (wf (mem R) (registry R)).
  assert (H2 : enumerates (registry R) scenario_all)
    by (unfold enumerates; apply Permutation_refl).
  assert (H3 : 3 ∈ scenario_all) by by_computation (3 ∈ scenario_all).
  assert (H4 : Kind (deref (mem R) 3) = KindMethod) by computed.
  assert (H5 : ParentID (deref (mem R) 3) ≠ "") by (vm_compute; discriminate).
  specialize (H H1 H2 H3 H4 H5).
  assert (Hparent : Get (registry R) (ParentID (deref (mem R) 3)) = Some 2) by computed.
  cbv zeta in H. rewrite Hparent in H. destruct H as [H _].
  assert (Hexts : Extends (deref (mem R) 2) = [] ++ "Base" :: []) by computed.
  assert (Hcand : candidate (registry R) (Name (deref (mem R) 3)) "Base" 1).
  { split; [exists 0; computed | computed]. }
  destruct (H [] "Base" [] 1 Hexts Hcand (List.Forall_nil _)) as (Ho & Hid & Hu & _).
  fold R' in Ho, Hu. split.
  - rewrite Ho. computed.
  - replace "Child::save" with (ID (deref (mem R) 3)) by computed. exact Hu.
Defined.

(** Scenario D: [Bar] was never ingested and stays in [Implements]. *)
Lemma resolveInheritance_witness :
  let R' := resolveInheritance scenario_all scenario in
  Implements (deref (mem R') 2) !! 0 = Some "Bar"
  /\ Extends (deref (mem R') 2) = ["Base"].
Proof.
  intros R'.
  pose proof (resolveInheritance_rewrites scenario scenario_all 2) as H.
  assert (H1 : wf (mem scenario) (registry scenario))
    by by_computation (wf (mem scenario) (registry scenario)).
  assert (H2 : enumerates (registry scenario) scenario_all)
    by (unfold enumerates; apply Permutation_refl).
  assert (H3 : 2 ∈ scenario_all) by by_computation (2 ∈ scenario_all).
  assert (H4 : Kind (deref (mem scenario) 2) = KindClass
               \/ Kind (deref (mem scenario) 2) = KindInterface)
    by (left; computed).
  destruct (H H1 H2 H3 H4) as (_ & _ & Hkeep & _). fold R' in Hkeep.
  split; [|computed].
  apply Hkeep; computed.
Defined.

(** Scenario C, with one symbol named [some_function]. *)
Lemma resolveSeeReferences_witness :
  let R' := resolveSeeReferences scenario_all scenario in
  SeeAlso (Doc (deref (mem R') 3)) = ["some_function"; ""]
  /\ Resolved (stats R') = 1 /\ Unresolved (stats R') = 0.
Proof.
  intros R'.
  pose proof (resolveSeeReferences_rewrites scenario scenario_all) as H.
  assert (H1 : wf (mem scenario) (registry scenario))
    by by_computation (wf (mem scenario) (registry scenario)).
  assert (H2 : enumerates (registry scenario) scenario_all)
    by (unfold enumerates; apply Permutation_refl).
  destruct (H H1 H2) as (_ & Hres & Hunres & _). fold R' in Hres, Hunres.
  split_and!; [computed | |].
  - rewrite Hres. computed.
  - rewrite Hunres. computed.
Defined.

(** A bare [@see] line gives an empty reference: it is not resolved, and
    neither [Resolved] nor [Unresolved] counts it. *)
Lemma resolveSeeReferences_blank_uncounted :
  let R' := resolveSeeReferences [0] bare_see in
  SeeAlso (Doc (deref (mem bare_see) 0)) = [""]
  /\ findSymbol (mem bare_see) (registry bare_see) [0]
       (strings.TrimSuffix (strings.TrimSpace "") "()") = None
  /\ SeeAlso (Doc (deref (mem R') 0)) = [""]
  /\ Resolved (stats R') = 0
  /\ Unresolved (stats R') = 0.
Proof. split_and!; computed. Qed.

(** [some_function] uses the hook [init]. *)
Lemma resolveHookBindings_witness :
  let R' := resolveHookBindings scenario_all scenario in
  "some_function" ∈ UsedBy (deref (mem R') 5)
  /\ NoDup (UsedBy (deref (mem R') 5)).
Proof.
  intros R'.
  pose proof (resolveHookBindings_spec scenario scenario_all) as H.
  assert (H1 : wf (mem scenario) (registry scenario))
    by by_computation (wf (mem scenario) (registry scenario)).
  destruct (H H1) as (Hbind & _ & Hnodup). fold R' in Hbind, Hnodup.
  split.
  - destruct (Hbind 4 "init" 5) as (hook & Hin & _ & Hused & Hsame).
    + by_computation (4 ∈ scenario_all).
    + left. computed.
    + by_computation ("init" ∈ Uses (deref (mem scenario) 4)).
    + by_computation (5 ∈ ByKind (registry scenario) KindHook).
    + computed.
    + assert (Hh : hook = 5).
      { apply Hsame. intros hk' Hk' _. vm_compute in Hk'.
        by apply list_elem_of_singleton in Hk'. }
      rewrite Hh in Hused.
      replace "some_function" with (ID (deref (mem scenario) 4)) by computed.
      exact Hused.
  - apply Hnodup. vm_compute. constructor.
Defined.

(** The four passes on the scenario keep its six symbols. *)
Lemma ResolveAll_monotone_witness :
  let R' := ResolveAll scenario_all scenario_all scenario_all scenario_all scenario in
  Count (registry R') = 6 /\ monotone scenario R'.
Proof.
  intros R'.
  pose proof (ResolveAll_monotone scenario scenario_all scenario_all scenario_all
                scenario_all) as H.
  assert (H1 : wf (mem scenario) (registry scenario))
    by by_computation (wf (mem scenario) (registry scenario)).
  assert (H2 : enumerates (registry scenario) scenario_all)
    by (unfold enumerates; apply Permutation_refl).
  destruct (H H1 H2 H2 H2 H2) as (Heq & _ & _ & _ & _ & Hmono & Hcount & _).
  cbv zeta in Heq, Hmono, Hcount. fold R' in Heq. rewrite Heq in Hmono, Hcount.
  split; [|exact Hmono]. rewrite Hcount. computed.
Defined.

(** Two subclasses override [Base::save]; the registry is read in two orders. *)
Lemma ResolveAll_order_witness :
  let o := family_order in
  let o' := reverse family_order in
  let A := ResolveAll o o o o family in
  let B := ResolveAll o' o' o' o' family in
  stats A = stats B
  /\ Overrides (deref (mem A) 3) = Overrides (deref (mem B) 3)
  /\ UsedBy (deref (mem A) 1) ≡ₚ UsedBy (deref (mem B) 1).
Proof.
  intros o o' A B.
  pose proof (ResolveAll_order family o o o o o' o' o' o') as H.
  assert (H1 : wf (mem family) (registry family))
    by by_computation (wf (mem family) (registry family)).
  assert (H2 : enumerates (registry family) o)
    by (unfold enumerates; apply Permutation_refl).
  assert (H3 : enumerates (registry family) o').
  { unfold enumerates, o'. apply reverse_Permutation. }
  destruct (H H1 H2 H2 H2 H2 H3 H3 H3 H3) as [Hs Hf]. fold A B in Hs, Hf.
  split; [exact Hs|].
  destruct (Hf 3) as (_ & _ & Ho & _). destruct (Hf 1) as (_ & _ & _ & _ & Hu).
  split; [exact Ho | exact Hu].
Defined.

(** The same two runs: the [UsedBy] list of [Base::save] comes out in the
    order in which the two overriding methods were visited. *)
Lemma ResolveAll_order_changes_UsedBy :
  let o := family_order in
  let o' := reverse family_order in
  enumerates family_registry o
  /\ enumerates family_registry o'
  /\ UsedBy (deref (mem (ResolveAll o o o o family)) 1)
     = ["Second::save"; "First::save"]
  /\ UsedBy (deref (mem (ResolveAll o' o' o' o' family)) 1)
     = ["First::save"; "Second::save"].
Proof.
  split_and!; [apply Permutation_refl | apply reverse_Permutation
              | computed | computed].
Qed.

(** Two records with the ID [f] added to an empty registry. *)
Lemma Add_same_ID_twice_witness :
  let r1 := Add twice_heap NewRegistry 0 in
  let r2 := Add twice_heap r1 1 in
  Get r2 "f" = Some 1 /\ Count r2 = 1 /\ ByKind r2 KindFunction = [0; 1]
  /\ Count r2 < length (ByKind r2 KindFunction)
  /\ Count r2 < length (ByFile r2 "").
Proof.
  intros r1 r2.
  pose proof (Add_same_ID_twice twice_heap NewRegistry 0 1) as H.
  assert (H1 : 0 ≠ 1) by discriminate.
  assert (H2 : ID (deref twice_heap 0) = ID (deref twice_heap 1)) by computed.
  assert (H3 : forall id, Get NewRegistry id ≠ Some 0).
  { intros id. unfold Get, NewRegistry. simpl. rewrite lookup_empty. discriminate. }
  destruct (H H1 H2 H3) as (Hget & Hcount & _ & _ & _ & Hkind & Hfile).
  fold r1 r2 in Hget, Hcount, Hkind, Hfile.
  destruct Hkind as [_ Hk]; [computed|]. destruct Hfile as [_ Hf]; [computed|].
  split_and!.
  - rewrite <- Hget. computed.
  - computed.
  - computed.
  - replace KindFunction with (Kind (deref twice_heap 0)) by computed.
    apply Hk. computed.
  - replace "" with (File (Location (deref twice_heap 0))) by computed.
    apply Hf. computed.
Defined.

(** One worker, two unreadable files: the run reaches a state where the
    worker waits at its send, the buffer being full, and nothing can move. *)
Lemma ParseFiles_blocks_witness :
  let reachable :=
    parser.reachable unreadable noTree noExtract noExtract String.append "" in
  let returns :=
    parser.returns unreadable noTree noExtract noExtract String.append "" in
  let stuck :=
    parser.stuck unreadable noTree noExtract noExtract String.append "" in
  (forall out, ~ returns 1 ["a.php"; "b.php"] ([], NewRegistry) out)
  /\ reachable (parser.start 1 ["a.php"; "b.php"] ([], NewRegistry)) blocked
  /\ stuck blocked
  /\ parser.waited blocked = false.
Proof.
  intros reachable returns stuck.
  pose proof (parser_proofs.ParseFiles_blocks unreadable noTree noExtract noExtract
                String.append "" 1 ["a.php"; "b.php"] ([], NewRegistry)) as H.
  assert (H1 : 0 < 1) by lia.
  assert (H2 : 1 < parser.failing unreadable noTree String.append ""
                     ["a.php"; "b.php"]) by (vm_compute; lia).
  destruct (H H1 H2) as (_ & _ & Hnever).
  split_and!.
  - exact Hnever.
  - eapply parser.reach_step; [eapply parser.reach_step; [eapply parser.reach_step;
      [apply parser.reach_refl|]|]|];
      apply (parser.step_of _ _ _ _ _ _ 0); vm_compute; reflexivity.
  - intros [|i]; vm_compute; reflexivity.
  - vm_compute; reflexivity.
Defined.

(** ** The registry as a function of the records added *)

Lemma registryOf_snoc h r ps p :
  foldl (Add h) r (ps ++ [p]) = Add h (foldl (Add h) r ps) p.
Proof. by rewrite foldl_app. Qed.

Lemma last_snoc_filter {A} (P : A -> Prop) `{!forall x, Decision (P x)} l x :
  last (filter P (l ++ [x])) = if decide (P x) then Some x else last (filter P l).
Proof.
  rewrite filter_app, filter_cons, filter_nil.
  case_decide.
  - by rewrite last_snoc.
  - by rewrite app_nil_r.
Qed.

Lemma Get_registry h ps id :
  Get (foldl (Add h) NewRegistry ps) id
  = last (filter (fun p => ID (deref h p) = id) ps).
Proof.
  induction ps as [|p ps IH] using rev_ind; [done|].
  rewrite registryOf_snoc, Get_Add, last_snoc_filter.
  case_decide; [done|]. exact IH.
Qed.

Lemma last_is_Some {A} (l : list A) : is_Some (last l) <-> l ≠ [].
Proof.
  destruct l as [|x l] using rev_ind; [split; [by intros [? ?]|done]|].
  rewrite last_snoc. split; [by destruct l|eauto].
Qed.

Lemma Get_registry_Some h ps id :
  is_Some (Get (foldl (Add h) NewRegistry ps) id)
  <-> id ∈ (fun p => ID (deref h p)) <$> ps.
Proof.
  rewrite Get_registry, last_is_Some, list_elem_of_fmap.
  split.
  - intros Hne. destruct (filter _ ps) as [|p l] eqn:E; [done|].
    assert (Hp : p ∈ filter (fun p => ID (deref h p) = id) ps)
      by (rewrite E; left).
    apply list_elem_of_filter in Hp as [Hp1 Hp2]. eauto.
  - intros (p & -> & Hp) E.
    assert (Hin : p ∈ filter (fun q => ID (deref h q) = ID (deref h p)) ps)
      by (by apply list_elem_of_filter).
    rewrite E in Hin. by apply elem_of_nil in Hin.
Qed.

Lemma Count_registry h ps :
  Count (foldl (Add h) NewRegistry ps)
  = length (remove_dups ((fun p => ID (deref h p)) <$> ps)).
Proof.
  unfold Count.
  rewrite <- size_dom.
  rewrite <- (size_list_to_set (C := gset string)) by apply NoDup_remove_dups.
  f_equal. apply set_eq. intros id.
  rewrite elem_of_dom, elem_of_list_to_set, elem_of_remove_dups.
  apply Get_registry_Some.
Qed.

(** The primary index of a registry that was filled by [Add]: [Get] returns
    the record that was added last under the ID ([None], Go's nil, when none
    was), and [Count] is the number of distinct IDs among the records added,
    which is the number of records exactly when no ID was used twice. *)
Theorem registry_primary_index (h : Heap) (ps : list nat) :
  let r := foldl (Add h) NewRegistry ps in
  let ids := (fun p => ID (deref h p)) <$> ps in
  (forall id, Get r id = last (filter (fun p => ID (deref h p) = id) ps))
  /\ (forall id, Get r id = None <-> id ∉ ids)
  /\ Count r = length (remove_dups ids)
  /\ Count r <= length ps
  /\ (Count r = length ps <-> NoDup ids).
Proof.
  intros r ids.
  assert (HC : Count r = length (remove_dups ids)) by apply Count_registry.
  assert (Hle : length (remove_dups ids) <= length ids).
  { clear. induction ids as [|x l IH]; simpl; [done|].
    case_decide; simpl; lia. }
  assert (Hlen : length ids = length ps) by apply length_fmap.
  split_and!.
  - apply Get_registry.
  - intros id. unfold ids, r. rewrite <- Get_registry_Some.
    by rewrite eq_None_not_Some.
  - done.
  - lia.
  - rewrite HC, <- Hlen. split.
    + clear. induction ids as [|x l IH]; simpl; [constructor|].
      assert (Hle : length (remove_dups l) <= length l).
      { clear. induction l as [|y l IH]; simpl; [done|].
        case_decide; simpl; lia. }
      case_decide; simpl; intros Hl; [lia|].
      constructor; [done|]. apply IH. lia.
    + intros Hnd. clear -Hnd. induction Hnd as [|x l Hx Hnd IH]; simpl; [done|].
      case_decide; [done|]. simpl. by rewrite IH.
Qed.

(** The kind index and the file index of a registry that was filled by
    [Add] list, in the order of the additions, every record added with that
    kind (that file), a record whose ID was taken over by a later one
    included. *)
Theorem registry_secondary_indices (h : Heap) (ps : list nat)
    (k : string) (f : string) :
  let r := foldl (Add h) NewRegistry ps in
  ByKind r k = filter (fun p => Kind (deref h p) = k) ps
  /\ ByFile r f = filter (fun p => File (Location (deref h p)) = f) ps
  /\ (forall id p, Get r id = Some p ->
        p ∈ ByKind r (Kind (deref h p))
        /\ p ∈ ByFile r (File (Location (deref h p)))).
Proof.
  intros r.
  assert (HK : forall k, ByKind r k = filter (fun p => Kind (deref h p) = k) ps).
  { intros k'. unfold r. clear. induction ps as [|p ps IH] using rev_ind; [done|].
    rewrite registryOf_snoc, ByKind_Add, filter_app, filter_cons, filter_nil, IH.
    case_decide; [done|by rewrite app_nil_r]. }
  assert (HF : forall f, ByFile r f
                         = filter (fun p => File (Location (deref h p)) = f) ps).
  { intros f'. unfold r. clear. induction ps as [|p ps IH] using rev_ind; [done|].
    rewrite registryOf_snoc, ByFile_Add, filter_app, filter_cons, filter_nil, IH.
    case_decide; [done|by rewrite app_nil_r]. }
  split_and!; [apply HK | apply HF |].
  intros id p Hp. unfold r in Hp. rewrite Get_registry in Hp.
  assert (Hin : p ∈ filter (fun p => ID (deref h p) = id) ps).
  { destruct (filter _ ps) as [|x l] using rev_ind; [done|].
    rewrite last_snoc in Hp. injection Hp as ->. set_solver. }
  apply list_elem_of_filter in Hin as [_ Hin].
  rewrite HK, HF. split; by apply list_elem_of_filter.
Qed.

(** ** [CountByLanguage] *)

Lemma filter_disjoint_length {A} (P Q : A -> Prop)
    `{!forall x, Decision (P x)} `{!forall x, Decision (Q x)} (l : list A) :
  (forall x, P x -> Q x -> False) ->
  length (filter P l) + length (filter Q l)
  = length (filter (fun x => P x \/ Q x) l).
Proof.
  intros HPQ. induction l as [|x l IH]; [done|].
  rewrite !filter_cons.
  destruct (decide (P x)), (decide (Q x)).
  - by destruct (HPQ x).
  - rewrite decide_True by auto. simpl. lia.
  - rewrite decide_True by auto. simpl. lia.
  - rewrite decide_False by tauto. done.
Qed.

Lemma filter_all_of_length {A} (P : A -> Prop) `{!forall x, Decision (P x)}
    (l : list A) :
  length (filter P l) = length l -> filter P l = l.
Proof.
  induction l as [|x l IH]; [done|].
  rewrite filter_cons. pose proof (length_filter P l) as Hle.
  case_decide; simpl; intros Hlen; [|lia].
  f_equal. apply IH. lia.
Qed.

Lemma enumerates_canonical r : enumerates r (All_canonical r).
Proof. unfold enumerates. reflexivity. Qed.

Lemma All_canonical_length r : length (All_canonical r) = Count r.
Proof.
  unfold All_canonical, Count. by rewrite length_fmap, length_map_to_list.
Qed.

Lemma CountByLanguage_partition (h : Heap) (r : Registry) (l1 l2 : string) :
  l1 ≠ l2 ->
  CountByLanguage h r l1 + CountByLanguage h r l2 <= Count r
  /\ (CountByLanguage h r l1 + CountByLanguage h r l2 = Count r
      <-> forall id p, Get r id = Some p ->
            Language (deref h p) = l1 \/ Language (deref h p) = l2).
Proof.
  intros Hne. unfold CountByLanguage.
  rewrite filter_disjoint_length by (intros x -> ?; done).
  rewrite <- All_canonical_length.
  split; [apply length_filter|].
  split.
  - intros Hlen id p Hp.
    assert (Hin : p ∈ All_canonical r).
    { apply (enumerates_elem r); [apply enumerates_canonical|eauto]. }
    pose proof (filter_all_of_length _ _ Hlen) as Hall.
    rewrite <- Hall in Hin. by apply list_elem_of_filter in Hin as [? _].
  - intros Hall. f_equal.
    assert (Hfa : Forall (fun x => Language (deref h x) = l1
                                   \/ Language (deref h x) = l2)
                         (All_canonical r)).
    { apply Forall_forall. intros p Hp.
      apply (enumerates_elem r (All_canonical r)) in Hp as [id Hid];
        [|apply enumerates_canonical].
      eauto. }
    clear Hall. induction Hfa as [|x l Hx Hfa IH]; [done|].
    rewrite filter_cons, decide_True by done. by f_equal.
Qed.

(** ** Runs of the worker pool *)

Module parser_runs.
Import parser parser_proofs.

Section Pool.
Context {Tree : Type}.
Variable ReadFile : string -> option string.
Variable ParseCtx : Grammar -> string -> option Tree.
Variable extractPHP extractJS :
    Tree -> string -> string -> Heap * Registry -> Heap * Registry.
Variable Join : string -> string -> string.
Variable srcRoot : string.

Local Abbreviation parseFile := (parseFile ReadFile ParseCtx extractPHP extractJS Join srcRoot).
Local Abbreviation fails := (fails ReadFile ParseCtx Join srcRoot).
Local Abbreviation step_worker := (step_worker ReadFile ParseCtx extractPHP extractJS Join srcRoot).
Local Abbreviation step := (step ReadFile ParseCtx extractPHP extractJS Join srcRoot).
Local Abbreviation reachable := (reachable ReadFile ParseCtx extractPHP extractJS Join srcRoot).
Local Abbreviation returns := (returns ReadFile ParseCtx extractPHP extractJS Join srcRoot).
Local Abbreviation sequential := (sequential ReadFile ParseCtx extractPHP extractJS Join srcRoot).
Local Abbreviation failing := (failing ReadFile ParseCtx Join srcRoot).
Local Abbreviation stuck := (stuck ReadFile ParseCtx extractPHP extractJS Join srcRoot).

Lemma busy_insert ws i w w' :
  ws !! i = Some w ->
  busy (<[i := w']> ws) + match w with Done => 0 | _ => 1 end
  = busy ws + match w' with Done => 0 | _ => 1 end.
Proof.
  intros H.
  exact (sum_insert (fun w => match w with Done => 0 | _ => 1 end) ws i w w' H).
Qed.

Lemma sending_insert ws i w w' :
  ws !! i = Some w ->
  sending (<[i := w']> ws) + match w with Sending _ => 1 | _ => 0 end
  = sending ws + match w' with Sending _ => 1 | _ => 0 end.
Proof.
  intros H.
  exact (sum_insert (fun w => match w with Sending _ => 1 | _ => 0 end)
           ws i w w' H).
Qed.

Lemma step_steps_left s s' : step s s' -> steps_left s' < steps_left s.
Proof.
  intros Hst. inversion Hst as [i s0 s1 Hstep]; subst s0 s1. clear Hst.
  unfold parser.step_worker in Hstep. unfold steps_left.
  destruct (workers s !! i) as [[|err|]|] eqn:Hw; try done.
  - destruct (ch s) as [|file rest] eqn:Hch.
    + injection Hstep as <-. simpl.
      pose proof (busy_insert _ _ _ Done Hw) as Hb.
      pose proof (sending_insert _ _ _ Done Hw) as Hs. simpl in *. lia.
    + destruct (parseFile file (store s)) as [[err|] st] eqn:Hp.
      * injection Hstep as <-. simpl.
        pose proof (busy_insert _ _ _ (Sending (file +:+ ": " +:+ err)) Hw) as Hb.
        pose proof (sending_insert _ _ _ (Sending (file +:+ ": " +:+ err)) Hw) as Hs.
        simpl in *. lia.
      * injection Hstep as <-. simpl. lia.
  - case_decide as Hlt; [|done]. injection Hstep as <-. simpl.
    pose proof (busy_insert _ _ _ Receiving Hw) as Hb.
    pose proof (sending_insert _ _ _ Receiving Hw) as Hs. simpl in *. lia.
Qed.

Lemma sending_pos ws i err : ws !! i = Some (Sending err) -> 0 < sending ws.
Proof.
  revert i. induction ws as [|w ws IH]; intros [|i] H; simpl in *; try done.
  - injection H as ->. unfold sending. simpl. lia.
  - specialize (IH i H). unfold sending in *. simpl. lia.
Qed.

Lemma not_waited s :
  waited s = false -> exists i w, workers s !! i = Some w /\ w ≠ Done.
Proof.
  unfold waited. generalize (workers s). intros ws.
  induction ws as [|w ws IH]; simpl; [done|].
  destruct w; simpl.
  - intros _. by exists 0, Receiving.
  - intros _. by exists 0, (Sending err).
  - intros H. destruct (IH H) as (i & w & Hi & Hw). by exists (S i), w.
Qed.

(** With no more failing files than workers no schedule blocks: a state of
    the run in which some worker has not left its loop has a next step.
    Every step brings the run nearer to its end, whatever the files are; so
    every run is finite, and it ends with all workers done. *)
Theorem ParseFiles_every_run_ends (nworkers : nat) (files : list string)
    (st : Heap * Registry) (s : Pool) :
  failing files <= nworkers ->
  reachable (start nworkers files st) s ->
  (waited s = false -> exists s', step s s')
  /\ (stuck s -> waited s = true)
  /\ (forall s', step s s' -> steps_left s' < steps_left s)
  /\ steps_left s <= 2 * length files + nworkers.
Proof.
  intros Hfail Hr.
  assert (Hnext : waited s = false -> exists s', step s s').
  { intros Hw. destruct (not_waited s Hw) as (i & w & Hi & Hne).
    destruct (pool_inv_reachable _ _ _ _ _ _ _ _ _ _ Hr) as (HL & Hsum & Hcap & Hdone).
    destruct w as [|err|]; [| |done].
    - destruct (step_worker i s) as [s'|] eqn:E.
      + exists s'. by econstructor.
      + unfold parser.step_worker in E. rewrite Hi in E.
        destruct (ch s); [done|]. by destruct (parseFile _ _) as [[?|] ?].
    - destruct (step_worker i s) as [s'|] eqn:E.
      + exists s'. by econstructor.
      + unfold parser.step_worker in E. rewrite Hi in E.
        pose proof (sending_pos _ _ _ Hi).
        unfold capacity in E. rewrite decide_True in E by lia. done. }
  split_and!.
  - done.
  - intros Hstuck. destruct (waited s) eqn:Hw; [done|].
    destruct (Hnext eq_refl) as [s' Hs'].
    inversion Hs' as [i s0 s1 Hstep]; subst. by rewrite (Hstuck i) in Hstep.
  - apply step_steps_left.
  - clear Hnext. induction Hr as [|s s' Hr IH Hst].
    + unfold steps_left, start. simpl.
      assert (H1 : sending (replicate nworkers Receiving) = 0).
      { unfold sending. clear. induction nworkers; simpl; lia. }
      assert (H2 : busy (replicate nworkers Receiving) = nworkers).
      { unfold busy. clear. induction nworkers; simpl; lia. }
      lia.
    + apply step_steps_left in Hst. lia.
Qed.

(** [ParseFiles] with at least one worker returns on some schedule exactly
    when no more files fail than there are workers, and the number of errors
    that it then logs is the number of failing files. *)
Theorem ParseFiles_returns_iff (nworkers : nat) (files : list string)
    (st : Heap * Registry) :
  0 < nworkers ->
  ((exists out, returns nworkers files st out) <-> failing files <= nworkers)
  /\ (forall st' k, returns nworkers files st (st', k) -> k = failing files).
Proof.
  intros Hn.
  assert (Hend : forall s, reachable (start nworkers files st) s ->
                   waited s = true ->
                   length (errCh s) = failing files /\ failing files <= nworkers).
  { intros s Hr Hw. apply waited_spec in Hw.
    destruct (pool_inv_reachable _ _ _ _ _ _ _ _ _ _ Hr) as (HL & Hsum & Hcap & Hdone).
    rewrite (waited_sending _ Hw) in Hsum.
    assert (Hd : Done ∈ workers s).
    { destruct (workers s) as [|w ws]; simpl in HL; [lia|].
      apply Forall_cons in Hw as [-> _]. by left. }
    rewrite (Hdone Hd) in Hsum. unfold parser.failing at 1 in Hsum.
    simpl in Hsum. lia. }
  split.
  - split.
    + intros [out Hret]. unfold parser.returns in Hret.
      destruct files as [|f files]; [unfold parser.failing; simpl; lia|].
      destruct Hret as (s & Hr & Hw & _). by destruct (Hend s Hr Hw).
    + intros Hfail. eexists. by apply ParseFiles_returns.
  - intros st' k Hret. unfold parser.returns in Hret.
    destruct files as [|f files]; [by injection Hret as -> ->|].
    destruct Hret as (s & Hr & Hw & [= _ ->]). by destruct (Hend s Hr Hw).
Qed.

(** [ParseFiles] with no worker: it starts no goroutine, [wg.Wait] returns at
    once, and the call returns without having parsed any of the files. *)
Theorem ParseFiles_no_workers (files : list string) (st : Heap * Registry)
    (out : Heap * Registry * nat) :
  returns 0 files st out <-> out = (st, 0).
Proof.
  unfold parser.returns. destruct files as [|f files]; [done|].
  assert (Honly : forall s, reachable (start 0 (f :: files) st) s ->
                            s = start 0 (f :: files) st).
  { induction 1 as [|s s' _ -> Hst]; [done|].
    inversion Hst as [i s0 s1 Hstep]; subst. by destruct i. }
  split.
  - intros (s & Hr & _ & ->). by rewrite (Honly s Hr).
  - intros ->. exists (start 0 (f :: files) st). split_and!; [constructor|done|done].
Qed.

(** The part of the queue that was taken, for a run with one worker. *)
Lemma one_worker_inv files st s :
  reachable (start 1 files st) s ->
  exists taken, files = taken ++ ch s /\ store s = sequential taken st.
Proof.
  induction 1 as [|s s' _ (taken & Hf & Hs) Hst].
  - by exists [].
  - inversion Hst as [i s0 s1 Hstep]; subst s0 s1. clear Hst.
    unfold parser.step_worker in Hstep.
    destruct (workers s !! i) as [[|err|]|] eqn:Hw; try done.
    + destruct (ch s) as [|file rest] eqn:Hch.
      * injection Hstep as <-. simpl. exists taken. by split.
      * destruct (parseFile file (store s)) as [[err|] st1] eqn:Hp;
          injection Hstep as <-; simpl; exists (taken ++ [file]);
          (split; [by rewrite <- app_assoc|]);
          unfold parser.sequential; rewrite foldl_app; simpl;
          fold (sequential taken st); rewrite <- Hs, Hp; done.
    + case_decide; [|done]. injection Hstep as <-. simpl. by exists taken.
Qed.

(** A run with one worker parses the files one after the other, in the
    order of the list: whatever [ParseFiles] returns with, it is the store
    of that sequence, and the number of failing files. *)
Theorem ParseFiles_one_worker (files : list string) (st st' : Heap * Registry)
    (k : nat) :
  returns 1 files st (st', k) ->
  st' = sequential files st /\ k = failing files /\ failing files <= 1.
Proof.
  intros Hret. unfold parser.returns in Hret.
  destruct files as [|f files].
  { injection Hret as -> ->. unfold parser.failing. simpl. split_and!; done || lia. }
  destruct Hret as (s & Hr & Hw & [= -> ->]).
  destruct (one_worker_inv _ _ _ Hr) as (taken & Hf & Hs).
  destruct (pool_inv_reachable _ _ _ _ _ _ _ _ _ _ Hr) as (HL & Hsum & Hcap & Hdone).
  apply waited_spec in Hw.
  rewrite (waited_sending _ Hw) in Hsum.
  assert (Hd : Done ∈ workers s).
  { destruct (workers s) as [|w ws]; simpl in HL; [lia|].
    apply Forall_cons in Hw as [-> _]. by left. }
  rewrite (Hdone Hd) in Hsum, Hf. rewrite app_nil_r in Hf. subst taken.
  assert (H0 : failing [] = 0) by done. rewrite H0 in Hsum.
  split_and!; [done|lia|lia].
Qed.

End Pool.
End parser_runs.

(** ** Syntax trees *)

Section extractor_writes.
Import sitter.

Lemma Node_ind' (P : Node -> Prop) :
  (forall n, Forall P (Children n) -> P n) -> forall n, P n.
Proof.
  intros H. fix IH 1. intros [t nm f a b c d cs]. apply H. simpl.
  induction cs as [|x cs IHcs]; constructor; [apply IH | exact IHcs].
Qed.

Lemma Node_ind2 (P : Node -> Prop) :
  (forall n, Forall (fun c => Forall P (Children c)) (Children n) -> P n) ->
  forall n, P n.
Proof.
  intros H n.
  cut (P n /\ Forall P (Children n)); [tauto|].
  induction n as [n IH] using Node_ind'.
  assert (Hc : Forall P (Children n)).
  { eapply Forall_impl; [exact IH|]. by intros c [? _]. }
  split; [|done]. apply H.
  eapply Forall_impl; [exact IH|]. by intros c [_ ?].
Qed.

Lemma forNamed_spec {S} (f : Node -> S -> S) (n : Node) (st : S) :
  forNamed f (Children n) st = foldl (fun st c => f c st) st (NamedChildren n).
Proof.
  unfold forNamed, NamedChildren. generalize (Children n). intros cs.
  revert st. induction cs as [|c cs IH]; intros st; [done|].
  rewrite filter_cons. simpl. destruct (IsNamed c) eqn:E.
  - rewrite decide_True by done. simpl. apply IH.
  - rewrite decide_False by (by intros ?). apply IH.
Qed.

Lemma withField_spec {A} (name : string) (f : Node -> A) (d : A) (n : Node) :
  withField name f d (Children n)
  = match ChildByFieldName n name with Some c => f c | None => d end.
Proof.
  unfold withField, ChildByFieldName. generalize (Children n). intros cs.
  induction cs as [|c cs IH]; [done|]. simpl.
  destruct (bool_decide (FieldName c = Some name)); [done | exact IH].
Qed.

Lemma forNamed_ind {S} (P : S -> Prop) (f : Node -> S -> S) cs st :
  P st ->
  (forall c s, c ∈ cs -> P s -> P (f c s)) ->
  P (forNamed f cs st).
Proof.
  unfold forNamed. revert st. induction cs as [|c cs IH]; intros st H0 Hf; [done|].
  simpl. apply IH.
  - destruct (IsNamed c); [apply Hf; [left|done] | done].
  - intros c' s Hc'. apply Hf. by right.
Qed.

Lemma find_elem {A} (p : A -> bool) (l : list A) x :
  List.find p l = Some x -> x ∈ l /\ p x = true.
Proof.
  intros H. apply find_some in H as [H1 H2]. split; [by apply list_elem_of_In|done].
Qed.

Lemma ChildByFieldName_elem n name c :
  ChildByFieldName n name = Some c -> c ∈ Children n.
Proof. intros H. by apply find_elem in H as [? _]. Qed.

Lemma childByType_elem n t c :
  parser.childByType n t = Some c -> c ∈ Children n.
Proof.
  intros H. apply find_elem in H as [H _].
  unfold NamedChildren in H. by apply list_elem_of_filter in H as [_ ?].
Qed.

(** ** The writes of the extractors *)

Lemma writes_refl st : writes st st.
Proof. apply rtc_refl. Qed.

Lemma writes_trans st1 st2 st3 : writes st1 st2 -> writes st2 st3 -> writes st1 st3.
Proof. apply rtc_trans. Qed.

Lemma writes_step st1 st2 st3 : writes st1 st2 -> write st2 st3 -> writes st1 st3.
Proof. intros. eapply rtc_r; eauto. Qed.

Lemma Get_addSymbol sym st id :
  Get (parser.addSymbol sym st).2 id
  = if decide (ID sym = id) then Some (length st.1) else Get st.2 id.
Proof.
  unfold parser.addSymbol, new. simpl. by rewrite Get_Add, deref_app_new.
Qed.

Lemma write_Get st st' id :
  write st st' -> is_Some (Get st.2 id) -> is_Some (Get st'.2 id).
Proof.
  intros [sym s Hs | c m s | i c e s He] H.
  - rewrite Get_addSymbol. case_decide; eauto.
  - unfold parser.addMember. by destruct (Get s.2 c).
  - done.
Qed.

Lemma writes_Get st st' id :
  writes st st' -> is_Some (Get st.2 id) -> is_Some (Get st'.2 id).
Proof. induction 1; eauto using write_Get. Qed.

Lemma append_ne (a b : string) : b ≠ "" -> a +:+ b ≠ "".
Proof. destruct a; simpl; [done|]. intros _ ?. discriminate. Qed.

Lemma append_ne_l (a b : string) : a ≠ "" -> a +:+ b ≠ "".
Proof. destruct a; simpl; [done|]. intros _ ?. discriminate. Qed.

Lemma registerHook_writes sub call hookType callerID file st :
  writes st (registerHook sub call hookType callerID file st).
Proof.
  unfold registerHook. case_bool_decide as Htag; [apply writes_refl|].
  destruct (Get st.2 _) as [existing|] eqn:HG.
  - eapply rtc_once, write_callSite. exact HG.
  - eapply rtc_once.
    apply (write_symbol (hookSymbol sub call hookType callerID file) st).
    unfold extracted, hookSymbol. simpl.
    split_and!; try done.
    + by left.
Qed.

Lemma walkTree_ind {S} (P : S -> Prop) (fn : Node -> S -> S) :
  (forall n s, P s -> P (fn n s)) ->
  forall node st, P st -> P (parser.walkTree fn node st).
Proof.
  intros Hfn node. induction node as [node IH] using Node_ind'.
  intros st Hst. destruct node as [t nm f a b c d cs]. simpl in *.
  apply forNamed_ind; [by apply Hfn|].
  intros c' s Hc' Hs. rewrite Forall_forall in IH. by apply IH.
Qed.

Lemma scanForHooks_writes body src file callerID st :
  writes st (parser.scanForHooks body src file callerID st).
Proof.
  unfold parser.scanForHooks.
  apply (walkTree_ind (fun s => writes st s)); [|apply writes_refl].
  intros n s Hs. case_bool_decide; [done|].
  destruct (ChildByFieldName n "function"); [|done].
  destruct (parser.hookFunctions !! _); [|done].
  eapply writes_trans; [exact Hs|]. apply registerHook_writes.
Qed.

Lemma addMember_writes c m st : writes st (parser.addMember c m st).
Proof. apply rtc_once, write_member. Qed.

Lemma qualifyPHP_ne ns name : name ≠ "" -> parser.qualifyPHP ns name ≠ "".
Proof.
  intros H. unfold parser.qualifyPHP. case_bool_decide; [|done].
  by apply append_ne, append_ne.
Qed.

Section PHP.
Variable src file : string.

Lemma scanBody_writes node callerID st :
  writes st (parser.scanBody src file node callerID st).
Proof.
  unfold parser.scanBody. destruct (ChildByFieldName node "body");
    [apply scanForHooks_writes | apply writes_refl].
Qed.

Lemma handleFunction_writes node ns st :
  writes st (parser.handleFunction src file node ns st).
Proof.
  unfold parser.handleFunction. case_bool_decide as Hn; [apply writes_refl|].
  eapply writes_trans; [|apply scanBody_writes].
  apply rtc_once, write_symbol. unfold extracted, parser.symbol. simpl.
  split_and!; try done; [by apply qualifyPHP_ne | by left].
Qed.

Lemma handleMethod_writes node ns stack st :
  (forall c, last stack = Some c -> is_Some (Get st.2 c)) ->
  writes st (parser.handleMethod src file node ns stack st).
Proof.
  intros Hreg. unfold parser.handleMethod.
  destruct (last stack) as [classFQN|]; [|apply writes_refl].
  case_bool_decide as Hn; [apply writes_refl|].
  eapply writes_trans; [|apply scanBody_writes].
  eapply writes_trans; [|apply addMember_writes].
  apply rtc_once, write_symbol. unfold extracted, parser.symbol. simpl.
  split_and!; try done.
  - by apply append_ne, append_ne.
  - by left.
  - intros _. split; [by apply Hreg | by left].
Qed.

Lemma processClassBody_writes body ns stack st :
  (forall c, last stack = Some c -> is_Some (Get st.2 c)) ->
  writes st (parser.processClassBody src file body ns stack st).
Proof.
  intros Hreg. unfold parser.processClassBody.
  apply (forNamed_ind
           (fun s => writes st s
                     /\ forall c, last stack = Some c -> is_Some (Get s.2 c))).
  - split; [apply writes_refl | done].
  - intros c s _ [Hw Hs]. case_bool_decide; [|done].
    pose proof (handleMethod_writes c ns stack s Hs) as Hm.
    split; [by eapply writes_trans|].
    intros c' Hc'. eapply writes_Get; [exact Hm | by apply Hs].
Qed.

Lemma classBody_writes node ns stack fqn st :
  is_Some (Get st.2 fqn) ->
  writes st (parser.classBody src file node ns stack fqn st).
Proof.
  intros Hreg. unfold parser.classBody.
  destruct (parser.childByType node "declaration_list"); [|apply writes_refl].
  apply processClassBody_writes. intros c. rewrite last_snoc. by intros [= <-].
Qed.

Lemma addSymbol_registered sym st : is_Some (Get (parser.addSymbol sym st).2 (ID sym)).
Proof. rewrite Get_addSymbol, decide_True by done. eauto. Qed.

Lemma handleClass_writes node ns stack st :
  writes st (parser.handleClass src file node ns stack st).
Proof.
  unfold parser.handleClass. case_bool_decide as Hn; [apply writes_refl|].
  eapply writes_trans; [|apply classBody_writes].
  - apply rtc_once, write_symbol. unfold extracted, parser.symbol. simpl.
    split_and!; try done; [by apply qualifyPHP_ne | by left].
  - match goal with |- is_Some (Get (parser.addSymbol ?s _).2 _) =>
      apply (addSymbol_registered s) end.
Qed.

Lemma handleInterface_writes node ns stack st :
  writes st (parser.handleInterface src file node ns stack st).
Proof.
  unfold parser.handleInterface. case_bool_decide as Hn; [apply writes_refl|].
  eapply writes_trans; [|apply classBody_writes].
  - apply rtc_once, write_symbol. unfold extracted, parser.symbol. simpl.
    split_and!; try done; [by apply qualifyPHP_ne | by left].
  - match goal with |- is_Some (Get (parser.addSymbol ?s _).2 _) =>
      apply (addSymbol_registered s) end.
Qed.

Lemma handleTrait_writes node ns stack st :
  writes st (parser.handleTrait src file node ns stack st).
Proof.
  unfold parser.handleTrait. case_bool_decide as Hn; [apply writes_refl|].
  eapply writes_trans; [|apply classBody_writes].
  - apply rtc_once, write_symbol. unfold extracted, parser.symbol. simpl.
    split_and!; try done; [by apply qualifyPHP_ne | by left].
  - match goal with |- is_Some (Get (parser.addSymbol ?s _).2 _) =>
      apply (addSymbol_registered s) end.
Qed.

Lemma processNode_writes node ns stack st :
  writes st (parser.processNode src file node ns stack st).
Proof.
  unfold parser.processNode.
  repeat case_bool_decide;
    auto using handleFunction_writes, handleClass_writes,
      handleInterface_writes, handleTrait_writes, writes_refl.
Qed.

Lemma processChildren_writes node ns stack st :
  writes st (parser.processChildren src file node ns stack st).
Proof.
  revert ns stack st. induction node as [node IH] using Node_ind2.
  intros ns stack st. destruct node as [t nm f a b c d cs]. simpl in *.
  apply (forNamed_ind (fun s : string * (Heap * Registry) => writes st s.2)).
  - apply writes_refl.
  - intros child [cur s] Hchild Hs. simpl in Hs.
    case_bool_decide.
    + rewrite withField_spec.
      destruct (ChildByFieldName child "body") as [body|] eqn:Hb; simpl; [|done].
      eapply writes_trans; [exact Hs|].
      rewrite Forall_forall in IH. specialize (IH child Hchild).
      rewrite Forall_forall in IH.
      apply IH. by eapply ChildByFieldName_elem.
    + simpl. eapply writes_trans; [exact Hs|]. apply processNode_writes.
Qed.

Lemma extractPHP_writes root st : writes st (parser.extractPHP src file root st).
Proof. apply processChildren_writes. Qed.

End PHP.

Section JS.
Variable src file : string.

Lemma js_handleFunction_writes node st :
  writes st (parser.js.handleFunction src file node st).
Proof.
  unfold parser.js.handleFunction. case_bool_decide as Hn; [apply writes_refl|].
  apply rtc_once, write_symbol. unfold extracted, parser.symbol. simpl.
  split_and!; try done. by right.
Qed.

Lemma js_handleMethod_writes node stack st :
  (forall c, last stack = Some c -> is_Some (Get st.2 c)) ->
  writes st (parser.js.handleMethod src file node stack st).
Proof.
  intros Hreg. unfold parser.js.handleMethod.
  destruct (last stack) as [classFQN|]; [|apply writes_refl].
  case_bool_decide as Hn; [apply writes_refl|].
  eapply writes_trans; [|apply addMember_writes].
  apply rtc_once, write_symbol. unfold extracted, parser.symbol. simpl.
  split_and!; try done.
  - by apply append_ne, append_ne.
  - by right.
  - intros _. split; [by apply Hreg | by right].
Qed.

Lemma js_processClassBody_writes body stack st :
  (forall c, last stack = Some c -> is_Some (Get st.2 c)) ->
  writes st (parser.js.processClassBody src file body stack st).
Proof.
  intros Hreg. unfold parser.js.processClassBody.
  apply (forNamed_ind
           (fun s => writes st s
                     /\ forall c, last stack = Some c -> is_Some (Get s.2 c))).
  - split; [apply writes_refl | done].
  - intros c s _ [Hw Hs]. case_bool_decide; [|done].
    pose proof (js_handleMethod_writes c stack s Hs) as Hm.
    split; [by eapply writes_trans|].
    intros c' Hc'. eapply writes_Get; [exact Hm | by apply Hs].
Qed.

Lemma heritage_fields node sym :
  same_but_parents sym (parser.js.heritage src node sym).
Proof.
  unfold parser.js.heritage.
  apply (forNamed_ind (fun s => same_but_parents sym s)).
  - by unfold same_but_parents.
  - intros c s _ Hs. unfold same_but_parents in *.
    repeat case_bool_decide; destruct s; simpl in *; done.
Qed.

Lemma js_handleClass_writes node stack st :
  writes st (parser.js.handleClass src file node stack st).
Proof.
  unfold parser.js.handleClass. case_bool_decide as Hn; [apply writes_refl|].
  set (sym0 := parser.symbol _ _ _ _ _ _ _ _ _ _).
  set (sym := match parser.childByType node "class_heritage" with
              | Some h => parser.js.heritage src h sym0
              | None => sym0
              end).
  assert (Hsame : same_but_parents sym0 sym).
  { unfold sym. destruct (parser.childByType _ _);
      [apply heritage_fields | by unfold same_but_parents]. }
  destruct Hsame as (HID & HName & HKind & HLang & HUses & HUsedBy & HOv).
  assert (Hw : writes st (parser.addSymbol sym st)).
  { apply rtc_once, write_symbol. unfold extracted.
    rewrite HID, HName, HKind, HLang, HUses, HUsedBy, HOv.
    unfold sym0, parser.symbol. simpl. split_and!; try done. by right. }
  destruct (ChildByFieldName node "body"); [|done].
  eapply writes_trans; [exact Hw|].
  apply js_processClassBody_writes. intros c. rewrite last_snoc.
  intros [= <-].
  assert (Hid : ID sym = parser.nodeText (ChildByFieldName node "name") src)
    by (by rewrite HID).
  rewrite <- Hid. apply addSymbol_registered.
Qed.


Lemma js_handleInterface_writes node st :
  writes st (parser.js.handleInterface src file node st).
Proof.
  unfold parser.js.handleInterface. case_bool_decide as Hn; [apply writes_refl|].
  apply rtc_once, write_symbol. unfold extracted, parser.symbol. simpl.
  split_and!; try done. by right.
Qed.

Lemma js_handleVarDecl_writes node st :
  writes st (parser.js.handleVarDecl src file node st).
Proof.
  unfold parser.js.handleVarDecl.
  apply (forNamed_ind (fun s => writes st s)); [apply writes_refl|].
  intros c s _ Hs. case_bool_decide; [done|].
  destruct (ChildByFieldName c "name"); [|done].
  destruct (ChildByFieldName c "value"); [|done].
  destruct (_ || _); [|done].
  case_bool_decide; [done|].
  eapply writes_step; [exact Hs|].
  apply write_symbol. unfold extracted, parser.symbol. simpl.
  split_and!; try done. by right.
Qed.

Lemma js_processNode_writes node stack st :
  writes st (parser.js.processNode src file node stack st).
Proof.
  revert stack st. induction node as [node IH] using Node_ind'.
  intros stack st. destruct node as [t nm f a b c d cs]. simpl in *.
  repeat case_bool_decide;
    auto using js_handleFunction_writes, js_handleClass_writes,
      js_handleInterface_writes, js_handleVarDecl_writes, writes_refl.
  all: try (apply (forNamed_ind (fun s => writes st s)); [apply writes_refl|];
            intros child s Hchild Hs; eapply writes_trans; [exact Hs|];
            rewrite Forall_forall in IH; by apply IH).
  all: destruct (_ || _);
    auto using js_handleVarDecl_writes, writes_refl.
Qed.

Lemma extractJS_writes root st : writes st (parser.js.extractJS src file root st).
Proof.
  unfold parser.js.extractJS, parser.js.processChildren.
  apply (forNamed_ind (fun s => writes st s)); [apply writes_refl|].
  intros child s _ Hs. eapply writes_trans; [exact Hs|].
  apply js_processNode_writes.
Qed.

End JS.

End extractor_writes.

(** ** What every write keeps *)

Lemma extracted_mono r r' s :
  (forall id, is_Some (Get r id) -> is_Some (Get r' id)) ->
  extracted r s -> extracted r' s.
Proof.
  intros Hm (H1 & H2 & H3 & H4 & H5 & H6 & H7 & H8).
  unfold extracted. split_and!; try done.
  intros Hk. destruct (H7 Hk) as [Hp Hid]. split; [by apply Hm|done].
Qed.

Lemma wf_alter_same_ID (f : Symbol -> Symbol) h r p :
  (forall s, ID (f s) = ID s) -> wf h r -> wf (alter f p h) r.
Proof.
  intros Hf [H1 H2]. split.
  - intros k q Hk. destruct (H1 k q Hk) as [Hv Hid]. simpl in *.
    rewrite length_alter. split; [done|].
    destruct (decide (p = q)) as [->|Hne].
    + rewrite deref_alter_eq by done. by rewrite Hf.
    + by rewrite deref_alter_ne.
  - intros k l Hk. specialize (H2 k l Hk). simpl in *. by rewrite length_alter.
Qed.

Lemma deref_alter_cases (f : Symbol -> Symbol) h p q :
  deref (alter f p h) q = f (deref h q) \/ deref (alter f p h) q = deref h q.
Proof.
  destruct (decide (p = q)) as [->|Hne].
  - destruct (decide (q < length h)).
    + left. by apply deref_alter_eq.
    + right. rewrite deref_alter_ge by lia. done.
  - right. by apply deref_alter_ne.
Qed.

Lemma Forall_deref (P : Symbol -> Prop) (h : Heap) :
  Forall P h <-> forall p, p < length h -> P (deref h p).
Proof.
  rewrite Forall_lookup. split.
  - intros H p Hp. destruct (lookup_lt_is_Some_2 h p Hp) as [s Hs].
    rewrite (deref_lookup _ _ _ Hs). by eapply H.
  - intros H p s Hs. rewrite <- (deref_lookup _ _ _ Hs).
    apply H. by eapply lookup_lt_Some.
Qed.

(** What holds of every store that the extractors make. *)
Lemma stored_alter (f : Symbol -> Symbol) p st :
  (forall s, ID (f s) = ID s /\ Kind (f s) = Kind s
             /\ Location (f s) = Location s) ->
  (forall r s, extracted r s -> extracted r (f s)) ->
  wf st.1 st.2 /\ Forall (extracted st.2) st.1 /\ indexed st.1 st.2 ->
  wf (alter f p st.1) st.2 /\ Forall (extracted st.2) (alter f p st.1)
  /\ indexed (alter f p st.1) st.2.
Proof.
  intros Hf He (Hwf & Hex & Hix). split_and!.
  - apply wf_alter_same_ID; [|done]. intros s. by destruct (Hf s).
  - apply Forall_deref. rewrite length_alter. intros q Hq.
    rewrite Forall_deref in Hex.
    destruct (deref_alter_cases f st.1 p q) as [-> | ->]; auto.
  - intros q Hq. rewrite length_alter in Hq. destruct (Hix q Hq) as [Hk Hl].
    destruct (deref_alter_cases f st.1 p q) as [-> | ->]; [|done].
    destruct (Hf (deref st.1 q)) as (_ & -> & ->). done.
Qed.

Lemma write_stored st st' :
  write st st' ->
  wf st.1 st.2 /\ Forall (extracted st.2) st.1 /\ indexed st.1 st.2 ->
  wf st'.1 st'.2 /\ Forall (extracted st'.2) st'.1 /\ indexed st'.1 st'.2.
Proof.
  intros Hw. pose proof (fun id => write_Get _ _ id Hw) as Hmono.
  destruct Hw as [sym [h r] Hs | c m [h r] | i c e [h r] He];
    intros (Hwf & Hex & Hix); simpl in *.
  - unfold parser.addSymbol, new in *. simpl in *. split_and!.
    + by apply wf_new_Add.
    + apply Forall_app. split.
      * eapply Forall_impl; [exact Hex|]. intros s. by apply extracted_mono.
      * constructor; [|constructor]. by eapply extracted_mono.
    + intros p Hp. rewrite length_app in Hp. simpl in Hp.
      rewrite ByKind_Add, ByFile_Add, deref_app_new.
      destruct (decide (p < length h)) as [Hlt|Hge].
      * rewrite deref_app_l by done. destruct (Hix p Hlt) as [Hk Hf].
        split; case_decide; set_solver.
      * assert (p = length h) as -> by lia. rewrite deref_app_new.
        rewrite !decide_True by done. set_solver.
  - unfold parser.addMember in *. simpl in *.
    destruct (Get r c) as [parent|]; [|done]. simpl.
    apply (stored_alter (fun s => parser.set_Members (Members s ++ [m]) s)
                        parent (h, r)); [| |done].
    + by intros [].
    + by intros r' [].
  - apply (stored_alter (fun s => set_CallSites (CallSites s ++ [c]) s)
                        e (h, r)); [| |done].
    + by intros [].
    + intros r' s (H1 & H2 & H3 & H4 & H5 & H6 & H7 & H8).
      unfold extracted. destruct s; simpl in *. split_and!; try done.
      intros Hk. destruct (H8 Hk) as (? & ? & ? & ?). split_and!; try done.
      by intros [_ ?]%app_eq_nil.
Qed.

Lemma writes_stored st st' :
  writes st st' ->
  wf st.1 st.2 /\ Forall (extracted st.2) st.1 /\ indexed st.1 st.2 ->
  wf st'.1 st'.2 /\ Forall (extracted st'.2) st'.1 /\ indexed st'.1 st'.2.
Proof. induction 1; eauto using write_stored. Qed.

Lemma ingested_stored st :
  ingested st ->
  wf st.1 st.2 /\ Forall (extracted st.2) st.1 /\ indexed st.1 st.2.
Proof.
  induction 1 as [|src file root st _ IH|src file root st _ IH].
  - split_and!; [apply wf_NewRegistry | constructor |].
    intros p Hp. simpl in Hp. lia.
  - eapply writes_stored; [apply extractPHP_writes | done].
  - eapply writes_stored; [apply extractJS_writes | done].
Qed.

(** ** The stores that the resolver is given *)

(** A store that the extractors made is well formed, which is what the
    properties of the resolver ask of it, and no record is lost from the
    kind index and the file index: every record made is listed there, also
    one whose ID a later record took over. *)
Theorem ingested_wf (st : Heap * Registry) :
  ingested st ->
  wf st.1 st.2
  /\ (forall id p, Get st.2 id = Some p -> p < length st.1 /\ ID (deref st.1 p) = id)
  /\ (forall p, p < length st.1 ->
        p ∈ ByKind st.2 (Kind (deref st.1 p))
        /\ p ∈ ByFile st.2 (File (Location (deref st.1 p))))
  /\ (forall k p, p ∈ ByKind st.2 k -> p < length st.1).
Proof.
  intros H. destruct (ingested_stored st H) as (Hwf & _ & Hix).
  split_and!; [done | | done |].
  - intros id p. by apply wf_Get.
  - intros k p. by apply wf_ByKind.
Qed.

(** Every method record that the extractors made names an owning class that
    is registered, and its ID is the ID of that class, the separator of its
    language and its name: two colons for a PHP method, a dot for a JS
    method. *)
Theorem ingested_methods (st : Heap * Registry) (p : nat) :
  ingested st ->
  p < length st.1 ->
  Kind (deref st.1 p) = KindMethod ->
  let m := deref st.1 p in
  is_Some (Get st.2 (ParentID m))
  /\ (Language m = "php" /\ ID m = ParentID m +:+ "::" +:+ Name m
      \/ Language m = "js" /\ ID m = ParentID m +:+ "." +:+ Name m)
  /\ Name m ≠ "".
Proof.
  intros H Hp Hk m. destruct (ingested_stored st H) as (_ & Hex & _).
  rewrite Forall_deref in Hex.
  destruct (Hex p Hp) as (_ & _ & _ & _ & Hn & _ & Hm & _).
  destruct (Hm Hk) as [? ?]. done.
Qed.

(** Every hook record that the extractors made has a tag that is not empty,
    is named by it, has the ID [hook:] and the tag, and lists at least one
    call site. *)
Theorem ingested_hooks (st : Heap * Registry) (p : nat) :
  ingested st ->
  p < length st.1 ->
  Kind (deref st.1 p) = KindHook ->
  let hk := deref st.1 p in
  HookTag hk ≠ "" /\ Name hk = HookTag hk /\ ID hk = "hook:" +:+ HookTag hk
  /\ CallSites hk ≠ [].
Proof.
  intros H Hp Hk hk. destruct (ingested_stored st H) as (_ & Hex & _).
  rewrite Forall_deref in Hex.
  destruct (Hex p Hp) as (_ & _ & _ & _ & _ & _ & _ & Hh).
  destruct (Hh Hk) as (? & ? & ? & ?). done.
Qed.

(** On a store that the extractors made, [CountByLanguage] of [php] and of
    [js] add up to [Count]: every registered record is a PHP or a JS record,
    and none is counted twice. *)
Theorem ingested_language_counts (st : Heap * Registry) :
  ingested st ->
  CountByLanguage st.1 st.2 "php" + CountByLanguage st.1 st.2 "js" = Count st.2.
Proof.
  intros H. destruct (ingested_stored st H) as (Hwf & Hex & _).
  apply CountByLanguage_partition; [done|].
  intros id p Hp. destruct (wf_Get _ _ _ _ Hwf Hp) as [Hlt _].
  rewrite Forall_deref in Hex.
  by destruct (Hex p Hlt) as (_ & _ & _ & _ & _ & ? & _).
Qed.

(** ** The counters of a run of the resolver *)

Lemma stats_ResolveAll o1 o2 o3 o4 R :
  NoDup o1 -> NoDup o3 ->
  exists k1 k2 a u k4,
    stats (ResolveAll o1 o2 o3 o4 R)
    = addResolved k4 (addSee a u (addBindings k2 (addInheritance k1 (stats R))))
    /\ k2 = length (allHookEdges
                      (hooksByTag (mem (resolveInheritance o1 R))
                                  (ByKind (registry (resolveInheritance o1 R)) KindHook))
                      (mem (resolveInheritance o1 R)) o2)
    /\ u = sum_list_with
             (fun p =>
                seeUnresolved (mem (resolveHookBindings o2 (resolveInheritance o1 R)))
                  (registry (resolveHookBindings o2 (resolveInheritance o1 R))) o3
                  (SeeAlso (Doc (deref (mem (resolveHookBindings o2
                                               (resolveInheritance o1 R))) p))))
             o3.
Proof.
  intros N1 N3. unfold ResolveAll.
  destruct (resolveInheritance_spec o1 R N1) as (_ & _ & _ & S1).
  set (R1 := resolveInheritance o1 R) in *.
  assert (S2 : stats (resolveHookBindings o2 R1)
               = addBindings
                   (length (allHookEdges
                              (hooksByTag (mem R1) (ByKind (registry R1) KindHook))
                              (mem R1) o2))
                   (stats R1)).
  { by rewrite resolveHookBindings_eq. }
  set (R2 := resolveHookBindings o2 R1) in *.
  destruct (resolveSeeReferences_spec o3 R2 N3) as (_ & _ & _ & S3).
  set (R3 := resolveSeeReferences o3 R2) in *.
  rewrite resolveMethodOverrides_eq. simpl.
  do 5 eexists. split_and!; [|reflexivity|reflexivity].
  rewrite S3, S2, S1. reflexivity.
Qed.




(** ** The hook bindings of the stores that the extractors make *)

Lemma ingested_Uses st p : ingested st -> Uses (deref st.1 p) = [].
Proof.
  intros H. destruct (ingested_stored st H) as (_ & Hex & _).
  destruct (decide (p < length st.1)) as [Hp|Hp].
  - rewrite Forall_deref in Hex. by destruct (Hex p Hp) as (? & _).
  - by rewrite deref_invalid by lia.
Qed.

Lemma allHookEdges_no_uses byTag (h : Heap) l :
  (forall p, Uses (deref h p) = []) -> allHookEdges byTag h l = [].
Proof.
  intros H. unfold allHookEdges. induction l as [|p l IH]; [done|].
  rewrite bind_cons, IH, app_nil_r. unfold hookEdges. rewrite H.
  by destruct (funcLike _).
Qed.

(** No extractor fills [Uses], so on a store that the extractors made the
    second pass of the resolver finds nothing to bind: it leaves the
    resolver as the first pass left it, and [HookBindings] is 0 when
    [ResolveAll] returns. *)
Theorem ResolveAll_ingested_no_bindings (st : Heap * Registry)
    (o1 o2 o3 o4 : list nat) :
  ingested st ->
  enumerates st.2 o1 -> enumerates st.2 o3 ->
  let R := New st.2 st.1 in
  let R1 := resolveInheritance o1 R in
  (forall p, p < length st.1 -> Uses (deref st.1 p) = [])
  /\ resolveHookBindings o2 R1 = R1
  /\ HookBindings (stats (ResolveAll o1 o2 o3 o4 R)) = 0.
Proof.
  intros Hin H1 H3 R R1.
  destruct (ingested_stored st Hin) as (Hwf & _ & _).
  assert (N1 : NoDup o1) by by eapply enumerates_NoDup.
  assert (N3 : NoDup o3) by by eapply enumerates_NoDup.
  destruct (resolveInheritance_spec o1 R N1) as (_ & Hsk & _ & _).
  fold R1 in Hsk.
  assert (HU : forall p, Uses (deref (mem R1) p) = []).
  { intros p. destruct (skeleton_fields _ _ p Hsk) as (_ & _ & _ & _ & -> & _).
    by apply ingested_Uses. }
  split_and!.
  - intros p _. by apply ingested_Uses.
  - rewrite resolveHookBindings_eq. simpl.
    rewrite (allHookEdges_no_uses _ _ _ HU). simpl.
    rewrite addBindings_0. by destruct R1.
  - destruct (stats_ResolveAll o1 o2 o3 o4 R N1 N3)
      as (k1 & k2 & a & u & k4 & HS & Hk2 & _).
    fold R1 in Hk2. rewrite (allHookEdges_no_uses _ _ _ HU) in Hk2.
    rewrite HS, Hk2. done.
Qed.

(** ** The stores of a run of the worker pool *)

Module parser_ingest.
Import parser.

Section Pool.
Variable ReadFile : string -> option string.
Variable ParseCtx : Grammar -> string -> option sitter.Node.
Variable Join : string -> string -> string.
Variable srcRoot : string.

Local Abbreviation php := (fun root src file st => extractPHP src file root st).
Local Abbreviation js := (fun root src file st => js.extractJS src file root st).
Local Abbreviation parseFile := (parseFile ReadFile ParseCtx php js Join srcRoot).
Local Abbreviation reachable := (reachable ReadFile ParseCtx php js Join srcRoot).
Local Abbreviation returns := (returns ReadFile ParseCtx php js Join srcRoot).

Lemma parseFile_ingested file st :
  ingested st -> ingested (parseFile file st).2.
Proof.
  intros H. unfold parser.parseFile.
  destruct (ReadFile _); [|done].
  destruct (detectLanguage file) as [[lang langName]|]; [|done].
  destruct (ParseCtx lang s); [|done]. simpl.
  repeat case_bool_decide; try done; by constructor.
Qed.

(** [ParseFiles] with one worker and the two extractors.  The one worker
    parses the files one after the other, so a step of the pool is a whole
    run of an extractor, as in the program: from a store that the
    extractors made, every state of the run holds such a store, and so does
    the registry when the call returns.  With more workers the runs of the
    extractors on different files take the registry in turns, call by call;
    nothing is stated for them. *)
Theorem ParseFiles_one_worker_ingested (files : list string)
    (st : Heap * Registry) :
  ingested st ->
  (forall s, reachable (start 1 files st) s -> ingested (store s))
  /\ (forall st' k, returns 1 files st (st', k) -> ingested st').
Proof.
  intros Hin.
  assert (Hr : forall s, reachable (start 1 files st) s -> ingested (store s)).
  { induction 1 as [|s s' _ IH Hst]; [done|].
    inversion Hst as [i s0 s1 Hstep]; subst s0 s1. clear Hst.
    unfold parser.step_worker in Hstep.
    destruct (workers s !! i) as [[|err|]|]; try done.
    - destruct (ch s) as [|file rest]; [by injection Hstep as <-|].
      pose proof (parseFile_ingested file (store s) IH) as Hp.
      destruct (parseFile file (store s)) as [[err|] st1];
        by injection Hstep as <-.
    - case_decide; [|done]. by injection Hstep as <-. }
  split; [done|].
  intros st' k Hret. unfold parser.returns in Hret.
  destruct files as [|f files]; [by injection Hret as -> _|].
  destruct Hret as (s & Hs & _ & [= -> _]). by apply Hr.
Qed.

End Pool.
End parser_ingest.

Section tree_walks.
Import sitter.

(** ** The walk over a tree *)

Lemma walkTree_foldl {S} (fn : Node -> S -> S) node st :
  parser.walkTree fn node st = foldl (fun s n => fn n s) st (visited node).
Proof.
  revert st. induction node as [node IH] using Node_ind'.
  intros st. destruct node as [t nm f a b c d cs]. simpl in *.
  generalize (fn (mkNode t nm f a b c d cs) st). clear st.
  unfold forNamed. induction cs as [|x cs IHcs]; intros s; [done|].
  apply Forall_cons in IH as [Hx Hcs]. simpl.
  rewrite foldl_app. rewrite IHcs by done. f_equal.
  destruct (IsNamed x); [apply Hx | done].
Qed.

Lemma visited_named node n :
  n ∈ visited node -> n = node \/ IsNamed n = true.
Proof.
  induction node as [node IH] using Node_ind'.
  destruct node as [t nm f a b c d cs]. simpl in *.
  intros [->|Hn]%elem_of_cons; [by left|]. right.
  apply list_elem_of_In, in_flat_map in Hn as (x & Hx & Hn).
  apply list_elem_of_In in Hx, Hn.
  rewrite Forall_forall in IH. destruct (IsNamed x) eqn:E.
  - destruct (IH x Hx Hn) as [->|?]; done.
  - by apply elem_of_nil in Hn.
Qed.

(** [walkTree] calls [fn] on the node, then on what it visits under each
    named child, in their order: a node comes before the nodes under it, and
    nothing under a child that is not named is visited. *)
Theorem walkTree_visited {S : Type} (fn : Node -> S -> S) (node : Node) (st : S) :
  parser.walkTree fn node st = foldl (fun s n => fn n s) st (visited node)
  /\ visited node
     = node :: flat_map (fun c => if IsNamed c then visited c else [])
                        (Children node)
  /\ (forall n, n ∈ visited node -> n = node \/ IsNamed n = true).
Proof.
  split_and!; [apply walkTree_foldl | by destruct node | apply visited_named].
Qed.

(** ** The hook calls of a body *)






(** ** What the extractors leave as it is *)

Lemma extends_record_refl s : extends_record s s.
Proof. by split_and!. Qed.

Lemma extends_record_trans s1 s2 s3 :
  extends_record s1 s2 -> extends_record s2 s3 -> extends_record s1 s3.
Proof.
  intros (A1 & A2 & A3) (B1 & B2 & B3). split_and!; [congruence | |]; by etrans.
Qed.

Lemma extends_store_refl st : extends_store st st.
Proof.
  split_and!; try done; auto.
Qed.

Lemma extends_store_trans st1 st2 st3 :
  extends_store st1 st2 -> extends_store st2 st3 -> extends_store st1 st3.
Proof.
  intros (A1 & A2 & A3 & A4 & A5 & A6) (B1 & B2 & B3 & B4 & B5 & B6).
  split_and!.
  - lia.
  - intros p Hp. eapply extends_record_trans; [by apply A2|]. apply B2. lia.
  - intros k. etrans; [apply A3 | apply B3].
  - intros f. etrans; [apply A4 | apply B4].
  - intros id p Hp. destruct (B5 id p Hp) as [H|H]; [|right; lia].
    by apply A5.
  - auto.
Qed.

Lemma extends_store_alter (f : Symbol -> Symbol) p st :
  (forall s, extends_record s (f s)) ->
  extends_store st (alter f p st.1, st.2).
Proof.
  intros Hf. split_and!; simpl; try done; auto.
  - by rewrite length_alter.
  - intros q Hq. destruct (deref_alter_cases f st.1 p q) as [-> | ->];
      [apply Hf | apply extends_record_refl].
Qed.

Lemma write_extends st st' : write st st' -> extends_store st st'.
Proof.
  intros [sym [h r] Hs | c m [h r] | i c e [h r] He].
  - unfold parser.addSymbol, new. simpl. split_and!; simpl.
    + rewrite length_app. lia.
    + intros p Hp. rewrite deref_app_l by done. apply extends_record_refl.
    + intros k. rewrite ByKind_Add. case_decide; [by apply prefix_app_r | done].
    + intros f. rewrite ByFile_Add. case_decide; [by apply prefix_app_r | done].
    + intros id p. rewrite Get_Add. case_decide; [|by left].
      intros [= <-]. by right.
    + intros id. rewrite Get_Add. case_decide; eauto.
  - unfold parser.addMember. simpl.
    destruct (Get r c) as [parent|]; [|apply extends_store_refl].
    apply (extends_store_alter _ parent (h, r)).
    intros []. split_and!; simpl; try done. by apply prefix_app_r.
  - apply (extends_store_alter _ e (h, r)).
    intros []. split_and!; simpl; try done. by apply prefix_app_r.
Qed.

Lemma writes_extends st st' : writes st st' -> extends_store st st'.
Proof.
  induction 1 as [|st1 st2 st3 H _ IH]; [apply extends_store_refl|].
  eapply extends_store_trans; [by apply write_extends | done].
Qed.

(** The extractors only add: after [extractPHP] or [extractJS] every record
    that the store held is where it was and has gained members or call
    sites at most, the lists of the kind index and of the file index were
    extended at their end, every ID that was registered still is, and it
    leads to the record it led to or to a record that was made since. *)
Theorem extractors_only_add (src file : string) (root : Node)
    (st st' : Heap * Registry) :
  st' = parser.extractPHP src file root st
  \/ st' = parser.js.extractJS src file root st ->
  length st.1 <= length st'.1
  /\ (forall p, p < length st.1 ->
        parser.set_Members [] (set_CallSites [] (deref st'.1 p))
        = parser.set_Members [] (set_CallSites [] (deref st.1 p))
        /\ Members (deref st.1 p) `prefix_of` Members (deref st'.1 p)
        /\ CallSites (deref st.1 p) `prefix_of` CallSites (deref st'.1 p))
  /\ (forall k, ByKind st.2 k `prefix_of` ByKind st'.2 k)
  /\ (forall f, ByFile st.2 f `prefix_of` ByFile st'.2 f)
  /\ (forall id p, Get st'.2 id = Some p ->
        Get st.2 id = Some p \/ length st.1 <= p)
  /\ (forall id, is_Some (Get st.2 id) -> is_Some (Get st'.2 id))
  /\ Count st.2 <= Count st'.2.
Proof.
  intros Hst.
  assert (Hw : writes st st').
  { destruct Hst as [-> | ->]; [apply extractPHP_writes | apply extractJS_writes]. }
  destruct (writes_extends _ _ Hw) as (H1 & H2 & H3 & H4 & H5 & H6).
  split_and!; try done.
  unfold Count. rewrite <- !size_dom. apply subseteq_size.
  intros id. rewrite !elem_of_dom. apply H6.
Qed.

End tree_walks.

(** ** Byte strings *)

Lemma strip_prefix_Some p s r :
  strings.strip_prefix p s = Some r -> s = p ++ r.
Proof.
  revert s. induction p as [|a p IH]; intros s; simpl.
  - by intros [= ->].
  - destruct s as [|b s]; [done|].
    destruct (Ascii.eqb a b) eqn:E; [|done].
    apply Ascii.eqb_eq in E as ->. intros H. by rewrite (IH _ H).
Qed.

Lemma strip_prefix_app p r : strings.strip_prefix p (p ++ r) = Some r.
Proof.
  induction p as [|a p IH]; simpl; [done|]. by rewrite Ascii.eqb_refl.
Qed.

Lemma list_ascii_app (a b : string) :
  list_ascii_of_string (a +:+ b) = list_ascii_of_string a ++ list_ascii_of_string b.
Proof. induction a as [|c a IH]; simpl; [done|]. by rewrite IH. Qed.

Lemma string_of_list_app (a b : list ascii) :
  string_of_list_ascii (a ++ b) = string_of_list_ascii a +:+ string_of_list_ascii b.
Proof. induction a as [|c a IH]; simpl; [done|]. by rewrite IH. Qed.

Lemma after_prefix_Some p s r :
  parser.after_prefix p s = Some r -> s = p +:+ r.
Proof.
  unfold parser.after_prefix.
  destruct (strings.strip_prefix _ _) as [l|] eqn:E; [|done].
  intros [= <-]. apply strip_prefix_Some in E.
  rewrite <- (string_of_list_ascii_of_string s), E, string_of_list_app.
  by rewrite string_of_list_ascii_of_string.
Qed.

Lemma HasPrefix_true s p : strings.HasPrefix s p = true <-> exists r, s = p +:+ r.
Proof.
  unfold strings.HasPrefix. split.
  - destruct (strings.strip_prefix _ _) as [l|] eqn:E; [|done]. intros _.
    exists (string_of_list_ascii l). apply strip_prefix_Some in E.
    rewrite <- (string_of_list_ascii_of_string s), E, string_of_list_app.
    by rewrite string_of_list_ascii_of_string.
  - intros [r ->]. by rewrite list_ascii_app, strip_prefix_app.
Qed.

Lemma span_app p s a b : parser.span p s = (a, b) -> s = a +:+ b.
Proof.
  revert a b. induction s as [|c s IH]; intros a b; simpl.
  - by intros [= <- <-].
  - destruct (p c).
    + destruct (parser.span p s) as [a' b']. intros [= <- <-].
      simpl. by rewrite (IH a' b').
    + by intros [= <- <-].
Qed.

Lemma append_cons c (a b : string) : String c a +:+ b = String c (a +:+ b).
Proof. reflexivity. Qed.

Lemma append_nil_l (b : string) : "" +:+ b = b.
Proof. reflexivity. Qed.

Lemma string_app_assoc (a b c : string) : (a +:+ b) +:+ c = a +:+ (b +:+ c).
Proof. induction a as [|x a IH]; [done|]. by rewrite !append_cons, IH. Qed.

(** ** The lines of a docblock *)

Section docblocks.
Import parser.

Local Abbreviation isSee := (fun line => strings.HasPrefix line "@see").
Local Abbreviation seeRef :=
  (fun line => strings.TrimSpace (strings.TrimPrefix line "@see")).
Local Abbreviation seeCount :=
  (fun s => length (tagValues (doc s) "see")
            + if bool_decide (currentTag s = "see") then 1 else 0).

Lemma since_not_see line m : sinceRegex line = Some m -> isSee line = false.
Proof.
  unfold sinceRegex. destruct (after_prefix "@since" line) as [r|] eqn:E; [|done].
  apply after_prefix_Some in E as ->. reflexivity.
Qed.

Lemma deprecated_not_see line :
  strings.HasPrefix line "@deprecated" = true -> isSee line = false.
Proof. intros [r ->]%HasPrefix_true. reflexivity. Qed.

Lemma see_is_tag line : isSee line = true -> strings.HasPrefix line "@" = true.
Proof. intros [r ->]%HasPrefix_true. reflexivity. Qed.

Lemma tagRegex_prefix line w r :
  tagRegex line = Some (w, r) -> exists rest, line = "@" +:+ w +:+ rest.
Proof.
  unfold tagRegex. destruct (after_prefix "@" line) as [r0|] eqn:E; [|done].
  apply after_prefix_Some in E as ->.
  destruct (span re_word r0) as [w' r1] eqn:E1.
  destruct (span re_space r1) as [ws r2] eqn:E2.
  case_bool_decide; [done|]. destruct (all_dot r2); [|done].
  intros [= <- <-]. exists r1. by rewrite (span_app _ _ _ _ E1).
Qed.

Lemma tagRegex_not_see line r : isSee line = false -> tagRegex line ≠ Some ("see", r).
Proof.
  intros Hsee H. apply tagRegex_prefix in H as [rest ->]. discriminate.
Qed.

Lemma tagValues_insert d k v k' :
  tagValues (doc_Tags (<[k := v]> (Tags d)) d) k'
  = if decide (k = k') then v else tagValues d k'.
Proof.
  unfold tagValues. simpl. rewrite lookup_insert. by case_decide.
Qed.

Lemma flushTag_see s :
  SeeAlso (doc (flushTag s)) = SeeAlso (doc s)
  /\ seeCount (flushTag s) = seeCount s
  /\ currentTag (flushTag s) = "".
Proof.
  unfold flushTag. simpl. split_and!; [by case_bool_decide | | done].
  case_bool_decide as Hcur; simpl.
  - rewrite tagValues_insert. case_decide as Hsee.
    + rewrite Hsee. rewrite bool_decide_true by done.
      rewrite length_app. simpl. lia.
    + rewrite bool_decide_false by done. lia.
  - rewrite bool_decide_false; [lia|]. intros Hsee.
    assert (Hc : currentTag s = "") by (by destruct (decide (currentTag s = ""))).
    rewrite Hc in Hsee. discriminate.
Qed.

Lemma tagLine_see line s :
  currentTag s = "" ->
  SeeAlso (doc (tagLine line s))
  = SeeAlso (doc s) ++ (if isSee line then [seeRef line] else [])
  /\ seeCount (tagLine line s) = seeCount s + if isSee line then 1 else 0.
Proof.
  intros Hcur. unfold tagLine. rewrite Hcur.
  assert (H0 : bool_decide ("" = "see") = false) by done.
  assert (H1 : bool_decide ("since" = "see") = false) by done.
  assert (H2 : bool_decide ("deprecated" = "see") = false) by done.
  assert (H3 : bool_decide ("see" = "see") = true) by done.
  assert (H4 : bool_decide ("link" = "see") = false) by done.
  assert (H5 : bool_decide ("access" = "see") = false) by done.
  destruct (sinceRegex line) as [m1|] eqn:Hsince.
  { rewrite (since_not_see _ _ Hsince). unfold tagValues. simpl.
    rewrite ?app_nil_r, ?H0, ?H1.
    destruct (bool_decide (Since (doc s) = "")); split; simpl; done || lia. }
  destruct (strings.HasPrefix line "@deprecated") eqn:Hdep.
  { rewrite (deprecated_not_see _ Hdep). unfold tagValues. simpl.
    rewrite ?app_nil_r, ?H0, ?H2. split; [done|lia]. }
  destruct (strings.HasPrefix line "@see") eqn:Hsee.
  { unfold tagValues. simpl. rewrite ?H0, ?H3. split; [done|lia]. }
  rewrite ?app_nil_r.
  destruct (strings.HasPrefix line "@link").
  { unfold tagValues. simpl. rewrite ?H0, ?H4. split; [done|lia]. }
  destruct (strings.HasPrefix line "@access").
  { unfold tagValues. simpl. rewrite ?H0, ?H5. split; [done|lia]. }
  destruct (tagRegex line) as [[m1 m2]|] eqn:Htag.
  - unfold tagValues. simpl. rewrite ?H0. split; [done|].
    rewrite bool_decide_false; [lia|].
    intros ->. by apply (tagRegex_not_see line m2).
  - rewrite Hcur. split; [done|lia].
Qed.

Lemma docLine_see s line :
  SeeAlso (doc (docLine s line))
  = SeeAlso (doc s) ++ (if isSee line then [seeRef line] else [])
  /\ seeCount (docLine s line) = seeCount s + if isSee line then 1 else 0.
Proof.
  unfold docLine. destruct (strings.HasPrefix line "@") eqn:Hat.
  - destruct (flushTag_see (setInTags s)) as (H1 & H2 & H3).
    destruct (tagLine_see line (flushTag (setInTags s)) H3) as [H4 H5].
    simpl in *. split; [by rewrite H4, H1 | by rewrite H5, H2].
  - assert (Hsee : isSee line = false).
    { destruct (strings.HasPrefix line "@see") eqn:E; [|done].
      apply see_is_tag in E. congruence. }
    rewrite Hsee, app_nil_r.
    destruct (inTags s); [case_bool_decide; simpl; split; done || lia|].
    repeat (destruct (_ && _) || destruct (_ || _) || destruct (bool_decide _));
      simpl; split; done || lia.
Qed.

Lemma lines_see lines s :
  SeeAlso (doc (foldl docLine s lines))
  = SeeAlso (doc s) ++ (seeRef <$> filter (fun l => isSee l = true) lines)
  /\ seeCount (foldl docLine s lines)
     = seeCount s + length (filter (fun l => isSee l = true) lines).
Proof.
  revert s. induction lines as [|line lines IH]; intros s.
  - simpl. rewrite app_nil_r. split; [done|lia].
  - simpl. destruct (IH (docLine s line)) as [H1 H2].
    destruct (docLine_see s line) as [H3 H4].
    rewrite H1, H2, H3, H4, filter_cons.
    destruct (strings.HasPrefix line "@see") eqn:E.
    + rewrite decide_True by done. simpl. rewrite <- app_assoc. split; [done|lia].
    + rewrite decide_False by done. rewrite app_nil_r. split; [done|lia].
Qed.

(** Each line of a docblock that starts with [@see], and no other line, gives
    one entry of [SeeAlso], in the order of the lines: what follows [@see]
    on the line, trimmed, which is the empty string for a bare [@see]; and
    the tag [see] has as many values as [SeeAlso] has entries. *)
Theorem ParseDocBlock_SeeAlso (raw : string) :
  let d := ParseDocBlock raw in
  SeeAlso d
  = (fun line => strings.TrimSpace (strings.TrimPrefix line "@see"))
      <$> filter (fun line => strings.HasPrefix line "@see" = true) (cleaned raw)
  /\ length (tagValues d "see") = length (SeeAlso d).
Proof.
  intros d. unfold d, ParseDocBlock, parseLines.
  destruct (lines_see (cleaned raw) docStart) as [H1 H2].
  destruct (flushTag_see (foldl docLine docStart (cleaned raw))) as (F1 & F2 & F3).
  rewrite F3 in F2.
  assert (H0 : bool_decide ("" = "see") = false) by done.
  rewrite H0 in F2.
  set (S := foldl docLine docStart (cleaned raw)) in *.
  change (SeeAlso (doc_Text ?a ?b ?x)) with (SeeAlso x).
  change (tagValues (doc_Text ?a ?b ?x) "see") with (tagValues x "see").
  rewrite F1, H1. split; [done|].
  change (SeeAlso (doc docStart)) with (@nil string).
  change (tagValues (doc docStart) "see") with (@nil string) in H2.
  change (currentTag docStart) with "" in H2. rewrite H0 in H2.
  rewrite app_nil_l, length_fmap. simpl in H2. lia.
Qed.

(** ** The text before the tags *)

Lemma tagLine_text line s :
  summary (tagLine line s) = summary s
  /\ description (tagLine line s) = description s
  /\ inTags (tagLine line s) = inTags s.
Proof.
  unfold tagLine.
  destruct (sinceRegex line); [done|].
  repeat (destruct (strings.HasPrefix line _); [done|]).
  by destruct (tagRegex line) as [[? ?]|].
Qed.

Lemma docLine_inTags s line :
  inTags s = true ->
  summary (docLine s line) = summary s
  /\ description (docLine s line) = description s
  /\ inTags (docLine s line) = true.
Proof.
  intros Hin. unfold docLine. destruct (strings.HasPrefix line "@").
  - destruct (tagLine_text line (flushTag (setInTags s))) as (-> & -> & ->). done.
  - rewrite Hin. by case_bool_decide.
Qed.

Lemma lines_inTags lines s :
  inTags s = true ->
  summary (foldl docLine s lines) = summary s
  /\ description (foldl docLine s lines) = description s.
Proof.
  revert s. induction lines as [|line lines IH]; intros s Hin; [done|].
  simpl. destruct (docLine_inTags s line Hin) as (H1 & H2 & H3).
  destruct (IH _ H3) as [-> ->]. done.
Qed.

Lemma docLine_tag_text s line :
  strings.HasPrefix line "@" = true ->
  summary (docLine s line) = summary s
  /\ description (docLine s line) = description s
  /\ inTags (docLine s line) = true.
Proof.
  intros Hat. unfold docLine. rewrite Hat.
  by destruct (tagLine_text line (flushTag (setInTags s))) as (-> & -> & ->).
Qed.

(** The summary and the description are read from the lines before the
    first line that starts with an at sign: no line after it, whatever it
    holds, changes them. *)
Theorem ParseDocBlock_text_before_tags (raw : string) (pre post : list string)
    (line : string) :
  cleaned raw = pre ++ line :: post ->
  strings.HasPrefix line "@" = true ->
  Summary (ParseDocBlock raw) = Summary (parseLines pre)
  /\ Description (ParseDocBlock raw) = Description (parseLines pre).
Proof.
  intros Hraw Hat. unfold ParseDocBlock. rewrite Hraw.
  unfold parseLines. rewrite foldl_app. simpl.
  set (s := foldl docLine docStart pre).
  destruct (docLine_tag_text s line Hat) as (H1 & H2 & H3).
  destruct (lines_inTags post _ H3) as [H4 H5].
  simpl. rewrite H4, H5, H1, H2. done.
Qed.

(** ** The summary is one line *)

Local Abbreviation noLF :=
  (fun s : string => Forall (fun c => c ≠ LF) (list_ascii_of_string s)).

Lemma Split_noLF s : Forall noLF (strings.Split s LF).
Proof.
  induction s as [|c s IH]; simpl.
  - by repeat constructor.
  - destruct (Ascii.eqb c LF) eqn:E.
    + constructor; [constructor | done].
    + apply Ascii.eqb_neq in E. destruct (strings.Split s LF) as [|x xs].
      * repeat constructor. done.
      * apply Forall_cons in IH as [Hx Hxs]. constructor; [|done].
        simpl. by constructor.
Qed.

Lemma TrimLeft_Forall (P : ascii -> Prop) s cutset :
  Forall P (list_ascii_of_string s) ->
  Forall P (list_ascii_of_string (strings.TrimLeft s cutset)).
Proof.
  induction s as [|c s IH]; simpl; [done|].
  intros H. destruct (strings.byte_in c cutset); [|done].
  apply IH. by apply Forall_cons in H as [_ ?].
Qed.

Lemma slice_from_Forall (P : ascii -> Prop) n s :
  Forall P (list_ascii_of_string s) ->
  Forall P (list_ascii_of_string (strings.slice_from n s)).
Proof.
  revert s. induction n as [|n IH]; intros s; [by destruct s|].
  destruct s as [|c s]; simpl; [done|].
  intros H. apply IH. by apply Forall_cons in H as [_ ?].
Qed.

Lemma cleanLine_noLF line : noLF line -> noLF (cleanLine line).
Proof.
  intros H. unfold cleanLine.
  repeat (destruct (strings.HasPrefix _ _));
    try apply slice_from_Forall; by apply TrimLeft_Forall.
Qed.

Lemma trim_with_Forall (P : ascii -> Prop) width fuel bs :
  Forall P bs -> Forall P (strings.trim_with width fuel bs).
Proof.
  revert bs. induction fuel as [|fuel IH]; intros bs H; simpl; [done|].
  destruct (width bs); [done|]. apply IH. by apply Forall_drop.
Qed.

Lemma TrimSpace_Forall (P : ascii -> Prop) s :
  Forall P (list_ascii_of_string s) ->
  Forall P (list_ascii_of_string (strings.TrimSpace s)).
Proof.
  intros H. unfold strings.TrimSpace.
  rewrite list_ascii_of_string_of_list_ascii.
  apply Forall_rev, trim_with_Forall, Forall_rev. by apply trim_with_Forall.
Qed.

Lemma Join_Forall (P : ascii -> Prop) elems sep :
  Forall (fun s => Forall P (list_ascii_of_string s)) elems ->
  Forall P (list_ascii_of_string sep) ->
  Forall P (list_ascii_of_string (strings.Join elems sep)).
Proof.
  intros H Hsep. induction H as [|x l Hx Hl IH]; simpl; [constructor|].
  destruct l as [|y l]; [done|].
  rewrite !list_ascii_app. apply Forall_app. split; [done|].
  apply Forall_app. split; [done|]. exact IH.
Qed.

Lemma docLine_summary (P : string -> Prop) s line :
  P line -> Forall P (summary s) -> Forall P (summary (docLine s line)).
Proof.
  intros Hl Hs. unfold docLine. destruct (strings.HasPrefix line "@").
  - by destruct (tagLine_text line (flushTag (setInTags s))) as (-> & _).
  - destruct (inTags s); [by case_bool_decide|].
    repeat (destruct (_ && _) || destruct (_ || _) || destruct (bool_decide _));
      simpl; try done; apply Forall_app; split; try done; by constructor.
Qed.

Lemma lines_summary (P : string -> Prop) lines s :
  Forall P lines -> Forall P (summary s) ->
  Forall P (summary (foldl docLine s lines)).
Proof.
  intros H. revert s. induction H as [|line lines Hl _ IH]; intros s Hs; [done|].
  simpl. apply IH. by apply docLine_summary.
Qed.

(** The summary of a docblock is one line: it holds no line feed, however
    many lines the text before the description takes. *)
Theorem ParseDocBlock_Summary_one_line (raw : string) :
  LF ∉ list_ascii_of_string (Summary (ParseDocBlock raw)).
Proof.
  assert (H : noLF (Summary (ParseDocBlock raw))).
  { unfold ParseDocBlock, parseLines. simpl.
    apply TrimSpace_Forall, Join_Forall; [|by repeat constructor].
    apply (lines_summary noLF); [|constructor].
    unfold cleaned. apply Forall_fmap.
    eapply Forall_impl; [apply Split_noLF|]. intros l. apply cleanLine_noLF. }
  intros Hin. rewrite Forall_forall in H. by apply (H LF Hin).
Qed.

(** ** The parameters of a hook and of a function *)

Lemma HasPrefix_TrimPrefix s p :
  strings.HasPrefix s p = true -> p +:+ strings.TrimPrefix s p = s.
Proof.
  unfold strings.HasPrefix, strings.TrimPrefix.
  destruct (strings.strip_prefix _ _) as [r|] eqn:E; [|done]. intros _.
  apply strip_prefix_Some in E.
  transitivity (string_of_list_ascii (list_ascii_of_string s));
    [|apply string_of_list_ascii_of_string].
  by rewrite E, string_of_list_app, string_of_list_ascii_of_string.
Qed.

(** [registerHook] reads the parameters of a hook as [ParseParams] reads
    those of a function, but for a type that starts with a question mark:
    the hook keeps the question mark in the type and is not marked nullable,
    the function loses it and is. *)
Theorem hookParams_ParseParams (d : DocBlock) :
  Forall2
    (fun p q =>
       Param_Name q = Param_Name p
       /\ Param_Description q = Param_Description p
       /\ Param_Type q = (if IsNullable p then "?" +:+ Param_Type p
                          else Param_Type p)
       /\ IsNullable q = false
       /\ (IsNullable p = true <-> strings.HasPrefix (Param_Type q) "?" = true))
    (ParseParams d) (hookParams paramRegex d).
Proof.
  unfold ParseParams, hookParams, tagValues.
  generalize (default [] (Tags d !! "param")). intros l.
  induction l as [|raw l IH]; [constructor|].
  cbn. unfold parseParam at 1, hookParam at 1.
  destruct (paramRegex ("@param " +:+ raw)) as [[[m1 m2] m3]|]; [|exact IH].
  constructor; [|exact IH]. simpl.
  destruct (strings.HasPrefix m1 "?") eqn:E.
  - split_and!; try done. by rewrite HasPrefix_TrimPrefix.
  - split_and!; try done.
Qed.

End docblocks.

(** ** The search for a doc comment *)

Section doc_comments.
Import parser sitter.

Lemma length_append (a b : string) :
  String.length (a +:+ b) = String.length a + String.length b.
Proof. induction a as [|c a IH]; [done|]. rewrite append_cons. simpl. by rewrite IH. Qed.

Lemma slice_from_append (a b : string) :
  strings.slice_from (String.length a) (a +:+ b) = b.
Proof. induction a as [|c a IH]; [by destruct b|]. rewrite append_cons. simpl. exact IH. Qed.

Lemma slice_to_append (a b : string) :
  strings.slice_to (String.length a) (a +:+ b) = a.
Proof.
  induction a as [|c a IH]; [by destruct b|]. rewrite append_cons. simpl.
  by rewrite IH.
Qed.

Lemma index_from_None sub s i j :
  strings.index_from sub s i = None -> strings.index_from sub s j = None.
Proof.
  revert i j. induction s as [|c s IH]; intros i j; simpl.
  - by destruct (strings.strip_prefix sub []).
  - destruct (strings.strip_prefix sub (c :: s)); [done|]. apply IH.
Qed.

Lemma last_index_from_app sub pre s i acc :
  exists acc',
    strings.last_index_from sub (pre ++ s) i acc
    = strings.last_index_from sub s (i + length pre) acc'.
Proof.
  revert i acc. induction pre as [|c pre IH]; intros i acc.
  - exists acc. simpl. by rewrite Nat.add_0_r.
  - simpl.
    destruct (IH (S i) (if strings.strip_prefix sub (c :: pre ++ s) is Some _
                        then Some i else acc)) as [acc' ->].
    exists acc'. f_equal. lia.
Qed.

Lemma last_index_from_none sub s i acc :
  strings.index_from sub s 0 = None ->
  strings.last_index_from sub s i acc = acc.
Proof.
  revert i acc. induction s as [|c s IH]; intros i acc; simpl.
  - by destruct (strings.strip_prefix sub []).
  - destruct (strings.strip_prefix sub (c :: s)); [done|].
    intros H. apply IH. by eapply index_from_None.
Qed.

Local Abbreviation star := ("*"%char).
Local Abbreviation slash := ("/"%char).

Lemma index_from_cons sub c s i :
  strings.index_from sub (c :: s) i
  = if strings.strip_prefix sub (c :: s) is Some _ then Some i
    else strings.index_from sub s (S i).
Proof. reflexivity. Qed.

Lemma strip_prefix_two a b c d s :
  strings.strip_prefix [a; b] (c :: d :: s)
  = if Ascii.eqb a c then (if Ascii.eqb b d then Some s else None) else None.
Proof. reflexivity. Qed.

Lemma index_end_of_comment c body rest i :
  strings.index_from [star; slash] (c :: body) 0 = None ->
  strings.index_from [star; slash] (c :: body ++ star :: slash :: rest) i
  = Some (i + 1 + length body).
Proof.
  revert c i. induction body as [|d body IH]; intros c i H.
  - rewrite app_nil_l, index_from_cons, strip_prefix_two.
    assert (E : Ascii.eqb slash star = false) by reflexivity. rewrite E.
    assert (E' : strings.index_from [star; slash] (star :: slash :: rest) (S i)
                 = Some (S i)) by reflexivity.
    destruct (Ascii.eqb star c); rewrite E'; f_equal; simpl; lia.
  - rewrite index_from_cons, strip_prefix_two in H.
    rewrite <- app_comm_cons, index_from_cons, strip_prefix_two.
    destruct (Ascii.eqb star c).
    + destruct (Ascii.eqb slash d); [done|].
      rewrite (IH d (S i)) by (by eapply index_from_None). f_equal. simpl. lia.
    + rewrite (IH d (S i)) by (by eapply index_from_None). f_equal. simpl. lia.
Qed.

Lemma index_from_cons_None sub c s i :
  strings.strip_prefix sub (c :: s) = None ->
  strings.index_from sub (c :: s) i = strings.index_from sub s (S i).
Proof. intros H. by rewrite index_from_cons, H. Qed.

Lemma length_list_ascii s : length (list_ascii_of_string s) = String.length s.
Proof. induction s; simpl; lia. Qed.

Lemma Contains_false s sub :
  strings.Contains s sub = false ->
  strings.index_from (list_ascii_of_string sub) (list_ascii_of_string s) 0 = None.
Proof.
  unfold strings.Contains, strings.Index.
  by destruct (strings.index_from _ _ 0).
Qed.

Lemma Index_comment_end body between :
  strings.Contains ("*" +:+ body) "*/" = false ->
  strings.Index ("/**" +:+ body +:+ "*/" +:+ between) "*/"
  = Some (3 + String.length body).
Proof.
  intros H. apply Contains_false in H. unfold strings.Index.
  rewrite !list_ascii_app in *.
  change (list_ascii_of_string "*/") with [star; slash] in *.
  change (list_ascii_of_string "/**") with [slash; star; star].
  change (list_ascii_of_string "*") with [star] in H.
  change ([slash; star; star] ++ ?x) with (slash :: star :: star :: x).
  change ([star; slash] ++ ?x) with (star :: slash :: x).
  change ([star] ++ ?x) with (star :: x) in H.
  rewrite index_from_cons_None by reflexivity.
  rewrite index_from_cons_None by reflexivity.
  rewrite (index_end_of_comment star _ _ 2) by exact H.
  rewrite length_list_ascii. f_equal.
Qed.

Lemma last_index_from_cons sub c s i acc :
  strings.last_index_from sub (c :: s) i acc
  = strings.last_index_from sub s (S i)
      (if strings.strip_prefix sub (c :: s) is Some _ then Some i else acc).
Proof. reflexivity. Qed.

Lemma LastIndex_comment_start pre body between :
  strings.Contains (body +:+ "*/" +:+ between) "/**" = false ->
  strings.LastIndex (pre +:+ "/**" +:+ body +:+ "*/" +:+ between) "/**"
  = Some (String.length pre).
Proof.
  intros H. apply Contains_false in H. unfold strings.LastIndex.
  rewrite list_ascii_app.
  destruct (last_index_from_app (list_ascii_of_string "/**")
              (list_ascii_of_string pre)
              (list_ascii_of_string ("/**" +:+ body +:+ "*/" +:+ between))
              0 None) as [acc' ->].
  rewrite list_ascii_app.
  change (list_ascii_of_string "/**") with [slash; star; star] in *.
  change ([slash; star; star] ++ ?x) with (slash :: star :: star :: x).
  rewrite last_index_from_cons.
  assert (E1 : forall x, strings.strip_prefix [slash; star; star]
                           (slash :: star :: star :: x) = Some x) by reflexivity.
  rewrite E1.
  rewrite last_index_from_cons.
  assert (E2 : forall x, strings.strip_prefix [slash; star; star] (star :: x)
                         = None) by reflexivity.
  rewrite E2. rewrite last_index_from_cons, E2.
  rewrite last_index_from_none by exact H.
  by rewrite length_list_ascii.
Qed.

Lemma app3_assoc (a b c d : string) :
  a +:+ b +:+ c +:+ d = (a +:+ b +:+ c) +:+ d.
Proof. by rewrite !string_app_assoc. Qed.

Lemma app4_assoc (a b c d e : string) :
  a +:+ b +:+ c +:+ d +:+ e = (a +:+ b +:+ c +:+ d) +:+ e.
Proof. by rewrite !string_app_assoc. Qed.

(** When the source before a node ends with a comment that opens with a
    slash and two stars, and with the text [between], [findDocComment]
    reads that comment if [between] holds nothing but white space and
    modifier words, and finds no docblock if it holds anything else, as
    [return] or an assignment before a call does.  The body of the comment
    is taken not to end the comment before its end, and no comment opens
    after it. *)
Theorem findDocComment_spec (node : Node) (pre body between rest : string) :
  StartByte node
  = String.length (pre +:+ "/**" +:+ body +:+ "*/" +:+ between) ->
  strings.Contains ("*" +:+ body) "*/" = false ->
  strings.Contains (body +:+ "*/" +:+ between) "/**" = false ->
  findDocComment node ((pre +:+ "/**" +:+ body +:+ "*/" +:+ between) +:+ rest)
  = if bool_decide (strings.TrimSpace between = "")
       || isOnlyWhitespaceOrModifiers (strings.TrimSpace between)
    then ParseDocBlock ("/**" +:+ body +:+ "*/")
    else zeroDoc.
Proof.
  intros Hstart Hend Hopen. unfold findDocComment.
  set (chunk := pre +:+ "/**" +:+ body +:+ "*/" +:+ between) in *.
  assert (Hlen : 3 <= String.length chunk).
  { unfold chunk. rewrite !length_append. simpl. lia. }
  rewrite bool_decide_false by lia.
  rewrite bool_decide_false by (rewrite length_append; lia).
  simpl. rewrite Hstart, slice_to_append.
  unfold chunk at 1. rewrite (LastIndex_comment_start _ _ _ Hopen).
  unfold chunk at 1. rewrite slice_from_append.
  rewrite (Index_comment_end _ _ Hend).
  assert (Hraw : strings.slice (String.length pre)
                   (String.length pre + (3 + String.length body) + 2) chunk
                 = "/**" +:+ body +:+ "*/").
  { unfold strings.slice, chunk. rewrite slice_from_append.
    replace (String.length pre + (3 + String.length body) + 2 - String.length pre)
      with (String.length ("/**" +:+ body +:+ "*/"))
      by (rewrite !length_append; simpl; lia).
    rewrite (app3_assoc "/**" body "*/" between). apply slice_to_append. }
  assert (Hbetween : strings.slice_from
                       (String.length pre + (3 + String.length body) + 2) chunk
                     = between).
  { unfold chunk.
    replace (String.length pre + (3 + String.length body) + 2)
      with (String.length (pre +:+ "/**" +:+ body +:+ "*/"))
      by (rewrite !length_append; simpl; lia).
    rewrite (app4_assoc pre "/**" body "*/" between). apply slice_from_append. }
  rewrite Hraw, Hbetween.
  destruct (decide (strings.TrimSpace between = "")) as [Hb|Hb].
  - rewrite (bool_decide_false (_ ≠ _)) by (by intros ?).
    by rewrite (bool_decide_true (_ = _)) by done.
  - rewrite (bool_decide_true (_ ≠ _)) by done.
    rewrite (bool_decide_false (_ = _)) by done. simpl.
    by destruct (isOnlyWhitespaceOrModifiers _).
Qed.

End doc_comments.

(** ** The language of a file *)

Section languages.
Import parser.

Local Abbreviation plain :=
  (fun c : ascii => Ascii.eqb c "/" = false /\ Ascii.eqb c "." = false).

Lemma Ext_rev_found pre rest acc :
  Forall plain pre ->
  Ext_rev (pre ++ "."%char :: rest) acc = "."%char :: rev pre ++ acc.
Proof.
  intros H. revert acc. induction H as [|c pre [H1 H2] _ IH]; intros acc.
  - reflexivity.
  - cbn [app Ext_rev]. rewrite H1, H2, IH. cbn [rev]. by rewrite <- app_assoc.
Qed.

Lemma Ext_rev_cases rpath acc :
  Ext_rev rpath acc = []
  \/ exists pre rest,
       rpath = pre ++ "."%char :: rest /\ Forall plain pre
       /\ Ext_rev rpath acc = "."%char :: rev pre ++ acc.
Proof.
  revert acc. induction rpath as [|c r IH]; intros acc; [by left|].
  cbn [Ext_rev]. destruct (Ascii.eqb c "/") eqn:E1; [by left|].
  destruct (Ascii.eqb c ".") eqn:E2.
  - right. apply Ascii.eqb_eq in E2 as ->. exists [], r. by split_and!.
  - destruct (IH (c :: acc)) as [H|(pre & rest & -> & Hp & H)]; [by left|].
    right. exists (c :: pre), rest. split_and!; [done | by constructor |].
    rewrite H. cbn [rev]. by rewrite <- app_assoc.
Qed.

Lemma Ext_found stem e :
  Forall plain (list_ascii_of_string e) -> Ext (stem +:+ "." +:+ e) = "." +:+ e.
Proof.
  intros H. unfold Ext. rewrite !list_ascii_app.
  change (list_ascii_of_string ".") with ["."%char].
  rewrite rev_app_distr, rev_app_distr. cbn [rev app].
  rewrite <- app_assoc. cbn [app].
  rewrite Ext_rev_found by (by apply Forall_rev).
  rewrite rev_involutive, app_nil_r. cbn [string_of_list_ascii].
  by rewrite string_of_list_ascii_of_string.
Qed.

Lemma Ext_cases path :
  Ext path = ""
  \/ exists stem e, path = stem +:+ "." +:+ e /\ Ext path = "." +:+ e.
Proof.
  unfold Ext.
  destruct (Ext_rev_cases (rev (list_ascii_of_string path)) [])
    as [->|(pre & rest & Hrev & Hp & ->)]; [by left|].
  right. exists (string_of_list_ascii (rev rest)), (string_of_list_ascii (rev pre)).
  split.
  - rewrite <- (string_of_list_ascii_of_string path).
    rewrite <- (rev_involutive (list_ascii_of_string path)), Hrev.
    rewrite rev_app_distr. cbn [rev]. rewrite <- app_assoc. cbn [app].
    rewrite string_of_list_app. done.
  - by rewrite app_nil_r.
Qed.

Lemma lower_plain c : plain (lower c) -> plain c.
Proof.
  intros [H1 H2]. split.
  - destruct (Ascii.eqb c "/") eqn:E; [|done].
    apply Ascii.eqb_eq in E as ->. done.
  - destruct (Ascii.eqb c ".") eqn:E; [|done].
    apply Ascii.eqb_eq in E as ->. done.
Qed.

Lemma ToLower_plain e :
  Forall plain (list_ascii_of_string (ToLower e)) ->
  Forall plain (list_ascii_of_string e).
Proof.
  unfold ToLower. rewrite list_ascii_of_string_of_list_ascii.
  induction (list_ascii_of_string e) as [|c l IH]; [done|].
  cbn [map]. intros [H1 H2]%Forall_cons.
  constructor; [by apply lower_plain | by apply IH].
Qed.

Lemma ToLower_dot e : ToLower ("." +:+ e) = "." +:+ ToLower e.
Proof. reflexivity. Qed.

(** The language of a file is read from what follows the last dot of its
    last path element, whatever the case of the letters: a path is taken
    for PHP exactly when it ends with a dot and [php] in some case, for
    JS or TS exactly when it ends so with [js], [jsx], [ts] or [tsx], and
    every other path, one without a dot included, is refused. *)
Theorem detectLanguage_extension (path : string) :
  (detectLanguage path = Some (php, "php")
   <-> exists stem e, path = stem +:+ "." +:+ e /\ ToLower e = "php")
  /\ (snd <$> detectLanguage path = Some "js"
      <-> exists stem e, path = stem +:+ "." +:+ e
                         /\ ToLower e ∈ ["js"; "jsx"; "ts"; "tsx"])
  /\ (detectLanguage path = None
      <-> forall stem e, path = stem +:+ "." +:+ e ->
                         ToLower e ∉ ["php"; "js"; "jsx"; "ts"; "tsx"]).
Proof.
  assert (Hknown : forall stem e,
            path = stem +:+ "." +:+ e ->
            ToLower e ∈ ["php"; "js"; "jsx"; "ts"; "tsx"] ->
            ToLower (Ext path) = "." +:+ ToLower e).
  { intros stem e -> He. rewrite Ext_found; [done|].
    apply ToLower_plain.
    repeat (apply elem_of_cons in He as [->|He]; [by repeat constructor|]).
    by apply elem_of_nil in He. }
  assert (Hext : forall x,
            ToLower (Ext path) = "." +:+ x ->
            exists stem e, path = stem +:+ "." +:+ e /\ ToLower e = x).
  { intros x Hx. destruct (Ext_cases path) as [E|(stem & e & Hp & E)].
    - rewrite E in Hx. discriminate.
    - rewrite E, ToLower_dot in Hx. exists stem, e. split; [done|].
      by injection Hx. }
  unfold detectLanguage. split_and!.
  - split.
    + intros H. apply (Hext "php"). by repeat case_bool_decide.
    + intros (stem & e & Hp & He).
      rewrite (Hknown stem e Hp) by (rewrite He; set_solver).
      by rewrite He.
  - split.
    + intros H.
      repeat case_bool_decide; simpl in H; try done;
        match goal with
        | E : ToLower (Ext path) = String "." ?x |- _ =>
            destruct (Hext x E) as (stem & e & Hp & He);
            exists stem, e; split; [done|]; rewrite He; set_solver
        end.
    + intros (stem & e & Hp & He).
      rewrite (Hknown stem e Hp) by set_solver.
      repeat (apply elem_of_cons in He as [->|He]; [done|]).
      by apply elem_of_nil in He.
  - split.
    + intros H stem e Hp He.
      rewrite (Hknown stem e Hp He) in H.
      repeat (apply elem_of_cons in He as [E|He];
              [rewrite E in H; vm_compute in H; discriminate|]).
      by apply elem_of_nil in He.
    + intros H.
      repeat case_bool_decide; simpl; try done;
        match goal with
        | E : ToLower (Ext path) = String "." ?x |- _ =>
            destruct (Hext x E) as (stem & e & Hp & He);
            exfalso; apply (H stem e Hp); rewrite He; set_solver
        end.
Qed.

End languages.

(** ** A second run of the resolver *)

Lemma set_Extends_same s : set_Extends (Extends s) s = s.
Proof. by destruct s. Qed.

Lemma set_Implements_same s : set_Implements (Implements s) s = s.
Proof. by destruct s. Qed.

Lemma set_UsedBy_same s : set_UsedBy (UsedBy s) s = s.
Proof. by destruct s. Qed.

Lemma set_Overrides_same s : set_Overrides (Overrides s) s = s.
Proof. by destruct s. Qed.

Lemma set_SeeAlso_same s : set_SeeAlso (SeeAlso (Doc s)) s = s.
Proof. by destruct s as [? ? ? ? ? []]. Qed.

Lemma fmap_fix {A} (f : A -> A) (l : list A) :
  (forall x, x ∈ l -> f x = x) -> f <$> l = l.
Proof.
  intros H. induction l as [|x l IH]; [done|].
  cbn. rewrite (H x) by left. f_equal. apply IH. intros; apply H. by right.
Qed.

Lemma findSymbol_of_ID h r all id q :
  Get r id = Some q -> findSymbol h r all id = Some q.
Proof. intros H. unfold findSymbol. by rewrite H. Qed.

Lemma resolveName_idem h r all e :
  wf h r -> enumerates r all ->
  resolveName h r all (resolveName h r all e) = resolveName h r all e.
Proof.
  intros Hwf Hen. unfold resolveName.
  destruct (findSymbol h r all e) as [q|] eqn:Hq.
  - pose proof (findSymbol_registered _ _ _ _ _ Hwf Hen Hq) as Hreg.
    by rewrite (findSymbol_of_ID h r all _ q Hreg).
  - by rewrite Hq.
Qed.

Lemma seeName_idem h r all e :
  wf h r -> enumerates r all ->
  (forall id p, Get r id = Some p ->
     strings.TrimSuffix (strings.TrimSpace id) "()" = id) ->
  seeName h r all (seeName h r all e) = seeName h r all e.
Proof.
  intros Hwf Hen Hclean. unfold seeName.
  destruct (seeTarget h r all e) as [q|] eqn:Hq.
  - assert (Hreg : Get r (ID (deref h q)) = Some q).
    { unfold seeTarget in Hq. case_bool_decide; [done|].
      by eapply findSymbol_registered. }
    unfold seeTarget. case_bool_decide; [done|].
    rewrite (Hclean _ _ Hreg). by rewrite (findSymbol_of_ID h r all _ q Hreg).
  - by rewrite Hq.
Qed.

Lemma pass1_fix all R :
  NoDup all ->
  (forall p e, p ∈ all -> classLike (deref (mem R) p) = true ->
     e ∈ Extends (deref (mem R) p) \/ e ∈ Implements (deref (mem R) p) ->
     resolveName (mem R) (registry R) all e = e) ->
  mem (resolveInheritance all R) = mem R
  /\ registry (resolveInheritance all R) = registry R.
Proof.
  intros ND Hfix.
  destruct (resolveInheritance_spec all R ND) as (Hr & Hsk & Hd & _).
  split; [|done]. apply heap_ext; [by apply (frame_length skeleton)|].
  intros p. rewrite Hd. case_decide as Hp; [|done].
  unfold inherit. destruct (classLike (deref (mem R) p)) eqn:Hc; [|done].
  rewrite !fmap_fix; [by rewrite set_Extends_same, set_Implements_same | |].
  - intros e He. apply (Hfix p); auto.
  - intros e He. apply (Hfix p); auto.
Qed.

Lemma pass3_fix all R :
  NoDup all ->
  (forall p e, p ∈ all -> e ∈ SeeAlso (Doc (deref (mem R) p)) ->
     seeName (mem R) (registry R) all e = e) ->
  mem (resolveSeeReferences all R) = mem R
  /\ registry (resolveSeeReferences all R) = registry R.
Proof.
  intros ND Hfix.
  destruct (resolveSeeReferences_spec all R ND) as (Hr & Hsk & Hd & _).
  split; [|done]. apply heap_ext; [by apply (frame_length skeleton)|].
  intros p. rewrite Hd. case_decide as Hp; [|done].
  unfold see. rewrite fmap_fix; [apply set_SeeAlso_same|].
  intros e He. by apply (Hfix p).
Qed.

Lemma alter_fix (f : Symbol -> Symbol) (h : Heap) p :
  f (deref h p) = deref h p -> alter f p h = h.
Proof.
  intros Hf. destruct (decide (p < length h)) as [Hp|Hp].
  - apply heap_ext; [by rewrite length_alter|]. intros q.
    destruct (decide (p = q)) as [<-|Hne].
    + by rewrite deref_alter_eq.
    + by rewrite deref_alter_ne.
  - apply deref_alter_ge. lia.
Qed.

Lemma link_fix h edges :
  (forall q id, (q, id) ∈ edges -> id ∈ UsedBy (deref h q)) ->
  link h edges = h.
Proof.
  intros H. unfold link. induction edges as [|[q id] es IH]; [done|].
  simpl. rewrite alter_fix.
  - apply IH. intros q' id' Hin. apply H. by right.
  - unfold addUsedBy. rewrite appendUnique_present by (apply H; left).
    apply set_UsedBy_same.
Qed.

Lemma pass2_fix all R :
  (forall q id,
     (q, id) ∈ allHookEdges (hooksByTag (mem R) (ByKind (registry R) KindHook))
                            (mem R) all ->
     id ∈ UsedBy (deref (mem R) q)) ->
  mem (resolveHookBindings all R) = mem R
  /\ registry (resolveHookBindings all R) = registry R.
Proof.
  intros H. rewrite resolveHookBindings_eq. simpl. split; [|done].
  by apply link_fix.
Qed.

Lemma pass4_fix all R :
  (forall a pm, a ∈ all ->
     overrideTarget (mem R) (registry R) a = Some pm ->
     Overrides (deref (mem R) a) = ID (deref (mem R) pm)
     /\ ID (deref (mem R) a) ∈ UsedBy (deref (mem R) pm)) ->
  mem (resolveMethodOverrides all R) = mem R
  /\ registry (resolveMethodOverrides all R) = registry R.
Proof.
  intros H. rewrite resolveMethodOverrides_eq. simpl. split; [|done].
  assert (Hset : setOverrides (mem R) (registry R) all (mem R) = mem R).
  { apply heap_ext; [apply setOverrides_length|]. intros p.
    rewrite setOverrides_deref by done. case_decide as Hp; [|done].
    unfold override.
    destruct (overrideTarget (mem R) (registry R) p) as [pm|] eqn:Hov; [|done].
    destruct (H p pm Hp Hov) as [<- _]. apply set_Overrides_same. }
  rewrite Hset. apply link_fix. intros q id Hin.
  apply overrideEdges_elem in Hin as (a & Ha & Hov & ->).
  by destruct (H a q Ha Hov).
Qed.

Lemma hooksByTag_ext h h' hooks :
  (forall p, HookTag (deref h' p) = HookTag (deref h p)) ->
  hooksByTag h' hooks = hooksByTag h hooks.
Proof.
  intros H. unfold hooksByTag. generalize (∅ : gmap string nat).
  induction hooks as [|hk hooks IH]; intros m; [done|].
  simpl. by rewrite H, IH.
Qed.

Lemma allHookEdges_ext byTag h h' l :
  (forall p, Kind (deref h' p) = Kind (deref h p)
             /\ Uses (deref h' p) = Uses (deref h p)
             /\ ID (deref h' p) = ID (deref h p)) ->
  allHookEdges byTag h' l = allHookEdges byTag h l.
Proof.
  intros H. unfold allHookEdges. induction l as [|p l IH]; [done|].
  rewrite !bind_cons, IH. f_equal.
  unfold hookEdges, funcLike. destruct (H p) as (-> & -> & ->). done.
Qed.

Lemma enumerates_same r o o' p :
  enumerates r o -> enumerates r o' -> p ∈ o' -> p ∈ o.
Proof.
  intros Ho Ho' Hp. apply (enumerates_elem r o p Ho).
  by apply (enumerates_elem r o' p Ho').
Qed.

Lemma enumerates_perm r o o' : enumerates r o -> enumerates r o' -> o ≡ₚ o'.
Proof. unfold enumerates. intros -> ->. done. Qed.

Lemma monotone_skeleton R R' :
  monotone R R' -> skeleton <$> mem R' = skeleton <$> mem R.
Proof.
  intros (Hr & HL & Hg).
  apply list_eq_same_length with (length (mem R)); rewrite ?length_fmap; try done.
  intros i x y Hi Hx Hy. rewrite list_lookup_fmap in Hx, Hy.
  destruct (mem R' !! i) as [s'|] eqn:Hs'; [|done].
  destruct (mem R !! i) as [s|] eqn:Hs; [|done].
  simpl in *. destruct (Hg i) as [Hsk _]. unfold deref in Hsk.
  rewrite (list_lookup_total_correct _ _ _ Hs) in Hsk.
  rewrite (list_lookup_total_correct _ _ _ Hs') in Hsk. congruence.
Qed.

Lemma E2_fields s s' :
  E2 s' = E2 s ->
  Extends s' = Extends s /\ Implements s' = Implements s
  /\ SeeAlso (Doc s') = SeeAlso (Doc s) /\ Overrides s' = Overrides s.
Proof. destruct s, s'. unfold E2. simpl. intros [=]. by subst. Qed.

Lemma E4_more s s' :
  E4 s' = E4 s ->
  Extends s' = Extends s /\ Implements s' = Implements s
  /\ SeeAlso (Doc s') = SeeAlso (Doc s) /\ ID s' = ID s.
Proof. destruct s, s'. unfold E4. simpl. intros [=]. by subst. Qed.

Lemma see_fields sn s :
  Extends (see sn s) = Extends s /\ Implements (see sn s) = Implements s
  /\ UsedBy (see sn s) = UsedBy s /\ Overrides (see sn s) = Overrides s.
Proof. by destruct s. Qed.

Lemma inherit_fields rn s :
  SeeAlso (Doc (inherit rn s)) = SeeAlso (Doc s)
  /\ UsedBy (inherit rn s) = UsedBy s /\ Overrides (inherit rn s) = Overrides s.
Proof. unfold inherit. destruct (classLike s); by destruct s. Qed.

Lemma pass4_E4 all R :
  E4 <$> mem (resolveMethodOverrides all R) = E4 <$> mem R.
Proof.
  rewrite resolveMethodOverrides_eq. simpl.
  rewrite (link_frame E4) by (intros id s; by destruct s).
  apply setOverrides_frame. intros v s. by destruct s.
Qed.

Lemma hookEdges_elem byTag s q id :
  (q, id) ∈ hookEdges byTag s ->
  id = ID s /\ exists u, u ∈ Uses s /\ byTag !! u = Some q.
Proof.
  unfold hookEdges. destruct (funcLike s); [|by intros ?%elem_of_nil].
  intros (hk & [= -> ->] & Hhk)%list_elem_of_fmap.
  apply list_elem_of_omap in Hhk as (u & Hu & Hq). eauto.
Qed.

(** A second run of [ResolveAll] on what a first run left changes no
    symbol, whatever the orders of enumeration of the two runs, when no
    registered ID is changed by the trimming that the third pass applies to
    a reference (no ID has white space at an end or ends with a pair of
    parentheses).  The counters are not reset: the second run counts again
    what the first run resolved. *)
Theorem ResolveAll_idempotent (R : Resolver)
    (o1 o2 o3 o4 o1' o2' o3' o4' : list nat) :
  wf (mem R) (registry R) ->
  enumerates (registry R) o1 -> enumerates (registry R) o2 ->
  enumerates (registry R) o3 -> enumerates (registry R) o4 ->
  enumerates (registry R) o1' -> enumerates (registry R) o2' ->
  enumerates (registry R) o3' -> enumerates (registry R) o4' ->
  (forall id p, Get (registry R) id = Some p ->
     strings.TrimSuffix (strings.TrimSpace id) "()" = id) ->
  let A := ResolveAll o1 o2 o3 o4 R in
  let B := ResolveAll o1' o2' o3' o4' A in
  mem B = mem A /\ registry B = registry A.
Proof.
  intros Hwf H1 H2 H3 H4 H1' H2' H3' H4' Hclean A B.
  set (r := registry R) in *.
  set (A1 := resolveInheritance o1 R).
  set (A2 := resolveHookBindings o2 A1).
  set (A3 := resolveSeeReferences o3 A2).
  assert (HA : A = resolveMethodOverrides o4 A3) by done.
  assert (N1 : NoDup o1) by by eapply enumerates_NoDup.
  assert (N3 : NoDup o3) by by eapply enumerates_NoDup.
  assert (N1' : NoDup o1') by by eapply enumerates_NoDup.
  assert (N3' : NoDup o3') by by eapply enumerates_NoDup.
  (* the first run *)
  assert (M1 : monotone R A1) by by apply pass1_monotone.
  assert (M2 : monotone A1 A2) by apply pass2_monotone.
  assert (W1 : wf (mem A1) (registry A1)) by eauto using monotone_wf.
  assert (W2 : wf (mem A2) (registry A2)) by eauto using monotone_wf.
  assert (R1 : registry A1 = r) by by destruct M1.
  assert (R2 : registry A2 = r) by (destruct M2 as [-> _]; done).
  assert (M3 : monotone A2 A3) by (apply pass3_monotone; [done | by rewrite R2]).
  assert (W3 : wf (mem A3) (registry A3)) by eauto using monotone_wf.
  assert (R3 : registry A3 = r) by (destruct M3 as [-> _]; done).
  assert (M4 : monotone A3 A) by (rewrite HA; by apply pass4_monotone).
  assert (W4 : wf (mem A) (registry A)) by eauto using monotone_wf.
  assert (R4 : registry A = r) by (destruct M4 as [-> _]; done).
  pose proof (monotone_skeleton _ _ M1) as K1.
  pose proof (monotone_skeleton _ _ M2) as K2.
  pose proof (monotone_skeleton _ _ M3) as K3.
  pose proof (monotone_skeleton _ _ M4) as K4.
  assert (K42 : skeleton <$> mem A = skeleton <$> mem A2) by (by rewrite K4).
  assert (K41 : skeleton <$> mem A = skeleton <$> mem A1) by (by rewrite K42).
  assert (K40 : skeleton <$> mem A = skeleton <$> (mem R)) by (by rewrite K41).
  destruct (resolveInheritance_spec o1 R N1) as (_ & _ & D1 & _). fold A1 r in D1.
  assert (D3 := resolveSeeReferences_spec o3 A2 N3).
  destruct D3 as (_ & _ & D3 & _). fold A3 in D3.
  assert (L2 : forall p, E2 (deref (mem A2) p) = E2 (deref (mem A1) p)).
  { intros p. apply frame_deref. unfold A2. rewrite resolveHookBindings_eq.
    apply link_E2. }
  assert (L4 : forall p, E4 (deref (mem A) p) = E4 (deref (mem A3) p)).
  { intros p. apply frame_deref. rewrite HA. apply pass4_E4. }
  assert (P31 : forall p,
            Extends (deref (mem A3) p) = Extends (deref (mem A1) p)
            /\ Implements (deref (mem A3) p) = Implements (deref (mem A1) p)).
  { intros p. destruct (E2_fields _ _ (L2 p)) as (<- & <- & _).
    rewrite D3. case_decide; [|done]. by destruct (see_fields
      (seeName (mem A2) (registry A2) o3) (deref (mem A2) p)) as (-> & -> & _). }
  assert (U32 : forall p, UsedBy (deref (mem A3) p) = UsedBy (deref (mem A2) p)).
  { intros p. rewrite D3. case_decide; [|done]. by destruct (see_fields
      (seeName (mem A2) (registry A2) o3) (deref (mem A2) p)) as (_ & _ & -> & _). }
  assert (O4 := overrides_state A3 o4). simpl in O4. rewrite <- HA in O4.
  assert (U43 : forall p x, x ∈ UsedBy (deref (mem A3) p) ->
                            x ∈ UsedBy (deref (mem A) p)).
  { intros p x Hx. destruct (decide (p < length (mem A3))) as [Hp|Hp].
    - destruct (O4 p Hp) as [_ ->]. apply appendUnique_all_elem. by left.
    - rewrite deref_invalid in Hx by lia. by apply elem_of_nil in Hx. }
  (* the second run, pass 1 *)
  set (B1 := resolveInheritance o1' A).
  assert (F1 : mem B1 = mem A /\ registry B1 = registry A).
  { apply pass1_fix; [done|]. intros p e Hp Hc He. rewrite R4.
    assert (Hp1 : p ∈ o1) by exact (enumerates_same r o1 o1' p H1 H1' Hp).
    destruct (E4_more _ _ (L4 p)) as (HE4 & HI4 & _).
    destruct (P31 p) as [HE3 HI3].
    rewrite HE4, HE3 in He. rewrite HI4, HI3 in He.
    assert (Hc0 : classLike (deref (mem R) p) = true).
    { unfold classLike in *.
      by destruct (skeleton_fields _ _ p K40) as (_ & _ & <- & _). }
    rewrite D1, decide_True in He by done.
    unfold inherit in He. rewrite Hc0 in He.
    rewrite (resolveName_frame _ _ _ _ _ K40).
    rewrite <- (resolveName_perm _ _ _ _ _ (enumerates_perm _ _ _ H1 H1')).
    assert (Hin : exists e0, e = resolveName (mem R) r o1 e0).
    { destruct (deref (mem R) p); simpl in He.
      destruct He as [He|He]; apply list_elem_of_fmap in He as (e0 & -> & _); eauto. }
    destruct Hin as [e0 ->]. by apply resolveName_idem. }
  destruct F1 as [F1m F1r].
  (* pass 2 *)
  set (B2 := resolveHookBindings o2' B1).
  assert (F2 : mem B2 = mem B1 /\ registry B2 = registry B1).
  { apply pass2_fix. rewrite F1m, F1r, R4. intros q id Hin.
    rewrite (hooksByTag_ext (mem A1) (mem A)) in Hin
      by (intros p; by destruct (skeleton_fields _ _ p K41) as (_ & _ & _ & _ & _ & ?)).
    rewrite (allHookEdges_ext _ (mem A1) (mem A)) in Hin
      by (intros p; destruct (skeleton_fields _ _ p K41)
                      as (? & _ & ? & _ & ? & _); done).
    assert (Hin1 : (q, id) ∈ allHookEdges
                     (hooksByTag (mem A1) (ByKind r KindHook)) (mem A1) o2).
    { eapply elem_of_Permutation_proper; [|exact Hin].
      apply allHookEdges_perm. exact (enumerates_perm r o2 o2' H2 H2'). }
    apply U43. rewrite U32.
    assert (Hq : q < length (mem A1)).
    { unfold allHookEdges in Hin1.
      apply list_elem_of_bind in Hin1 as (p & Hqp & _).
      apply hookEdges_elem in Hqp as (_ & u & _ & Hu).
      apply hooksByTag_spec in Hu as [Hu _].
      eapply wf_ByKind; [exact W1|]. by rewrite R1. }
    unfold A2. rewrite resolveHookBindings_eq. simpl.
    rewrite link_UsedBy by done. apply appendUnique_all_elem. right.
    apply incoming_elem. by rewrite R1. }
  destruct F2 as [F2m F2r].
  (* pass 3 *)
  set (B3 := resolveSeeReferences o3' B2).
  assert (F3 : mem B3 = mem B2 /\ registry B3 = registry B2).
  { apply pass3_fix; [done|]. rewrite F2m, F1m, F2r, F1r, R4.
    intros p e Hp He.
    assert (Hp3 : p ∈ o3) by exact (enumerates_same r o3 o3' p H3 H3' Hp).
    destruct (E4_more _ _ (L4 p)) as (_ & _ & HS4 & _).
    rewrite HS4, D3, decide_True in He by done.
    rewrite (seeName_frame _ _ _ _ _ K42).
    assert (Hsn : forall x, seeName (mem A2) r o3' x = seeName (mem A2) r o3 x).
    { intros x. unfold seeName.
      by rewrite (seeTarget_perm _ _ _ _ _ (enumerates_perm _ _ _ H3 H3')). }
    rewrite Hsn. rewrite R2 in He.
    assert (Hin : exists e0, e = seeName (mem A2) r o3 e0).
    { destruct (deref (mem A2) p) as [? ? ? ? ? []]; simpl in He.
      apply list_elem_of_fmap in He as (e0 & -> & _); eauto. }
    destruct Hin as [e0 ->]. apply seeName_idem; [by rewrite <- R2 | done | done]. }
  destruct F3 as [F3m F3r].
  (* pass 4 *)
  assert (F4 : mem (resolveMethodOverrides o4' B3) = mem B3
               /\ registry (resolveMethodOverrides o4' B3) = registry B3).
  { apply pass4_fix. rewrite F3m, F2m, F1m, F3r, F2r, F1r, R4.
    intros a pm Ha Hov.
    assert (Ha4 : a ∈ o4) by exact (enumerates_same r o4 o4' a H4 H4' Ha).
    rewrite (overrideTarget_frame (mem A3) (mem A)) in Hov
      by (rewrite HA; apply pass4_E4).
    pose proof (overrideTarget_valid _ _ _ _ Hov) as Hlt.
    assert (Hpm : pm < length (mem A3)).
    { unfold overrideTarget in Hov. destruct (_ || _); [done|].
      destruct (Get r (ParentID _)); [|done].
      apply findOverride_key in Hov as [ext Hext].
      eapply wf_Get; [exact W3|]. rewrite R3. exact Hext. }
    destruct (E4_more _ _ (L4 pm)) as (_ & _ & _ & HIDpm).
    destruct (E4_more _ _ (L4 a)) as (_ & _ & _ & HIDa).
    destruct (O4 a Hlt) as [HO _]. destruct (O4 pm Hpm) as [_ HU].
    rewrite decide_True in HO by done. rewrite R3 in HO, HU.
    unfold override in HO. rewrite Hov in HO.
    split.
    - rewrite HO, HIDpm. by destruct (deref (mem A3) a).
    - rewrite HU, HIDa. apply appendUnique_all_elem. right.
      apply incoming_elem, overrideEdges_elem. eauto. }
  destruct F4 as [F4m F4r].
  split; unfold B, ResolveAll; fold B1 B2 B3; congruence.
Qed.

(** ** Worked instances of the properties of the extractors and the pool *)

(** One worker and one unreadable file: the run can start, and takes three
    steps at most. *)
Lemma ParseFiles_every_run_ends_witness :
  let s0 := parser.start 1 ["a.php"] ([], NewRegistry) in
  (exists s', parser.step unreadable noTree noExtract noExtract String.append ""
                s0 s')
  /\ parser.steps_left s0 <= 3.
Proof.
  intros s0.
  pose proof (parser_runs.ParseFiles_every_run_ends unreadable noTree noExtract
                noExtract String.append "" 1 ["a.php"] ([], NewRegistry) s0) as H.
  assert (H1 : parser.failing unreadable noTree String.append "" ["a.php"] <= 1)
    by (vm_compute; lia).
  assert (H2 : parser.reachable unreadable noTree noExtract noExtract
                 String.append "" (parser.start 1 ["a.php"] ([], NewRegistry)) s0)
    by apply parser.reach_refl.
  destruct (H H1 H2) as (Hstep & _ & _ & Hleft).
  split; [apply Hstep; computed | exact Hleft].
Defined.

(** One worker and one unreadable file: the call returns. *)
Lemma ParseFiles_returns_iff_witness :
  exists out,
    parser.returns unreadable noTree noExtract noExtract String.append ""
      1 ["a.php"] ([], NewRegistry) out.
Proof.
  pose proof (parser_runs.ParseFiles_returns_iff unreadable noTree noExtract
                noExtract String.append "" 1 ["a.php"] ([], NewRegistry)) as H.
  assert (H1 : 0 < 1) by lia.
  destruct (H H1) as [[_ Hex] _]. apply Hex. vm_compute. lia.
Defined.

(** One worker and one unreadable file: the call returns with one error and
    the store it was given. *)
Lemma ParseFiles_one_worker_witness :
  parser.returns unreadable noTree noExtract noExtract String.append ""
    1 ["a.php"] ([], NewRegistry) (([], NewRegistry), 1)
  /\ ([], NewRegistry)
     = parser.sequential unreadable noTree noExtract noExtract String.append ""
         ["a.php"] ([], NewRegistry).
Proof.
  assert (Hret : parser.returns unreadable noTree noExtract noExtract
                   String.append "" 1 ["a.php"] ([], NewRegistry)
                   (([], NewRegistry), 1)).
  { exists {| parser.ch := []; parser.errCh := ["a.php: reading file"];
              parser.workers := [parser.Done];
              parser.store := ([], NewRegistry) |}.
    split_and!; [|computed|computed].
    eapply parser.reach_step; [eapply parser.reach_step; [eapply parser.reach_step;
      [apply parser.reach_refl|]|]|];
      apply (parser.step_of _ _ _ _ _ _ 0); vm_compute; reflexivity. }
  pose proof (parser_runs.ParseFiles_one_worker unreadable noTree noExtract
                noExtract String.append "" ["a.php"] ([], NewRegistry)
                ([], NewRegistry) 1 Hret) as H.
  destruct H as (Hseq & _ & _). split; [exact Hret | exact Hseq].
Defined.

Lemma parsed_store_ingested : ingested parsed_store.
Proof. apply ingested_js, ingested_php, ingested_empty. Qed.

(** The store of the two files is well formed. *)
Lemma ingested_wf_witness :
  ingested parsed_store /\ wf parsed_store.1 parsed_store.2.
Proof.
  pose proof (ingested_wf parsed_store parsed_store_ingested) as (H & _).
  split; [exact parsed_store_ingested | exact H].
Defined.

(** The method [save] of the PHP file: a PHP record, with two colons in
    its ID. *)
Lemma ingested_methods_witness :
  Kind (deref parsed_store.1 1) = KindMethod
  /\ is_Some (Get parsed_store.2 (ParentID (deref parsed_store.1 1)))
  /\ Language (deref parsed_store.1 1) = "php"
  /\ ID (deref parsed_store.1 1)
     = ParentID (deref parsed_store.1 1) +:+ "::" +:+ Name (deref parsed_store.1 1).
Proof.
  pose proof (ingested_methods parsed_store 1 parsed_store_ingested) as H.
  assert (H1 : 1 < length parsed_store.1) by (vm_compute; lia).
  assert (H2 : Kind (deref parsed_store.1 1) = KindMethod) by computed.
  destruct (H H1 H2) as (Hp & [[Hl Hid]|[Hl _]] & _).
  - split_and!; [exact H2 | exact Hp | exact Hl | exact Hid].
  - vm_compute in Hl. discriminate Hl.
Defined.

(** The hook [saved] of the PHP file. *)
Lemma ingested_hooks_witness :
  Kind (deref parsed_store.1 2) = KindHook
  /\ ID (deref parsed_store.1 2) = "hook:" +:+ HookTag (deref parsed_store.1 2)
  /\ CallSites (deref parsed_store.1 2) ≠ [].
Proof.
  pose proof (ingested_hooks parsed_store 2 parsed_store_ingested) as H.
  assert (H1 : 2 < length parsed_store.1) by (vm_compute; lia).
  assert (H2 : Kind (deref parsed_store.1 2) = KindHook) by computed.
  destruct (H H1 H2) as (_ & _ & Hid & Hc).
  split_and!; [exact H2 | exact Hid | exact Hc].
Defined.

(** Three PHP records and one JS record. *)
Lemma ingested_language_counts_witness :
  CountByLanguage parsed_store.1 parsed_store.2 "php"
  + CountByLanguage parsed_store.1 parsed_store.2 "js" = Count parsed_store.2
  /\ Count parsed_store.2 = 4.
Proof.
  pose proof (ingested_language_counts parsed_store parsed_store_ingested) as H.
  split; [exact H | computed].
Defined.


(** The store of the two files: the second pass binds nothing. *)
Lemma ResolveAll_ingested_no_bindings_witness :
  let all := All_canonical parsed_store.2 in
  HookBindings
    (stats (ResolveAll all all all all (New parsed_store.2 parsed_store.1))) = 0.
Proof.
  intros all.
  pose proof (ResolveAll_ingested_no_bindings parsed_store all all all all
                parsed_store_ingested) as H.
  assert (H1 : enumerates parsed_store.2 all)
    by (unfold enumerates; apply Permutation_refl).
  destruct (H H1 H1) as (_ & _ & H0). exact H0.
Defined.

(** A run with one worker on the PHP file leaves a store that the
    extractors made. *)
Lemma ParseFiles_one_worker_ingested_witness :
  parser.returns disk parse php_of js_of String.append ""
    1 ["base.php"] ([], NewRegistry) (base_store, 0)
  /\ ingested base_store.
Proof.
  assert (Hret : parser.returns disk parse php_of js_of String.append ""
                   1 ["base.php"] ([], NewRegistry) (base_store, 0)).
  { exists {| parser.ch := []; parser.errCh := [];
              parser.workers := [parser.Done];
              parser.store := base_store |}.
    split_and!; [|computed|computed].
    eapply parser.reach_step; [eapply parser.reach_step;
      [apply parser.reach_refl|]|].
    - apply (parser.step_of _ _ _ _ _ _ 0); vm_compute; reflexivity.
    - apply (parser.step_of _ _ _ _ _ _ 0); vm_compute; reflexivity. }
  pose proof (parser_ingest.ParseFiles_one_worker_ingested disk parse
                String.append "" ["base.php"] ([], NewRegistry) ingested_empty)
    as [_ H].
  split; [exact Hret | exact (H base_store 0 Hret)].
Defined.

(** The JS file is parsed after the PHP file: the three records are where
    they were, and one was added. *)
Lemma extractors_only_add_witness :
  length base_store.1 <= length parsed_store.1
  /\ Count base_store.2 <= Count parsed_store.2
  /\ Count parsed_store.2 = 4.
Proof.
  pose proof (extractors_only_add boot_src "boot.js" boot_tree base_store
                parsed_store) as H.
  assert (H1 : parsed_store = parser.extractPHP boot_src "boot.js" boot_tree base_store
               \/ parsed_store = parser.js.extractJS boot_src "boot.js" boot_tree
                                   base_store) by (right; reflexivity).
  destruct (H H1) as (Hlen & _ & _ & _ & _ & _ & Hcount).
  split_and!; [exact Hlen | exact Hcount | computed].
Defined.

(** The summary of the docblock is read before its [@since] line. *)
Lemma ParseDocBlock_text_before_tags_witness :
  Summary (parser.ParseDocBlock save_doc)
  = Summary (parser.parseLines [""; "Saves it."])
  /\ Summary (parser.ParseDocBlock save_doc) = "Saves it.".
Proof.
  pose proof (ParseDocBlock_text_before_tags save_doc [""; "Saves it."] [""]
                "@since 1.0") as H.
  assert (H1 : parser.cleaned save_doc
               = ([""; "Saves it."] ++ "@since 1.0" :: [""])%list) by computed.
  assert (H2 : strings.HasPrefix "@since 1.0" "@" = true) by computed.
  destruct (H H1 H2) as [Hs _]. split; [exact Hs | computed].
Defined.

(** A method after its docblock and the word [public]: the docblock is
    read. *)
Lemma findDocComment_spec_witness :
  parser.findDocComment save_node "<?php /** Saves. */ public function save() {}"
  = parser.ParseDocBlock "/** Saves. */".
Proof.
  pose proof (findDocComment_spec save_node "<?php " " Saves. " " public "
                "function save() {}") as H.
  assert (H1 : sitter.StartByte save_node
               = String.length ("<?php " +:+ "/**" +:+ " Saves. " +:+ "*/"
                                +:+ " public ")) by computed.
  assert (H2 : strings.Contains ("*" +:+ " Saves. ") "*/" = false) by computed.
  assert (H3 : strings.Contains (" Saves. " +:+ "*/" +:+ " public ") "/**" = false)
    by computed.
  specialize (H H1 H2 H3).
  assert (H4 : bool_decide (strings.TrimSpace " public " = "")
               || parser.isOnlyWhitespaceOrModifiers (strings.TrimSpace " public ")
               = true) by computed.
  rewrite H4 in H.
  assert (H5 : ("<?php " +:+ "/**" +:+ " Saves. " +:+ "*/" +:+ " public ")
               +:+ "function save() {}"
               = "<?php /** Saves. */ public function save() {}") by computed.
  assert (H6 : "/**" +:+ " Saves. " +:+ "*/" = "/** Saves. */") by computed.
  rewrite H5, H6 in H. exact H.
Defined.

(** The scenario: a second run of the resolver changes no symbol. *)
Lemma ResolveAll_idempotent_witness :
  let A := ResolveAll scenario_all scenario_all scenario_all scenario_all
             scenario in
  mem (ResolveAll scenario_all scenario_all scenario_all scenario_all A) = mem A.
Proof.
  intros A.
  pose proof (ResolveAll_idempotent scenario scenario_all scenario_all
                scenario_all scenario_all scenario_all scenario_all scenario_all
                scenario_all) as H.
  assert (H1 : wf (mem scenario) (registry scenario))
    by by_computation (wf (mem scenario) (registry scenario)).
  assert (H2 : enumerates (registry scenario) scenario_all)
    by (unfold enumerates; apply Permutation_refl).
  assert (H3 : forall id p, Get (registry scenario) id = Some p ->
                 strings.TrimSuffix (strings.TrimSpace id) "()" = id).
  { assert (Hall : map_Forall
                     (fun id (_ : nat) =>
                        strings.TrimSuffix (strings.TrimSpace id) "()" = id)
                     (symbols (registry scenario)))
      by by_computation (map_Forall
                     (fun id (_ : nat) =>
                        strings.TrimSuffix (strings.TrimSpace id) "()" = id)
                     (symbols (registry scenario))).
    intros id p Hg. exact (Hall id p Hg). }
  destruct (H H1 H2 H2 H2 H2 H2 H2 H2 H2 H3) as [Hm _]. exact Hm.
Defined.
